(** * ASSET (asset.cc): an explicit-state model checker

    A shallow embedding of the checker of [asset.cc] and the properties of
    its state store, hash table, breadth-first construction, back-edge
    array, progress labelling and counterexample walk.

    Conventions of the embedding.
    - An [unsigned] that holds a state word or a counter is a [Z] in
      [0, 2^32); arithmetic on it wraps through [u32].
    - An [unsigned] that is only ever an index (a node number, a position
      in [iedges] or [st_data]) is a [nat].
    - [std::vector]s are lists.  A write to [nodes] outside its range is
      undefined in C++; here it leaves the vector as it is and is recorded
      in the machine's [ub] log.  A loop that has no bound in the source is
      run with a bound; reaching the bound is recorded in the same log.
    - The configuration is the one without [stubborn]; the other switches
      of the source are fields of [config].
    - The models of [wgc.cc] and [bank.cc], which the checker is compiled
      with, follow at the end, over the store of [state_var]. *)

From Stdlib Require Import ZArith Lia Bool List.
From stdpp Require Import base tactics option list gmap strings.

Local Open Scope Z_scope.

(** ** Machine words *)

Definition u32 (x : Z) : Z := x mod 2 ^ 32.
Definition all_ones : Z := 4294967295.            (* ~0u *)
Definition shl32 (x n : Z) : Z := u32 (Z.shiftl x n).
Definition not32 (x : Z) : Z := u32 (Z.lnot x).
Definition is_u32 (x : Z) : Prop := 0 <= x < 2 ^ 32.

(** ** State variables (class [state_var]) *)

(** The static members that the constructor of [state_var] works on,
    together with the error slot. *)
Record packer := Packer {
  pk_started : bool;
  pk_nr_words : nat;
  pk_tot_bits : Z;
  pk_err : option string
}.

(** [nr_words(1)], [tot_bits(0)], [started(false)], [err_msg = 0]. *)
Definition packer0 : packer := Packer false 1 0 None.

Record state_var := StateVar {
  word : nat;
  shift : Z;
  mask : Z
}.

(** The constructor.  On either error it returns before the members are
    set: [None]. *)
Definition state_var_new (nr_bits : Z) (p : packer) : option state_var * packer :=
  if pk_started p then
    (None, Packer (pk_started p) (pk_nr_words p) (pk_tot_bits p)
             (Some "State variables must not be created after start"%string))
  else if 32 <? nr_bits then
    (None, Packer (pk_started p) (pk_nr_words p) (pk_tot_bits p)
             (Some "Too many bits in a state variable"%string))
  else
    let p1 :=
      if 32 <? pk_tot_bits p + nr_bits
      then Packer (pk_started p) (S (pk_nr_words p)) 0 (pk_err p)
      else p in
    let sv := StateVar (pk_nr_words p1 - 1)%nat (pk_tot_bits p1)
                (shl32 (u32 (shl32 1 nr_bits - 1)) (pk_tot_bits p1)) in
    (Some sv, Packer (pk_started p1) (pk_nr_words p1)
                (pk_tot_bits p1 + nr_bits) (pk_err p1)).

(** Declaring a list of variables, as a model does at namespace scope. *)
Fixpoint declare (bits : list Z) (p : packer) : list (option state_var) * packer :=
  match bits with
  | [] => ([], p)
  | b :: rest =>
      let '(sv, p1) := state_var_new b p in
      let '(svs, p2) := declare rest p1 in
      (sv :: svs, p2)
  end.

(** The part of the program state that [state_var] reads and writes. *)
Record store := Store {
  s_data : list Z;          (* st_data *)
  s_nr_words : nat;         (* nr_words *)
  s_state_nr : nat;         (* state_nr *)
  s_err : option string     (* err_msg *)
}.

Definition sv_index (sv : state_var) (s : store) : nat :=
  (s_state_nr s * s_nr_words s + word sv)%nat.

(** [operator unsigned() const]. *)
Definition sv_read (sv : state_var) (s : store) : Z :=
  Z.shiftr (Z.land (default 0 (s_data s !! sv_index sv s)) (mask sv)) (shift sv).

(** [operator =( unsigned val )]; [no_sanity_chk] is the compile-time
    switch of that name. *)
Definition sv_assign (no_sanity_chk : bool) (sv : state_var) (val : Z) (s : store) : store :=
  let e :=
    if negb no_sanity_chk && negb (Z.land (shl32 val (shift sv)) (not32 (mask sv)) =? 0)
    then Some "Assigned an out of range value to a variable"%string
    else s_err s in
  let i := sv_index sv s in
  let w := default 0 (s_data s !! i) in
  let w1 := Z.land w (not32 (mask sv)) in
  let w2 := Z.lor w1 (shl32 val (shift sv)) in
  Store (<[i := w2]> (s_data s)) (s_nr_words s) (s_state_nr s) e.

(** [operator --()]: [*this = unsigned( *this ) - 1]. *)
Definition sv_decr (no_sanity_chk : bool) (sv : state_var) (s : store) : store :=
  sv_assign no_sanity_chk sv (u32 (sv_read sv s - 1)) s.

(** [operator ++()]. *)
Definition sv_incr (no_sanity_chk : bool) (sv : state_var) (s : store) : store :=
  sv_assign no_sanity_chk sv (u32 (sv_read sv s + 1)) s.

(** A handle as the constructor makes it for [b] bits at in-word offset
    [sh]. *)
Definition sv_layout (sv : state_var) (b sh : Z) : Prop :=
  0 <= b /\ 0 <= sh /\ sh + b <= 32 /\
  shift sv = sh /\ mask sv = shl32 (u32 (shl32 1 b - 1)) sh.

(** ** The model interface and the compile-time switches *)

(** A state is the list of the [nr_words] words of one slot of [st_data].
    The model reaches the current state only through [state_var] handles,
    whose [word] is below [nr_words], so each of its functions is a function
    of that slot.  The second component of a result, when present, is what
    the call has assigned to [err_msg], if anything. *)
Abbreviation state := (list Z).

Record model := Model {
  (* unsigned nr_transitions(): may also initialise the state *)
  nr_transitions : state -> nat * state * option string;
  (* bool fire_transition( unsigned tr ): [None] is "returns false"; the
     contract "must not change the state if returns false" is in the type *)
  fire_transition : nat -> state -> option state * option string;
  (* const char *check_state() *)
  check_state : state -> option string;
  (* const char *check_deadlock() *)
  check_deadlock : state -> option string;
  (* bool is_may_progress() *)
  is_may_progress : state -> bool * option string;
  (* bool is_must_progress() *)
  is_must_progress : state -> bool * option string;
  (* void symmetry_representative() *)
  symmetry_representative : state -> state
}.

Record config := Config {
  chk_state : bool;
  chk_deadlock : bool;
  chk_may_progress : bool;
  chk_must_progress : bool;
  symmetry : bool;
  try_forward : bool;
  dl_not_may : bool;
  dl_not_must : bool;
  no_sanity_chk : bool;
  only_typical : bool;
  no_progr_chk_def : bool;  (* no_progr_chk given by the user *)
  stop_count : nat;         (* stop_cnt, default 30000000 *)
  hash_bits : Z             (* hash_count, default 23 *)
}.

(** "Adjust no_progr_chk", for the configuration without [stubborn]. *)
Definition no_progr_chk (c : config) : bool :=
  (no_progr_chk_def c || negb (chk_must_progress c) && negb (chk_may_progress c))
  && negb (only_typical c).

(** ** The program state *)

Record node_type := Node {
  h_next : nat;      (* next in the hash list *)
  prev : nat;        (* the finding predecessor node *)
  e_cnt : Z;         (* counts remaining non-progress edges, etc. *)
  p_next : nat;      (* next in the progress search list *)
  ie_end : nat       (* used for counting-sorting incoming edges *)
}.

Definition node0 : node_type := Node 0 0 0 0 0.

Inductive field := F_h_next | F_prev | F_e_cnt | F_p_next | F_ie_end.

(** What the source leaves undefined or unbounded. *)
Inductive ub_event :=
  | Out_of_range (f : field) (ni : nat)   (* nodes[ni].f with ni >= nodes.size() *)
  | Out_of_fuel (loop : string).          (* a loop did not end within its bound *)

(** What is written to [std::cout]. *)
Inductive event :=
  | Ev_state (s : state)                  (* model::print_state() *)
  | Ev_text (t : string)
  | Ev_error (msg : string) (detail : option string)    (* the "!!! " line *)
  | Ev_summary (states : nat) (edges : option Z).       (* "<N> states, <M> edges" *)

Record machine := Machine {
  st_data : list Z;
  state_nr : nat;
  nodes : list node_type;
  nr_edges : Z;
  nr_trans : nat;
  hash_tbl : gmap Z nat;       (* hash_tbl[ hash_size ] = {} : absent is 0 *)
  hash_was_new : bool;
  err_msg : option string;
  reported : bool;             (* the static local of report_error *)
  bss_second : bool;
  iedges : list nat;
  cout : list event;
  ub : list ub_event
}.

Definition machine0 : machine :=
  Machine [] 0 [] 0 0 ∅ false None false false [] [] [].

Definition set_st_data (v : list Z) (m : machine) : machine :=
  Machine v (state_nr m) (nodes m) (nr_edges m) (nr_trans m) (hash_tbl m)
    (hash_was_new m) (err_msg m) (reported m) (bss_second m) (iedges m) (cout m) (ub m).
Definition use_state (ni : nat) (m : machine) : machine :=
  Machine (st_data m) ni (nodes m) (nr_edges m) (nr_trans m) (hash_tbl m)
    (hash_was_new m) (err_msg m) (reported m) (bss_second m) (iedges m) (cout m) (ub m).
Definition set_nodes (v : list node_type) (m : machine) : machine :=
  Machine (st_data m) (state_nr m) v (nr_edges m) (nr_trans m) (hash_tbl m)
    (hash_was_new m) (err_msg m) (reported m) (bss_second m) (iedges m) (cout m) (ub m).
Definition set_nr_edges (v : Z) (m : machine) : machine :=
  Machine (st_data m) (state_nr m) (nodes m) v (nr_trans m) (hash_tbl m)
    (hash_was_new m) (err_msg m) (reported m) (bss_second m) (iedges m) (cout m) (ub m).
Definition set_nr_trans (v : nat) (m : machine) : machine :=
  Machine (st_data m) (state_nr m) (nodes m) (nr_edges m) v (hash_tbl m)
    (hash_was_new m) (err_msg m) (reported m) (bss_second m) (iedges m) (cout m) (ub m).
Definition set_hash_tbl (v : gmap Z nat) (m : machine) : machine :=
  Machine (st_data m) (state_nr m) (nodes m) (nr_edges m) (nr_trans m) v
    (hash_was_new m) (err_msg m) (reported m) (bss_second m) (iedges m) (cout m) (ub m).
Definition set_hash_was_new (v : bool) (m : machine) : machine :=
  Machine (st_data m) (state_nr m) (nodes m) (nr_edges m) (nr_trans m) (hash_tbl m)
    v (err_msg m) (reported m) (bss_second m) (iedges m) (cout m) (ub m).
Definition set_err_msg (v : option string) (m : machine) : machine :=
  Machine (st_data m) (state_nr m) (nodes m) (nr_edges m) (nr_trans m) (hash_tbl m)
    (hash_was_new m) v (reported m) (bss_second m) (iedges m) (cout m) (ub m).
Definition set_reported (v : bool) (m : machine) : machine :=
  Machine (st_data m) (state_nr m) (nodes m) (nr_edges m) (nr_trans m) (hash_tbl m)
    (hash_was_new m) (err_msg m) v (bss_second m) (iedges m) (cout m) (ub m).
Definition set_bss_second (v : bool) (m : machine) : machine :=
  Machine (st_data m) (state_nr m) (nodes m) (nr_edges m) (nr_trans m) (hash_tbl m)
    (hash_was_new m) (err_msg m) (reported m) v (iedges m) (cout m) (ub m).
Definition set_iedges (v : list nat) (m : machine) : machine :=
  Machine (st_data m) (state_nr m) (nodes m) (nr_edges m) (nr_trans m) (hash_tbl m)
    (hash_was_new m) (err_msg m) (reported m) (bss_second m) v (cout m) (ub m).
Definition emit (e : event) (m : machine) : machine :=
  Machine (st_data m) (state_nr m) (nodes m) (nr_edges m) (nr_trans m) (hash_tbl m)
    (hash_was_new m) (err_msg m) (reported m) (bss_second m) (iedges m) (cout m ++ [e]) (ub m).
Definition undefined (e : ub_event) (m : machine) : machine :=
  Machine (st_data m) (state_nr m) (nodes m) (nr_edges m) (nr_trans m) (hash_tbl m)
    (hash_was_new m) (err_msg m) (reported m) (bss_second m) (iedges m) (cout m) (ub m ++ [e]).

(** [nodes[ni]] read; the sentinel value outside the range. *)
Definition nd (m : machine) (ni : nat) : node_type := default node0 (nodes m !! ni).

(** [nodes[ni].f = ...]: the write, or the record of an access outside
    [nodes]. *)
Definition wr_node (f : field) (ni : nat) (g : node_type -> node_type) (m : machine) : machine :=
  match nodes m !! ni with
  | Some x => set_nodes (<[ni := g x]> (nodes m)) m
  | None => undefined (Out_of_range f ni) m
  end.

Definition with_h_next (v : nat) (x : node_type) : node_type :=
  Node v (prev x) (e_cnt x) (p_next x) (ie_end x).
Definition with_prev (v : nat) (x : node_type) : node_type :=
  Node (h_next x) v (e_cnt x) (p_next x) (ie_end x).
Definition with_e_cnt (v : Z) (x : node_type) : node_type :=
  Node (h_next x) (prev x) v (p_next x) (ie_end x).
Definition with_p_next (v : nat) (x : node_type) : node_type :=
  Node (h_next x) (prev x) (e_cnt x) v (ie_end x).
Definition with_ie_end (v : nat) (x : node_type) : node_type :=
  Node (h_next x) (prev x) (e_cnt x) (p_next x) v.

Definition set_h_next (ni v : nat) : machine -> machine := wr_node F_h_next ni (with_h_next v).
Definition set_prev (ni v : nat) : machine -> machine := wr_node F_prev ni (with_prev v).
Definition set_e_cnt (ni : nat) (v : Z) : machine -> machine := wr_node F_e_cnt ni (with_e_cnt v).
Definition set_p_next (ni v : nat) : machine -> machine := wr_node F_p_next ni (with_p_next v).
Definition set_ie_end (ni v : nat) : machine -> machine := wr_node F_ie_end ni (with_ie_end v).

Definition is_set (e : option string) : bool :=
  match e with Some _ => true | None => false end.

(** ** The checker *)

Section Checker.

Context (cfg : config) (mdl : model) (nr_words : nat).

Definition hash_size : Z := shl32 1 (hash_bits cfg).

(** The words of state number [ni]: locations
    [ni * nr_words ... (ni+1) * nr_words - 1]. *)
Definition state_at (m : machine) (ni : nat) : state :=
  take nr_words (drop (ni * nr_words) (st_data m)).

Definition cur_state (m : machine) : state := state_at m (state_nr m).

Definition word_at (m : machine) (i : nat) : Z := default 0 (st_data m !! i).

(** The model writes the current state through its handles: word [k] of
    the slot [state_nr], for [k < nr_words]. *)
Definition put_state (s : state) (m : machine) : machine :=
  set_st_data
    (foldl (fun st k => <[(state_nr m * nr_words + k)%nat := default 0 (s !! k)]> st)
       (st_data m) (seq 0 nr_words)) m.

Definition declare_error (e : option string) (m : machine) : machine :=
  match e with Some _ => set_err_msg e m | None => m end.

(** [fire_init( ni )]: copy state [ni] to the first unused locations. *)
Definition fire_init (ni : nat) (m : machine) : machine :=
  let jj := (length (nodes m) * nr_words)%nat in
  let st :=
    foldl (fun st k => <[(jj + k)%nat := default 0 (st !! (ni * nr_words + k)%nat)]> st)
      (st_data m) (seq 0 nr_words) in
  use_state (length (nodes m)) (set_st_data st m).

(** *** The hash table *)

Definition hash_mix (idx w : Z) : Z :=
  let idx := Z.lxor idx w in
  let idx := Z.lxor idx (Z.shiftr idx (hash_bits cfg)) in
  let idx := u32 (idx * 1234567) in
  let idx := u32 (idx + 5555555) in
  let idx := Z.lxor idx (Z.shiftr idx (hash_bits cfg)) in
  let idx := u32 (idx * 1234567) in
  u32 (idx + 5555555).

Definition hash_value (ws : list Z) : Z :=
  Z.land (foldl hash_mix 0 ws) (u32 (hash_size - 1)).

Definition bucket (m : machine) (idx : Z) : nat := default 0%nat (hash_tbl m !! idx).

(** The search loop of [hash_try]:
    [while( ni && ii < end ) ...]; [None] when the bound is reached. *)
Fixpoint hash_scan (fuel : nat) (m : machine) (beg end_ ni ii jj : nat) : option nat :=
  match fuel with
  | O => None
  | S fuel' =>
      if negb (ni =? 0)%nat && (ii <? end_)%nat then
        if word_at m ii =? word_at m jj
        then hash_scan fuel' m beg end_ ni (S ii) (S jj)
        else
          let ni' := h_next (nd m ni) in
          hash_scan fuel' m beg end_ ni' beg (ni' * nr_words)%nat
      else Some ni
  end.

(** [vector::resize]: new elements are value-initialised. *)
Definition vresize {A} (n : nat) (x : A) (l : list A) : list A :=
  take n l ++ replicate (n - length l) x.

(** "Compute the hash value": of the state in the next locations of
    [st_data]. *)
Definition scratch (m : machine) : state := state_at m (length (nodes m)).
Definition hash_idx (m : machine) : Z := hash_value (scratch m).

(** "Find the state from the hash list, if it is there." *)
Definition hash_lookup (m : machine) : option nat :=
  let beg := (length (nodes m) * nr_words)%nat in
  let ni0 := bucket m (hash_idx m) in
  hash_scan (S (length (nodes m)) * S nr_words) m beg (beg + nr_words)%nat
    ni0 beg (ni0 * nr_words)%nat.

Definition hash_try (no_ins : bool) (m : machine) : nat * machine :=
  let idx := hash_idx m in
  match hash_lookup m with
  | None => (0%nat, undefined (Out_of_fuel "hash_try") m)
  | Some ni =>
      if negb (ni =? 0)%nat then (ni, set_hash_was_new false m)
      else if no_ins then (0%nat, m)
      else
        let ni := length (nodes m) in
        if (stop_count cfg <? ni)%nat then
          (ni, set_err_msg (Some "Maximum number of states exceeded"%string) m)
        else
          let m := set_nodes (vresize (ni + 1) node0 (nodes m)) m in
          let m := set_st_data (vresize ((ni + 2) * nr_words) 0 (st_data m)) m in
          let m := if no_progr_chk cfg then m else set_e_cnt ni 0 m in
          let m := set_h_next ni (bucket m idx) m in
          let m := set_hash_tbl (<[idx := ni]> (hash_tbl m)) m in
          (ni, set_hash_was_new true m)
  end.

Definition hash_find : machine -> nat * machine := hash_try true.
Definition hash_insert : machine -> nat * machine := hash_try false.

(** *** Reporting *)

(** [print_history( ni )]; the recursion follows [prev] and is bounded by
    [fuel]. *)
Fixpoint print_history (fuel : nat) (ni : nat) (m : machine) : machine :=
  if (ni =? 0)%nat then m
  else
    match fuel with
    | O => undefined (Out_of_fuel "print_history") m
    | S fuel' =>
        let m := print_history fuel' (prev (nd m ni)) m in
        let m := use_state ni m in
        emit (Ev_state (cur_state m)) m
    end.

Definition non_empty (e : option string) : option string :=
  match e with
  | Some s => if String.eqb s EmptyString then None else Some s
  | None => None
  end.

Definition report_error (ni : nat) (msg : string) (m : machine) : machine :=
  if reported m then m
  else
    let m := set_reported true m in
    let m := print_history (length (nodes m)) ni m in
    emit (Ev_error msg (non_empty (err_msg m))) m.

(** *** Calls into the model, on the current state *)

Definition call_fire (tr : nat) (m : machine) : bool * machine :=
  let '(r, e) := fire_transition mdl tr (cur_state m) in
  let m := declare_error e m in
  match r with
  | Some s' => (true, put_state s' m)
  | None => (false, m)
  end.

Definition call_symmetry (m : machine) : machine :=
  if symmetry cfg then put_state (symmetry_representative mdl (cur_state m)) m else m.

Definition call_nr_transitions (m : machine) : machine :=
  let '(n, s', e) := nr_transitions mdl (cur_state m) in
  set_nr_trans n (put_state s' (declare_error e m)).

(** *** The trial engine *)

(** The second firing of the transitions ([bss_second]):
    [iedges[ nodes[ hash_find() ].ie_end++ ] = n1; fire_init( n1 )]. *)
Definition tt_backward (n1 : nat) (m : machine) : machine :=
  let '(t, m) := hash_find m in
  let e := ie_end (nd m t) in
  let m := set_ie_end t (S e) m in
  let m := set_iedges (<[e := n1]> (iedges m)) m in
  fire_init n1 m.

(** "If the state is new, record its finding predecessor", the check
    of the new state, and the restoring of the state. *)
Definition tt_new (n1 n2 : nat) (m : machine) : machine :=
  if hash_was_new m then
    let m := set_prev n2 n1 m in
    if chk_state cfg then
      let m := set_err_msg (check_state mdl (cur_state m)) m in
      if is_set (err_msg m) then report_error n2 "Safety error" m
      else fire_init n1 m
    else fire_init n1 m
  else fire_init n1 m.

(** "Add or find the state and add the edge to it to data structures",
    and what follows it. *)
Definition tt_forward (n1 : nat) (m : machine) : machine :=
  let '(n2, m) := hash_insert m in
  let m := set_nr_edges (u32 (nr_edges m + 1)) m in
  let m := if no_progr_chk cfg then m
           else set_e_cnt n2 (u32 (e_cnt (nd m n2) + 1)) m in
  tt_new n1 n2 m.

Definition try_transition (n1 tr : nat) (m : machine) : bool * machine :=
  let '(enabled, m) := call_fire tr m in
  if negb (no_sanity_chk cfg) && is_set (err_msg m) then
    (false, report_error n1 "Transition firing error" m)
  else if negb enabled then (false, m)
  else
    let m := call_symmetry m in
    if negb (no_progr_chk cfg) && bss_second m
    then (true, tt_backward n1 m)
    else (true, tt_forward n1 m).

(** *** The breadth-first construction *)

(** The order in which the transitions of a state are tried. *)
Definition trans_order (n : nat) : list nat :=
  if try_forward cfg then seq 0 n else rev (seq 0 n).

(** The loop over the transitions of [q_first]; the flag tells that
    [build_state_space] returns from inside it. *)
Fixpoint try_all (q_first : nat) (trs : list nat) (m : machine) : bool * machine :=
  match trs with
  | [] => (false, m)
  | tr :: rest =>
      let '(_, m) := try_transition q_first tr m in
      if is_set (err_msg m) then (true, m) else try_all q_first rest m
  end.

Fixpoint bss_loop (fuel q_first : nat) (m : machine) : machine :=
  match fuel with
  | O => undefined (Out_of_fuel "build_state_space") m
  | S fuel' =>
      if (q_first <? length (nodes m))%nat then
        let old_edges := nr_edges m in
        let m := fire_init q_first m in
        let '(ret, m) := try_all q_first (trans_order (nr_trans m)) m in
        if ret then m
        else if (no_progr_chk cfg || negb (bss_second m))
                && (old_edges =? nr_edges m) && chk_deadlock cfg then
          let m := use_state q_first m in
          let m := set_err_msg (check_deadlock mdl (cur_state m)) m in
          if is_set (err_msg m) then report_error q_first "Illegal deadlock" m
          else bss_loop fuel' (S q_first) m
        else bss_loop fuel' (S q_first) m
      else m
  end.

(** Every pass over the queue ends within [nodes.size() + stop_count + 1]
    rounds, because [hash_try] makes no node beyond [stop_count]. *)
Definition build_state_space (m : machine) : machine :=
  bss_loop (length (nodes m) + stop_count cfg + 2) 1 m.

(** *** The typical sequence of events *)

(** The [for] loop of [print_typical] from transition [tr] on.  The result
    is: whether [print_typical] returns from inside the loop, the value of
    [ni] after it, and the machine. *)
Fixpoint pt_for (no_ins : bool) (nprev : nat) (trs : list nat) (ni : nat) (m : machine)
  : bool * nat * machine :=
  match trs with
  | [] => (false, ni, m)
  | tr :: rest =>
      let '(fired, m) := call_fire tr m in
      let '(stop, ni, m) :=
        if fired then
          let m := call_symmetry m in
          let '(ni, m) :=
            if no_ins then hash_find m
            else
              let '(ni, m) := hash_insert m in
              (ni, if hash_was_new m then set_e_cnt ni 1 m else m) in
          if negb (ni =? 0)%nat && negb (e_cnt (nd m ni) =? 0)
          then (true, ni, m)                       (* tr = nr_trans *)
          else (false, nprev, fire_init nprev m)
        else (false, ni, m) in
      if is_set (err_msg m)
      then (true, ni, report_error ni "Transition firing error" m)
      else if stop then (false, ni, m)
      else pt_for no_ins nprev rest ni m
  end.

(** The [do ... while( nodes[ ni ].e_cnt != ~0u )] loop.  [None]: the
    function has returned (or the bound was reached); [Some (ni, nprev)]:
    the loop has ended with these values. *)
Fixpoint pt_loop (fuel : nat) (no_ins : bool) (ni nprev : nat) (m : machine)
  : option (nat * nat) * machine :=
  match fuel with
  | O => (None, undefined (Out_of_fuel "print_typical") m)
  | S fuel' =>
      let m := set_e_cnt ni all_ones m in
      let m := set_prev ni nprev m in
      let nprev := ni in
      let m := fire_init ni m in
      let '(ret, ni, m) := pt_for no_ins nprev (seq 0 (nr_trans m)) ni m in
      if ret then (None, m)
      else if negb (e_cnt (nd m ni) =? all_ones)
      then pt_loop fuel' no_ins ni nprev m
      else (Some (ni, nprev), m)
  end.

Definition print_typical (ni : nat) (no_ins : bool) (m : machine) : machine :=
  if no_progr_chk cfg then m
  else
    match pt_loop (length (nodes m) + stop_count cfg + 2) no_ins ni 0 m with
    | (None, m) => m
    | (Some (ni, nprev), m) =>
        let m := print_history (length (nodes m)) (prev (nd m ni)) m in
        let m := emit (Ev_text "----------") m in
        let m := set_prev ni 0 m in
        print_history (length (nodes m)) nprev m
    end.

(** *** Creating the initial state *)

Definition store_initial_state (m : machine) : machine :=
  let m := set_nodes (vresize 1 node0 (nodes m)) m in
  let m := set_st_data (vresize (2 * nr_words) 0 (st_data m)) m in
  let m := set_st_data
             (foldl (fun st ii => <[ii := 0]> st) (st_data m) (seq nr_words nr_words)) m in
  let m := use_state 1 m in
  let m := call_nr_transitions m in
  let m := call_symmetry m in
  let '(_, m) := hash_insert m in
  let m := set_prev 1 0 m in
  if is_set (err_msg m) then report_error 1 "Initialization error" m
  else if Z.of_nat (nr_trans m) =? all_ones then
    report_error 0 "Too many transitions" (set_err_msg (Some EmptyString) m)
  else if chk_state cfg then
    let m := set_err_msg (check_state mdl (cur_state m)) m in
    if is_set (err_msg m) then report_error 1 "Safety error" m else m
  else m.

(** *** Incoming edges *)

Definition iedge (m : machine) (ei : nat) : nat := default 0%nat (iedges m !! ei).

(** "Count the indices of incoming edges, using already computed
    counts": the new array and the loop of [construct_input_edges]. *)
Definition count_indices (m : machine) : machine :=
  let m := set_iedges (replicate (Z.to_nat (nr_edges m)) 0%nat) m in
  let m := set_ie_end 1 0 m in
  let m := set_ie_end 0 0 m in
  foldl (fun m ni =>
           set_ie_end ni (ie_end (nd m (ni - 1)) + Z.to_nat (e_cnt (nd m (ni - 1))))%nat m)
    m (seq 2 (length (nodes m) - 2)).

Definition construct_input_edges (m : machine) : machine :=
  if no_progr_chk cfg then m
  else build_state_space (set_bss_second true (count_indices m)).

(** *** Non-progress detection *)

(** "Compute initial values of non-progress numbers depending on round." *)
Definition vp_init (round : nat) (m : machine) : machine :=
  let m := foldl (fun m ni => set_e_cnt ni 0 m) m (seq 1 (length (nodes m) - 1)) in
  if (round =? 1)%nat then
    foldl (fun m ei => set_e_cnt (iedge m ei) (u32 (e_cnt (nd m (iedge m ei)) + 1)) m)
      m (seq 0 (Z.to_nat (nr_edges m)))
  else
    foldl (fun m ei => set_e_cnt (iedge m ei) 1 m) m (seq 0 (Z.to_nat (nr_edges m))).

(** "Make npn:s 0 for progress states and 1 for non-progress deadlocks",
    round 0; the flag tells that [verify_progress] returns. *)
Fixpoint vp_may (nis : list nat) (m : machine) : bool * machine :=
  match nis with
  | [] => (false, m)
  | ni :: rest =>
      let m := if dl_not_may cfg && (e_cnt (nd m ni) =? 0) then set_e_cnt ni 1 m else m in
      if negb (e_cnt (nd m ni) =? 0) then
        let m := use_state ni m in
        let '(b, e) :=
          if chk_may_progress cfg then is_may_progress mdl (cur_state m) else (true, None) in
        let m := declare_error e m in
        let m := if b then set_e_cnt ni 0 m else m in
        if is_set (err_msg m) then (true, report_error ni "may_progress modelling error" m)
        else vp_may rest m
      else vp_may rest m
  end.

(** The same for round 1. *)
Fixpoint vp_must (nis : list nat) (m : machine) : bool * machine :=
  match nis with
  | [] => (false, m)
  | ni :: rest =>
      let m := if dl_not_must cfg && (e_cnt (nd m ni) =? 0) then set_e_cnt ni 1 m else m in
      if negb (e_cnt (nd m ni) =? 0) then
        let m := use_state ni m in
        let '(b, e) :=
          if chk_must_progress cfg then is_must_progress mdl (cur_state m) else (true, None) in
        let m := declare_error e m in
        let m := if b then set_e_cnt ni 0 m else m in
        if is_set (err_msg m) then (true, report_error ni "must_progress modelling error" m)
        else vp_must rest m
      else vp_must rest m
  end.

(** The list of the nodes with [e_cnt == 0], linked through [p_next]. *)
Definition vp_collect (m : machine) : nat * machine :=
  foldl (fun '(p_list, m) ni =>
           if e_cnt (nd m ni) =? 0 then (ni, set_p_next ni p_list m) else (p_list, m))
    (0%nat, m) (seq 1 (length (nodes m) - 1)).

(** The body of the inner loop of the backward propagation. *)
Definition vp_edge (p_list : nat) (m : machine) (ei : nat) : machine :=
  let ni := iedge m ei in
  if negb (e_cnt (nd m ni) =? 0) then
    let m := set_e_cnt ni (u32 (e_cnt (nd m ni) - 1)) m in
    if e_cnt (nd m ni) =? 0 then
      let m := set_p_next ni (p_next (nd m p_list)) m in
      set_p_next p_list ni m
    else m
  else m.

(** [for( ; p_list; p_list = nodes[ p_list ].p_next )]. *)
Fixpoint vp_wave (fuel : nat) (p_list : nat) (m : machine) : machine :=
  if (p_list =? 0)%nat then m
  else
    match fuel with
    | O => undefined (Out_of_fuel "verify_progress") m
    | S fuel' =>
        let lo := ie_end (nd m (p_list - 1)) in
        let hi := ie_end (nd m p_list) in
        let m := foldl (vp_edge p_list) m (seq lo (hi - lo)) in
        vp_wave fuel' (p_next (nd m p_list)) m
    end.

(** [verify_progress] up to the end of the backward propagation; the flag
    tells that the function has returned with a modelling error. *)
Definition vp_label (round : nat) (m : machine) : bool * machine :=
  let m := vp_init round m in
  let '(ret, m) :=
    if (round =? 0)%nat then vp_may (seq 1 (length (nodes m) - 1)) m
    else if (round =? 1)%nat then vp_must (seq 1 (length (nodes m) - 1)) m
    else (false, m) in
  if ret then (true, m)
  else
    let '(p_list, m) := vp_collect m in
    (false, vp_wave (length (nodes m)) p_list m).

(** "Find and report a non-progress error, if exists." *)
Fixpoint vp_report (round : nat) (nis : list nat) (m : machine) : machine :=
  match nis with
  | [] => m
  | ni :: rest =>
      if negb (e_cnt (nd m ni) =? 0) then
        let m := print_history (length (nodes m)) (prev (nd m ni)) m in
        let m := emit (Ev_text "==========") m in
        let m := print_typical ni true m in
        let m := set_err_msg (Some EmptyString) m in
        if (round =? 0)%nat then report_error 0 "May-type non-progress error" m
        else if (round =? 1)%nat then report_error 0 "Must-type non-progress error" m
        else if (round =? 2)%nat then
          report_error 0 "State was reached from which termination is unreachable" m
        else vp_report round rest m
      else vp_report round rest m
  end.

Definition verify_progress (round : nat) (m : machine) : machine :=
  if no_progr_chk cfg then m
  else
    let '(ret, m) := vp_label round m in
    if ret then m else vp_report round (seq 1 (length (nodes m) - 1)) m.

(** *** The main program *)

(** "Do the requested model checking tasks", or print a typical
    execution when [only_typical] is set. *)
Definition main_tasks (m : machine) : machine :=
  if only_typical cfg then
    let m := print_typical 1 false m in
    let m := if is_set (err_msg m) then report_error 0 "Error" m else m in
    emit (Ev_summary (length (nodes m) - 1) None) m
  else
    let m := build_state_space m in
    let m := if negb (is_set (err_msg m)) then construct_input_edges m else m in
    let m := if chk_may_progress cfg && negb (is_set (err_msg m))
             then verify_progress 0 m else m in
    let m := if chk_must_progress cfg && negb (is_set (err_msg m))
             then verify_progress 1 m else m in
    let m := if negb (chk_deadlock cfg) && negb (chk_must_progress cfg)
                && negb (chk_may_progress cfg) && negb (is_set (err_msg m))
             then set_err_msg
                    (Some "Nothing was defined to test that the model makes progress"%string) m
             else m in
    let m := emit (Ev_summary (length (nodes m) - 1) (Some (nr_edges m))) m in
    if is_set (err_msg m) then report_error 0 "Error" m else m.

Definition main (m : machine) : machine :=
  if is_set (err_msg m) then report_error 0 "Cannot start model checking" m
  else if negb (chk_state cfg) && negb (chk_deadlock cfg)
          && negb (chk_must_progress cfg) && negb (chk_may_progress cfg) then
    (* the message of the source also quotes the name pattern of the
       missing functions *)
    report_error 0 "Will not start model checking"
      (set_err_msg (Some "No error detection function defined"%string) m)
  else
    let m := store_initial_state m in
    if is_set (err_msg m) then report_error 0 "Initialization error" m
    else main_tasks m.

(** ** Specification of the store *)

Local Close Scope Z_scope.

(** The numbers of the stored nodes: [1 ... nodes.size()-1]. *)
Definition node_ids (m : machine) : list nat := seq 1 (length (nodes m) - 1).

(** The hash list that starts at node [ni]. *)
Fixpoint chain (fuel : nat) (m : machine) (ni : nat) : list nat :=
  match fuel with
  | O => []
  | S fuel' => if ni =? 0 then [] else ni :: chain fuel' m (h_next (nd m ni))
  end.

(** The first node of a list that holds the state of the scratch slot;
    0 if there is none. *)
Fixpoint first_match (m : machine) (l : list nat) : nat :=
  match l with
  | [] => 0
  | ni :: l' => if decide (state_at m ni = scratch m) then ni else first_match m l'
  end.

(** Consistency of the state store and the hash table:
    the sentinel exists; [st_data] holds the stored states and one scratch
    slot; every hash list runs through older and older nodes; every stored
    state is on the list of its own hash value; no state is stored twice. *)
Definition hash_ok (m : machine) : Prop :=
  1 ≤ length (nodes m) ∧
  length (st_data m) = (length (nodes m) + 1) * nr_words ∧
  Forall (λ ni, h_next (nd m ni) < ni ∧
                ni ∈ chain (length (nodes m)) m (bucket m (hash_value (state_at m ni))))
         (node_ids m) ∧
  map_Forall (λ _ v, v < length (nodes m)) (hash_tbl m) ∧
  NoDup (state_at m <$> node_ids m).

#[global] Instance hash_ok_dec m : Decision (hash_ok m).
Proof. unfold hash_ok. apply _. Defined.

(** ** Lists as arrays *)

Lemma elem_of_node_ids m ni : ni ∈ node_ids m ↔ 1 ≤ ni < length (nodes m).
Proof. unfold node_ids. rewrite elem_of_seq. lia. Qed.

Lemma vresize_ge {A} n (x : A) l :
  length l ≤ n → vresize n x l = l ++ replicate (n - length l) x.
Proof. intros H. unfold vresize. by rewrite firstn_all2. Qed.

Lemma length_vresize {A} n (x : A) l : length (vresize n x l) = n.
Proof. unfold vresize. rewrite length_app, length_take, length_replicate. lia. Qed.

(** Copying [n] words from [src] to [dst], one by one, as [fire_init]
    does. *)
Lemma copy_words_spec (st : list Z) src dst n :
  (src = dst ∨ src + n ≤ dst) → dst + n ≤ length st →
  foldl (λ st k, <[dst + k := default 0%Z (st !! (src + k))]> st) st (seq 0 n)
  = take dst st ++ take n (drop src st) ++ drop (dst + n) st.
Proof.
  intros Hsd. induction n as [|n IH]; intros Hlen.
  - simpl. rewrite Nat.add_0_r. by rewrite take_drop.
  - rewrite seq_S, foldl_app. simpl. rewrite IH by lia.
    assert (Hsrc : (take dst st ++ take n (drop src st) ++ drop (dst + n) st) !! (src + n)
                   = st !! (src + n)).
    { destruct Hsd as [->|Hsd].
      - rewrite lookup_app_r by (rewrite length_take; lia).
        rewrite length_take, Nat.min_l by lia.
        rewrite lookup_app_r by (rewrite length_take, length_drop; lia).
        rewrite length_take, length_drop, Nat.min_l by lia.
        rewrite lookup_drop. f_equal. lia.
      - rewrite lookup_app_l by (rewrite length_take; lia).
        rewrite lookup_take_lt by lia. done. }
    rewrite Hsrc.
    assert (Hx : is_Some (st !! (src + n))).
    { apply lookup_lt_is_Some. destruct Hsd; lia. }
    destruct Hx as [x Hx]. rewrite Hx. simpl.
    rewrite (take_S_r _ _ x) by (by rewrite lookup_drop).
    rewrite insert_app_r_alt by (rewrite length_take; lia).
    rewrite length_take, Nat.min_l by lia.
    rewrite insert_app_r_alt by (rewrite length_take, length_drop; lia).
    rewrite length_take, length_drop, Nat.min_l by lia.
    replace (dst + n - dst - n) with 0 by lia.
    rewrite <- (app_assoc (take n (drop src st)) [x]).
    do 2 f_equal.
    destruct (drop (dst + n) st) as [|y l] eqn:E.
    { apply (f_equal length) in E. rewrite length_drop in E. simpl in E. lia. }
    simpl. f_equal.
    replace (dst + S n) with (S (dst + n)) by lia.
    by rewrite <- Nat.add_1_r, <- drop_drop, E.
Qed.

(** Writing [n] given words at [dst], one by one, as the model does
    through its handles. *)
Lemma put_words_spec (st : list Z) (f : nat → Z) dst n :
  dst + n ≤ length st →
  foldl (λ st k, <[dst + k := f k]> st) st (seq 0 n)
  = take dst st ++ (f <$> seq 0 n) ++ drop (dst + n) st.
Proof.
  induction n as [|n IH]; intros Hlen.
  - simpl. rewrite Nat.add_0_r. by rewrite take_drop.
  - rewrite seq_S, foldl_app. simpl. rewrite IH by lia.
    rewrite insert_app_r_alt by (rewrite length_take; lia).
    rewrite length_take, Nat.min_l by lia.
    rewrite insert_app_r_alt by (rewrite length_fmap, length_seq; lia).
    rewrite length_fmap, length_seq.
    replace (dst + n - dst - n) with 0 by lia.
    rewrite fmap_app. simpl. rewrite <- (app_assoc (f <$> seq 0 n)).
    do 2 f_equal.
    destruct (drop (dst + n) st) as [|y l] eqn:E.
    { apply (f_equal length) in E. rewrite length_drop in E. simpl in E. lia. }
    simpl. f_equal.
    replace (dst + S n) with (S (dst + n)) by lia.
    by rewrite <- Nat.add_1_r, <- drop_drop, E.
Qed.

Lemma put_words_length (st : list Z) (f : nat → nat) (g : list Z → nat → Z) l :
  length (foldl (λ st k, <[f k := g st k]> st) st l) = length st.
Proof.
  revert st. induction l as [|k l IH]; intros st; simpl; [done|].
  by rewrite IH, length_insert.
Qed.

(** A slot of [st_data] in terms of its neighbours. *)
Lemma slot_of_app (a b c : list Z) k n :
  length a = k * n → length b = n → take n (drop (k * n) (a ++ b ++ c)) = b.
Proof.
  intros Ha Hb. rewrite drop_app_length' by done.
  by rewrite take_app_length' by done.
Qed.

Lemma slot_before (a b : list Z) k n :
  (k + 1) * n ≤ length a → take n (drop (k * n) (a ++ b)) = take n (drop (k * n) a).
Proof.
  intros H. rewrite drop_app_le by lia. rewrite take_app_le; [done|].
  rewrite length_drop. lia.
Qed.

(** ** The fields that an operation leaves alone *)

Lemma nd_lookup m ni x : nodes m !! ni = Some x → nd m ni = x.
Proof. unfold nd. by intros ->. Qed.

Lemma nd_in_range m ni : ni < length (nodes m) → nodes m !! ni = Some (nd m ni).
Proof.
  intros H. unfold nd. destruct (lookup_lt_is_Some_2 _ _ H) as [x ->]. done.
Qed.

Lemma nd_out_of_range m ni : length (nodes m) ≤ ni → nd m ni = node0.
Proof. intros H. unfold nd. by rewrite lookup_ge_None_2. Qed.

Lemma wr_node_in_range f ni g m :
  ni < length (nodes m) →
  wr_node f ni g m = set_nodes (<[ni := g (nd m ni)]> (nodes m)) m.
Proof. intros H. unfold wr_node. by rewrite (nd_in_range _ _ H). Qed.

Lemma wr_node_out_of_range f ni g m :
  length (nodes m) ≤ ni → wr_node f ni g m = undefined (Out_of_range f ni) m.
Proof. intros H. unfold wr_node. by rewrite lookup_ge_None_2. Qed.

Lemma wr_node_length f ni g m : length (nodes (wr_node f ni g m)) = length (nodes m).
Proof.
  unfold wr_node. destruct (nodes m !! ni); simpl; [|done]. by rewrite length_insert.
Qed.

Lemma wr_node_st_data f ni g m : st_data (wr_node f ni g m) = st_data m.
Proof. unfold wr_node. by destruct (nodes m !! ni). Qed.
Lemma wr_node_state_nr f ni g m : state_nr (wr_node f ni g m) = state_nr m.
Proof. unfold wr_node. by destruct (nodes m !! ni). Qed.
Lemma wr_node_nr_edges f ni g m : nr_edges (wr_node f ni g m) = nr_edges m.
Proof. unfold wr_node. by destruct (nodes m !! ni). Qed.
Lemma wr_node_nr_trans f ni g m : nr_trans (wr_node f ni g m) = nr_trans m.
Proof. unfold wr_node. by destruct (nodes m !! ni). Qed.
Lemma wr_node_hash_tbl f ni g m : hash_tbl (wr_node f ni g m) = hash_tbl m.
Proof. unfold wr_node. by destruct (nodes m !! ni). Qed.
Lemma wr_node_hash_was_new f ni g m : hash_was_new (wr_node f ni g m) = hash_was_new m.
Proof. unfold wr_node. by destruct (nodes m !! ni). Qed.
Lemma wr_node_err_msg f ni g m : err_msg (wr_node f ni g m) = err_msg m.
Proof. unfold wr_node. by destruct (nodes m !! ni). Qed.
Lemma wr_node_reported f ni g m : reported (wr_node f ni g m) = reported m.
Proof. unfold wr_node. by destruct (nodes m !! ni). Qed.
Lemma wr_node_bss_second f ni g m : bss_second (wr_node f ni g m) = bss_second m.
Proof. unfold wr_node. by destruct (nodes m !! ni). Qed.
Lemma wr_node_iedges f ni g m : iedges (wr_node f ni g m) = iedges m.
Proof. unfold wr_node. by destruct (nodes m !! ni). Qed.
Lemma wr_node_cout f ni g m : cout (wr_node f ni g m) = cout m.
Proof. unfold wr_node. by destruct (nodes m !! ni). Qed.

Lemma nd_wr_node f ni g m nj :
  nd (wr_node f ni g m) nj
  = if decide (nj = ni ∧ ni < length (nodes m)) then g (nd m ni) else nd m nj.
Proof.
  unfold wr_node, nd. destruct (nodes m !! ni) as [x|] eqn:E; simpl.
  - assert (ni < length (nodes m)) by (by eapply lookup_lt_Some).
    destruct (decide (nj = ni)) as [->|Hne].
    + rewrite list_lookup_insert_eq by done. rewrite decide_True by done. done.
    + rewrite list_lookup_insert_ne by done. rewrite decide_False by tauto. done.
  - apply lookup_ge_None_1 in E. rewrite decide_False by lia. done.
Qed.

Lemma nd_wr_node_ne f ni g m nj : nj ≠ ni → nd (wr_node f ni g m) nj = nd m nj.
Proof. intros H. rewrite nd_wr_node. rewrite decide_False by tauto. done. Qed.

Lemma nd_wr_node_eq f ni g m :
  ni < length (nodes m) → nd (wr_node f ni g m) ni = g (nd m ni).
Proof. intros H. rewrite nd_wr_node. by rewrite decide_True. Qed.


Lemma ub_wr_node f ni g m : ub m `prefix_of` ub (wr_node f ni g m).
Proof.
  unfold wr_node. destruct (nodes m !! ni); simpl; [done|]. by apply prefix_app_r.
Qed.

(** ** Slots of the state store *)

(** What the model leaves in a slot when it returns the state [s]. *)
Definition norm_state (s : state) : state := (λ k, default 0%Z (s !! k)) <$> seq 0 nr_words.

Lemma length_norm_state s : length (norm_state s) = nr_words.
Proof. unfold norm_state. by rewrite length_fmap, length_seq. Qed.

Lemma norm_state_id s : length s = nr_words → norm_state s = s.
Proof.
  intros H. unfold norm_state. apply list_eq. intros i.
  rewrite list_lookup_fmap.
  destruct (decide (i < nr_words)) as [Hi|Hi].
  - rewrite lookup_seq_lt by done. simpl.
    destruct (s !! i) eqn:Hx; [done|]. apply lookup_ge_None in Hx. lia.
  - rewrite lookup_seq_ge by lia. simpl. symmetry. apply lookup_ge_None_2. lia.
Qed.

Lemma splice_lookup (st b : list Z) a i :
  (a + 1) * nr_words ≤ length st → length b = nr_words →
  (take (a * nr_words) st ++ b ++ drop ((a + 1) * nr_words) st) !! i
  = if decide (a * nr_words ≤ i < (a + 1) * nr_words) then b !! (i - a * nr_words) else st !! i.
Proof.
  intros Hst Hb.
  assert (Ht : length (take (a * nr_words) st) = a * nr_words) by (rewrite length_take; lia).
  destruct (decide (i < a * nr_words)) as [H1|H1].
  - rewrite lookup_app_l by lia. rewrite lookup_take_lt by done.
    rewrite decide_False by lia. done.
  - rewrite lookup_app_r by lia. rewrite Ht.
    destruct (decide (i < (a + 1) * nr_words)) as [H2|H2].
    + rewrite lookup_app_l by lia. rewrite decide_True by lia. done.
    + rewrite lookup_app_r by lia. rewrite decide_False by lia.
      rewrite lookup_drop. f_equal. lia.
Qed.

Lemma slot_lookup (st : list Z) k i :
  take nr_words (drop (k * nr_words) st) !! i
  = if decide (i < nr_words) then st !! (k * nr_words + i) else None.
Proof.
  destruct (decide (i < nr_words)).
  - rewrite lookup_take_lt by done. by rewrite lookup_drop.
  - rewrite lookup_take_ge by lia. done.
Qed.

Lemma slot_splice (st b : list Z) a k :
  (a + 1) * nr_words ≤ length st → length b = nr_words →
  take nr_words (drop (k * nr_words) (take (a * nr_words) st ++ b ++ drop ((a + 1) * nr_words) st))
  = if decide (k = a) then b else take nr_words (drop (k * nr_words) st).
Proof.
  intros Hst Hb. apply list_eq. intros i.
  rewrite slot_lookup.
  destruct (decide (i < nr_words)) as [Hi|Hi].
  - rewrite splice_lookup by done.
    destruct (decide (k = a)) as [->|Hne].
    + rewrite decide_True by lia. f_equal. lia.
    + rewrite decide_False by nia. rewrite slot_lookup. by rewrite decide_True.
  - destruct (decide (k = a)).
    + symmetry. apply lookup_ge_None_2. lia.
    + rewrite slot_lookup. by rewrite decide_False.
Qed.

Lemma length_state_at m k :
  (k + 1) * nr_words ≤ length (st_data m) → length (state_at m k) = nr_words.
Proof. intros H. unfold state_at. rewrite length_take, length_drop. lia. Qed.

(** *** [fire_init] *)

Lemma fire_init_nodes ni m : nodes (fire_init ni m) = nodes m.
Proof. done. Qed.

Lemma fire_init_state_nr ni m : state_nr (fire_init ni m) = length (nodes m).
Proof. done. Qed.

Lemma fire_init_length ni m : length (st_data (fire_init ni m)) = length (st_data m).
Proof.
  unfold fire_init. simpl.
  apply (put_words_length _ (λ k, length (nodes m) * nr_words + k)
           (λ st k, default 0%Z (st !! (ni * nr_words + k)))).
Qed.

Lemma fire_init_st_data ni m :
  ni ≤ length (nodes m) →
  (length (nodes m) + 1) * nr_words ≤ length (st_data m) →
  st_data (fire_init ni m)
  = take (length (nodes m) * nr_words) (st_data m) ++ state_at m ni
    ++ drop ((length (nodes m) + 1) * nr_words) (st_data m).
Proof.
  intros Hni Hlen. unfold fire_init. simpl.
  rewrite copy_words_spec; [| |lia].
  - unfold state_at. do 3 f_equal. lia.
  - destruct (decide (ni = length (nodes m))) as [->|]; [by left|right; nia].
Qed.

Lemma state_at_fire_init ni m k :
  ni ≤ length (nodes m) →
  (length (nodes m) + 1) * nr_words ≤ length (st_data m) →
  state_at (fire_init ni m) k
  = if decide (k = length (nodes m)) then state_at m ni else state_at m k.
Proof.
  intros Hni Hlen. unfold state_at at 1. rewrite fire_init_st_data by done.
  rewrite slot_splice; [done|done|].
  apply length_state_at. nia.
Qed.

Lemma cur_state_fire_init ni m :
  ni ≤ length (nodes m) →
  (length (nodes m) + 1) * nr_words ≤ length (st_data m) →
  cur_state (fire_init ni m) = state_at m ni.
Proof.
  intros. unfold cur_state. rewrite fire_init_state_nr, state_at_fire_init by done.
  by rewrite decide_True.
Qed.

(** *** Writes of the model *)

Lemma put_state_length s m : length (st_data (put_state s m)) = length (st_data m).
Proof.
  unfold put_state. simpl.
  apply (put_words_length _ (λ k, state_nr m * nr_words + k) (λ _ k, default 0%Z (s !! k))).
Qed.

Lemma state_at_put_state s m k :
  (state_nr m + 1) * nr_words ≤ length (st_data m) →
  state_at (put_state s m) k
  = if decide (k = state_nr m) then norm_state s else state_at m k.
Proof.
  intros Hlen. unfold state_at at 1, put_state. simpl.
  rewrite (put_words_spec _ (λ k, default 0%Z (s !! k))) by lia.
  replace (state_nr m * nr_words + nr_words) with ((state_nr m + 1) * nr_words) by lia.
  rewrite slot_splice; [done|done|apply length_norm_state].
Qed.

(** ** The search loop of [hash_try] *)

Lemma state_at_eq_iff m a b :
  (a + 1) * nr_words ≤ length (st_data m) → (b + 1) * nr_words ≤ length (st_data m) →
  state_at m a = state_at m b
  ↔ ∀ k, k < nr_words → word_at m (a * nr_words + k) = word_at m (b * nr_words + k).
Proof.
  intros Ha Hb. unfold state_at, word_at. split.
  - intros H k Hk. apply (f_equal (λ l, l !! k)) in H.
    rewrite !slot_lookup, !decide_True in H by done. by rewrite H.
  - intros H. apply list_eq. intros i. rewrite !slot_lookup.
    destruct (decide (i < nr_words)) as [Hi|]; [|done].
    specialize (H i Hi).
    destruct (lookup_lt_is_Some_2 (st_data m) (a * nr_words + i)) as [x Hx]; [nia|].
    destruct (lookup_lt_is_Some_2 (st_data m) (b * nr_words + i)) as [y Hy]; [nia|].
    rewrite Hx, Hy in *. simpl in H. by subst.
Qed.

Lemma hash_scan_mono fuel fuel' m beg end_ ni ii jj r :
  fuel ≤ fuel' →
  hash_scan fuel m beg end_ ni ii jj = Some r →
  hash_scan fuel' m beg end_ ni ii jj = Some r.
Proof.
  revert fuel' ni ii jj. induction fuel as [|fuel IH]; intros fuel' ni ii jj Hle; [done|].
  destruct fuel' as [|fuel']; [lia|]. simpl.
  destruct (negb (ni =? 0) && (ii <? end_)); [|done].
  destruct (word_at m ii =? word_at m jj)%Z; apply IH; lia.
Qed.

(** The loop at a node whose words all agree with the scratch slot. *)
Lemma hash_scan_hit m beg ni n k fuel :
  ni ≠ 0 → k + n = nr_words →
  (∀ j, k ≤ j < nr_words → word_at m (beg + j) = word_at m (ni * nr_words + j)) →
  n < fuel →
  hash_scan fuel m beg (beg + nr_words) ni (beg + k) (ni * nr_words + k) = Some ni.
Proof.
  intros Hni. revert k fuel. induction n as [|n IH]; intros k fuel Hk Hw Hf.
  - destruct fuel as [|fuel]; [lia|]. simpl.
    replace (beg + k <? beg + nr_words) with false by (symmetry; apply Nat.ltb_ge; lia).
    by rewrite andb_false_r.
  - destruct fuel as [|fuel]; [lia|]. simpl.
    replace (ni =? 0) with false by (symmetry; by apply Nat.eqb_neq).
    replace (beg + k <? beg + nr_words) with true by (symmetry; apply Nat.ltb_lt; lia).
    simpl. rewrite Hw by lia. rewrite Z.eqb_refl.
    replace (S (beg + k)) with (beg + S k) by lia.
    replace (S (ni * nr_words + k)) with (ni * nr_words + S k) by lia.
    apply IH; [lia| |lia]. intros j Hj. apply Hw. lia.
Qed.

(** The loop at a node that differs from the scratch slot in some word. *)
Lemma hash_scan_miss m beg ni n k fuel r :
  ni ≠ 0 → k + n = nr_words →
  (∃ j, k ≤ j < nr_words ∧ word_at m (beg + j) ≠ word_at m (ni * nr_words + j)) →
  hash_scan fuel m beg (beg + nr_words) (h_next (nd m ni)) beg (h_next (nd m ni) * nr_words)
  = Some r →
  hash_scan (fuel + n) m beg (beg + nr_words) ni (beg + k) (ni * nr_words + k) = Some r.
Proof.
  intros Hni. revert k. induction n as [|n IH]; intros k Hk [j [Hj Hne]] Hr; [lia|].
  replace (fuel + S n) with (S (fuel + n)) by lia. simpl.
  replace (ni =? 0) with false by (symmetry; by apply Nat.eqb_neq).
  replace (beg + k <? beg + nr_words) with true by (symmetry; apply Nat.ltb_lt; lia).
  simpl.
  destruct (word_at m (beg + k) =? word_at m (ni * nr_words + k))%Z eqn:E.
  - apply Z.eqb_eq in E.
    replace (S (beg + k)) with (beg + S k) by lia.
    replace (S (ni * nr_words + k)) with (ni * nr_words + S k) by lia.
    apply IH; [lia| |done]. exists j. split; [|done].
    destruct (decide (j = k)) as [->|]; [done|lia].
  - eapply hash_scan_mono; [|exact Hr]. lia.
Qed.

Lemma chain_fuel m f f' ni :
  (∀ nj, 1 ≤ nj ≤ ni → h_next (nd m nj) < nj) → ni < f → ni < f' →
  chain f m ni = chain f' m ni.
Proof.
  revert f f'. induction (lt_wf ni) as [ni _ IH]. intros f f' Hdec Hf Hf'.
  destruct f as [|f]; [lia|]. destruct f' as [|f']; [lia|]. simpl.
  destruct (ni =? 0) eqn:E; [done|]. apply Nat.eqb_neq in E.
  f_equal. assert (h_next (nd m ni) < ni) by (apply Hdec; lia).
  apply IH; [done| |lia|lia]. intros nj Hnj. apply Hdec. lia.
Qed.

Lemma chain_bound m f ni nj :
  (∀ nk, 1 ≤ nk ≤ ni → h_next (nd m nk) < nk) →
  nj ∈ chain f m ni → 1 ≤ nj ≤ ni.
Proof.
  revert ni. induction f as [|f IH]; intros ni Hdec; simpl; [by intros ?%elem_of_nil|].
  destruct (ni =? 0) eqn:E; [by intros ?%elem_of_nil|]. apply Nat.eqb_neq in E.
  intros [->|Hin]%elem_of_cons; [lia|].
  assert (h_next (nd m ni) < ni) by (apply Hdec; lia).
  apply IH in Hin; [lia|]. intros nk Hnk. apply Hdec. lia.
Qed.

(** The loop along a hash list returns the first node of the list that holds
    the state of the scratch slot. *)
Lemma hash_scan_chain m ni fuel :
  (length (nodes m) + 1) * nr_words ≤ length (st_data m) →
  (∀ nj, 1 ≤ nj ≤ ni → h_next (nd m nj) < nj) →
  ni < length (nodes m) →
  ni * S nr_words < fuel →
  hash_scan fuel m (length (nodes m) * nr_words) (length (nodes m) * nr_words + nr_words)
    ni (length (nodes m) * nr_words) (ni * nr_words)
  = Some (first_match m (chain (length (nodes m)) m ni)).
Proof.
  intros Hlen. revert fuel. induction (lt_wf ni) as [ni _ IH]. intros fuel Hdec Hni Hf.
  destruct (decide (ni = 0)) as [->|Hne].
  { destruct fuel as [|fuel]; [lia|]. simpl.
    destruct (length (nodes m)); [lia|]. done. }
  assert (Hh : h_next (nd m ni) < ni) by (apply Hdec; lia).
  destruct (length (nodes m)) as [|sz] eqn:Esz; [lia|].
  simpl chain. replace (ni =? 0) with false by (symmetry; by apply Nat.eqb_neq).
  simpl first_match. rewrite <- Esz in *.
  pose proof (state_at_eq_iff m ni (length (nodes m))) as Hiff.
  destruct (decide (state_at m ni = scratch m)) as [Heq|Hneq].
  - pose proof (hash_scan_hit m (length (nodes m) * nr_words) ni nr_words 0 fuel) as Hhit.
    rewrite !Nat.add_0_r in Hhit. apply Hhit; [done|done| |nia].
    intros j Hj. symmetry. apply Hiff; [nia|lia|done|lia].
  - pose proof (hash_scan_miss m (length (nodes m) * nr_words) ni nr_words 0
                  (fuel - nr_words)) as Hmiss.
    rewrite !Nat.add_0_r in Hmiss.
    replace (fuel - nr_words + nr_words) with fuel in Hmiss by nia.
    apply Hmiss; [done|done| |].
    + destruct (decide (Exists (λ j, word_at m (length (nodes m) * nr_words + j)
                                      ≠ word_at m (ni * nr_words + j)) (seq 0 nr_words)))
        as [Hex|Hnex].
      * apply Exists_exists in Hex as [j [Hj%elem_of_seq Hj']]. exists j. split; [lia|done].
      * exfalso. apply Hneq. apply Hiff; [nia|lia|].
        intros k Hk. apply dec_stable. intros Hk'. apply Hnex, Exists_exists.
        exists k. split; [apply elem_of_seq; lia|congruence].
    + rewrite (chain_fuel m sz (length (nodes m))); [|intros; apply Hdec; lia|lia|lia].
      apply IH; [done| |lia|nia]. intros; apply Hdec; lia.
Qed.

(** ** What [hash_try] computes *)

(** The number of the stored node that holds state [s]; 0 if none does. *)
Definition index_of (m : machine) (s : state) : nat :=
  from_option snd 0 (list_find (λ ni, state_at m ni = s) (node_ids m)).

(** The machine after [hash_try] has made a node of the scratch slot. *)
Definition inserted (m : machine) : machine :=
  Machine (st_data m ++ replicate nr_words 0%Z) (state_nr m)
    (nodes m ++ [Node (bucket m (hash_idx m)) 0 0 0 0])
    (nr_edges m) (nr_trans m) (<[hash_idx m := length (nodes m)]> (hash_tbl m))
    true (err_msg m) (reported m) (bss_second m) (iedges m) (cout m) (ub m).

Lemma hash_ok_size m : hash_ok m → 1 ≤ length (nodes m).
Proof. by intros [? _]. Qed.

Lemma hash_ok_data m : hash_ok m → length (st_data m) = (length (nodes m) + 1) * nr_words.
Proof. by intros (_ & ? & _). Qed.

Lemma hash_ok_next m ni : hash_ok m → 1 ≤ ni < length (nodes m) → h_next (nd m ni) < ni.
Proof.
  intros (_ & _ & H & _) Hni. rewrite Forall_forall in H.
  by apply H, elem_of_node_ids.
Qed.

Lemma hash_ok_chain m ni :
  hash_ok m → 1 ≤ ni < length (nodes m) →
  ni ∈ chain (length (nodes m)) m (bucket m (hash_value (state_at m ni))).
Proof.
  intros (_ & _ & H & _) Hni. rewrite Forall_forall in H.
  by apply H, elem_of_node_ids.
Qed.

Lemma hash_ok_head m idx : hash_ok m → bucket m idx < length (nodes m).
Proof.
  intros (Hs & _ & _ & H & _). unfold bucket.
  destruct (hash_tbl m !! idx) as [v|] eqn:E; simpl; [|lia].
  by apply (H idx v).
Qed.

Lemma hash_ok_inj m i j :
  hash_ok m → 1 ≤ i < length (nodes m) → 1 ≤ j < length (nodes m) →
  state_at m i = state_at m j → i = j.
Proof.
  intros (_ & _ & _ & _ & H) Hi Hj Heq.
  assert (Hl : ∀ k, 1 ≤ k < length (nodes m) →
               (state_at m <$> node_ids m) !! (k - 1) = Some (state_at m k)).
  { intros k Hk. rewrite list_lookup_fmap. unfold node_ids.
    rewrite lookup_seq_lt by lia. simpl. do 2 f_equal. lia. }
  pose proof (NoDup_lookup _ (i - 1) (j - 1) _ H (Hl i Hi)) as Hnd.
  rewrite Heq in Hnd. specialize (Hnd (Hl j Hj)). lia.
Qed.

Lemma index_of_spec m s ni :
  index_of m s = ni → ni ≠ 0 → 1 ≤ ni < length (nodes m) ∧ state_at m ni = s.
Proof.
  unfold index_of. intros H Hne.
  destruct (list_find _ _) as [[i x]|] eqn:E; simpl in H; [|lia]. subst x.
  apply list_find_Some in E as (Hl & Hs & _).
  split; [|done]. apply elem_of_node_ids. by eapply list_elem_of_lookup_2.
Qed.

Lemma index_of_none m s :
  index_of m s = 0 → ∀ ni, 1 ≤ ni < length (nodes m) → state_at m ni ≠ s.
Proof.
  unfold index_of. intros H ni Hni.
  destruct (list_find _ _) as [[i x]|] eqn:E; simpl in H.
  - subst x. apply list_find_Some in E as (Hl & _ & _).
    apply list_elem_of_lookup_2, elem_of_node_ids in Hl. lia.
  - apply list_find_None in E. rewrite Forall_forall in E.
    by apply E, elem_of_node_ids.
Qed.

Lemma index_of_stored m ni :
  hash_ok m → 1 ≤ ni < length (nodes m) → index_of m (state_at m ni) = ni.
Proof.
  intros Hok Hni.
  destruct (decide (index_of m (state_at m ni) = 0)) as [E|E].
  - by destruct (index_of_none _ _ E ni Hni).
  - destruct (index_of_spec _ _ _ eq_refl E) as [Hr Hs].
    by apply (hash_ok_inj m).
Qed.

Lemma index_of_bound m s : hash_ok m → index_of m s < length (nodes m).
Proof.
  intros Hok. destruct (decide (index_of m s = 0)) as [->|E].
  - apply hash_ok_size in Hok. lia.
  - by destruct (index_of_spec _ _ _ eq_refl E) as [[_ ?] _].
Qed.

Lemma first_match_found m l ni :
  first_match m l = ni → ni ≠ 0 → ni ∈ l ∧ state_at m ni = scratch m.
Proof.
  induction l as [|x l IH]; simpl; [lia|].
  destruct (decide (state_at m x = scratch m)) as [Heq|Hne].
  - intros -> _. split; [apply list_elem_of_here|done].
  - intros H Hni. destruct (IH H Hni). split; [by apply list_elem_of_further|done].
Qed.

Lemma first_match_none m l ni :
  (∀ x, x ∈ l → x ≠ 0) → first_match m l = 0 → ni ∈ l → state_at m ni ≠ scratch m.
Proof.
  induction l as [|x l IH]; simpl; [by intros _ _ ?%elem_of_nil|].
  intros Hnz.
  assert (Hnz' : ∀ y, y ∈ l → y ≠ 0) by (intros y Hy; by apply Hnz, list_elem_of_further).
  destruct (decide (state_at m x = scratch m)) as [Heq|Hne].
  - intros ->. by destruct (Hnz 0 (list_elem_of_here _ _)).
  - intros H [->|Hin]%elem_of_cons; [done|by apply IH].
Qed.

(** The search finds the stored node with the contents of the scratch
    slot, if there is one. *)
Lemma hash_lookup_spec m : hash_ok m → hash_lookup m = Some (index_of m (scratch m)).
Proof.
  intros Hok. unfold hash_lookup.
  pose proof (hash_ok_data m Hok) as Hd. pose proof (hash_ok_head m (hash_idx m) Hok) as Hh.
  assert (Hdec : ∀ nj, 1 ≤ nj ≤ bucket m (hash_idx m) → h_next (nd m nj) < nj).
  { intros nj Hnj. apply hash_ok_next; [done|lia]. }
  rewrite hash_scan_chain; [|lia|done|done|nia].
  f_equal. set (l := chain _ _ _).
  destruct (decide (first_match m l = 0)) as [E|E].
  - rewrite E. symmetry. apply dec_stable. intros Hne.
    destruct (index_of_spec _ _ _ eq_refl Hne) as [Hr Hs].
    refine (first_match_none m l _ _ E _ Hs).
    + intros x Hx. apply chain_bound in Hx; [lia|done].
    + unfold l.
      replace (hash_idx m) with (hash_value (state_at m (index_of m (scratch m))))
        by (by rewrite Hs).
      by apply hash_ok_chain.
  - destruct (first_match_found _ _ _ eq_refl E) as [Hin Hs].
    apply chain_bound in Hin; [|done].
    rewrite <- Hs. symmetry. apply index_of_stored; [done|lia].
Qed.

(** The three outcomes of [hash_try] that make no node. *)
Lemma hash_try_found m no_ins :
  hash_ok m → index_of m (scratch m) ≠ 0 →
  hash_try no_ins m = (index_of m (scratch m), set_hash_was_new false m).
Proof.
  intros Hok Hne. unfold hash_try. rewrite hash_lookup_spec by done.
  by replace (index_of m (scratch m) =? 0) with false by (symmetry; by apply Nat.eqb_neq).
Qed.

Lemma hash_try_absent m :
  hash_ok m → index_of m (scratch m) = 0 → hash_try true m = (0, m).
Proof.
  intros Hok E. unfold hash_try. rewrite hash_lookup_spec by done. by rewrite E.
Qed.

Lemma hash_try_full m :
  hash_lookup m = Some 0 → stop_count cfg < length (nodes m) →
  hash_try false m
  = (length (nodes m), set_err_msg (Some "Maximum number of states exceeded"%string) m).
Proof.
  intros E Hfull. unfold hash_try. rewrite E. simpl.
  by replace (stop_count cfg <? length (nodes m)) with true by (symmetry; by apply Nat.ltb_lt).
Qed.

(** The outcome that makes a node. *)
Lemma hash_try_new m :
  hash_lookup m = Some 0 → length (nodes m) ≤ stop_count cfg →
  length (st_data m) = (length (nodes m) + 1) * nr_words →
  hash_try false m = (length (nodes m), inserted m).
Proof.
  intros E Hroom Hd. unfold hash_try. rewrite E. simpl.
  replace (stop_count cfg <? length (nodes m)) with false by (symmetry; apply Nat.ltb_ge; lia).
  f_equal.
  rewrite !vresize_ge by (simpl; lia).
  replace (length (nodes m) + 1 - length (nodes m)) with 1 by lia.
  replace ((length (nodes m) + 2) * nr_words - length (st_data m)) with nr_words by lia.
  assert (Hl : ∀ x, (nodes m ++ [x]) !! length (nodes m) = Some x).
  { intros x. rewrite lookup_app_r by lia. by rewrite Nat.sub_diag. }
  assert (Hi : ∀ x y, <[length (nodes m) := y]> (nodes m ++ [x]) = nodes m ++ [y]).
  { intros x y. rewrite insert_app_r_alt by lia. by rewrite Nat.sub_diag. }
  destruct (no_progr_chk cfg); simpl.
  - unfold set_h_next, wr_node. simpl. rewrite Hl. simpl. rewrite Hi.
    unfold inserted, set_hash_was_new, set_hash_tbl, set_nodes. simpl. done.
  - unfold set_e_cnt, set_h_next, wr_node. simpl. rewrite Hl. simpl. rewrite Hi, Hl.
    simpl. rewrite Hi.
    unfold inserted, set_hash_was_new, set_hash_tbl, set_nodes. simpl. done.
Qed.

(** ** The consistency of the store is kept *)

Lemma chain_ext m m' f f' ni :
  (∀ nj, 1 ≤ nj ≤ ni → h_next (nd m nj) < nj) →
  (∀ nj, 1 ≤ nj ≤ ni → h_next (nd m' nj) = h_next (nd m nj)) →
  ni < f → ni < f' →
  chain f' m' ni = chain f m ni.
Proof.
  revert f f'. induction (lt_wf ni) as [ni _ IH]. intros f f' Hdec Hext Hf Hf'.
  destruct f as [|f]; [lia|]. destruct f' as [|f']; [lia|]. simpl.
  destruct (ni =? 0) eqn:E; [done|]. apply Nat.eqb_neq in E.
  assert (h_next (nd m ni) < ni) by (apply Hdec; lia).
  rewrite Hext by lia. f_equal.
  apply IH; [done| | |lia|lia]; intros nj Hnj; [apply Hdec|apply Hext]; lia.
Qed.

(** [hash_ok] depends on the sizes, the [h_next] fields, the hash table and
    the stored states only. *)
Lemma hash_ok_ext m m' :
  length (nodes m') = length (nodes m) →
  length (st_data m') = length (st_data m) →
  (∀ ni, h_next (nd m' ni) = h_next (nd m ni)) →
  hash_tbl m' = hash_tbl m →
  (∀ ni, 1 ≤ ni < length (nodes m) → state_at m' ni = state_at m ni) →
  hash_ok m → hash_ok m'.
Proof.
  intros Hn Hd Hh Ht Hs Hok.
  pose proof Hok as (H1 & H2 & H3 & H4 & H5).
  unfold hash_ok, node_ids. rewrite Hn, Hd, Ht.
  repeat split; try done.
  - rewrite Forall_forall in *. intros ni Hni.
    pose proof Hni as Hni'%elem_of_node_ids.
    unfold bucket. rewrite Ht, Hh, Hs by done. split; [by apply H3|].
    pose proof (hash_ok_head m (hash_value (state_at m ni)) Hok) as Hhd.
    unfold bucket in Hhd.
    rewrite (chain_ext m m' (length (nodes m))); [by apply H3| | |done|done].
    + intros nj Hnj. apply hash_ok_next; [done|lia].
    + intros; apply Hh.
  - replace (state_at m' <$> seq 1 (length (nodes m) - 1))
      with (state_at m <$> node_ids m); [done|].
    apply list_fmap_ext. intros i x Hx. symmetry. apply Hs.
    by apply elem_of_node_ids, list_elem_of_lookup_2 with i.
Qed.


Lemma hash_ok_fire_init ni m : ni ≤ length (nodes m) → hash_ok m → hash_ok (fire_init ni m).
Proof.
  intros Hni Hok. pose proof (hash_ok_data m Hok) as Hd.
  revert Hok. apply hash_ok_ext; try done.
  - apply fire_init_length.
  - intros nj Hnj. rewrite state_at_fire_init by lia. rewrite decide_False by lia. done.
Qed.

Lemma hash_ok_put_state s m :
  state_nr m = length (nodes m) → hash_ok m → hash_ok (put_state s m).
Proof.
  intros Hnr Hok. pose proof (hash_ok_data m Hok) as Hd.
  revert Hok. apply hash_ok_ext; try done.
  - apply put_state_length.
  - intros nj Hnj. rewrite state_at_put_state by lia. rewrite decide_False by lia. done.
Qed.

Lemma state_at_inserted m ni :
  (ni + 1) * nr_words ≤ length (st_data m) → state_at (inserted m) ni = state_at m ni.
Proof. intros H. unfold state_at, inserted. simpl. by apply slot_before. Qed.

Lemma nd_inserted m ni :
  nd (inserted m) ni
  = if decide (ni = length (nodes m)) then Node (bucket m (hash_idx m)) 0 0 0 0 else nd m ni.
Proof.
  unfold nd, inserted. simpl. case_decide as H.
  - subst. rewrite lookup_app_r by lia. by rewrite Nat.sub_diag.
  - destruct (decide (ni < length (nodes m))).
    + by rewrite lookup_app_l by lia.
    + rewrite !lookup_ge_None_2; [done|lia|rewrite length_app; simpl; lia].
Qed.

Lemma length_inserted m : length (nodes (inserted m)) = S (length (nodes m)).
Proof. unfold inserted. simpl. rewrite length_app. simpl. lia. Qed.

Lemma bucket_inserted m idx :
  bucket (inserted m) idx
  = if decide (idx = hash_idx m) then length (nodes m) else bucket m idx.
Proof.
  unfold bucket, inserted. simpl. case_decide as H.
  - subst. by rewrite lookup_insert_eq.
  - by rewrite lookup_insert_ne.
Qed.

Lemma hash_ok_inserted m :
  hash_ok m → index_of m (scratch m) = 0 → hash_ok (inserted m).
Proof.
  intros Hok Hno.
  pose proof (hash_ok_size m Hok) as Hsz. pose proof (hash_ok_data m Hok) as Hd.
  assert (Hst : ∀ ni, ni ≤ length (nodes m) → state_at (inserted m) ni = state_at m ni).
  { intros ni Hni. apply state_at_inserted. nia. }
  assert (Hch : ∀ ni, ni < length (nodes m) →
            chain (S (length (nodes m))) (inserted m) ni = chain (length (nodes m)) m ni).
  { intros ni Hni. apply chain_ext; [| |done|lia].
    - intros nj Hnj. apply hash_ok_next; [done|lia].
    - intros nj Hnj. rewrite nd_inserted. rewrite decide_False by lia. done. }
  assert (Hnew : chain (S (length (nodes m))) (inserted m) (length (nodes m))
                 = length (nodes m) :: chain (length (nodes m)) m (bucket m (hash_idx m))).
  { simpl. replace (length (nodes m) =? 0) with false by (symmetry; apply Nat.eqb_neq; lia).
    f_equal. rewrite nd_inserted, decide_True by done. simpl.
    pose proof (hash_ok_head m (hash_idx m) Hok) as Hhd.
    apply chain_ext; [| |done|done].
    - intros nj Hnj. apply hash_ok_next; [done|lia].
    - intros nj Hnj. rewrite nd_inserted, decide_False; [done|lia]. }
  unfold hash_ok. rewrite length_inserted. repeat split.
  - lia.
  - unfold inserted. simpl. rewrite length_app, length_replicate. lia.
  - unfold node_ids. rewrite length_inserted. rewrite Forall_forall. intros ni Hni%elem_of_seq.
    rewrite nd_inserted, Hst, bucket_inserted by lia.
    destruct (decide (ni = length (nodes m))) as [->|Hne]; cbn [h_next].
    + split; [by apply hash_ok_head|].
      rewrite decide_True by done. rewrite Hnew. apply list_elem_of_here.
    + split; [apply hash_ok_next; [done|lia]|].
      pose proof (hash_ok_chain m ni Hok) as Hin. specialize (Hin ltac:(lia)).
      case_decide as E.
      * rewrite Hnew. apply list_elem_of_further. by rewrite <- E.
      * rewrite Hch; [done|by apply hash_ok_head].
  - unfold inserted. simpl. apply map_Forall_insert_2; [lia|].
    destruct Hok as (_ & _ & _ & H & _).
    eapply map_Forall_impl; [exact H|]. simpl. intros; lia.
  - unfold node_ids. rewrite length_inserted.
    replace (S (length (nodes m)) - 1) with ((length (nodes m) - 1) + 1) by lia.
    rewrite seq_app, fmap_app. simpl.
    replace (1 + (length (nodes m) - 1)) with (length (nodes m)) by lia.
    apply NoDup_app. split; [|split].
    + destruct Hok as (_ & _ & _ & _ & H).
      replace (state_at (inserted m) <$> seq 1 (length (nodes m) - 1))
        with (state_at m <$> node_ids m); [done|].
      apply list_fmap_ext. intros i x Hx. symmetry. apply Hst.
      apply list_elem_of_lookup_2, elem_of_seq in Hx. lia.
    + intros s [ni [-> Hni%elem_of_seq]]%list_elem_of_fmap [E|[]%elem_of_nil]%elem_of_cons.
      rewrite !Hst in E by lia.
      replace (S (length (nodes m) - 1)) with (length (nodes m)) in E by lia.
      by apply (index_of_none m (scratch m) Hno ni); [lia|].
    + apply NoDup_singleton.
Qed.

(** ** The lookup of [hash_try] and its capacity branch *)

(** C6, as the code has it.  In a consistent store, [hash_try] returns the
    number of the stored node whose words are those of the scratch slot and
    resets [hash_was_new], whatever [no_ins] is; when no stored node has
    these words and [no_ins] is true it returns 0 and changes nothing, so
    [hash_was_new] keeps the value that it had. *)
Theorem hash_try_lookup m :
  hash_ok m →
  (∀ ni no_ins, 1 ≤ ni < length (nodes m) → state_at m ni = scratch m →
     hash_try no_ins m = (ni, set_hash_was_new false m)) ∧
  ((∀ ni, 1 ≤ ni < length (nodes m) → state_at m ni ≠ scratch m) →
     hash_try true m = (0, m)).
Proof.
  intros Hok. split.
  - intros ni no_ins Hni Hs.
    assert (E : index_of m (scratch m) = ni) by (rewrite <- Hs; by apply index_of_stored).
    rewrite <- E. apply hash_try_found; [done|]. rewrite E. lia.
  - intros Hno. apply hash_try_absent; [done|].
    apply dec_stable. intros Hne.
    destruct (index_of_spec _ _ _ eq_refl Hne) as [Hr Hs]. by apply (Hno _ Hr).
Qed.

Lemma print_history_root fuel ni m :
  ni ≠ 0 → prev (nd m ni) = 0 →
  print_history (S fuel) ni m
  = emit (Ev_state (state_at m ni)) (use_state ni m).
Proof.
  intros Hni Hp. simpl.
  replace (ni =? 0) with false by (symmetry; by apply Nat.eqb_neq).
  rewrite Hp. by destruct fuel.
Qed.

(** C9.  When the state of the scratch slot is not stored and
    [nodes.size()] exceeds [stop_count], [hash_try] sets the error message
    and returns [nodes.size()] without making a node.  [try_transition], in
    the forward pass, then counts the edge and increments [e_cnt] of that
    node number, which is outside [nodes]; it writes [prev] there as well
    exactly when [hash_was_new] still holds [true] from an earlier call. *)
Theorem capacity_error_out_of_range m n1 tr s' :
  no_progr_chk cfg = false → bss_second m = false → err_msg m = None →
  fire_transition mdl tr (cur_state m) = (Some s', None) →
  hash_lookup (call_symmetry (put_state s' m)) = Some 0 →
  stop_count cfg < length (nodes m) →
  hash_try false (call_symmetry (put_state s' m))
  = (length (nodes m),
     set_err_msg (Some "Maximum number of states exceeded"%string)
       (call_symmetry (put_state s' m)))
  ∧ nodes (try_transition n1 tr m).2 = nodes m
  ∧ nr_edges (try_transition n1 tr m).2 = u32 (nr_edges m + 1)
  ∧ nodes m !! length (nodes m) = None
  ∧ ub (try_transition n1 tr m).2
    = ub m ++ Out_of_range F_e_cnt (length (nodes m))
           :: (if hash_was_new m then [Out_of_range F_prev (length (nodes m))] else []).
Proof.
  intros Hnp Hbs Herr Hfire Hmiss Hfull.
  set (m1 := call_symmetry (put_state s' m)) in *.
  assert (Hn1 : nodes m1 = nodes m) by (unfold m1, call_symmetry; by destruct (symmetry cfg)).
  assert (Hb1 : bss_second m1 = false) by (unfold m1, call_symmetry; by destruct (symmetry cfg)).
  assert (He1 : nr_edges m1 = nr_edges m) by (unfold m1, call_symmetry; by destruct (symmetry cfg)).
  assert (Hw1 : hash_was_new m1 = hash_was_new m)
    by (unfold m1, call_symmetry; by destruct (symmetry cfg)).
  assert (Hu1 : ub m1 = ub m) by (unfold m1, call_symmetry; by destruct (symmetry cfg)).
  assert (Hr1 : reported m1 = reported m)
    by (unfold m1, call_symmetry; by destruct (symmetry cfg)).
  pose proof (hash_try_full m1 Hmiss) as Hfullm. rewrite Hn1 in Hfullm.
  specialize (Hfullm Hfull).
  split; [done|].
  assert (Hoob : nodes m !! length (nodes m) = None) by (by apply lookup_ge_None_2).
  assert (Htt : try_transition n1 tr m = (true, tt_forward n1 m1)).
  { unfold try_transition, call_fire. rewrite Hfire. simpl. rewrite Herr. simpl.
    rewrite andb_false_r. fold m1. by rewrite Hnp, Hb1. }
  rewrite Htt. simpl.
  unfold tt_forward, hash_insert. rewrite Hfullm, Hnp.
  set (m2 := set_e_cnt _ _ _).
  assert (Em2 : m2 = undefined (Out_of_range F_e_cnt (length (nodes m)))
                       (set_nr_edges (u32 (nr_edges m + 1))
                          (set_err_msg (Some "Maximum number of states exceeded"%string) m1))).
  { unfold m2, set_e_cnt. rewrite wr_node_out_of_range by (simpl; rewrite Hn1; lia).
    simpl. by rewrite He1. }
  clearbody m2. subst m2.
  unfold tt_new. simpl hash_was_new. rewrite Hw1.
  destruct (hash_was_new m); [|simpl; by rewrite Hn1, Hu1].
  unfold set_prev. rewrite wr_node_out_of_range by (simpl; rewrite Hn1; lia).
  destruct (chk_state cfg); [|simpl; by rewrite Hn1, Hu1, <- app_assoc].
  set (e := check_state mdl _).
  destruct e as [e|]; [|simpl; by rewrite Hn1, Hu1, <- app_assoc].
  simpl is_set. cbv iota. unfold report_error. simpl reported. rewrite Hr1.
  destruct (reported m); [simpl; by rewrite Hn1, Hu1, <- app_assoc|].
  simpl nodes. rewrite Hn1.
  destruct (length (nodes m)) as [|sz] eqn:Esz; [lia|].
  rewrite print_history_root; [|done|].
  - simpl. by rewrite Hn1, Hu1, <- app_assoc.
  - unfold nd. simpl nodes. rewrite Hn1, Hoob. done.
Qed.

(** ** One firing, in terms of the stored states *)

(** The representative that [symmetry_representative] leaves in the slot. *)
Definition canon (s : state) : state :=
  if symmetry cfg then norm_state (symmetry_representative mdl s) else s.

(** The state that transition [tr] leads to from state [s], as it is looked
    up in the hash table; [None] if the transition is disabled. *)
Definition succ_state (tr : nat) (s : state) : option state :=
  match (fire_transition mdl tr s).1 with
  | Some s' => Some (canon (norm_state s'))
  | None => None
  end.

(** The machine is about to fire the transitions of the stored state
    [n1]: the scratch slot is the current state and holds a copy of it. *)
Definition ready (m : machine) (n1 : nat) : Prop :=
  hash_ok m ∧ state_nr m = length (nodes m) ∧ 1 ≤ n1 < length (nodes m)
  ∧ scratch m = state_at m n1.

(** The machine with state [t] in the scratch slot. *)
Definition loaded (m : machine) (t : state) : machine :=
  set_st_data (take (length (nodes m) * nr_words) (st_data m) ++ t) m.

(** The machine after a forward firing from [n1] has found the stored
    node [n2]. *)
Definition revisited (m : machine) (n2 : nat) : machine :=
  set_hash_was_new false
    (set_nr_edges (u32 (nr_edges m + 1))
       (if no_progr_chk cfg then m else set_e_cnt n2 (u32 (e_cnt (nd m n2) + 1)) m)).

(** The machine after a forward firing from [n1] has made a node of the
    new state [t]. *)
Definition discovered (m : machine) (n1 : nat) (t : state) : machine :=
  Machine (take (length (nodes m) * nr_words) (st_data m) ++ t ++ state_at m n1)
    (S (length (nodes m)))
    (nodes m ++ [Node (bucket m (hash_value t)) n1 (if no_progr_chk cfg then 0 else 1) 0 0])
    (u32 (nr_edges m + 1)) (nr_trans m)
    (<[hash_value t := length (nodes m)]> (hash_tbl m))
    true None (reported m) (bss_second m) (iedges m) (cout m) (ub m).

Lemma length_canon s : length s = nr_words → length (canon s) = nr_words.
Proof. unfold canon. destruct (symmetry cfg); [intros; apply length_norm_state|done]. Qed.

Lemma succ_state_length tr s t : succ_state tr s = Some t → length t = nr_words.
Proof.
  unfold succ_state. destruct (fire_transition mdl tr s).1; [|done].
  intros [= <-]. apply length_canon, length_norm_state.
Qed.

Lemma st_data_split m :
  length (st_data m) = (length (nodes m) + 1) * nr_words →
  st_data m = take (length (nodes m) * nr_words) (st_data m) ++ scratch m.
Proof.
  intros Hd. unfold scratch, state_at.
  rewrite (take_ge (drop _ _)) by (rewrite length_drop; lia). by rewrite take_drop.
Qed.

Lemma put_state_loaded s m :
  state_nr m = length (nodes m) →
  length (st_data m) = (length (nodes m) + 1) * nr_words →
  put_state s m = loaded m (norm_state s).
Proof.
  intros Hnr Hd. unfold put_state, loaded. f_equal.
  rewrite (put_words_spec _ (λ k, default 0%Z (s !! k))) by lia.
  rewrite Hnr. fold (norm_state s). rewrite drop_ge by lia. by rewrite app_nil_r.
Qed.

Lemma loaded_length m t :
  length t = nr_words →
  length (st_data m) = (length (nodes m) + 1) * nr_words →
  length (st_data (loaded m t)) = length (st_data m).
Proof. intros Ht Hd. unfold loaded. simpl. rewrite length_app, length_take. lia. Qed.

Lemma state_at_loaded m t k :
  length t = nr_words →
  length (st_data m) = (length (nodes m) + 1) * nr_words →
  state_at (loaded m t) k = if decide (k = length (nodes m)) then t else state_at m k.
Proof.
  intros Ht Hd. unfold state_at at 1, loaded. simpl.
  pose proof (slot_splice (st_data m) t (length (nodes m)) k) as H.
  rewrite (drop_ge _ ((length (nodes m) + 1) * nr_words)), app_nil_r in H by lia.
  apply H; [lia|done].
Qed.

Lemma loaded_loaded m t t' :
  length t = nr_words →
  length (st_data m) = (length (nodes m) + 1) * nr_words →
  loaded (loaded m t) t' = loaded m t'.
Proof.
  intros Ht Hd. unfold loaded, set_st_data. simpl. f_equal.
  rewrite take_app_length'; [done|]. rewrite length_take. lia.
Qed.

Lemma hash_ok_loaded m t : length t = nr_words → hash_ok m → hash_ok (loaded m t).
Proof.
  intros Ht Hok. pose proof (hash_ok_data m Hok) as Hd.
  revert Hok. apply hash_ok_ext; try done.
  - by apply loaded_length.
  - intros nj Hnj. rewrite state_at_loaded by done. rewrite decide_False by lia. done.
Qed.

Lemma scratch_loaded m t :
  length t = nr_words →
  length (st_data m) = (length (nodes m) + 1) * nr_words →
  scratch (loaded m t) = t.
Proof.
  intros Ht Hd. unfold scratch. rewrite state_at_loaded by done.
  simpl. by rewrite decide_True.
Qed.

Lemma list_find_state_ext m m' s (l : list nat) :
  (∀ y, y ∈ l → state_at m' y = state_at m y) →
  list_find (λ ni, state_at m' ni = s) l = list_find (λ ni, state_at m ni = s) l.
Proof.
  induction l as [|y l IH]; intros H; [done|]. simpl.
  rewrite (H y) by apply list_elem_of_here.
  destruct (decide (state_at m y = s)); [done|].
  rewrite IH; [done|]. intros z Hz. apply H. by apply list_elem_of_further.
Qed.

Lemma index_of_ext m m' s :
  length (nodes m') = length (nodes m) →
  (∀ ni, 1 ≤ ni < length (nodes m) → state_at m' ni = state_at m ni) →
  index_of m' s = index_of m s.
Proof.
  intros Hn Hs. unfold index_of, node_ids. rewrite Hn. f_equal.
  apply list_find_state_ext. intros y Hy%elem_of_seq. apply Hs. lia.
Qed.

Lemma machine_eq m m' :
  st_data m = st_data m' → state_nr m = state_nr m' → nodes m = nodes m' →
  nr_edges m = nr_edges m' → nr_trans m = nr_trans m' → hash_tbl m = hash_tbl m' →
  hash_was_new m = hash_was_new m' → err_msg m = err_msg m' → reported m = reported m' →
  bss_second m = bss_second m' → iedges m = iedges m' → cout m = cout m' → ub m = ub m' →
  m = m'.
Proof. destruct m, m'. simpl. by intros -> -> -> -> -> -> -> -> -> -> -> -> ->. Qed.

Lemma call_fire_ready m n1 tr :
  ready m n1 →
  call_fire tr m =
    match fire_transition mdl tr (state_at m n1) with
    | (Some s', e) => (true, loaded (declare_error e m) (norm_state s'))
    | (None, e) => (false, declare_error e m)
    end.
Proof.
  intros (Hok & Hnr & Hn1 & Hs). unfold call_fire, cur_state.
  rewrite Hnr. fold (scratch m). rewrite Hs.
  destruct (fire_transition mdl tr (state_at m n1)) as [[s'|] e]; [|done].
  f_equal. apply put_state_loaded.
  - by destruct e.
  - destruct e; apply (hash_ok_data m Hok).
Qed.

Lemma call_symmetry_loaded m t :
  length t = nr_words → state_nr m = length (nodes m) →
  length (st_data m) = (length (nodes m) + 1) * nr_words →
  call_symmetry (loaded m t) = loaded m (canon t).
Proof.
  intros Ht Hnr Hd. unfold call_symmetry, canon. destruct (symmetry cfg); [|done].
  rewrite put_state_loaded; [|done|by rewrite loaded_length].
  unfold cur_state. simpl state_nr. rewrite Hnr.
  rewrite state_at_loaded, decide_True by done. by apply loaded_loaded.
Qed.

Lemma index_of_loaded m t s :
  length t = nr_words →
  length (st_data m) = (length (nodes m) + 1) * nr_words →
  index_of (loaded m t) s = index_of m s.
Proof.
  intros Ht Hd. apply index_of_ext; [done|].
  intros ni Hni. rewrite state_at_loaded by done. by rewrite decide_False by lia.
Qed.

(** Copying [n1] back restores [st_data]. *)
Lemma fire_init_restores m m2 n1 t :
  ready m n1 → length t = nr_words →
  st_data m2 = st_data (loaded m t) → length (nodes m2) = length (nodes m) →
  st_data (fire_init n1 m2) = st_data m.
Proof.
  intros (Hok & Hnr & Hn1 & Hs) Ht Hst Hn.
  pose proof (hash_ok_data m Hok) as Hd.
  assert (Hl : length (st_data m2) = (length (nodes m) + 1) * nr_words).
  { rewrite Hst. rewrite loaded_length; done. }
  rewrite fire_init_st_data by (rewrite Hn; lia).
  rewrite Hn, drop_ge, app_nil_r by lia.
  unfold state_at. rewrite Hst. fold (state_at (loaded m t) n1).
  rewrite state_at_loaded, decide_False by (done || lia).
  unfold loaded. simpl. rewrite take_app_length' by (rewrite length_take; lia).
  rewrite <- Hs. symmetry. by apply st_data_split.
Qed.

Lemma ub_print_history fuel ni m : ub m `prefix_of` ub (print_history fuel ni m).
Proof.
  revert ni m. induction fuel as [|fuel IH]; intros ni m; simpl.
  - destruct (ni =? 0); [done|]. simpl. by apply prefix_app_r.
  - destruct (ni =? 0); [done|]. simpl. apply IH.
Qed.

Lemma ub_report_error ni msg m : ub m `prefix_of` ub (report_error ni msg m).
Proof.
  unfold report_error. destruct (reported m); [done|]. simpl.
  apply (ub_print_history _ ni (set_reported true m)).
Qed.

Lemma err_msg_print_history fuel ni m : err_msg (print_history fuel ni m) = err_msg m.
Proof.
  revert ni m. induction fuel as [|fuel IH]; intros ni m; simpl.
  - by destruct (ni =? 0).
  - destruct (ni =? 0); [done|]. simpl. apply IH.
Qed.

Lemma err_msg_report_error ni msg m : err_msg (report_error ni msg m) = err_msg m.
Proof.
  unfold report_error. destruct (reported m); [done|]. simpl.
  apply (err_msg_print_history _ ni (set_reported true m)).
Qed.

Lemma prefix_longer {A} (l k : list A) x : ¬ (l ++ x :: k) `prefix_of` l.
Proof. intros H%prefix_length. rewrite length_app in H. simpl in H. lia. Qed.

Lemma ub_tt_new n1 n2 m : ub m `prefix_of` ub (tt_new n1 n2 m).
Proof.
  unfold tt_new. destruct (hash_was_new m); [|done].
  assert (H : ub m `prefix_of` ub (set_prev n2 n1 m)) by apply ub_wr_node.
  destruct (chk_state cfg); [|done].
  destruct (is_set _); [|done].
  etrans; [exact H|]. apply (ub_report_error n2 _ (set_err_msg _ _)).
Qed.

Lemma hash_try_loaded_found m t no_ins :
  hash_ok m → length t = nr_words → index_of m t ≠ 0 →
  hash_try no_ins (loaded m t) = (index_of m t, set_hash_was_new false (loaded m t)).
Proof.
  intros Hok Ht Hne. pose proof (hash_ok_data m Hok) as Hd.
  pose proof (hash_try_found (loaded m t) no_ins (hash_ok_loaded m t Ht Hok)) as H.
  rewrite scratch_loaded, index_of_loaded in H by done. by apply H.
Qed.

Lemma hash_lookup_loaded_absent m t :
  hash_ok m → length t = nr_words → index_of m t = 0 →
  hash_lookup (loaded m t) = Some 0.
Proof.
  intros Hok Ht E. pose proof (hash_ok_data m Hok) as Hd.
  rewrite hash_lookup_spec by (by apply hash_ok_loaded).
  by rewrite scratch_loaded, index_of_loaded, E.
Qed.

Lemma tt_forward_found m n1 t :
  ready m n1 → length t = nr_words → index_of m t ≠ 0 →
  tt_forward n1 (loaded m t) = revisited m (index_of m t).
Proof.
  intros Hr Ht Hne. pose proof Hr as (Hok & Hnr & Hn1 & Hs).
  pose proof (hash_ok_data m Hok) as Hd.
  pose proof (index_of_bound m t Hok) as Hb.
  unfold tt_forward, hash_insert. rewrite hash_try_loaded_found by done.
  unfold tt_new, revisited, set_e_cnt.
  destruct (no_progr_chk cfg).
  - simpl hash_was_new. cbv iota. apply machine_eq; try done.
    etrans; [by apply (fire_init_restores m _ n1 t)|done].
  - rewrite !wr_node_in_range by done.
    simpl hash_was_new. cbv iota. apply machine_eq; try done.
    + etrans; [|done].
      apply (fire_init_restores m _ n1 t); [done|done|done|simpl; by rewrite length_insert].
    + simpl. by rewrite length_insert.
Qed.

Lemma tt_forward_full m n1 t :
  ready m n1 → length t = nr_words → index_of m t = 0 →
  stop_count cfg < length (nodes m) →
  err_msg (tt_forward n1 (loaded m t)) = None → ub (tt_forward n1 (loaded m t)) ≠ ub m.
Proof.
  intros Hr Ht E Hfull Herr Hub. pose proof Hr as (Hok & Hnr & Hn1 & Hs).
  revert Herr Hub. unfold tt_forward, hash_insert.
  rewrite (hash_try_full (loaded m t)) by (by apply hash_lookup_loaded_absent || done).
  simpl length. unfold set_e_cnt.
  destruct (no_progr_chk cfg).
  - unfold tt_new. simpl hash_was_new. destruct (hash_was_new m).
    + unfold set_prev. rewrite wr_node_out_of_range by (simpl; lia).
      intros _ Hub.
      set (mx := undefined _ _) in *.
      assert (Hp : ub mx `prefix_of` ub m).
      { rewrite <- Hub. destruct (chk_state cfg); [|done].
        destruct (is_set _); [|done]. apply (ub_report_error _ _ (set_err_msg _ _)). }
      by apply prefix_longer in Hp.
    + done.
  - rewrite wr_node_out_of_range by (simpl; lia).
    intros _ Hub. set (mx := undefined _ _) in *.
    pose proof (ub_tt_new n1 (length (nodes m)) mx) as Hp. rewrite Hub in Hp.
    by apply prefix_longer in Hp.
Qed.

Lemma tt_forward_new m n1 t :
  ready m n1 → length t = nr_words → index_of m t = 0 →
  length (nodes m) ≤ stop_count cfg →
  err_msg (tt_forward n1 (loaded m t)) = None →
  tt_forward n1 (loaded m t) = discovered m n1 t.
Proof.
  intros Hr Ht E Hroom. pose proof Hr as (Hok & Hnr & Hn1 & Hs).
  pose proof (hash_ok_data m Hok) as Hd.
  unfold tt_forward, hash_insert.
  rewrite (hash_try_new (loaded m t));
    [|by apply hash_lookup_loaded_absent|done|by rewrite loaded_length].
  simpl length.
  set (new0 := Node (bucket m (hash_value t)) 0 0 0 0).
  set (new1 := Node (bucket m (hash_value t)) 0 (if no_progr_chk cfg then 0 else 1)%Z 0 0).
  set (new2 := Node (bucket m (hash_value t)) n1 (if no_progr_chk cfg then 0 else 1)%Z 0 0).
  assert (Hmi : ∃ mi, mi = inserted (loaded m t) ∧ nodes mi = nodes m ++ [new0]
            ∧ st_data mi = (take (length (nodes m) * nr_words) (st_data m) ++ t)
                           ++ replicate nr_words 0%Z
            ∧ hash_tbl mi = <[hash_value t := length (nodes m)]> (hash_tbl m)
            ∧ hash_was_new mi = true ∧ ub mi = ub m ∧ nr_edges mi = nr_edges m
            ∧ err_msg mi = err_msg m ∧ reported mi = reported m ∧ nr_trans mi = nr_trans m
            ∧ bss_second mi = bss_second m ∧ iedges mi = iedges m ∧ cout mi = cout m).
  { eexists. split; [done|]. unfold inserted. simpl. unfold hash_idx.
    rewrite scratch_loaded by done. done. }
  destruct Hmi as (mi & -> & Hni & Hsi & Hti & Hwi & Hui & Hei & Hri & Hpi & Hqi & Hbi & Hii & Hci).
  revert Hni Hsi Hti Hwi Hui Hei Hri Hpi Hqi Hbi Hii Hci.
  generalize (inserted (loaded m t)). intros mi Hni Hsi Hti Hwi Hui Hei Hri Hpi Hqi Hbi Hii Hci.
  assert (Hl : ∀ x, (nodes m ++ [x]) !! length (nodes m) = Some x).
  { intros x. rewrite lookup_app_r by lia. by rewrite Nat.sub_diag. }
  assert (Hi : ∀ x y, <[length (nodes m) := y]> (nodes m ++ [x]) = nodes m ++ [y]).
  { intros x y. rewrite insert_app_r_alt by lia. by rewrite Nat.sub_diag. }
  set (m3 := if no_progr_chk cfg then _ else _).
  assert (H3 : nodes m3 = nodes m ++ [new1]
               ∧ st_data m3 = st_data mi ∧ ub m3 = ub m ∧ hash_was_new m3 = true
               ∧ nr_edges m3 = u32 (nr_edges m + 1) ∧ err_msg m3 = err_msg m
               ∧ hash_tbl m3 = hash_tbl mi ∧ reported m3 = reported m
               ∧ nr_trans m3 = nr_trans m ∧ bss_second m3 = bss_second m
               ∧ iedges m3 = iedges m ∧ cout m3 = cout m).
  { unfold m3, new1. destruct (no_progr_chk cfg).
    - simpl. by rewrite Hei.
    - unfold set_e_cnt. rewrite wr_node_st_data, wr_node_hash_was_new, wr_node_nr_edges,
        wr_node_err_msg, wr_node_hash_tbl, wr_node_reported, wr_node_nr_trans,
        wr_node_bss_second, wr_node_iedges, wr_node_cout.
      unfold wr_node, nd. simpl nodes. rewrite Hni, Hl. simpl. rewrite ?Hni, Hi, Hei. done. }
  destruct H3 as (G0 & G1 & G2 & G3 & G4 & G5 & G6 & G7 & G8 & G9 & G10 & G11).
  clearbody m3.
  unfold tt_new. rewrite G3.
  set (m4 := set_prev _ _ m3).
  assert (H4 : nodes m4 = nodes m ++ [new2]
               ∧ st_data m4 = st_data mi ∧ ub m4 = ub m ∧ hash_was_new m4 = true
               ∧ nr_edges m4 = u32 (nr_edges m + 1) ∧ err_msg m4 = err_msg m
               ∧ hash_tbl m4 = hash_tbl mi ∧ reported m4 = reported m
               ∧ nr_trans m4 = nr_trans m ∧ bss_second m4 = bss_second m
               ∧ iedges m4 = iedges m ∧ cout m4 = cout m).
  { unfold m4, set_prev. rewrite wr_node_st_data, wr_node_hash_was_new, wr_node_nr_edges,
      wr_node_err_msg, wr_node_hash_tbl, wr_node_reported, wr_node_nr_trans,
      wr_node_bss_second, wr_node_iedges, wr_node_cout.
    unfold wr_node. rewrite G0, Hl. simpl. rewrite ?G0, Hi. done. }
  clear G0 G1 G2 G3 G4 G5 G6 G7 G8 G9 G10 G11.
  destruct H4 as (G0 & G1 & G2 & G3 & G4 & G5 & G6 & G7 & G8 & G9 & G10 & G11).
  clearbody m4.
  assert (Hfin : ∀ mx, st_data mx = st_data mi → nodes mx = nodes m4 → ub mx = ub m →
            hash_was_new mx = true → nr_edges mx = u32 (nr_edges m + 1) →
            hash_tbl mx = hash_tbl mi → reported mx = reported m → nr_trans mx = nr_trans m →
            bss_second mx = bss_second m → iedges mx = iedges m → cout mx = cout m →
            err_msg mx = None → fire_init n1 mx = discovered m n1 t).
  { intros mx F1 F2 F3 F4 F5 F6 F7 F8 F9 F10 F11 F12.
    assert (Hlen : length (nodes mx) = length (nodes m) + 1)
      by (rewrite F2, G0, length_app; simpl; lia).
    assert (Hdl : length (st_data mx) = (length (nodes m) + 2) * nr_words).
    { rewrite F1, Hsi, !length_app, length_take, length_replicate. lia. }
    apply machine_eq; [|simpl; try done..].
    - rewrite fire_init_st_data by (rewrite Hlen, ?Hdl; lia).
      unfold discovered. cbn [st_data].
      rewrite Hlen. rewrite drop_ge, app_nil_r by lia.
      unfold state_at. rewrite F1, Hsi.
      replace ((length (nodes m) + 1) * nr_words)
        with (length (take (length (nodes m) * nr_words) (st_data m) ++ t))
        by (rewrite length_app, length_take; lia).
      rewrite take_app_length. rewrite <- app_assoc. do 2 f_equal.
      rewrite <- !app_assoc. rewrite drop_app_le by (rewrite length_take; nia).
      rewrite take_app_le by (rewrite length_drop, length_take; nia).
      apply list_eq. intros i. rewrite !slot_lookup.
      case_decide; [|done]. apply lookup_take_lt. nia.
    - lia.
    - by rewrite F2, G0.
    - by rewrite F6, Hti. }
  destruct (chk_state cfg).
  - set (e := check_state mdl _). destruct e as [msg|].
    + simpl is_set. cbv iota. rewrite err_msg_report_error. done.
    + simpl is_set. cbv iota. intros _. by apply Hfin.
  - simpl. intros Herr. apply Hfin; try done; by rewrite <- G5.
Qed.

(** The safety and deadlock stage, as opposed to the second firing. *)
Definition forward (m : machine) : Prop := no_progr_chk cfg || negb (bss_second m) = true.

Lemma hash_ok_set_err_msg e m : hash_ok m → hash_ok (set_err_msg e m).
Proof. by apply hash_ok_ext. Qed.

Lemma ready_declare_error e m n1 : ready m n1 → ready (declare_error e m) n1.
Proof.
  destruct e; [|done]. intros (Hok & Hnr & Hn1 & Hs).
  split; [by apply hash_ok_set_err_msg|done].
Qed.

(** What a firing in the forward pass does when it ends with no error
    message and no undefined access: nothing if the transition is disabled;
    otherwise it counts an edge to the stored node that holds the successor
    state, or stores the successor as a new node found from [n1]. *)
Lemma try_transition_forward m n1 tr :
  ready m n1 → err_msg m = None → forward m →
  err_msg (try_transition n1 tr m).2 = None → ub (try_transition n1 tr m).2 = ub m →
  match succ_state tr (state_at m n1) with
  | None => try_transition n1 tr m = (false, m)
  | Some t =>
      if decide (index_of m t = 0)
      then try_transition n1 tr m = (true, discovered m n1 t)
           ∧ length (nodes m) ≤ stop_count cfg
      else try_transition n1 tr m = (true, revisited m (index_of m t))
  end.
Proof.
  intros Hr Herr Hfw. pose proof Hr as (Hok & Hnr & Hn1 & Hs).
  pose proof (hash_ok_data m Hok) as Hd.
  unfold try_transition. rewrite (call_fire_ready m n1 tr Hr). unfold succ_state.
  destruct (fire_transition mdl tr (state_at m n1)) as [[s'|] e]; simpl fst.
  - set (m1 := declare_error e m).
    assert (Hr1 : ready m1 n1) by (by apply ready_declare_error).
    assert (Hm1 : err_msg m1 = None → m1 = m) by (unfold m1; destruct e; done).
    assert (Hu1 : ub m1 = ub m) by (unfold m1; by destruct e).
    assert (Hd1 : length (st_data m1) = (length (nodes m1) + 1) * nr_words)
      by (unfold m1; by destruct e).
    assert (Hi1 : ∀ s, index_of m1 s = index_of m s) by (unfold m1; by destruct e).
    assert (Hn1' : nodes m1 = nodes m) by (unfold m1; by destruct e).
    assert (Hdisc : ∀ t, discovered m1 n1 t = discovered m n1 t)
      by (unfold m1; by destruct e).
    assert (Hb1 : bss_second m1 = bss_second m) by (unfold m1; by destruct e).
    destruct Hr1 as (Hok1 & Hnr1 & Hn11 & Hs1).
    assert (Hr1 : ready m1 n1) by done.
    clearbody m1.
    change (err_msg (loaded m1 (norm_state s'))) with (err_msg m1).
    destruct (negb (no_sanity_chk cfg) && is_set (err_msg m1)) eqn:Esan.
    { simpl. rewrite err_msg_report_error. intros Hnone.
      change (err_msg m1 = None) in Hnone. rewrite Hnone in Esan.
      simpl in Esan. by rewrite andb_false_r in Esan. }
    simpl negb. cbv iota.
    rewrite call_symmetry_loaded by (done || apply length_norm_state).
    set (t := canon (norm_state s')).
    assert (Ht : length t = nr_words) by apply length_canon, length_norm_state.
    change (bss_second (loaded m1 t)) with (bss_second m1). rewrite Hb1.
    replace (negb (no_progr_chk cfg) && bss_second m) with false
      by (unfold forward in Hfw; destruct (no_progr_chk cfg), (bss_second m); done).
    simpl snd. intros Hnone Hub.
    destruct (decide (index_of m t = 0)) as [E|E].
    + destruct (decide (length (nodes m) ≤ stop_count cfg)) as [Hroom|Hfull].
      * rewrite tt_forward_new in * by (rewrite ?Hi1, ?Hn1'; done). by rewrite Hdisc.
      * exfalso. refine (tt_forward_full m1 n1 t Hr1 Ht _ _ Hnone _).
        -- by rewrite Hi1.
        -- rewrite Hn1'. lia.
        -- by rewrite Hub, Hu1.
    + rewrite tt_forward_found in * by (rewrite ?Hi1; done).
      rewrite Hi1 in *.
      assert (err_msg m1 = None).
      { revert Hnone. unfold revisited. simpl.
        destruct (no_progr_chk cfg); [done|]. unfold set_e_cnt. by rewrite wr_node_err_msg. }
      by rewrite Hm1.
  - destruct e as [msg|]; simpl declare_error.
    + destruct (negb (no_sanity_chk cfg) && is_set (err_msg (set_err_msg (Some msg) m))).
      * simpl. by rewrite err_msg_report_error.
      * done.
    + rewrite Herr. simpl. by rewrite andb_false_r.
Qed.

(** The machine after the second firing of a transition from [n1] has
    looked up the successor as [n2] (0 if it is not stored). *)
Definition recorded (m : machine) (n1 n2 : nat) : machine :=
  set_hash_was_new (if n2 =? 0 then hash_was_new m else false)
    (set_iedges (<[ie_end (nd m n2) := n1]> (iedges m))
       (set_ie_end n2 (S (ie_end (nd m n2))) m)).

Lemma tt_backward_spec m n1 t :
  ready m n1 → length t = nr_words →
  tt_backward n1 (loaded m t) = recorded m n1 (index_of m t).
Proof.
  intros Hr Ht. pose proof Hr as (Hok & Hnr & Hn1 & Hs).
  pose proof (hash_ok_data m Hok) as Hd.
  pose proof (index_of_bound m t Hok) as Hb.
  unfold tt_backward, hash_find, recorded, set_ie_end.
  destruct (decide (index_of m t = 0)) as [E|E].
  - rewrite (hash_try_absent (loaded m t));
      [|by apply hash_ok_loaded|by rewrite scratch_loaded, index_of_loaded].
    rewrite E. simpl Nat.eqb. cbv iota.
    rewrite !wr_node_in_range by (simpl; lia).
    apply machine_eq; try done.
    + etrans; [|done].
      apply (fire_init_restores m _ n1 t); [done|done|done|simpl; by rewrite length_insert].
    + simpl. by rewrite length_insert.
  - rewrite hash_try_loaded_found by done.
    replace (index_of m t =? 0) with false by (symmetry; by apply Nat.eqb_neq).
    rewrite !wr_node_in_range by (simpl; lia).
    apply machine_eq; try done.
    + etrans; [|done].
      apply (fire_init_restores m _ n1 t); [done|done|done|simpl; by rewrite length_insert].
    + simpl. by rewrite length_insert.
Qed.

(** The effect of a firing from the stored node [q] that ends without an
    error. *)
Definition visit (q : nat) (m : machine) (tr : nat) : machine :=
  match succ_state tr (state_at m q) with
  | None => m
  | Some t =>
      if negb (no_progr_chk cfg) && bss_second m then recorded m q (index_of m t)
      else if decide (index_of m t = 0) then discovered m q t
      else revisited m (index_of m t)
  end.

Lemma try_transition_backward m n1 tr :
  ready m n1 → err_msg m = None → negb (no_progr_chk cfg) && bss_second m = true →
  err_msg (try_transition n1 tr m).2 = None →
  (try_transition n1 tr m).2 = visit n1 m tr.
Proof.
  intros Hr Herr Hbw. pose proof Hr as (Hok & Hnr & Hn1 & Hs).
  pose proof (hash_ok_data m Hok) as Hd.
  unfold try_transition, visit. rewrite (call_fire_ready m n1 tr Hr). unfold succ_state.
  destruct (fire_transition mdl tr (state_at m n1)) as [[s'|] e]; simpl fst.
  - destruct e as [msg|]; simpl declare_error.
    + change (err_msg (loaded (set_err_msg (Some msg) m) (norm_state s'))) with (Some msg).
      simpl is_set. rewrite andb_true_r.
      destruct (no_sanity_chk cfg); simpl negb; cbv iota.
      * rewrite call_symmetry_loaded by (done || apply length_norm_state).
        change (bss_second (loaded (set_err_msg (Some msg) m) (canon (norm_state s'))))
          with (bss_second m).
        rewrite Hbw. simpl snd.
        rewrite tt_backward_spec;
          [|by apply (ready_declare_error (Some msg))|apply length_canon, length_norm_state].
        unfold recorded, set_ie_end. simpl. by rewrite wr_node_err_msg.
      * simpl. by rewrite err_msg_report_error.
    + change (err_msg (loaded m (norm_state s'))) with (err_msg m). rewrite Herr.
      simpl is_set. rewrite andb_false_r. simpl negb. cbv iota.
      rewrite call_symmetry_loaded by (done || apply length_norm_state).
      change (bss_second (loaded m (canon (norm_state s')))) with (bss_second m).
      rewrite Hbw. simpl snd. intros _.
      apply tt_backward_spec; [done|apply length_canon, length_norm_state].
  - destruct e as [msg|]; simpl declare_error.
    + destruct (negb (no_sanity_chk cfg) && is_set (err_msg (set_err_msg (Some msg) m))).
      * simpl. by rewrite err_msg_report_error.
      * done.
    + rewrite Herr. simpl. by rewrite andb_false_r.
Qed.

Lemma try_transition_visit m n1 tr :
  ready m n1 → err_msg m = None →
  err_msg (try_transition n1 tr m).2 = None → ub (try_transition n1 tr m).2 = ub m →
  (try_transition n1 tr m).2 = visit n1 m tr.
Proof.
  intros Hr Herr Hnone Hub.
  destruct (negb (no_progr_chk cfg) && bss_second m) eqn:Emode.
  - by apply try_transition_backward.
  - assert (Hfw : forward m).
    { unfold forward. destruct (no_progr_chk cfg), (bss_second m); done. }
    pose proof (try_transition_forward m n1 tr Hr Herr Hfw Hnone Hub) as H.
    unfold visit. rewrite Emode.
    destruct (succ_state tr (state_at m n1)) as [t|]; [|by rewrite H].
    destruct (decide (index_of m t = 0)); [by destruct H as [-> _]|by rewrite H].
Qed.

(** ** The log of undefined accesses only grows *)

Lemma ub_hash_try no_ins m : ub m `prefix_of` ub (hash_try no_ins m).2.
Proof.
  unfold hash_try. destruct (hash_lookup m) as [ni|]; [|by apply prefix_app_r].
  destruct (negb (ni =? 0)); [done|]. destruct no_ins; [done|].
  destruct (stop_count cfg <? length (nodes m)); [done|]. simpl.
  set (m1 := set_st_data _ _).
  assert (H1 : ub m = ub m1) by done. rewrite H1. clearbody m1.
  set (m2 := if no_progr_chk cfg then _ else _).
  assert (H2 : ub m1 `prefix_of` ub m2).
  { unfold m2. destruct (no_progr_chk cfg); [done|]. apply ub_wr_node. }
  etrans; [exact H2|]. apply ub_wr_node.
Qed.

Lemma ub_tt_forward n1 m : ub m `prefix_of` ub (tt_forward n1 m).
Proof.
  unfold tt_forward, hash_insert.
  pose proof (ub_hash_try false m) as H. destruct (hash_try false m) as [n2 m1]. simpl in H.
  etrans; [exact H|]. etrans; [|apply ub_tt_new].
  destruct (no_progr_chk cfg); [done|]. apply (ub_wr_node _ _ _ (set_nr_edges _ m1)).
Qed.

Lemma ub_tt_backward n1 m : ub m `prefix_of` ub (tt_backward n1 m).
Proof.
  unfold tt_backward, hash_find.
  pose proof (ub_hash_try true m) as H. destruct (hash_try true m) as [n2 m1]. simpl in H.
  etrans; [exact H|]. simpl. apply ub_wr_node.
Qed.

Lemma ub_call_fire tr m : ub (call_fire tr m).2 = ub m.
Proof.
  unfold call_fire. destruct (fire_transition mdl tr (cur_state m)) as [[s'|] [e|]]; done.
Qed.

Lemma ub_call_symmetry m : ub (call_symmetry m) = ub m.
Proof. unfold call_symmetry. by destruct (symmetry cfg). Qed.

Lemma ub_try_transition n1 tr m : ub m `prefix_of` ub (try_transition n1 tr m).2.
Proof.
  unfold try_transition.
  pose proof (ub_call_fire tr m) as H. destruct (call_fire tr m) as [en m1]. simpl in H.
  rewrite <- H.
  destruct (negb (no_sanity_chk cfg) && is_set (err_msg m1)); [apply ub_report_error|].
  destruct (negb en); [done|].
  rewrite <- (ub_call_symmetry m1).
  destruct (negb (no_progr_chk cfg) && bss_second (call_symmetry m1)); simpl.
  - apply ub_tt_backward.
  - apply ub_tt_forward.
Qed.

Lemma ub_try_all q trs m : ub m `prefix_of` ub (try_all q trs m).2.
Proof.
  revert m. induction trs as [|tr trs IH]; intros m; simpl; [done|].
  pose proof (ub_try_transition q tr m) as H.
  destruct (try_transition q tr m) as [b m1]. simpl in H.
  destruct (is_set (err_msg m1)); [done|]. etrans; [exact H|apply IH].
Qed.

Lemma prefix_antisym {A} (l k : list A) : l `prefix_of` k → k `prefix_of` l → l = k.
Proof.
  intros [x ->] H%prefix_length. rewrite length_app in H.
  destruct x; [by rewrite app_nil_r|simpl in H; lia].
Qed.

(** ** A firing keeps the machine ready *)

Lemma hash_ok_discovered m n1 t :
  hash_ok m → length t = nr_words → index_of m t = 0 → 1 ≤ n1 < length (nodes m) →
  hash_ok (discovered m n1 t).
Proof.
  intros Hok Ht E Hn1. pose proof (hash_ok_data m Hok) as Hd.
  assert (Hi : hash_ok (inserted (loaded m t))).
  { apply hash_ok_inserted; [by apply hash_ok_loaded|].
    by rewrite scratch_loaded, index_of_loaded. }
  assert (Hl : length (nodes (inserted (loaded m t))) = S (length (nodes m)))
    by (by rewrite length_inserted).
  revert Hi. apply hash_ok_ext.
  - rewrite Hl. unfold discovered. simpl. rewrite length_app. simpl. lia.
  - unfold discovered, inserted, loaded. simpl.
    rewrite !length_app, length_take, length_replicate, Ht.
    rewrite length_state_at by nia. lia.
  - intros ni. rewrite nd_inserted. unfold hash_idx. rewrite scratch_loaded by done.
    unfold nd at 1, discovered. simpl nodes.
    case_decide as Hni.
    + subst ni. simpl. rewrite lookup_app_r by lia. by rewrite Nat.sub_diag.
    + simpl. destruct (decide (ni < length (nodes m))).
      * rewrite lookup_app_l by lia. reflexivity.
      * unfold nd. simpl nodes.
        rewrite !lookup_ge_None_2; [done| |rewrite length_app; simpl]; lia.
  - unfold discovered, inserted. simpl. unfold hash_idx. by rewrite scratch_loaded.
  - rewrite Hl. intros ni Hni.
    rewrite state_at_inserted by (rewrite loaded_length by done; nia).
    unfold state_at at 1, discovered. simpl st_data.
    unfold state_at at 1, loaded. simpl st_data.
    rewrite app_assoc. rewrite slot_before; [done|].
    rewrite length_app, length_take. nia.
Qed.

Lemma state_at_discovered m n1 t k :
  length (st_data m) = (length (nodes m) + 1) * nr_words → length t = nr_words →
  1 ≤ n1 < length (nodes m) →
  state_at (discovered m n1 t) k
  = if decide (k = length (nodes m)) then t
    else if decide (k = S (length (nodes m))) then state_at m n1
    else state_at m k.
Proof.
  intros Hd Ht Hn1. unfold state_at at 1, discovered. simpl st_data.
  assert (Hs : length (state_at m n1) = nr_words) by (apply length_state_at; nia).
  destruct (decide (k < length (nodes m))) as [Hk|Hk].
  - rewrite !decide_False by lia.
    rewrite slot_before by (rewrite length_take; nia).
    unfold state_at. apply list_eq. intros i. rewrite !slot_lookup. case_decide; [|done].
    apply lookup_take_lt. nia.
  - destruct (decide (k = length (nodes m))) as [->|Hk2].
    + apply slot_of_app; [rewrite length_take; lia|done].
    + rewrite app_assoc. destruct (decide (k = S (length (nodes m)))) as [->|Hk3].
      * pose proof (slot_of_app (take (length (nodes m) * nr_words) (st_data m) ++ t)
                      (state_at m n1) [] (S (length (nodes m))) nr_words) as H.
        rewrite app_nil_r in H. apply H; [|done].
        rewrite length_app, length_take. lia.
      * rewrite drop_ge; [|rewrite !length_app, length_take; nia].
        unfold state_at. rewrite drop_ge by nia. done.
Qed.

Lemma ready_discovered m n1 t :
  ready m n1 → length t = nr_words → index_of m t = 0 → ready (discovered m n1 t) n1.
Proof.
  intros (Hok & Hnr & Hn1 & Hs) Ht E. pose proof (hash_ok_data m Hok) as Hd.
  split; [by apply hash_ok_discovered|].
  assert (Hl : length (nodes (discovered m n1 t)) = S (length (nodes m))).
  { unfold discovered. simpl. rewrite length_app. simpl. lia. }
  split; [by rewrite Hl|]. split; [rewrite Hl; lia|].
  unfold scratch. rewrite Hl. rewrite !state_at_discovered by done.
  rewrite decide_False by lia. rewrite decide_True by done.
  rewrite !decide_False by lia. done.
Qed.

Lemma ready_ext m m' n1 :
  length (nodes m') = length (nodes m) → st_data m' = st_data m →
  state_nr m' = state_nr m →
  (∀ ni, h_next (nd m' ni) = h_next (nd m ni)) → hash_tbl m' = hash_tbl m →
  ready m n1 → ready m' n1.
Proof.
  intros Hn Hd Hnr Hh Ht (Hok & Hnr' & Hn1 & Hs).
  assert (Hst : ∀ k, state_at m' k = state_at m k) by (intros; unfold state_at; by rewrite Hd).
  split; [|split; [|split]].
  - revert Hok. apply hash_ok_ext; try done. by rewrite Hd.
  - by rewrite Hnr, Hn.
  - by rewrite Hn.
  - unfold scratch. by rewrite Hn, !Hst.
Qed.

Lemma ready_revisited m n1 n2 : ready m n1 → ready (revisited m n2) n1.
Proof.
  apply ready_ext; unfold revisited, set_e_cnt; destruct (no_progr_chk cfg); simpl;
    rewrite ?wr_node_length, ?wr_node_st_data, ?wr_node_state_nr, ?wr_node_hash_tbl; try done.
  intros ni. unfold nd at 1. simpl nodes. fold (nd (wr_node F_e_cnt n2
    (with_e_cnt (u32 (e_cnt (nd m n2) + 1))) m) ni).
  rewrite nd_wr_node. by case_decide as H; [destruct H as [-> _]|].
Qed.

Lemma ready_recorded m n1 n2 : ready m n1 → ready (recorded m n1 n2) n1.
Proof.
  apply ready_ext; unfold recorded, set_ie_end; simpl;
    rewrite ?wr_node_length, ?wr_node_st_data, ?wr_node_state_nr, ?wr_node_hash_tbl; try done.
  intros ni. unfold nd at 1. simpl nodes.
  fold (nd (wr_node F_ie_end n2 (with_ie_end (S (ie_end (nd m n2)))) m) ni).
  rewrite nd_wr_node. by case_decide as H; [destruct H as [-> _]|].
Qed.

Lemma ready_visit m q tr : ready m q → ready (visit q m tr) q.
Proof.
  intros Hr. unfold visit.
  destruct (succ_state tr (state_at m q)) as [t|] eqn:E; [|done].
  apply succ_state_length in E.
  destruct (negb (no_progr_chk cfg) && bss_second m); [by apply ready_recorded|].
  case_decide; [by apply ready_discovered|by apply ready_revisited].
Qed.


(** The loop over the transitions of [q], when it ends with no error
    message and no undefined access. *)
Lemma try_all_visit q trs m :
  ready m q → err_msg m = None →
  err_msg (try_all q trs m).2 = None → ub (try_all q trs m).2 = ub m →
  try_all q trs m = (false, foldl (visit q) m trs).
Proof.
  revert m. induction trs as [|tr trs IH]; intros m Hr Herr; simpl; [done|].
  pose proof (try_transition_visit m q tr Hr Herr) as Hv.
  pose proof (ub_try_transition q tr m) as Hp.
  destruct (try_transition q tr m) as [b m1]. simpl in Hv, Hp.
  destruct (err_msg m1) as [msg|] eqn:E1; simpl is_set; cbv iota; [simpl; congruence|].
  intros Hnone Hub.
  assert (Hu1 : ub m1 = ub m).
  { symmetry. apply prefix_antisym; [done|]. rewrite <- Hub. apply ub_try_all. }
  specialize (Hv eq_refl Hu1). subst m1.
  apply IH; [by apply ready_visit|done|done|by rewrite Hub].
Qed.

(** ** The construction without its error branches *)

(** What [build_state_space] does for the stored node [q] when no error
    arises: the state is copied to the scratch slot, the transitions are
    fired in their order, and a terminal state is made current for
    [check_deadlock]. *)
Definition expand (q : nat) (m : machine) : machine :=
  let m1 := foldl (visit q) (fire_init q m) (trans_order (nr_trans m)) in
  if (no_progr_chk cfg || negb (bss_second m1)) && (nr_edges m =? nr_edges m1)%Z
     && chk_deadlock cfg
  then use_state q m1 else m1.

Fixpoint explore (fuel q : nat) (m : machine) : machine :=
  match fuel with
  | O => undefined (Out_of_fuel "build_state_space") m
  | S fuel' => if q <? length (nodes m) then explore fuel' (S q) (expand q m) else m
  end.

Lemma ready_fire_init q m :
  hash_ok m → 1 ≤ q < length (nodes m) → ready (fire_init q m) q.
Proof.
  intros Hok Hq. pose proof (hash_ok_data m Hok) as Hd.
  split; [apply hash_ok_fire_init; [lia|done]|]. split; [done|]. split; [done|].
  unfold scratch. rewrite fire_init_nodes, !state_at_fire_init by lia.
  rewrite decide_True by done. by rewrite decide_False by lia.
Qed.

Lemma try_all_returned q trs m m1 : try_all q trs m = (true, m1) → err_msg m1 ≠ None.
Proof.
  revert m. induction trs as [|tr trs IH]; intros m; simpl; [done|].
  destruct (try_transition q tr m) as [b m2].
  destruct (err_msg m2) eqn:E; simpl; [|apply IH]. by intros [= <-]; rewrite E.
Qed.

Lemma try_all_not_returned q trs m m1 :
  try_all q trs m = (false, m1) → err_msg m = None → err_msg m1 = None.
Proof.
  revert m. induction trs as [|tr trs IH]; intros m; simpl; [by intros [= <-]|].
  destruct (try_transition q tr m) as [b m2].
  destruct (err_msg m2) eqn:E; simpl; [done|]. intros H _. by eapply IH.
Qed.

Lemma ub_bss_loop fuel q m : ub m `prefix_of` ub (bss_loop fuel q m).
Proof.
  revert q m. induction fuel as [|fuel IH]; intros q m; simpl; [by apply prefix_app_r|].
  destruct (q <? length (nodes m)); [|done].
  pose proof (ub_try_all q (trans_order (nr_trans (fire_init q m))) (fire_init q m)) as H.
  destruct (try_all _ _ _) as [ret m1]. simpl in H.
  change (ub (fire_init q m)) with (ub m) in H.
  destruct ret; [done|].
  destruct (_ && chk_deadlock cfg).
  - destruct (is_set _).
    + etrans; [exact H|]. apply (ub_report_error _ _ (set_err_msg _ (use_state q m1))).
    + etrans; [exact H|]. apply (IH _ (set_err_msg _ (use_state q m1))).
  - etrans; [exact H|apply IH].
Qed.

Lemma set_err_msg_same m : set_err_msg (err_msg m) m = m.
Proof. by destruct m. Qed.

Lemma hash_ok_use_state k m : hash_ok m → hash_ok (use_state k m).
Proof. by apply hash_ok_ext. Qed.

Lemma ready_foldl_visit q trs m : ready m q → ready (foldl (visit q) m trs) q.
Proof.
  revert m. induction trs as [|tr trs IH]; intros m Hr; simpl; [done|].
  by apply IH, ready_visit.
Qed.


Lemma hash_ok_expand q m :
  hash_ok m → 1 ≤ q < length (nodes m) → hash_ok (expand q m).
Proof.
  intros Hok Hq. unfold expand.
  pose proof (ready_foldl_visit q (trans_order (nr_trans m)) _ (ready_fire_init q m Hok Hq))
    as (Hok' & _).
  destruct (_ && chk_deadlock cfg); [by apply hash_ok_use_state|done].
Qed.


(** The loop of [build_state_space], when it ends with no error message,
    no undefined access and within its bound. *)
Lemma bss_loop_explore fuel q m :
  hash_ok m → 1 ≤ q → err_msg m = None →
  err_msg (bss_loop fuel q m) = None → ub (bss_loop fuel q m) = ub m →
  bss_loop fuel q m = explore fuel q m.
Proof.
  revert q m. induction fuel as [|fuel IH]; intros q m Hok Hq Herr; simpl; [done|].
  destruct (q <? length (nodes m)) eqn:Eq; [|done]. apply Nat.ltb_lt in Eq.
  pose proof (ready_fire_init q m Hok (conj Hq Eq)) as Hr.
  change (nr_trans (fire_init q m)) with (nr_trans m).
  pose proof (try_all_visit q (trans_order (nr_trans m)) (fire_init q m) Hr Herr) as Hv.
  pose proof (ub_try_all q (trans_order (nr_trans m)) (fire_init q m)) as Hp.
  pose proof (try_all_returned q (trans_order (nr_trans m)) (fire_init q m)) as Hret.
  pose proof (try_all_not_returned q (trans_order (nr_trans m)) (fire_init q m)) as Hnret.
  destruct (try_all q (trans_order (nr_trans m)) (fire_init q m)) as [ret m1].
  simpl in Hv, Hp. change (ub (fire_init q m)) with (ub m) in Hv, Hp.
  destruct ret.
  { intros Hnone _. by destruct (Hret m1 eq_refl). }
  specialize (Hnret m1 eq_refl Herr).
  assert (Hfin : ∀ m2, ub m2 = ub m1 → hash_ok m2 → err_msg m2 = None →
            (ub m1 = ub m → m2 = expand q m) →
            err_msg (bss_loop fuel (S q) m2) = None → ub (bss_loop fuel (S q) m2) = ub m →
            bss_loop fuel (S q) m2 = explore fuel (S q) (expand q m)).
  { intros m2 Hu2 Hok2 He2 Hm2 Hnone Hub.
    assert (Hu1 : ub m1 = ub m).
    { symmetry. apply prefix_antisym; [done|]. rewrite <- Hub, <- Hu2. apply ub_bss_loop. }
    rewrite <- (Hm2 Hu1). apply IH; [done|lia|done|done|]. by rewrite Hub, Hu2, Hu1. }
  assert (Hm1 : ub m1 = ub m → m1 = foldl (visit q) (fire_init q m) (trans_order (nr_trans m))).
  { intros Hu1. specialize (Hv Hnret Hu1). by injection Hv. }
  assert (Hok1 : ub m1 = ub m → hash_ok m1).
  { intros Hu1. rewrite (Hm1 Hu1). by apply ready_foldl_visit. }
  change (nr_edges (fire_init q m)) with (nr_edges m) || idtac.
  destruct ((no_progr_chk cfg || negb (bss_second m1)) && (nr_edges m =? nr_edges m1)%Z
            && chk_deadlock cfg) eqn:Ecnd.
  - destruct (check_deadlock mdl (cur_state (use_state q m1))) as [msg|] eqn:Edl.
    + simpl is_set. cbv iota.
      rewrite (err_msg_report_error _ _ (set_err_msg (Some msg) (use_state q m1))). done.
    + simpl is_set. cbv iota.
      replace (set_err_msg None (use_state q m1)) with (use_state q m1)
        by (rewrite <- Hnret; by destruct m1).
      intros Hnone Hub.
      assert (Hu1 : ub m1 = ub m).
      { symmetry. apply prefix_antisym; [done|]. rewrite <- Hub.
        apply (ub_bss_loop _ _ (use_state q m1)). }
      apply Hfin; try done.
      * by apply hash_ok_use_state, Hok1.
      * intros _. unfold expand. rewrite <- (Hm1 Hu1). by rewrite Ecnd.
  - intros Hnone Hub.
    assert (Hu1 : ub m1 = ub m).
    { symmetry. apply prefix_antisym; [done|]. rewrite <- Hub. apply ub_bss_loop. }
    apply Hfin; try done.
    * by apply Hok1.
    * intros _. unfold expand. rewrite <- (Hm1 Hu1). by rewrite Ecnd.
Qed.

(** ** The transition graph of the stored states and the [prev] tree *)

(** Some transition leads from the state of node [a] to the state of
    node [b]. *)
Definition edge (m : machine) (a b : nat) : Prop :=
  ∃ tr, tr < nr_trans m ∧ succ_state tr (state_at m a) = Some (state_at m b).

(** [path m a b k]: a path of [k] edges from [a] to [b] through stored
    nodes. *)
Inductive path (m : machine) (a : nat) : nat → nat → Prop :=
  | path_nil : 1 ≤ a < length (nodes m) → path m a a 0
  | path_snoc b c k :
      path m a b k → 1 ≤ c < length (nodes m) → edge m b c → path m a c (S k).

(** The nodes that [print_history( ni )] visits, in the order in which it
    prints them. *)
Fixpoint prev_chain (fuel : nat) (m : machine) (ni : nat) : list nat :=
  if ni =? 0 then []
  else match fuel with
       | O => []
       | S fuel' => prev_chain fuel' m (prev (nd m ni)) ++ [ni]
       end.

Definition history (m : machine) (ni : nat) : list nat :=
  prev_chain (length (nodes m)) m ni.

(** The number of [prev] steps from [ni] back to the first node of its
    history. *)
Definition depth (m : machine) (ni : nat) : nat := length (history m ni) - 1.

(** [m'] has the nodes of [m], with the same [prev] and the same states,
    and maybe more. *)
Definition grows (m m' : machine) : Prop :=
  length (nodes m) ≤ length (nodes m') ∧ nr_trans m' = nr_trans m ∧
  (∀ ni, ni < length (nodes m) → prev (nd m' ni) = prev (nd m ni)) ∧
  (∀ ni, 1 ≤ ni < length (nodes m) → state_at m' ni = state_at m ni).

(** The [prev] fields form a tree rooted at node 1 whose edges are
    transitions, found from nodes up to [q], with depths in the order of the
    node numbers. *)
Definition tree_ok (q : nat) (m : machine) : Prop :=
  prev (nd m 1) = 0 ∧
  (∀ ni, 2 ≤ ni < length (nodes m) →
     1 ≤ prev (nd m ni) < ni ∧ prev (nd m ni) ≤ q ∧ edge m (prev (nd m ni)) ni) ∧
  (∀ a b, 1 ≤ a → a ≤ b → b < length (nodes m) → depth m a ≤ depth m b).

(** Every transition of the nodes below [q], and every transition in [dn]
    of [q] itself, leads to a stored node that is at most one step
    deeper. *)
Definition closed_upto (q : nat) (dn : list nat) (m : machine) : Prop :=
  ∀ a tr t, 1 ≤ a < length (nodes m) → a < q ∨ (a = q ∧ tr ∈ dn) → tr < nr_trans m →
    succ_state tr (state_at m a) = Some t →
    index_of m t ≠ 0 ∧ depth m (index_of m t) ≤ depth m a + 1.

Lemma grows_refl m : grows m m.
Proof. by repeat split. Qed.

Lemma grows_trans m1 m2 m3 : grows m1 m2 → grows m2 m3 → grows m1 m3.
Proof.
  intros (H1 & H2 & H3 & H4) (G1 & G2 & G3 & G4). repeat split.
  - lia.
  - by rewrite G2.
  - intros ni Hni. rewrite G3 by lia. by apply H3.
  - intros ni Hni. rewrite G4 by lia. by apply H4.
Qed.

Lemma prev_chain_ext m m' f f' ni :
  (∀ nj, 1 ≤ nj ≤ ni → prev (nd m nj) < nj) →
  (∀ nj, 1 ≤ nj ≤ ni → prev (nd m' nj) = prev (nd m nj)) →
  ni < f → ni < f' →
  prev_chain f' m' ni = prev_chain f m ni.
Proof.
  revert f f'. induction (lt_wf ni) as [ni _ IH]. intros f f' Hdec Hext Hf Hf'.
  destruct f as [|f]; [lia|]. destruct f' as [|f']; [lia|]. simpl.
  destruct (ni =? 0) eqn:E; [done|]. apply Nat.eqb_neq in E.
  assert (prev (nd m ni) < ni) by (apply Hdec; lia).
  rewrite Hext by lia. f_equal.
  apply IH; [done| | |lia|lia]; intros nj Hnj; [apply Hdec|apply Hext]; lia.
Qed.

Lemma tree_prev_lt q m nj :
  tree_ok q m → 1 ≤ nj < length (nodes m) → prev (nd m nj) < nj.
Proof.
  intros (H1 & H2 & _) Hnj. destruct (decide (nj = 1)) as [->|]; [rewrite H1; lia|].
  destruct (H2 nj) as [? _]; lia.
Qed.

Lemma history_grows q m m' ni :
  tree_ok q m → grows m m' → ni < length (nodes m) → history m' ni = history m ni.
Proof.
  intros Ht (G1 & G2 & G3 & G4) Hni. unfold history.
  apply prev_chain_ext; [| |lia|lia].
  - intros nj Hnj. apply (tree_prev_lt q); [done|lia].
  - intros nj Hnj. apply G3. lia.
Qed.

Lemma depth_grows q m m' ni :
  tree_ok q m → grows m m' → ni < length (nodes m) → depth m' ni = depth m ni.
Proof. intros. unfold depth. by erewrite history_grows. Qed.

Lemma prev_chain_unfold f m ni :
  ni ≠ 0 → prev_chain (S f) m ni = prev_chain f m (prev (nd m ni)) ++ [ni].
Proof. intros H. simpl. by replace (ni =? 0) with false by (symmetry; by apply Nat.eqb_neq). Qed.

Lemma history_step q m ni :
  tree_ok q m → 2 ≤ ni < length (nodes m) →
  history m ni = history m (prev (nd m ni)) ++ [ni].
Proof.
  intros Ht Hni. unfold history.
  replace (length (nodes m)) with (S (length (nodes m) - 1)) at 1 by lia.
  rewrite prev_chain_unfold by lia. f_equal.
  pose proof (tree_prev_lt q m ni Ht) as Hp. specialize (Hp ltac:(lia)).
  apply prev_chain_ext; [|done|lia|lia].
  intros nj Hnj. apply (tree_prev_lt q); [done|lia].
Qed.

Lemma history_root q m : tree_ok q m → 2 ≤ length (nodes m) → history m 1 = [1].
Proof.
  intros (H1 & _) Hsz. unfold history.
  replace (length (nodes m)) with (S (length (nodes m) - 1)) by lia.
  rewrite prev_chain_unfold by lia. rewrite H1.
  by destruct (length (nodes m) - 1).
Qed.

Lemma history_nonempty q m ni :
  tree_ok q m → 1 ≤ ni < length (nodes m) → 1 ≤ length (history m ni).
Proof.
  intros Ht Hni. destruct (decide (ni = 1)) as [->|].
  - rewrite (history_root q) by (done || lia). simpl. lia.
  - rewrite (history_step q) by (done || lia). rewrite length_app. simpl. lia.
Qed.

Lemma depth_step q m ni :
  tree_ok q m → 2 ≤ ni < length (nodes m) → depth m ni = S (depth m (prev (nd m ni))).
Proof.
  intros Ht Hni. unfold depth. rewrite (history_step q) by done.
  rewrite length_app. simpl.
  pose proof Ht as (_ & H2 & _). destruct (H2 ni Hni) as (Hp & _ & _).
  pose proof (history_nonempty q m (prev (nd m ni)) Ht). lia.
Qed.

Lemma depth_root q m : tree_ok q m → 2 ≤ length (nodes m) → depth m 1 = 0.
Proof. intros Ht Hsz. unfold depth. by rewrite (history_root q). Qed.

(** No node is more than one step deeper than a node from which nodes are
    still being found. *)
Lemma depth_frontier q m b :
  tree_ok q m → 1 ≤ q < length (nodes m) → 1 ≤ b < length (nodes m) →
  depth m b ≤ depth m q + 1.
Proof.
  intros Ht Hq Hb. destruct (decide (b = 1)) as [->|Hb1].
  - rewrite (depth_root q) by (done || lia). lia.
  - rewrite (depth_step q) by (done || lia).
    pose proof Ht as (_ & H2 & H3). destruct (H2 b ltac:(lia)) as (Hp & Hpq & _).
    specialize (H3 (prev (nd m b)) q). lia.
Qed.

Lemma edge_grows m m' a b :
  grows m m' → 1 ≤ a < length (nodes m) → 1 ≤ b < length (nodes m) →
  edge m a b → edge m' a b.
Proof.
  intros (G1 & G2 & G3 & G4) Ha Hb (tr & Htr & Hs). exists tr.
  rewrite G2, !G4 by done. done.
Qed.

Lemma index_of_grows m m' s :
  hash_ok m' → grows m m' → index_of m s ≠ 0 → index_of m' s = index_of m s.
Proof.
  intros Hok (G1 & G2 & G3 & G4) Hne.
  destruct (index_of_spec m s _ eq_refl Hne) as [Hr Hs].
  rewrite <- Hs at 1. rewrite <- G4 by done. apply index_of_stored; [done|lia].
Qed.

(** *** What a firing leaves as it is *)

Lemma nd_discovered m n1 t ni :
  nd (discovered m n1 t) ni
  = if decide (ni = length (nodes m))
    then Node (bucket m (hash_value t)) n1 (if no_progr_chk cfg then 0 else 1) 0 0
    else nd m ni.
Proof.
  unfold nd, discovered. simpl. case_decide as H.
  - subst. rewrite lookup_app_r by lia. by rewrite Nat.sub_diag.
  - destruct (decide (ni < length (nodes m))).
    + by rewrite lookup_app_l by lia.
    + rewrite !lookup_ge_None_2; [done|lia|rewrite length_app; simpl; lia].
Qed.

Lemma length_discovered m n1 t : length (nodes (discovered m n1 t)) = S (length (nodes m)).
Proof. unfold discovered. simpl. rewrite length_app. simpl. lia. Qed.

Lemma grows_discovered m n1 t :
  hash_ok m → length t = nr_words → 1 ≤ n1 < length (nodes m) → grows m (discovered m n1 t).
Proof.
  intros Hok Ht Hn1. pose proof (hash_ok_data m Hok) as Hd. repeat split.
  - rewrite length_discovered. lia.
  - intros ni Hni. rewrite nd_discovered. by rewrite decide_False by lia.
  - intros ni Hni. rewrite state_at_discovered by done.
    by rewrite !decide_False by lia.
Qed.

Lemma nd_revisited m n2 ni :
  nd (revisited m n2) ni
  = if decide (ni = n2 ∧ n2 < length (nodes m) ∧ no_progr_chk cfg = false)
    then with_e_cnt (u32 (e_cnt (nd m n2) + 1)) (nd m n2) else nd m ni.
Proof.
  unfold revisited. destruct (no_progr_chk cfg).
  - rewrite decide_False; [done|]. by intros (_ & _ & ?).
  - unfold nd at 1. simpl nodes.
    fold (nd (set_e_cnt n2 (u32 (e_cnt (nd m n2) + 1)) m) ni).
    unfold set_e_cnt. rewrite nd_wr_node.
    destruct (decide (ni = n2 ∧ n2 < length (nodes m))) as [H|H].
    + rewrite decide_True by tauto. done.
    + rewrite decide_False by tauto. done.
Qed.

Lemma length_revisited m n2 : length (nodes (revisited m n2)) = length (nodes m).
Proof.
  unfold revisited. destruct (no_progr_chk cfg); [done|]. simpl. apply wr_node_length.
Qed.

Lemma state_at_revisited m n2 k : state_at (revisited m n2) k = state_at m k.
Proof.
  unfold revisited, state_at. destruct (no_progr_chk cfg); [done|]. simpl.
  unfold set_e_cnt. by rewrite wr_node_st_data.
Qed.

Lemma grows_revisited m n2 : grows m (revisited m n2).
Proof.
  repeat split.
  - by rewrite length_revisited.
  - unfold revisited. destruct (no_progr_chk cfg); [done|]. simpl. apply wr_node_nr_trans.
  - intros ni Hni. rewrite nd_revisited. by case_decide as H; [destruct H as [-> _]|].
  - intros. apply state_at_revisited.
Qed.

Lemma nd_recorded m n1 n2 ni :
  nd (recorded m n1 n2) ni
  = if decide (ni = n2 ∧ n2 < length (nodes m))
    then with_ie_end (S (ie_end (nd m n2))) (nd m n2) else nd m ni.
Proof.
  unfold recorded, nd at 1. simpl nodes.
  fold (nd (set_ie_end n2 (S (ie_end (nd m n2))) m) ni).
  unfold set_ie_end. by rewrite nd_wr_node.
Qed.

Lemma length_recorded m n1 n2 : length (nodes (recorded m n1 n2)) = length (nodes m).
Proof. unfold recorded. simpl. apply wr_node_length. Qed.

Lemma state_at_recorded m n1 n2 k : state_at (recorded m n1 n2) k = state_at m k.
Proof. unfold recorded, state_at. simpl. unfold set_ie_end. by rewrite wr_node_st_data. Qed.

Lemma grows_recorded m n1 n2 : grows m (recorded m n1 n2).
Proof.
  repeat split.
  - by rewrite length_recorded.
  - unfold recorded. simpl. apply wr_node_nr_trans.
  - intros ni Hni. rewrite nd_recorded. by case_decide as H; [destruct H as [-> _]|].
  - intros. apply state_at_recorded.
Qed.

Lemma grows_fire_init q m :
  hash_ok m → q ≤ length (nodes m) → grows m (fire_init q m).
Proof.
  intros Hok Hq. pose proof (hash_ok_data m Hok) as Hd. repeat split; try done.
  intros ni Hni. rewrite state_at_fire_init by lia. by rewrite decide_False by lia.
Qed.

Lemma grows_visit m q tr : ready m q → grows m (visit q m tr).
Proof.
  intros (Hok & Hnr & Hq & Hs). unfold visit.
  destruct (succ_state tr (state_at m q)) as [t|] eqn:E; [|apply grows_refl].
  apply succ_state_length in E.
  destruct (negb (no_progr_chk cfg) && bss_second m); [apply grows_recorded|].
  case_decide; [by apply grows_discovered|apply grows_revisited].
Qed.

Lemma ub_visit m q tr : hash_ok m → ub (visit q m tr) = ub m.
Proof.
  intros Hok. unfold visit. destruct (succ_state tr (state_at m q)) as [t|]; [|done].
  pose proof (index_of_bound m t Hok) as Hb.
  destruct (negb (no_progr_chk cfg) && bss_second m).
  - unfold recorded, set_ie_end. simpl. by rewrite wr_node_in_range.
  - case_decide; [done|]. unfold revisited. destruct (no_progr_chk cfg); [done|]. simpl.
    unfold set_e_cnt. by rewrite wr_node_in_range.
Qed.

(** *** The tree and the closure are kept by the construction *)

Lemma tree_ok_same q m m' :
  tree_ok q m → grows m m' → length (nodes m') = length (nodes m) → tree_ok q m'.
Proof.
  intros Ht Hg Hl. pose proof Ht as (H1 & H2 & H3). pose proof Hg as (G1 & G2 & G3 & G4).
  split; [|split].
  - destruct (decide (1 < length (nodes m))); [by rewrite G3|].
    unfold nd. by rewrite lookup_ge_None_2 by lia.
  - intros ni Hni. rewrite Hl in Hni. rewrite G3 by lia.
    destruct (H2 ni Hni) as (Hp & Hpq & He). split; [done|]. split; [done|].
    apply (edge_grows m); [done|lia|lia|done].
  - intros a b Ha Hab Hb. rewrite Hl in Hb.
    rewrite !(depth_grows q m m') by (done || lia). apply H3; lia.
Qed.

Lemma closed_grows q dn m m' :
  tree_ok q m → hash_ok m' → grows m m' → q < length (nodes m) →
  closed_upto q dn m → closed_upto q dn m'.
Proof.
  intros Ht Hok Hg Hq Hc a tr t Ha Haq Htr Hs.
  pose proof Hg as (G1 & G2 & G3 & G4).
  assert (Ha' : 1 ≤ a < length (nodes m)) by lia.
  rewrite G4 in Hs by done. rewrite G2 in Htr.
  destruct (Hc a tr t Ha' Haq Htr Hs) as [Hne Hd].
  rewrite (index_of_grows m m') by done. split; [done|].
  pose proof (index_of_bound m t) as Hb.
  destruct (index_of_spec m t _ eq_refl Hne) as [Hr _].
  rewrite !(depth_grows q m m') by (done || lia). done.
Qed.

Lemma closed_more q dn tr m :
  closed_upto q dn m →
  (∀ t, 1 ≤ q < length (nodes m) → succ_state tr (state_at m q) = Some t →
     index_of m t ≠ 0 ∧ depth m (index_of m t) ≤ depth m q + 1) →
  closed_upto q (dn ++ [tr]) m.
Proof.
  intros Hc Hnew a tr' t Ha Haq Htr Hs.
  destruct Haq as [Haq|[-> Hin]]; [apply (Hc a tr'); auto|].
  apply elem_of_app in Hin as [Hin|Hin]; [apply (Hc q tr'); auto|].
  apply list_elem_of_singleton in Hin as ->. by apply Hnew.
Qed.

Lemma depth_discovered q m t :
  tree_ok q m → 1 ≤ q < length (nodes m) →
  depth (discovered m q t) (length (nodes m)) = S (depth m q).
Proof.
  intros Ht Hq. unfold depth at 1, history. rewrite length_discovered.
  rewrite prev_chain_unfold by lia. rewrite nd_discovered, decide_True by done.
  simpl prev. rewrite length_app. simpl.
  rewrite (prev_chain_ext m (discovered m q t) (length (nodes m))); [| | |lia|lia].
  - fold (history m q). pose proof (history_nonempty q m q Ht Hq). unfold depth. lia.
  - intros nj Hnj. apply (tree_prev_lt q); [done|lia].
  - intros nj Hnj. rewrite nd_discovered. by rewrite decide_False by lia.
Qed.

(** One firing in the forward pass. *)
Lemma visit_tree m q tr dn :
  ready m q → forward m → tr < nr_trans m → tree_ok q m → closed_upto q dn m →
  tree_ok q (visit q m tr) ∧ closed_upto q (dn ++ [tr]) (visit q m tr).
Proof.
  intros Hr Hfw Htr Ht Hc. pose proof Hr as (Hok & Hnr & Hq & Hs).
  pose proof (ready_visit m q tr Hr) as (Hok' & _).
  pose proof (grows_visit m q tr Hr) as Hg.
  revert Hok' Hg. unfold visit.
  replace (negb (no_progr_chk cfg) && bss_second m) with false
    by (unfold forward in Hfw; destruct (no_progr_chk cfg), (bss_second m); done).
  destruct (succ_state tr (state_at m q)) as [t|] eqn:E.
  2:{ intros _ _. split; [done|]. apply closed_more; [done|]. intros t _. by rewrite E. }
  pose proof (succ_state_length _ _ _ E) as Hlt.
  pose proof (hash_ok_data m Hok) as Hd.
  case_decide as Hi; intros Hok' Hg.
  - (* a new node *)
    pose proof Hg as (G1 & G2 & G3 & G4).
    pose proof Ht as (H1 & H2 & H3).
    assert (Hsn : state_at (discovered m q t) (length (nodes m)) = t).
    { rewrite state_at_discovered by done. by rewrite decide_True. }
    assert (Hin : index_of (discovered m q t) t = length (nodes m)).
    { pose proof (index_of_stored (discovered m q t) (length (nodes m)) Hok') as X.
      rewrite Hsn in X. apply X. rewrite length_discovered. lia. }
    assert (Htree : tree_ok q (discovered m q t)).
    { split; [by rewrite G3 by lia|]. split.
      - intros ni Hni. rewrite length_discovered in Hni. rewrite nd_discovered.
        case_decide as Hn; simpl.
        + subst ni. split; [lia|]. split; [lia|].
          exists tr. rewrite G2, G4 by done. rewrite Hsn. done.
        + destruct (H2 ni ltac:(lia)) as (Hp & Hpq & He). split; [done|]. split; [done|].
          apply (edge_grows m); [done|lia|lia|done].
      - intros a b Ha Hab Hb. rewrite length_discovered in Hb.
        destruct (decide (b = length (nodes m))) as [->|Hb'].
        + rewrite depth_discovered by done.
          destruct (decide (a = length (nodes m))) as [->|Ha'].
          * rewrite depth_discovered by done. lia.
          * rewrite (depth_grows q m (discovered m q t)) by (done || lia).
            pose proof (depth_frontier q m a Ht Hq). lia.
        + rewrite !(depth_grows q m (discovered m q t)) by (done || lia). apply H3; lia. }
    split; [done|]. apply closed_more; [apply (closed_grows q dn m); [done|done|done|lia|done]|].
    intros t' _. rewrite G4 by done. rewrite E. intros [= <-].
    rewrite Hin. split; [lia|]. rewrite depth_discovered by done.
    rewrite (depth_grows q m (discovered m q t)) by (done || lia). lia.
  - (* a stored node *)
    assert (Htree : tree_ok q (revisited m (index_of m t))).
    { apply (tree_ok_same q m); [done|done|apply length_revisited]. }
    split; [done|]. apply closed_more; [apply (closed_grows q dn m); [done|done|done|lia|done]|].
    intros t' _. rewrite state_at_revisited, E. intros [= <-].
    rewrite (index_of_grows m) by done. split; [done|].
    destruct (index_of_spec m t _ eq_refl Hi) as [Hrange _].
    rewrite !(depth_grows q m (revisited m (index_of m t))) by (done || lia).
    by apply depth_frontier.
Qed.

Lemma bss_second_visit m q tr : bss_second (visit q m tr) = bss_second m.
Proof.
  unfold visit. destruct (succ_state tr (state_at m q)) as [t|]; [|done].
  destruct (negb (no_progr_chk cfg) && bss_second m).
  - unfold recorded, set_ie_end. simpl. by rewrite wr_node_bss_second.
  - case_decide; [done|]. unfold revisited. destruct (no_progr_chk cfg); [done|]. simpl.
    unfold set_e_cnt. by rewrite wr_node_bss_second.
Qed.

Lemma elem_of_trans_order n tr : tr ∈ trans_order n ↔ tr < n.
Proof.
  unfold trans_order. destruct (try_forward cfg).
  - rewrite elem_of_seq. lia.
  - rewrite list_elem_of_In, <- in_rev, <- list_elem_of_In, elem_of_seq. lia.
Qed.

Lemma foldl_visit_tree q trs dn m :
  ready m q → forward m → (∀ tr, tr ∈ trs → tr < nr_trans m) →
  tree_ok q m → closed_upto q dn m →
  tree_ok q (foldl (visit q) m trs) ∧ closed_upto q (dn ++ trs) (foldl (visit q) m trs).
Proof.
  revert dn m. induction trs as [|tr trs IH]; intros dn m Hr Hfw Htrs Ht Hc; simpl.
  - by rewrite app_nil_r.
  - destruct (visit_tree m q tr dn) as [Ht' Hc']; try done.
    { apply Htrs, list_elem_of_here. }
    pose proof (grows_visit m q tr Hr) as (_ & G2 & _).
    replace (dn ++ tr :: trs) with ((dn ++ [tr]) ++ trs) by (by rewrite <- app_assoc).
    apply IH; try done.
    + by apply ready_visit.
    + unfold forward. by rewrite bss_second_visit.
    + intros tr' Hin. rewrite G2. by apply Htrs, list_elem_of_further.
Qed.

Lemma grows_foldl_visit q trs m : ready m q → grows m (foldl (visit q) m trs).
Proof.
  revert m. induction trs as [|tr trs IH]; intros m Hr; simpl; [apply grows_refl|].
  eapply grows_trans; [by apply grows_visit|]. by apply IH, ready_visit.
Qed.

Lemma ub_foldl_visit q trs m : ready m q → ub (foldl (visit q) m trs) = ub m.
Proof.
  revert m. induction trs as [|tr trs IH]; intros m Hr; simpl; [done|].
  rewrite IH by (by apply ready_visit). apply ub_visit, Hr.
Qed.

Lemma bss_second_foldl_visit q trs m : bss_second (foldl (visit q) m trs) = bss_second m.
Proof.
  revert m. induction trs as [|tr trs IH]; intros m; simpl; [done|].
  by rewrite IH, bss_second_visit.
Qed.

Lemma grows_use_state k m : grows m (use_state k m).
Proof. by repeat split. Qed.

Lemma grows_expand q m :
  hash_ok m → 1 ≤ q < length (nodes m) → grows m (expand q m).
Proof.
  intros Hok Hq. unfold expand.
  assert (grows m (foldl (visit q) (fire_init q m) (trans_order (nr_trans m)))).
  { eapply grows_trans; [apply (grows_fire_init q); [done|lia]|].
    by apply grows_foldl_visit, ready_fire_init. }
  destruct (_ && chk_deadlock cfg); [|done].
  eapply grows_trans; [done|apply grows_use_state].
Qed.

Lemma ub_expand q m : hash_ok m → 1 ≤ q < length (nodes m) → ub (expand q m) = ub m.
Proof.
  intros Hok Hq. unfold expand.
  assert (ub (foldl (visit q) (fire_init q m) (trans_order (nr_trans m))) = ub m).
  { by rewrite ub_foldl_visit by (by apply ready_fire_init). }
  by destruct (_ && chk_deadlock cfg).
Qed.

Lemma bss_second_expand q m : bss_second (expand q m) = bss_second m.
Proof.
  unfold expand.
  assert (bss_second (foldl (visit q) (fire_init q m) (trans_order (nr_trans m)))
          = bss_second m) by (by rewrite bss_second_foldl_visit).
  by destruct (_ && chk_deadlock cfg).
Qed.

(** One round of the forward pass. *)
Lemma expand_tree q m :
  hash_ok m → forward m → 1 ≤ q < length (nodes m) →
  tree_ok q m → closed_upto q [] m →
  tree_ok (S q) (expand q m) ∧ closed_upto (S q) [] (expand q m).
Proof.
  intros Hok Hfw Hq Ht Hc.
  pose proof (ready_fire_init q m Hok Hq) as Hr.
  pose proof (grows_fire_init q m Hok ltac:(lia)) as Hg0.
  destruct (foldl_visit_tree q (trans_order (nr_trans m)) [] (fire_init q m)) as [Ht1 Hc1];
    try done.
  { by intros tr Htr%elem_of_trans_order. }
  { by apply (tree_ok_same q m). }
  { apply (closed_grows q [] m); [done|apply Hr|done|lia|done]. }
  pose proof (ready_foldl_visit q (trans_order (nr_trans m)) _ Hr) as Hr1.
  pose proof (grows_foldl_visit q (trans_order (nr_trans m)) _ Hr) as Hg1.
  assert (Hfin : ∀ m2, grows (foldl (visit q) (fire_init q m) (trans_order (nr_trans m))) m2 →
            length (nodes m2)
            = length (nodes (foldl (visit q) (fire_init q m) (trans_order (nr_trans m)))) →
            hash_ok m2 →
            tree_ok (S q) m2 ∧ closed_upto (S q) [] m2).
  { intros m2 Hg2 Hl2 Hok2. set (m1 := foldl _ _ _) in *.
    assert (Hq1 : q < length (nodes m1)).
    { destruct Hg1 as [G _]. simpl in G. lia. }
    pose proof (tree_ok_same q m1 m2 Ht1 Hg2 Hl2) as (T1 & T2 & T3).
    pose proof (closed_grows q _ m1 m2 Ht1 Hok2 Hg2 Hq1 Hc1) as Hc2.
    split.
    - split; [done|]. split; [|done].
      intros ni Hni. destruct (T2 ni Hni) as (? & ? & ?). split; [done|]. split; [lia|done].
    - intros a tr t Ha [Haq|[_ []%elem_of_nil]] Htr Hs.
      apply (Hc2 a tr t); try done.
      destruct (decide (a = q)) as [->|]; [right|left; lia].
      split; [done|]. simpl. apply elem_of_trans_order.
      destruct Hg1 as (_ & G & _). destruct Hg2 as (_ & G' & _).
      simpl in G. congruence. }
  unfold expand. destruct (_ && chk_deadlock cfg).
  - apply Hfin; [apply grows_use_state|done|by apply hash_ok_use_state, Hr1].
  - apply Hfin; [apply grows_refl|done|apply Hr1].
Qed.

(** The whole forward pass. *)
Lemma explore_tree fuel q m :
  hash_ok m → forward m → 1 ≤ q ≤ length (nodes m) →
  tree_ok q m → closed_upto q [] m →
  ub (explore fuel q m) = ub m →
  tree_ok (length (nodes (explore fuel q m))) (explore fuel q m)
  ∧ closed_upto (length (nodes (explore fuel q m))) [] (explore fuel q m)
  ∧ hash_ok (explore fuel q m) ∧ grows m (explore fuel q m).
Proof.
  revert q m. induction fuel as [|fuel IH]; intros q m Hok Hfw Hq Ht Hc; simpl.
  { intros H. exfalso. apply (prefix_longer (ub m) [] (Out_of_fuel "build_state_space")).
    rewrite H. done. }
  destruct (q <? length (nodes m)) eqn:Eq.
  - apply Nat.ltb_lt in Eq. intros Hub.
    destruct (expand_tree q m Hok Hfw ltac:(lia) Ht Hc) as [Ht1 Hc1].
    pose proof (grows_expand q m Hok ltac:(lia)) as Hg.
    assert (Hok1 : hash_ok (expand q m)) by (apply hash_ok_expand; [done|lia]).
    assert (Hfw1 : forward (expand q m)) by (unfold forward; by rewrite bss_second_expand).
    assert (Hq1 : 1 ≤ S q ≤ length (nodes (expand q m))) by (destruct Hg as [G _]; lia).
    assert (Hub1 : ub (explore fuel (S q) (expand q m)) = ub (expand q m))
      by (rewrite ub_expand by (done || lia); done).
    destruct (IH (S q) (expand q m) Hok1 Hfw1 Hq1 Ht1 Hc1 Hub1) as (R1 & R2 & R3 & R4).
    split; [done|]. split; [done|]. split; [done|]. by eapply grows_trans.
  - apply Nat.ltb_ge in Eq. intros _.
    assert (q = length (nodes m)) as -> by lia.
    split; [done|]. split; [done|]. split; [done|apply grows_refl].
Qed.

(** C5.  When the forward pass of [build_state_space], started on the
    stored initial state, ends with no error message and no undefined
    access, then for every node [ni]: the [prev] chain from [ni] starts at
    node 1 and runs along transitions, and no path from node 1 to [ni] in the
    transition graph of the stored states has fewer edges than the chain. *)
Theorem bfs_minimal m0 ni k :
  hash_ok m0 → length (nodes m0) = 2 → prev (nd m0 1) = 0 →
  err_msg m0 = None → forward m0 →
  err_msg (build_state_space m0) = None → ub (build_state_space m0) = ub m0 →
  1 ≤ ni < length (nodes (build_state_space m0)) →
  head (history (build_state_space m0) ni) = Some 1
  ∧ path (build_state_space m0) 1 ni (depth (build_state_space m0) ni)
  ∧ (path (build_state_space m0) 1 ni k → depth (build_state_space m0) ni ≤ k).
Proof.
  intros Hok Hsz Hp Herr Hfw Hnone Hub.
  unfold build_state_space in *.
  rewrite bss_loop_explore in * by (done || lia).
  set (fuel := length (nodes m0) + stop_count cfg + 2) in *. clearbody fuel.
  destruct (explore_tree fuel 1 m0) as (Ht & Hc & Hok' & Hg); try done.
  { lia. }
  { split; [done|]. split; [intros; lia|]. intros a b Ha Hab Hb.
    assert (a = 1 ∧ b = 1) as [-> ->] by lia. done. }
  { intros a tr t Ha [Haq|[_ []%elem_of_nil]]. lia. }
  set (m := explore fuel 1 m0) in *. clearbody m.
  set (sz := length (nodes m)) in *.
  intros Hni.
  assert (Hsz2 : 2 ≤ sz) by (unfold sz; lia).
  assert (Hhead : ∀ nj, 1 ≤ nj < sz → head (history m nj) = Some 1).
  { intros nj. induction (lt_wf nj) as [nj _ IH]. intros Hnj.
    destruct (decide (nj = 1)) as [->|].
    - by rewrite (history_root sz).
    - rewrite (history_step sz) by (done || lia).
      destruct Ht as (_ & T2 & _). destruct (T2 nj ltac:(lia)) as (Hpn & _ & _).
      specialize (IH (prev (nd m nj)) ltac:(lia) ltac:(lia)).
      destruct (history m (prev (nd m nj))); [done|]. done. }
  assert (Hpath : ∀ nj, 1 ≤ nj < sz → path m 1 nj (depth m nj)).
  { intros nj. induction (lt_wf nj) as [nj _ IH]. intros Hnj.
    destruct (decide (nj = 1)) as [->|].
    - rewrite (depth_root sz) by done. by apply path_nil.
    - rewrite (depth_step sz) by (done || lia).
      pose proof Ht as (_ & T2 & _). destruct (T2 nj ltac:(lia)) as (Hpn & _ & He).
      eapply path_snoc; [apply IH; lia|done|done]. }
  split; [by apply Hhead|]. split; [by apply Hpath|].
  clear Hni. intros Hk. induction Hk as [|b c k Hk IH Hc' He].
  - by rewrite (depth_root sz).
  - destruct He as (tr & Htr & Hs).
    assert (Hb : 1 ≤ b < sz).
    { clear -Hk. destruct Hk; [done|]. done. }
    destruct (Hc b tr _ Hb ltac:(left; lia) Htr Hs) as [_ Hd].
    rewrite index_of_stored in Hd by done. lia.
Qed.

(** ** Stored states are not written *)













Lemma nodes_print_history fuel ni m : nodes (print_history fuel ni m) = nodes m.
Proof.
  revert ni m. induction fuel as [|fuel IH]; intros ni m; simpl.
  - by destruct (ni =? 0).
  - destruct (ni =? 0); [done|]. simpl. apply IH.
Qed.



Lemma nodes_report_error ni msg m : nodes (report_error ni msg m) = nodes m.
Proof.
  unfold report_error. destruct (reported m); [done|]. simpl.
  apply (nodes_print_history _ ni (set_reported true m)).
Qed.


























(** ** The reporter prints once *)

Definition is_error_line (e : event) : bool :=
  match e with Ev_error _ _ => true | _ => false end.

(** The number of "!!! " lines on [std::cout]. *)
Definition error_lines (m : machine) : nat := length (List.filter is_error_line (cout m)).

(** The flag of [report_error] tells whether the line has been printed. *)
Definition rep_ok (m : machine) : Prop := error_lines m = if reported m then 1 else 0.

Lemma rep_ok_same m m' :
  cout m' = cout m → reported m' = reported m → rep_ok m → rep_ok m'.
Proof. unfold rep_ok, error_lines. by intros -> ->. Qed.

Lemma rep_ok_wr_node f ni g m : rep_ok m → rep_ok (wr_node f ni g m).
Proof. apply rep_ok_same; [apply wr_node_cout|apply wr_node_reported]. Qed.

Lemma rep_ok_emit e m : is_error_line e = false → rep_ok m → rep_ok (emit e m).
Proof.
  intros He. unfold rep_ok, error_lines, emit. simpl.
  rewrite List.filter_app, length_app. simpl. rewrite He. simpl. lia.
Qed.

Lemma reported_print_history fuel ni m : reported (print_history fuel ni m) = reported m.
Proof.
  revert ni m. induction fuel as [|fuel IH]; intros ni m; simpl.
  - by destruct (ni =? 0).
  - destruct (ni =? 0); [done|]. simpl. apply IH.
Qed.

Lemma error_lines_print_history fuel ni m :
  error_lines (print_history fuel ni m) = error_lines m.
Proof.
  revert ni m. induction fuel as [|fuel IH]; intros ni m; simpl.
  - by destruct (ni =? 0).
  - destruct (ni =? 0); [done|]. unfold error_lines at 1. simpl.
    rewrite List.filter_app, length_app. simpl.
    change (length (List.filter is_error_line (cout (print_history fuel (prev (nd m ni)) m))))
      with (error_lines (print_history fuel (prev (nd m ni)) m)).
    rewrite IH. lia.
Qed.

Lemma rep_ok_print_history fuel ni m : rep_ok m → rep_ok (print_history fuel ni m).
Proof. unfold rep_ok. by rewrite error_lines_print_history, reported_print_history. Qed.

Lemma report_error_again ni msg m : reported m = true → report_error ni msg m = m.
Proof. intros H. unfold report_error. by rewrite H. Qed.

Lemma reported_report_error ni msg m : reported (report_error ni msg m) = true.
Proof.
  unfold report_error. destruct (reported m) eqn:E; [done|]. simpl.
  by rewrite (reported_print_history _ ni (set_reported true m)).
Qed.

Lemma rep_ok_report_error ni msg m : rep_ok m → rep_ok (report_error ni msg m).
Proof.
  intros H. unfold rep_ok. rewrite reported_report_error.
  unfold report_error. destruct (reported m) eqn:E; [by rewrite H, E|].
  unfold error_lines. simpl. rewrite List.filter_app, length_app. simpl.
  change (length (List.filter is_error_line
            (cout (print_history (length (nodes m)) ni (set_reported true m)))))
    with (error_lines (print_history (length (nodes m)) ni (set_reported true m))).
  rewrite error_lines_print_history. unfold rep_ok in H. rewrite E in H.
  change (error_lines (set_reported true m)) with (error_lines m). lia.
Qed.

Lemma rep_ok_call_fire tr m : rep_ok m → rep_ok (call_fire tr m).2.
Proof.
  unfold call_fire. destruct (fire_transition mdl tr (cur_state m)) as [[s'|] [e|]];
    by apply rep_ok_same.
Qed.

Lemma rep_ok_call_symmetry m : rep_ok m → rep_ok (call_symmetry m).
Proof. unfold call_symmetry. destruct (symmetry cfg); by apply rep_ok_same. Qed.

Lemma rep_ok_hash_try no_ins m : rep_ok m → rep_ok (hash_try no_ins m).2.
Proof.
  intros H. unfold hash_try. destruct (hash_lookup m) as [ni|]; [|by apply (rep_ok_same m)].
  destruct (negb (ni =? 0)); [by apply (rep_ok_same m)|].
  destruct no_ins; [done|].
  destruct (stop_count cfg <? length (nodes m)); [by apply (rep_ok_same m)|]. simpl.
  set (m1 := set_st_data _ _). assert (H1 : rep_ok m1) by (by apply (rep_ok_same m)).
  clearbody m1.
  set (m2 := if no_progr_chk cfg then _ else _).
  assert (H2 : rep_ok m2) by (unfold m2; destruct (no_progr_chk cfg);
    [done|by apply rep_ok_wr_node]).
  clearbody m2.
  apply (rep_ok_same (set_h_next (length (nodes m)) (bucket m2 (hash_idx m)) m2)); try done.
  by apply rep_ok_wr_node.
Qed.

Lemma rep_ok_fire_init ni m : rep_ok m → rep_ok (fire_init ni m).
Proof. by apply rep_ok_same. Qed.

Lemma rep_ok_tt_new n1 n2 m : rep_ok m → rep_ok (tt_new n1 n2 m).
Proof.
  intros H. unfold tt_new. destruct (hash_was_new m); [|by apply rep_ok_fire_init].
  assert (H1 : rep_ok (set_prev n2 n1 m)) by (by apply rep_ok_wr_node).
  destruct (chk_state cfg); [|by apply rep_ok_fire_init].
  destruct (is_set _).
  - apply rep_ok_report_error. by apply (rep_ok_same (set_prev n2 n1 m)).
  - apply rep_ok_fire_init. by apply (rep_ok_same (set_prev n2 n1 m)).
Qed.

Lemma rep_ok_try_transition n1 tr m : rep_ok m → rep_ok (try_transition n1 tr m).2.
Proof.
  intros H. unfold try_transition.
  pose proof (rep_ok_call_fire tr m H) as H1.
  destruct (call_fire tr m) as [en m1]. simpl in H1.
  destruct (_ && is_set (err_msg m1)); [by apply rep_ok_report_error|].
  destruct (negb en); [done|].
  pose proof (rep_ok_call_symmetry m1 H1) as H2.
  destruct (_ && bss_second _); simpl.
  - unfold tt_backward, hash_find.
    pose proof (rep_ok_hash_try true _ H2) as H3.
    destruct (hash_try true (call_symmetry m1)) as [t m2]. simpl in H3.
    apply rep_ok_fire_init.
    apply (rep_ok_same (set_ie_end t (S (ie_end (nd m2 t))) m2)); try done.
    by apply rep_ok_wr_node.
  - unfold tt_forward, hash_insert.
    pose proof (rep_ok_hash_try false _ H2) as H3.
    destruct (hash_try false (call_symmetry m1)) as [n2 m2]. simpl in H3.
    apply rep_ok_tt_new. destruct (no_progr_chk cfg); [by apply (rep_ok_same m2)|].
    apply rep_ok_wr_node. by apply (rep_ok_same m2).
Qed.

Lemma rep_ok_try_all q trs m : rep_ok m → rep_ok (try_all q trs m).2.
Proof.
  revert m. induction trs as [|tr trs IH]; intros m H; simpl; [done|].
  pose proof (rep_ok_try_transition q tr m H) as H1.
  destruct (try_transition q tr m) as [b m1]. simpl in H1.
  destruct (is_set (err_msg m1)); [done|by apply IH].
Qed.

Lemma rep_ok_bss_loop fuel q m : rep_ok m → rep_ok (bss_loop fuel q m).
Proof.
  revert q m. induction fuel as [|fuel IH]; intros q m H; simpl; [by apply (rep_ok_same m)|].
  destruct (q <? length (nodes m)); [|done].
  pose proof (rep_ok_try_all q (trans_order (nr_trans (fire_init q m))) (fire_init q m)
                (rep_ok_fire_init q m H)) as H1.
  destruct (try_all _ _ _) as [ret m1]. simpl in H1.
  destruct ret; [done|].
  destruct (_ && chk_deadlock cfg); [|by apply IH].
  destruct (is_set _).
  - apply rep_ok_report_error. by apply (rep_ok_same m1).
  - apply IH. by apply (rep_ok_same m1).
Qed.

Lemma rep_ok_foldl {A} (f : machine → A → machine) (l : list A) m :
  (∀ m x, rep_ok m → rep_ok (f m x)) → rep_ok m → rep_ok (foldl f m l).
Proof.
  intros H. revert m. induction l as [|x l IH]; intros m Hm; simpl; [done|].
  by apply IH, H.
Qed.

Lemma rep_ok_construct_input_edges m : rep_ok m → rep_ok (construct_input_edges m).
Proof.
  intros H. unfold construct_input_edges. destruct (no_progr_chk cfg); [done|].
  apply rep_ok_bss_loop.
  eapply rep_ok_same; [reflexivity|reflexivity|]. unfold count_indices.
  apply rep_ok_foldl; [intros; by apply rep_ok_wr_node|].
  do 2 apply rep_ok_wr_node. by apply (rep_ok_same m).
Qed.

Lemma rep_ok_pt_for no_ins nprev trs ni m : rep_ok m → rep_ok (pt_for no_ins nprev trs ni m).2.
Proof.
  revert ni m. induction trs as [|tr trs IH]; intros ni m H; simpl; [done|].
  pose proof (rep_ok_call_fire tr m H) as H1.
  destruct (call_fire tr m) as [fired m1]. simpl in H1.
  assert (Hstep : ∀ (stop : bool) ni' m2, rep_ok m2 →
            rep_ok (if is_set (err_msg m2)
                    then (true, ni', report_error ni' "Transition firing error" m2)
                    else if stop then (false, ni', m2)
                    else pt_for no_ins nprev trs ni' m2).2).
  { intros stop ni' m2 Hm2. destruct (is_set (err_msg m2)); simpl.
    - by apply rep_ok_report_error.
    - destruct stop; [done|by apply IH]. }
  destruct fired.
  - pose proof (rep_ok_call_symmetry m1 H1) as H2.
    set (r := if no_ins then _ else _).
    assert (Hr : rep_ok r.2).
    { unfold r. destruct no_ins; [by apply rep_ok_hash_try|].
      unfold hash_insert. pose proof (rep_ok_hash_try false _ H2) as Hh.
      destruct (hash_try false (call_symmetry m1)) as [n2 m2]. simpl in *.
      destruct (hash_was_new m2); [by apply rep_ok_wr_node|done]. }
    destruct r as [n2 m2]. simpl in Hr.
    destruct (negb (n2 =? 0) && negb (e_cnt (nd m2 n2) =? 0)%Z); cbv beta iota.
    + by apply (Hstep true n2 m2).
    + by apply (Hstep false nprev (fire_init nprev m2)), rep_ok_fire_init.
  - cbv beta iota. by apply (Hstep false ni m1).
Qed.

Lemma rep_ok_pt_loop fuel no_ins ni nprev m :
  rep_ok m → rep_ok (pt_loop fuel no_ins ni nprev m).2.
Proof.
  revert ni nprev m. induction fuel as [|fuel IH]; intros ni nprev m H; simpl;
    [by apply (rep_ok_same m)|].
  set (m1 := fire_init ni _).
  change (nr_trans (set_prev ni nprev (set_e_cnt ni all_ones m))) with (nr_trans m1).
  assert (H1 : rep_ok m1).
  { unfold m1. apply rep_ok_fire_init. by do 2 apply rep_ok_wr_node. }
  pose proof (rep_ok_pt_for no_ins ni (seq 0 (nr_trans m1)) ni m1 H1) as H2.
  destruct (pt_for no_ins ni (seq 0 (nr_trans m1)) ni m1) as [[ret ni'] m2]. simpl in H2.
  destruct ret; [done|].
  destruct (negb (e_cnt (nd m2 ni') =? all_ones)%Z); [by apply IH|done].
Qed.

Lemma rep_ok_print_typical ni no_ins m : rep_ok m → rep_ok (print_typical ni no_ins m).
Proof.
  intros H. unfold print_typical. destruct (no_progr_chk cfg); [done|].
  pose proof (rep_ok_pt_loop (length (nodes m) + stop_count cfg + 2) no_ins ni 0 m H) as H1.
  destruct (pt_loop _ _ _ _ _) as [[[n1 n2]|] m1]; simpl in H1; [|done].
  apply rep_ok_print_history, rep_ok_wr_node, rep_ok_emit; [done|].
  by apply rep_ok_print_history.
Qed.

Lemma rep_ok_vp_init round m : rep_ok m → rep_ok (vp_init round m).
Proof.
  intros H. unfold vp_init.
  set (m1 := foldl _ m _).
  assert (H1 : rep_ok m1) by (apply rep_ok_foldl; [intros; by apply rep_ok_wr_node|done]).
  clearbody m1.
  destruct (round =? 1); (apply rep_ok_foldl; [intros; by apply rep_ok_wr_node|done]).
Qed.

Lemma rep_ok_vp_may nis m : rep_ok m → rep_ok (vp_may nis m).2.
Proof.
  revert m. induction nis as [|ni nis IH]; intros m H; simpl; [done|].
  set (m1 := if dl_not_may cfg && _ then _ else _).
  assert (H1 : rep_ok m1) by (unfold m1; destruct (_ && _); [by apply rep_ok_wr_node|done]).
  clearbody m1.
  destruct (negb (e_cnt (nd m1 ni) =? 0)%Z); [|by apply IH].
  destruct (if chk_may_progress cfg then _ else _) as [b e].
  set (m2 := if b then _ else _).
  assert (H2 : rep_ok m2).
  { unfold m2. assert (rep_ok (declare_error e (use_state ni m1)))
      by (destruct e; by apply (rep_ok_same m1)).
    destruct b; [by apply rep_ok_wr_node|done]. }
  clearbody m2. destruct (is_set (err_msg m2)); simpl;
    [by apply rep_ok_report_error|by apply IH].
Qed.

Lemma rep_ok_vp_must nis m : rep_ok m → rep_ok (vp_must nis m).2.
Proof.
  revert m. induction nis as [|ni nis IH]; intros m H; simpl; [done|].
  set (m1 := if dl_not_must cfg && _ then _ else _).
  assert (H1 : rep_ok m1) by (unfold m1; destruct (_ && _); [by apply rep_ok_wr_node|done]).
  clearbody m1.
  destruct (negb (e_cnt (nd m1 ni) =? 0)%Z); [|by apply IH].
  destruct (if chk_must_progress cfg then _ else _) as [b e].
  set (m2 := if b then _ else _).
  assert (H2 : rep_ok m2).
  { unfold m2. assert (rep_ok (declare_error e (use_state ni m1)))
      by (destruct e; by apply (rep_ok_same m1)).
    destruct b; [by apply rep_ok_wr_node|done]. }
  clearbody m2. destruct (is_set (err_msg m2)); simpl;
    [by apply rep_ok_report_error|by apply IH].
Qed.

Lemma rep_ok_vp_collect m : rep_ok m → rep_ok (vp_collect m).2.
Proof.
  unfold vp_collect. generalize 0 at 1. generalize (seq 1 (length (nodes m) - 1)).
  intros l. revert m. induction l as [|ni l IH]; intros m p H; simpl; [done|].
  destruct (e_cnt (nd m ni) =? 0)%Z; [|by apply IH].
  by apply IH, rep_ok_wr_node.
Qed.

Lemma rep_ok_vp_edge p m ei : rep_ok m → rep_ok (vp_edge p m ei).
Proof.
  intros H. unfold vp_edge. destruct (negb _); [|done].
  set (m1 := set_e_cnt _ _ m).
  assert (H1 : rep_ok m1) by (by apply rep_ok_wr_node). clearbody m1.
  destruct (e_cnt (nd m1 _) =? 0)%Z; [|done]. by do 2 apply rep_ok_wr_node.
Qed.

Lemma rep_ok_vp_wave fuel p m : rep_ok m → rep_ok (vp_wave fuel p m).
Proof.
  revert p m. induction fuel as [|fuel IH]; intros p m H; simpl.
  - destruct (p =? 0); [done|by apply (rep_ok_same m)].
  - destruct (p =? 0); [done|].
    apply IH, rep_ok_foldl; [intros; by apply rep_ok_vp_edge|done].
Qed.

Lemma rep_ok_vp_label round m : rep_ok m → rep_ok (vp_label round m).2.
Proof.
  intros H. unfold vp_label.
  pose proof (rep_ok_vp_init round m H) as H0.
  set (m0 := vp_init round m) in *. clearbody m0.
  set (r := if round =? 0 then _ else _).
  assert (H1 : rep_ok r.2).
  { unfold r. destruct (round =? 0); [by apply rep_ok_vp_may|].
    destruct (round =? 1); [by apply rep_ok_vp_must|done]. }
  destruct r as [ret m1]. simpl in H1. destruct ret; [done|].
  pose proof (rep_ok_vp_collect m1 H1) as H2.
  destruct (vp_collect m1) as [p m2]. simpl in *. by apply rep_ok_vp_wave.
Qed.

Lemma rep_ok_vp_report round nis m : rep_ok m → rep_ok (vp_report round nis m).
Proof.
  revert m. induction nis as [|ni nis IH]; intros m H; simpl; [done|].
  destruct (negb _); [|by apply IH].
  set (m1 := set_err_msg _ _).
  assert (H1 : rep_ok m1).
  { unfold m1. eapply rep_ok_same; [reflexivity|reflexivity|].
    apply rep_ok_print_typical, rep_ok_emit; [done|]. by apply rep_ok_print_history. }
  clearbody m1.
  destruct (round =? 0); [by apply rep_ok_report_error|].
  destruct (round =? 1); [by apply rep_ok_report_error|].
  destruct (round =? 2); [by apply rep_ok_report_error|by apply IH].
Qed.

Lemma rep_ok_verify_progress round m : rep_ok m → rep_ok (verify_progress round m).
Proof.
  intros H. unfold verify_progress. destruct (no_progr_chk cfg); [done|].
  pose proof (rep_ok_vp_label round m H) as H1.
  destruct (vp_label round m) as [ret m1]. simpl in H1. destruct ret; [done|].
  by apply rep_ok_vp_report.
Qed.

Lemma rep_ok_main_tasks m : rep_ok m → rep_ok (main_tasks m).
Proof.
  intros H. unfold main_tasks. destruct (only_typical cfg).
  - set (m1 := print_typical 1 false m).
    assert (H1 : rep_ok m1) by (by apply rep_ok_print_typical). clearbody m1.
    set (m2 := if is_set (err_msg m1) then _ else _).
    assert (H2 : rep_ok m2)
      by (unfold m2; destruct (is_set _); [by apply rep_ok_report_error|done]).
    clearbody m2. by apply rep_ok_emit.
  - set (m1 := build_state_space m).
    assert (H1 : rep_ok m1) by (by apply rep_ok_bss_loop). clearbody m1.
    set (m2 := if negb (is_set (err_msg m1)) then _ else _).
    assert (H2 : rep_ok m2)
      by (unfold m2; destruct (negb _); [by apply rep_ok_construct_input_edges|done]).
    clearbody m2.
    set (m3 := if chk_may_progress cfg && _ then _ else _).
    assert (H3 : rep_ok m3)
      by (unfold m3; destruct (_ && _); [by apply rep_ok_verify_progress|done]).
    clearbody m3.
    set (m4 := if chk_must_progress cfg && _ then _ else _).
    assert (H4 : rep_ok m4)
      by (unfold m4; destruct (_ && _); [by apply rep_ok_verify_progress|done]).
    clearbody m4.
    set (m5 := if _ && negb (is_set (err_msg m4)) then _ else _).
    assert (H5 : rep_ok m5)
      by (unfold m5; destruct (_ && _); [by apply (rep_ok_same m4)|done]).
    clearbody m5.
    set (m6 := emit _ m5).
    assert (H6 : rep_ok m6) by (by apply rep_ok_emit). clearbody m6.
    destruct (is_set _); [by apply rep_ok_report_error|done].
Qed.

Lemma rep_ok_store_initial_state m : rep_ok m → rep_ok (store_initial_state m).
Proof.
  intros H. unfold store_initial_state.
  set (m1 := call_symmetry _).
  assert (H1 : rep_ok m1).
  { unfold m1. apply rep_ok_call_symmetry. unfold call_nr_transitions.
    destruct (nr_transitions mdl _) as [[n s'] e].
    destruct e; by apply (rep_ok_same m). }
  clearbody m1.
  pose proof (rep_ok_hash_try false m1 H1) as H2. unfold hash_insert.
  destruct (hash_try false m1) as [n2 m2]. simpl in H2.
  set (m3 := set_prev 1 0 m2).
  assert (H3 : rep_ok m3) by (by apply rep_ok_wr_node). clearbody m3.
  destruct (is_set (err_msg m3)); [by apply rep_ok_report_error|].
  destruct (_ =? all_ones)%Z.
  { apply rep_ok_report_error. by apply (rep_ok_same m3). }
  destruct (chk_state cfg); [|done].
  destruct (is_set _); [|by apply (rep_ok_same m3)].
  apply rep_ok_report_error. by apply (rep_ok_same m3).
Qed.

Lemma rep_ok_main m : rep_ok m → rep_ok (main m).
Proof.
  intros H. unfold main.
  destruct (is_set (err_msg m)); [by apply rep_ok_report_error|].
  destruct (_ && _).
  { apply rep_ok_report_error. by apply (rep_ok_same m). }
  pose proof (rep_ok_store_initial_state m H) as H1.
  destruct (is_set _); [by apply rep_ok_report_error|by apply rep_ok_main_tasks].
Qed.

(** *** Between the tasks of [main], a message stays *)

Lemma latch_step (b : bool) (f : machine → machine) m e :
  err_msg m = Some e → err_msg (if b && negb (is_set (err_msg m)) then f m else m) = Some e.
Proof. intros H. rewrite H. simpl. by rewrite andb_false_r. Qed.

Lemma latch_end m e :
  err_msg m = Some e →
  err_msg (let m := emit (Ev_summary (length (nodes m) - 1) (Some (nr_edges m))) m in
           if is_set (err_msg m) then report_error 0 "Error" m else m) = Some e.
Proof. intros H. simpl. rewrite H. simpl. by rewrite err_msg_report_error. Qed.

Lemma main_tasks_latch m e :
  only_typical cfg = false →
  err_msg (build_state_space m) = Some e → err_msg (main_tasks m) = Some e.
Proof.
  intros Ho H. unfold main_tasks. rewrite Ho.
  set (m1 := build_state_space m) in *. clearbody m1.
  set (m2 := if negb (is_set (err_msg m1)) then _ else _).
  assert (H2 : err_msg m2 = Some e) by (unfold m2; by rewrite H). clearbody m2.
  set (m3 := if chk_may_progress cfg && _ then _ else _).
  assert (H3 : err_msg m3 = Some e) by (by apply latch_step). clearbody m3.
  set (m4 := if chk_must_progress cfg && _ then _ else _).
  assert (H4 : err_msg m4 = Some e) by (by apply latch_step). clearbody m4.
  set (m5 := if _ && negb (is_set (err_msg m4)) then _ else _).
  assert (H5 : err_msg m5 = Some e) by (by apply latch_step). clearbody m5.
  by apply latch_end.
Qed.

Lemma main_tasks_edges_latch m e :
  only_typical cfg = false →
  err_msg (build_state_space m) = None →
  err_msg (construct_input_edges (build_state_space m)) = Some e →
  err_msg (main_tasks m) = Some e.
Proof.
  intros Ho H0 H. unfold main_tasks. rewrite Ho.
  set (m1 := build_state_space m) in *. clearbody m1.
  set (m2 := if negb (is_set (err_msg m1)) then _ else _).
  assert (H2 : err_msg m2 = Some e) by (unfold m2; by rewrite H0). clearbody m2.
  set (m3 := if chk_may_progress cfg && _ then _ else _).
  assert (H3 : err_msg m3 = Some e) by (by apply latch_step). clearbody m3.
  set (m4 := if chk_must_progress cfg && _ then _ else _).
  assert (H4 : err_msg m4 = Some e) by (by apply latch_step). clearbody m4.
  set (m5 := if _ && negb (is_set (err_msg m4)) then _ else _).
  assert (H5 : err_msg m5 = Some e) by (by apply latch_step). clearbody m5.
  by apply latch_end.
Qed.

Lemma main_tasks_may_latch m e :
  only_typical cfg = false → chk_may_progress cfg = true →
  err_msg (build_state_space m) = None →
  err_msg (construct_input_edges (build_state_space m)) = None →
  err_msg (verify_progress 0 (construct_input_edges (build_state_space m))) = Some e →
  err_msg (main_tasks m) = Some e.
Proof.
  intros Ho Hc H0 H1 H. unfold main_tasks. rewrite Ho.
  set (m1 := build_state_space m) in *. clearbody m1.
  set (m2 := if negb (is_set (err_msg m1)) then _ else _).
  assert (E2 : m2 = construct_input_edges m1) by (unfold m2; by rewrite H0).
  clearbody m2. subst m2.
  set (m3 := if chk_may_progress cfg && _ then _ else _).
  assert (H3 : err_msg m3 = Some e) by (unfold m3; by rewrite Hc, H1). clearbody m3.
  set (m4 := if chk_must_progress cfg && _ then _ else _).
  assert (H4 : err_msg m4 = Some e) by (by apply latch_step). clearbody m4.
  set (m5 := if _ && negb (is_set (err_msg m4)) then _ else _).
  assert (H5 : err_msg m5 = Some e) by (by apply latch_step). clearbody m5.
  by apply latch_end.
Qed.

Lemma main_declared_latch m e : err_msg m = Some e → err_msg (main m) = Some e.
Proof.
  intros H. unfold main. rewrite H. simpl. by rewrite err_msg_report_error.
Qed.

Lemma main_initial_latch m e :
  err_msg m = None →
  negb (chk_state cfg) && negb (chk_deadlock cfg)
    && negb (chk_must_progress cfg) && negb (chk_may_progress cfg) = false →
  err_msg (store_initial_state m) = Some e → err_msg (main m) = Some e.
Proof.
  intros H0 Hc H. unfold main. rewrite H0, Hc, H. simpl. by rewrite err_msg_report_error.
Qed.

(** What the code keeps of the rule that the first error wins.  In a run of
    [main] that starts with a reporter that has not printed, at most one
    error line is printed, because a call of [report_error] after the first
    changes nothing at all.  Reporting never changes [err_msg], and [main]
    starts a task only while [err_msg] is null, so the message that the
    declaration of the model, [store_initial_state], [build_state_space],
    [construct_input_edges] or [verify_progress(0)] leaves in [err_msg] is
    the one [err_msg] holds when [main] ends. *)
Lemma first_report_wins m :
  reported m = false → error_lines m = 0 →
  error_lines (main m) ≤ 1
  ∧ (∀ ni msg m', reported m' = true → report_error ni msg m' = m')
  ∧ (∀ ni msg m', err_msg (report_error ni msg m') = err_msg m'
                  ∧ reported (report_error ni msg m') = true)
  ∧ (∀ e, err_msg m = Some e → err_msg (main m) = Some e)
  ∧ (∀ e, err_msg m = None →
          negb (chk_state cfg) && negb (chk_deadlock cfg)
            && negb (chk_must_progress cfg) && negb (chk_may_progress cfg) = false →
          err_msg (store_initial_state m) = Some e → err_msg (main m) = Some e)
  ∧ (∀ m1 e, only_typical cfg = false →
          err_msg (build_state_space m1) = Some e → err_msg (main_tasks m1) = Some e)
  ∧ (∀ m1 e, only_typical cfg = false →
          err_msg (build_state_space m1) = None →
          err_msg (construct_input_edges (build_state_space m1)) = Some e →
          err_msg (main_tasks m1) = Some e)
  ∧ (∀ m1 e, only_typical cfg = false → chk_may_progress cfg = true →
          err_msg (build_state_space m1) = None →
          err_msg (construct_input_edges (build_state_space m1)) = None →
          err_msg (verify_progress 0 (construct_input_edges (build_state_space m1))) = Some e →
          err_msg (main_tasks m1) = Some e).
Proof.
  intros Hr He.
  assert (H : rep_ok (main m)).
  { apply rep_ok_main. unfold rep_ok. by rewrite Hr, He. }
  split. { unfold rep_ok in H. destruct (reported (main m)); lia. }
  split. { intros ni msg m'. apply report_error_again. }
  split. { intros ni msg m'. split; [apply err_msg_report_error|apply reported_report_error]. }
  split. { intros e. apply main_declared_latch. }
  split. { intros e. apply main_initial_latch. }
  split. { intros m1 e. apply main_tasks_latch. }
  split. { intros m1 e. apply main_tasks_edges_latch. }
  intros m1 e. apply main_tasks_may_latch.
Qed.

(** ** The typical sequence of events *)



(** The node that transition [tr] of [np] leads to; 0 if there is none. *)
Definition target (m : machine) (np tr : nat) : nat :=
  from_option (index_of m) 0 (succ_state tr (state_at m np)).














(** ** The backward propagation of [verify_progress] *)

(** The sources of the edges that end in node [p]: the entries of
    [iedges] from [nodes[ p-1 ].ie_end] up to [nodes[ p ].ie_end]. *)
Definition in_edges (m : machine) (p : nat) : list nat :=
  iedge m <$> seq (ie_end (nd m (p - 1))) (ie_end (nd m p) - ie_end (nd m (p - 1))).

(** There is an edge from [a] to the stored node [b]. *)
Definition arrow (m : machine) (a b : nat) : Prop :=
  1 ≤ b < length (nodes m) ∧ a ∈ in_edges m b.

(** The number of edges from [i] to the nodes of the list [ps]. *)
Definition hits (m : machine) (ps : list nat) (i : nat) : nat :=
  sum_list_with (λ p, count_occ Nat.eq_dec (in_edges m p) i) ps.

(** The number of edges that start at [i]: its occurrences in
    [iedges[0 .. nr_edges)]. *)
Definition outdeg (m : machine) (i : nat) : nat :=
  count_occ Nat.eq_dec (iedge m <$> seq 0 (Z.to_nat (nr_edges m))) i.

(** The layout of the incoming edges that [verify_progress] relies on: the
    slices of the nodes follow each other in [iedges] and cover
    [iedges[0 .. nr_edges)], and the entries are numbers of stored nodes. *)
Definition layout_ok (m : machine) : Prop :=
  1 ≤ length (nodes m)
  ∧ ie_end (nd m 0) = 0
  ∧ Forall (λ p, ie_end (nd m (p - 1)) ≤ ie_end (nd m p)) (node_ids m)
  ∧ ie_end (nd m (length (nodes m) - 1)) = Z.to_nat (nr_edges m)
  ∧ Forall (λ ei, 1 ≤ iedge m ei < length (nodes m)) (seq 0 (Z.to_nat (nr_edges m)))
  ∧ (0 ≤ nr_edges m < 4294967296)%Z.

#[global] Instance layout_ok_dec m : Decision (layout_ok m).
Proof. unfold layout_ok. apply _. Defined.

Lemma layout_ok_unfold m :
  layout_ok m →
  1 ≤ length (nodes m)
  ∧ ie_end (nd m 0) = 0
  ∧ (∀ p, 1 ≤ p < length (nodes m) → ie_end (nd m (p - 1)) ≤ ie_end (nd m p))
  ∧ ie_end (nd m (length (nodes m) - 1)) = Z.to_nat (nr_edges m)
  ∧ (∀ ei, ei < Z.to_nat (nr_edges m) → 1 ≤ iedge m ei < length (nodes m))
  ∧ (0 ≤ nr_edges m < 4294967296)%Z.
Proof.
  intros (H1 & H2 & H3 & H4 & H5 & H6). rewrite Forall_forall in H3, H5.
  split; [done|]. split; [done|]. split; [|split; [done|split; [|done]]].
  - intros p Hp. by apply H3, elem_of_node_ids.
  - intros ei Hei. apply H5, elem_of_seq. lia.
Qed.

(** The list that starts at [p] and is linked through [p_next]. *)
Inductive plist (m : machine) : nat → list nat → Prop :=
  | plist_nil : plist m 0 []
  | plist_cons p wl : p ≠ 0 → plist m (p_next (nd m p)) wl → plist m p (p :: wl).

(** The graph of [m] is that of [m0]. *)
Definition same_graph (m0 m : machine) : Prop :=
  length (nodes m) = length (nodes m0) ∧ iedges m = iedges m0
  ∧ nr_edges m = nr_edges m0 ∧ (∀ i, ie_end (nd m i) = ie_end (nd m0 i))
  ∧ st_data m = st_data m0 ∧ ub m = ub m0 ∧ err_msg m = err_msg m0
  ∧ cout m = cout m0 ∧ reported m = reported m0.

(** The nodes whose count the propagation brings to zero, from the initial
    counts [init]: a node that has at least [init] edges to such nodes. *)
Inductive zeroable (m : machine) (init : nat → nat) : nat → Prop :=
  | zeroable_intro i ps :
      NoDup ps → (∀ p, p ∈ ps → 1 ≤ p < length (nodes m)) →
      (∀ p, p ∈ ps → zeroable m init p) →
      init i ≤ hits m ps i → zeroable m init i.

(** The state of the propagation when the edges of the nodes of [done] and
    the edges [extra] of the first node of [wl] have been processed. *)
Definition wave_inv (m0 m : machine) (init : nat → nat)
    (done wl : list nat) (extra : list nat) : Prop :=
  same_graph m0 m
  ∧ NoDup (done ++ wl)
  ∧ (∀ i, i ∈ done ++ wl ↔ 1 ≤ i < length (nodes m0) ∧ e_cnt (nd m i) = 0%Z)
  ∧ (∀ i, 1 ≤ i < length (nodes m0) →
          e_cnt (nd m i) = Z.of_nat (init i - (hits m0 done i + count_occ Nat.eq_dec extra i)))
  ∧ (∀ x, x ∈ done ++ wl → zeroable m0 init x).

Lemma same_graph_refl m : same_graph m m.
Proof. by repeat split. Qed.

Lemma same_graph_trans m0 m1 m2 : same_graph m0 m1 → same_graph m1 m2 → same_graph m0 m2.
Proof.
  intros (A1 & A2 & A3 & A4 & A5 & A6 & A7 & A8 & A9) (B1 & B2 & B3 & B4 & B5 & B6 & B7 & B8 & B9).
  repeat split; try congruence.
Qed.

Lemma same_graph_wr_node f ni g m :
  ni < length (nodes m) → (∀ x, ie_end (g x) = ie_end x) → same_graph m (wr_node f ni g m).
Proof.
  intros Hni Hg. rewrite wr_node_in_range by done.
  repeat split; try done.
  - simpl. by rewrite length_insert.
  - intros i. unfold nd. simpl. destruct (decide (i = ni)) as [->|Hne].
    + rewrite list_lookup_insert_eq by done. simpl. rewrite Hg.
      by rewrite (nd_in_range m ni Hni).
    + by rewrite list_lookup_insert_ne.
Qed.

Lemma in_edges_same m0 m p : same_graph m0 m → in_edges m p = in_edges m0 p.
Proof.
  intros (A1 & A2 & A3 & A4 & _). unfold in_edges, iedge. by rewrite A2, !A4.
Qed.

Lemma plist_ext m m' p wl :
  (∀ x, x ∈ wl → p_next (nd m' x) = p_next (nd m x)) → plist m p wl → plist m' p wl.
Proof.
  intros H Hp. induction Hp as [|p wl Hne Hp IH]; [constructor|].
  constructor; [done|]. rewrite H by left. apply IH. intros x Hx. apply H. by right.
Qed.

Lemma hits_app m l1 l2 i : hits m (l1 ++ l2) i = hits m l1 i + hits m l2 i.
Proof. apply sum_list_with_app. Qed.

Lemma hits_submseteq m l1 l2 i : l1 ⊆+ l2 → hits m l1 i ≤ hits m l2 i.
Proof.
  unfold hits. induction 1 as [|x l1 l2 _ IH|x y l|x l1 l2 _ IH|l1 l2 l3 _ IH1 _ IH2];
    simpl; lia.
Qed.

Lemma hits_subseteq m l1 l2 i :
  NoDup l1 → (∀ x, x ∈ l1 → x ∈ l2) → hits m l1 i ≤ hits m l2 i.
Proof. intros Hnd Hsub. by apply hits_submseteq, NoDup_submseteq. Qed.

Lemma count_occ_prefix (l1 l2 : list nat) i :
  count_occ Nat.eq_dec l1 i ≤ count_occ Nat.eq_dec (l1 ++ l2) i.
Proof. rewrite count_occ_app. lia. Qed.

Lemma count_occ_snoc (l : list nat) a i :
  count_occ Nat.eq_dec (l ++ [a]) i
  = count_occ Nat.eq_dec l i + (if decide (a = i) then 1 else 0).
Proof.
  rewrite count_occ_app. simpl. destruct (Nat.eq_dec a i); by case_decide.
Qed.

(** One edge of the node [p] at the head of the list. *)
Lemma vp_edge_step m0 m init done p wl extra more ei :
  (∀ i, (Z.of_nat (init i) < 4294967296)%Z) →
  wave_inv m0 m init done (p :: wl) extra → plist m p (p :: wl) →
  in_edges m0 p = extra ++ iedge m ei :: more →
  1 ≤ iedge m ei < length (nodes m0) →
  ∃ wl', wave_inv m0 (vp_edge p m ei) init done (p :: wl') (extra ++ [iedge m ei])
         ∧ plist (vp_edge p m ei) p (p :: wl').
Proof.
  intros Hinit (Hg & Hnd & Hmem & Hcnt & Hz) Hpl Hin Ha.
  set (a := iedge m ei) in *.
  pose proof Hg as (Hlen & _).
  assert (Hp : 1 ≤ p < length (nodes m0) ∧ e_cnt (nd m p) = 0%Z).
  { apply Hmem. apply elem_of_app. right. left. }
  unfold vp_edge. fold a. cbv zeta.
  destruct (e_cnt (nd m a) =? 0)%Z eqn:E; cbn [negb].
  - (* the count is zero already *)
    apply Z.eqb_eq in E. exists wl. split; [|done].
    split; [done|]. split; [done|]. split; [done|]. split; [|done].
    intros i Hi. rewrite Hcnt by done. rewrite count_occ_snoc.
    case_decide as Hai; [|by rewrite Nat.add_0_r]. subst i.
    rewrite Hcnt in E by done. lia.
  - apply Z.eqb_neq in E.
    assert (Hnot : a ∉ done ++ p :: wl) by (intros Hx%Hmem; tauto).
    assert (Hap : a ≠ p) by (intros ->; tauto).
    pose proof (Hcnt a Ha) as Hca.
    set (c := hits m0 done a + count_occ Nat.eq_dec extra a) in *.
    assert (Hpos : c < init a) by lia.
    assert (Hu : u32 (e_cnt (nd m a) - 1) = Z.of_nat (init a - (c + 1))).
    { rewrite Hca. unfold u32. rewrite Z.mod_small; [lia|]. specialize (Hinit a). lia. }
    rewrite Hu.
    set (m1 := set_e_cnt a (Z.of_nat (init a - (c + 1))) m).
    assert (Hg1 : same_graph m m1).
    { apply same_graph_wr_node; [lia|done]. }
    assert (Hnd1 : ∀ j, nd m1 j = if decide (j = a) then with_e_cnt (Z.of_nat (init a - (c + 1))) (nd m a)
                                  else nd m j).
    { intros j. unfold m1, set_e_cnt. rewrite nd_wr_node.
      destruct (decide (j = a)) as [->|Hne]; [by rewrite decide_True by (split; [done|lia])|].
      by rewrite decide_False by tauto. }
    assert (Hcnt1 : ∀ i, 1 ≤ i < length (nodes m0) →
              e_cnt (nd m1 i)
              = Z.of_nat (init i - (hits m0 done i + count_occ Nat.eq_dec (extra ++ [a]) i))).
    { intros i Hi. rewrite Hnd1, count_occ_snoc.
      destruct (decide (i = a)) as [->|Hne].
      - rewrite decide_True by done. simpl. f_equal. unfold c. lia.
      - rewrite decide_False by done. rewrite Nat.add_0_r. by apply Hcnt. }
    assert (E1 : e_cnt (nd m1 a) = Z.of_nat (init a - (c + 1))).
    { rewrite Hnd1. by rewrite decide_True. }
    rewrite E1.
    destruct (Z.of_nat (init a - (c + 1)) =? 0)%Z eqn:E2.
    + (* the count has become zero: the node is put after [p] *)
      apply Z.eqb_eq in E2.
      set (m2 := set_p_next a (p_next (nd m1 p)) m1).
      set (m3 := set_p_next p a m2).
      assert (Hl1 : length (nodes m1) = length (nodes m)) by apply wr_node_length.
      assert (Hl2 : length (nodes m2) = length (nodes m)).
      { unfold m2, set_p_next. by rewrite wr_node_length. }
      assert (Hg3 : same_graph m m3).
      { eapply same_graph_trans; [exact Hg1|].
        eapply same_graph_trans; apply same_graph_wr_node; lia || done. }
      assert (Hnd3 : ∀ j, nd m3 j
                = if decide (j = p) then with_p_next a (nd m p)
                  else if decide (j = a)
                       then with_p_next (p_next (nd m p)) (with_e_cnt 0 (nd m a))
                       else nd m j).
      { intros j. unfold m3, m2, set_p_next. rewrite !nd_wr_node, !Hnd1.
        rewrite !wr_node_length, Hl1.
        destruct (decide (j = p)) as [->|Hjp].
        - rewrite decide_True by (split; [done|lia]).
          rewrite (decide_False (P := p = a ∧ _)) by (intros [? _]; congruence).
          by rewrite decide_False by congruence.
        - rewrite decide_False by tauto.
          destruct (decide (j = a)) as [->|Hja].
          + rewrite decide_True by (split; [done|lia]).
            rewrite (decide_False (P := p = a)) by congruence.
            rewrite decide_True by done. by rewrite E2.
          + by rewrite decide_False by tauto. }
      exists (a :: wl). split.
      * split; [by eapply same_graph_trans|]. split.
        { apply NoDup_app in Hnd as (Hn1 & Hn2 & Hn3). apply NoDup_app. split; [done|].
          split.
          - intros x Hx Hx'. apply elem_of_cons in Hx' as [->|Hx'].
            + by apply (Hn2 p); [|left].
            + apply elem_of_cons in Hx' as [->|Hx'].
              * apply Hnot. apply elem_of_app. by left.
              * by apply (Hn2 x); [|right].
          - apply NoDup_cons in Hn3 as [Hn3 Hn4]. apply NoDup_cons. split.
            + intros [->|Hx]%elem_of_cons; [done|done].
            + apply NoDup_cons. split; [|done].
              intros Hx. apply Hnot. apply elem_of_app. right. by right. }
        split.
        { intros i. rewrite Hnd3. destruct (decide (i = p)) as [->|Hip].
          - simpl. split; [done|]. intros _. apply elem_of_app. right. left.
          - destruct (decide (i = a)) as [->|Hia].
            + simpl. split; [done|]. intros _. apply elem_of_app. right. right. left.
            + rewrite <- Hmem. rewrite !elem_of_app, !elem_of_cons. tauto. }
        split.
        { intros i Hi. rewrite <- Hcnt1 by done. rewrite Hnd3, Hnd1.
          destruct (decide (i = p)) as [->|Hip].
          - by rewrite decide_False by congruence.
          - destruct (decide (i = a)) as [->|Hia]; [|done]. simpl. by rewrite E2. }
        intros x Hx. destruct (decide (x = a)) as [->|Hxa].
        { apply (zeroable_intro m0 init a (done ++ [p])).
          - apply NoDup_app in Hnd as (Hn1 & Hn2 & Hn3). apply NoDup_app. split; [done|].
            split; [|apply NoDup_singleton].
            intros y Hy ->%list_elem_of_singleton. by apply (Hn2 p); [|left].
          - intros y Hy. apply (Hmem y).
            apply elem_of_app in Hy as [Hy| ->%list_elem_of_singleton];
              apply elem_of_app; [by left|right; left].
          - intros y Hy. apply Hz.
            apply elem_of_app in Hy as [Hy| ->%list_elem_of_singleton];
              apply elem_of_app; [by left|right; left].
          - rewrite hits_app. unfold hits at 2. simpl. rewrite Hin.
            rewrite count_occ_app. simpl. destruct (Nat.eq_dec a a); [|done].
            unfold c in E2. lia. }
        apply Hz. revert Hx. rewrite !elem_of_app, !elem_of_cons. tauto.
      * change (plist m3 p (p :: a :: wl)). inversion Hpl as [|? ? Hp0 Hpl']; subst.
        constructor; [done|]. rewrite Hnd3, decide_True by done. simpl.
        constructor; [lia|]. rewrite Hnd3, decide_False by congruence.
        rewrite decide_True by done. simpl.
        revert Hpl'. apply plist_ext. intros x Hx. rewrite Hnd3.
        rewrite decide_False.
        2:{ intros ->. apply NoDup_app in Hnd as (_ & _ & Hn3).
            apply NoDup_cons in Hn3 as [Hn3 _]. done. }
        rewrite decide_False; [done|].
        intros ->. apply Hnot. apply elem_of_app. right. by right.
    + (* the count stays positive *)
      apply Z.eqb_neq in E2. exists wl. split.
      * split; [by eapply same_graph_trans|]. split; [done|]. split.
        { intros i. rewrite Hnd1. destruct (decide (i = a)) as [->|Hia]; [|apply Hmem].
          simpl. split; [done|]. intros [_ ?]. done. }
        split; [done|done].
      * revert Hpl. apply plist_ext. intros x Hx. rewrite Hnd1.
        by destruct (decide (x = a)) as [->|?].
Qed.

Lemma iedge_same m0 m ei : same_graph m0 m → iedge m ei = iedge m0 ei.
Proof. intros (_ & H & _). unfold iedge. by rewrite H. Qed.

(** All edges of the node [p] at the head of the list. *)
Lemma vp_edges_loop m0 init done p eis :
  (∀ i, (Z.of_nat (init i) < 4294967296)%Z) →
  (∀ ei, ei ∈ eis → 1 ≤ iedge m0 ei < length (nodes m0)) →
  ∀ m wl extra,
    wave_inv m0 m init done (p :: wl) extra → plist m p (p :: wl) →
    in_edges m0 p = extra ++ (iedge m0 <$> eis) →
    ∃ wl', wave_inv m0 (foldl (vp_edge p) m eis) init done (p :: wl') (in_edges m0 p)
           ∧ plist (foldl (vp_edge p) m eis) p (p :: wl').
Proof.
  intros Hinit. induction eis as [|ei eis IH]; intros Hr m wl extra Hinv Hpl Hin.
  - simpl in *. rewrite app_nil_r in Hin. rewrite Hin. by exists wl.
  - simpl. pose proof (iedge_same m0 m ei (proj1 Hinv)) as Hei.
    destruct (vp_edge_step m0 m init done p wl extra (iedge m0 <$> eis) ei Hinit Hinv Hpl)
      as (wl1 & Hinv1 & Hpl1).
    { by rewrite Hei. }
    { rewrite Hei. apply Hr. left. }
    apply (IH (λ ei' H, Hr ei' (list_elem_of_further _ _ _ H)) _ wl1 _ Hinv1 Hpl1).
    rewrite Hei, <- app_assoc. done.
Qed.

Lemma ie_end_mono m p q :
  layout_ok m → p ≤ q < length (nodes m) → ie_end (nd m p) ≤ ie_end (nd m q).
Proof.
  intros (_ & _ & Hmono & _)%layout_ok_unfold [Hpq Hq]. induction Hpq as [|q Hpq IH]; [done|].
  etrans; [apply IH; lia|]. specialize (Hmono (S q)). simpl in Hmono.
  rewrite Nat.sub_0_r in Hmono. apply Hmono. lia.
Qed.

Lemma in_edges_in_range m p ei :
  layout_ok m → 1 ≤ p < length (nodes m) →
  ei ∈ seq (ie_end (nd m (p - 1))) (ie_end (nd m p) - ie_end (nd m (p - 1))) →
  1 ≤ iedge m ei < length (nodes m).
Proof.
  intros Hl Hp Hei%elem_of_seq.
  pose proof (layout_ok_unfold m Hl) as (_ & _ & _ & Hlast & Hr & _).
  apply Hr. rewrite <- Hlast.
  pose proof (ie_end_mono m p (length (nodes m) - 1) Hl ltac:(lia)). lia.
Qed.

Lemma nodup_in_range_length (l : list nat) n :
  NoDup l → (∀ x, x ∈ l → 1 ≤ x < n) → length l + 1 ≤ n ∨ (l = [] ∧ n = 0).
Proof.
  intros Hnd Hr. destruct l as [|x l]; [destruct n; [by right|left; simpl; lia]|].
  left. assert (Hs : x :: l ⊆+ seq 1 (n - 1)).
  { apply NoDup_submseteq; [done|]. intros y Hy. apply elem_of_seq. specialize (Hr y Hy). lia. }
  apply submseteq_length in Hs. rewrite length_seq in Hs.
  specialize (Hr x ltac:(left)). lia.
Qed.

Lemma plist_zero m wl : plist m 0 wl → wl = [].
Proof. by inversion 1. Qed.

Lemma plist_nonzero m p wl : p ≠ 0 → plist m p wl →
  ∃ wl', wl = p :: wl' ∧ plist m (p_next (nd m p)) wl'.
Proof. intros Hp H. inversion H; subst; [done|]. by eexists. Qed.

(** The propagation ends within [nodes.size()] rounds, and then the counts
    are the initial counts minus the edges to the nodes that were in the
    list. *)
Lemma vp_wave_spec m0 init :
  (∀ i, (Z.of_nat (init i) < 4294967296)%Z) → layout_ok m0 →
  ∀ fuel m done wl p,
    wave_inv m0 m init done wl [] → plist m p wl →
    length (nodes m0) ≤ length done + fuel →
    ∃ done', wave_inv m0 (vp_wave fuel p m) init done' [] [].
Proof.
  intros Hinit Hl. induction fuel as [|fuel IH]; intros m done wl p Hinv Hpl Hfuel.
  - destruct (decide (p = 0)) as [->|Hp].
    + apply plist_zero in Hpl as ->. simpl. by exists done.
    + exfalso. destruct (plist_nonzero m p wl Hp Hpl) as (wl' & -> & _).
      destruct Hinv as (_ & Hnd & Hmem & _).
      destruct (nodup_in_range_length _ (length (nodes m0)) Hnd) as [H|[H _]].
      * intros x Hx. by apply Hmem.
      * rewrite length_app in H. simpl in H. lia.
      * by destruct done.
  - destruct (decide (p = 0)) as [->|Hp].
    + apply plist_zero in Hpl as ->. simpl. by exists done.
    + destruct (plist_nonzero m p wl Hp Hpl) as (wl' & -> & _).
      cbn [vp_wave]. replace (p =? 0) with false by (symmetry; by apply Nat.eqb_neq).
      pose proof Hinv as (Hg & Hnd & Hmem & Hcnt & Hz).
      pose proof Hg as (Hlen & _ & _ & Hie & _).
      assert (Hpr : 1 ≤ p < length (nodes m0)).
      { apply Hmem. apply elem_of_app. right. left. }
      rewrite !Hie.
      destruct (vp_edges_loop m0 init done p
                  (seq (ie_end (nd m0 (p - 1))) (ie_end (nd m0 p) - ie_end (nd m0 (p - 1))))
                  Hinit) with (m := m) (wl := wl') (extra := @nil nat)
        as (wl1 & Hinv1 & Hpl1); [|done|done|done|].
      { intros ei Hei. by apply (in_edges_in_range m0 p). }
      set (m1 := foldl (vp_edge p) m _) in *. clearbody m1.
      destruct (plist_nonzero m1 p _ Hp Hpl1) as (wl2 & [= <-] & Hpl2).
      destruct Hinv1 as (Hg1 & Hnd1 & Hmem1 & Hcnt1 & Hz1).
      apply (IH m1 (done ++ [p]) wl1 _); [|done|rewrite length_app; simpl; lia].
      split; [done|]. rewrite <- !app_assoc. simpl.
      split; [done|]. split; [done|]. split; [|done].
      intros i Hi. rewrite Hcnt1 by done. rewrite hits_app. unfold hits at 3. simpl. f_equal. lia.
Qed.

Lemma wave_final m0 m init done i :
  wave_inv m0 m init done [] [] → 1 ≤ i < length (nodes m0) →
  e_cnt (nd m i) = 0%Z ↔ zeroable m0 init i.
Proof.
  intros (Hg & Hnd & Hmem & Hcnt & Hz) Hi. rewrite app_nil_r in *. split.
  - intros E. apply Hz, Hmem. done.
  - intros H. revert Hi. induction H as [i ps Hps Hr _ IH Hle]. intros Hi.
    rewrite Hcnt by done. simpl. rewrite Nat.add_0_r.
    assert (hits m0 ps i ≤ hits m0 done i); [|lia].
    apply hits_subseteq; [done|]. intros x Hx. apply Hmem. split; [by apply Hr|].
    apply IH; [done|by apply Hr].
Qed.

(** The list that [verify_progress] starts from holds the nodes with a zero
    count. *)
Lemma vp_collect_list m (l : list nat) :
  NoDup l → (∀ x, x ∈ l → 1 ≤ x < length (nodes m)) →
  let r := foldl (λ '(p_list, m) ni,
                    if (e_cnt (nd m ni) =? 0)%Z then (ni, set_p_next ni p_list m)
                    else (p_list, m)) (0, m) l in
  ∃ wl, plist r.2 r.1 wl ∧ NoDup wl
        ∧ (∀ i, i ∈ wl ↔ i ∈ l ∧ e_cnt (nd m i) = 0%Z)
        ∧ same_graph m r.2 ∧ (∀ i, e_cnt (nd r.2 i) = e_cnt (nd m i)).
Proof.
  induction l as [|x l IH] using rev_ind; intros Hnd Hr.
  - simpl. exists []. split; [constructor|]. split; [constructor|].
    split; [|split; [apply same_graph_refl|done]].
    intros i. split; [by intros ?%elem_of_nil|by intros [?%elem_of_nil _]].
  - apply NoDup_app in Hnd as (Hnd & Hx & _).
    destruct IH as (wl & Hpl & Hwl & Hmem & Hg & He); [done|intros y Hy; apply Hr, elem_of_app; by left|].
    rewrite foldl_app. cbn [foldl]. cbv zeta.
    destruct (foldl _ (0, m) l) as [p m1]. simpl in Hpl, Hg, He |- *.
    assert (Hxr : 1 ≤ x < length (nodes m)).
    { apply Hr, elem_of_app. right. left. }
    assert (Hxl : x ∉ l) by (intros H; by apply (Hx x H); left).
    rewrite He. destruct (e_cnt (nd m x) =? 0)%Z eqn:E; simpl.
    + apply Z.eqb_eq in E. pose proof Hg as (Hlen & _).
      assert (Hnd1 : ∀ j, nd (set_p_next x p m1) j
                = if decide (j = x) then with_p_next p (nd m1 x) else nd m1 j).
      { intros j. unfold set_p_next. rewrite nd_wr_node.
        destruct (decide (j = x)) as [->|Hne]; [by rewrite decide_True by (split; [done|lia])|].
        by rewrite decide_False by tauto. }
      exists (x :: wl). split.
      { constructor; [lia|]. rewrite Hnd1, decide_True by done. simpl.
        revert Hpl. apply plist_ext. intros y Hy. rewrite Hnd1.
        rewrite decide_False; [done|]. intros ->. apply Hmem in Hy. tauto. }
      split. { apply NoDup_cons. split; [|done]. intros H%Hmem. tauto. }
      split.
      { intros i. rewrite elem_of_cons, elem_of_app, list_elem_of_singleton, Hmem.
        split; [intros [-> |[? ?]]; tauto|]. intros [[?|?] ?]; tauto. }
      split.
      { eapply same_graph_trans; [exact Hg|]. apply same_graph_wr_node; [lia|done]. }
      intros i. rewrite Hnd1, <- He. by destruct (decide (i = x)) as [->|?].
    + apply Z.eqb_neq in E. exists wl. split; [done|]. split; [done|].
      split; [|done].
      intros i. rewrite elem_of_app, list_elem_of_singleton, Hmem.
      split; [tauto|]. intros [[?| ->] ?]; [tauto|done].
Qed.

Lemma vp_collect_spec m :
  1 ≤ length (nodes m) →
  ∃ wl, plist (vp_collect m).2 (vp_collect m).1 wl ∧ NoDup wl
        ∧ (∀ i, i ∈ wl ↔ 1 ≤ i < length (nodes m) ∧ e_cnt (nd m i) = 0%Z)
        ∧ same_graph m (vp_collect m).2
        ∧ (∀ i, e_cnt (nd (vp_collect m).2 i) = e_cnt (nd m i)).
Proof.
  intros Hn.
  destruct (vp_collect_list m (seq 1 (length (nodes m) - 1)))
    as (wl & Hpl & Hwl & Hmem & Hg & He).
  { apply NoDup_seq. }
  { intros x Hx%elem_of_seq. lia. }
  exists wl. split; [done|]. split; [done|]. split; [|done].
  intros i. rewrite Hmem, elem_of_seq. split; intros [? ?]; (split; [lia|done]).
Qed.

(** The propagation as a whole, from a machine with the initial counts
    [init]. *)
Lemma vp_propagate m init i :
  layout_ok m → (∀ j, (Z.of_nat (init j) < 4294967296)%Z) →
  (∀ j, 1 ≤ j < length (nodes m) → e_cnt (nd m j) = Z.of_nat (init j)) →
  1 ≤ i < length (nodes m) →
  let r := vp_collect m in
  let m' := vp_wave (length (nodes r.2)) r.1 r.2 in
  same_graph m m' ∧ (e_cnt (nd m' i) = 0%Z ↔ zeroable m init i).
Proof.
  intros Hl Hinit Hrange Hi r. pose proof Hl as (Hn & _).
  destruct (vp_collect_spec m Hn) as (wl & Hpl & Hwl & Hmem & Hg & He). fold r in Hpl, Hg, He.
  pose proof Hg as (Hlen & _). rewrite Hlen.
  destruct (vp_wave_spec m init) with (fuel := length (nodes m)) (m := r.2) (done := @nil nat)
    (wl := wl) (p := r.1) as (done' & Hfin); [done|done| |done|simpl; lia|].
  - split; [done|]. split; [done|]. split; [intros j; rewrite He; apply Hmem|]. split.
    + intros j Hj. rewrite He. simpl. rewrite Hrange by done. f_equal. lia.
    + intros x Hx. apply (zeroable_intro m init x []); [constructor|by intros ? ?%elem_of_nil..|].
      apply Hmem in Hx as [Hx1 Hx2]. rewrite Hrange in Hx2 by done. simpl. lia.
  - intros m'. split; [apply Hfin|]. by apply (wave_final m m' init done').
Qed.

Lemma nd_set_e_cnt m a v j :
  a < length (nodes m) →
  nd (set_e_cnt a v m) j = if decide (j = a) then with_e_cnt v (nd m a) else nd m j.
Proof.
  intros Ha. unfold set_e_cnt. rewrite nd_wr_node.
  destruct (decide (j = a)) as [->|Hne]; [by rewrite decide_True by (split; [done|lia])|].
  by rewrite decide_False by tauto.
Qed.

Lemma same_graph_set_e_cnt m a v : a < length (nodes m) → same_graph m (set_e_cnt a v m).
Proof. intros Ha. by apply same_graph_wr_node. Qed.

(** "for( unsigned ni = 1; ni < nodes.size(); ++ni ){ nodes[ ni ].e_cnt = 0; }" *)
Lemma vp_clear_spec m (l : list nat) :
  (∀ x, x ∈ l → x < length (nodes m)) →
  let m' := foldl (λ m ni, set_e_cnt ni 0 m) m l in
  same_graph m m'
  ∧ ∀ i, e_cnt (nd m' i) = if decide (i ∈ l) then 0%Z else e_cnt (nd m i).
Proof.
  induction l as [|x l IH] using rev_ind; intros Hr.
  - simpl. split; [apply same_graph_refl|]. done.
  - destruct IH as [Hg He]; [intros y Hy; apply Hr, elem_of_app; by left|].
    rewrite foldl_app. cbn [foldl]. set (m1 := foldl _ m l) in *. clearbody m1.
    pose proof Hg as (Hlen & _).
    assert (Hx : x < length (nodes m1)).
    { rewrite Hlen. apply Hr, elem_of_app. right. left. }
    split; [eapply same_graph_trans; [exact Hg|by apply same_graph_set_e_cnt]|].
    intros i. rewrite nd_set_e_cnt by done. destruct (decide (i = x)) as [->|Hne].
    + simpl. rewrite decide_True; [done|]. apply elem_of_app. right. left.
    + rewrite He. destruct (decide (i ∈ l)) as [Hi|Hi].
      * rewrite decide_True; [done|]. apply elem_of_app. by left.
      * rewrite decide_False; [done|]. rewrite elem_of_app, list_elem_of_singleton. tauto.
Qed.

(** "npn = the number of the output edges of the node" *)
Lemma vp_count_spec m (eis : list nat) :
  (∀ ei, ei ∈ eis → iedge m ei < length (nodes m)) →
  (Z.of_nat (length eis) < 4294967296)%Z →
  let m' := foldl (λ m ei, set_e_cnt (iedge m ei) (u32 (e_cnt (nd m (iedge m ei)) + 1)) m) m eis in
  same_graph m m'
  ∧ ∀ i, e_cnt (nd m i) = 0%Z →
         e_cnt (nd m' i) = Z.of_nat (count_occ Nat.eq_dec (iedge m <$> eis) i).
Proof.
  induction eis as [|ei eis IH] using rev_ind; intros Hr Hlen.
  - simpl. split; [apply same_graph_refl|]. done.
  - rewrite length_app in Hlen. simpl in Hlen.
    destruct IH as [Hg He]; [intros y Hy; apply Hr, elem_of_app; by left|lia|].
    rewrite foldl_app. cbn [foldl]. set (m1 := foldl _ m eis) in *. clearbody m1.
    pose proof Hg as (Hl & _). rewrite (iedge_same m m1) by done.
    assert (Hx : iedge m ei < length (nodes m1)).
    { rewrite Hl. apply Hr, elem_of_app. right. left. }
    split; [eapply same_graph_trans; [exact Hg|by apply same_graph_set_e_cnt]|].
    intros i Hi. rewrite nd_set_e_cnt by done. rewrite fmap_app.
    change (iedge m <$> [ei]) with [iedge m ei]. rewrite count_occ_snoc.
    destruct (decide (i = iedge m ei)) as [->|Hne].
    + rewrite decide_True by done. simpl. rewrite He by done.
      pose proof (count_occ_bound Nat.eq_dec (iedge m ei) (iedge m <$> eis)) as Hb.
      rewrite length_fmap in Hb. unfold u32. rewrite Z.mod_small; lia.
    + rewrite decide_False by done. rewrite Nat.add_0_r. by apply He.
Qed.

(** "npn = 0 if node has no output edges, otherwise 1" *)
Lemma vp_flag_spec m (eis : list nat) :
  (∀ ei, ei ∈ eis → iedge m ei < length (nodes m)) →
  let m' := foldl (λ m ei, set_e_cnt (iedge m ei) 1 m) m eis in
  same_graph m m'
  ∧ ∀ i, e_cnt (nd m i) = 0%Z →
         e_cnt (nd m' i)
         = if count_occ Nat.eq_dec (iedge m <$> eis) i =? 0 then 0%Z else 1%Z.
Proof.
  induction eis as [|ei eis IH] using rev_ind; intros Hr.
  - simpl. split; [apply same_graph_refl|]. done.
  - destruct IH as [Hg He]; [intros y Hy; apply Hr, elem_of_app; by left|].
    rewrite foldl_app. cbn [foldl]. set (m1 := foldl _ m eis) in *. clearbody m1.
    pose proof Hg as (Hl & _). rewrite (iedge_same m m1) by done.
    assert (Hx : iedge m ei < length (nodes m1)).
    { rewrite Hl. apply Hr, elem_of_app. right. left. }
    split; [eapply same_graph_trans; [exact Hg|by apply same_graph_set_e_cnt]|].
    intros i Hi. rewrite nd_set_e_cnt by done. rewrite fmap_app.
    change (iedge m <$> [ei]) with [iedge m ei]. rewrite count_occ_snoc.
    destruct (decide (i = iedge m ei)) as [->|Hne].
    + rewrite decide_True by done. simpl.
      by replace (_ + 1 =? 0) with false by (symmetry; apply Nat.eqb_neq; lia).
    + rewrite decide_False by done. rewrite Nat.add_0_r. by apply He.
Qed.

Lemma outdeg_same m0 m i : same_graph m0 m → outdeg m i = outdeg m0 i.
Proof.
  intros (_ & H1 & H2 & _). unfold outdeg, iedge. by rewrite H1, H2.
Qed.

Lemma vp_init_spec round m :
  layout_ok m →
  same_graph m (vp_init round m)
  ∧ ∀ i, 1 ≤ i < length (nodes m) →
         e_cnt (nd (vp_init round m) i)
         = if round =? 1 then Z.of_nat (outdeg m i)
           else if outdeg m i =? 0 then 0%Z else 1%Z.
Proof.
  intros (Hn & _ & _ & _ & Hr & Hb)%layout_ok_unfold. unfold vp_init.
  destruct (vp_clear_spec m (seq 1 (length (nodes m) - 1))) as [Hg He].
  { intros x Hx%elem_of_seq. lia. }
  set (m1 := foldl _ m (seq 1 _)) in *. clearbody m1.
  pose proof Hg as (Hl & Hi & Hne & _).
  assert (He1 : ∀ i, 1 ≤ i < length (nodes m) → e_cnt (nd m1 i) = 0%Z).
  { intros i Hi'. rewrite He, decide_True; [done|]. apply elem_of_seq. lia. }
  assert (Hr1 : ∀ ei, ei ∈ seq 0 (Z.to_nat (nr_edges m1)) → iedge m1 ei < length (nodes m1)).
  { intros ei Hei%elem_of_seq. rewrite (iedge_same m m1), Hl by done.
    apply Hr. rewrite <- Hne. lia. }
  assert (Ho : ∀ i, count_occ Nat.eq_dec (iedge m1 <$> seq 0 (Z.to_nat (nr_edges m1))) i
                    = outdeg m i).
  { intros i. by rewrite <- (outdeg_same m m1). }
  destruct (round =? 1).
  - destruct (vp_count_spec m1 (seq 0 (Z.to_nat (nr_edges m1))) Hr1) as [Hg2 He2].
    { rewrite length_seq, Hne. lia. }
    split; [by eapply same_graph_trans|].
    intros i Hi'. rewrite He2 by (by apply He1). by rewrite Ho.
  - destruct (vp_flag_spec m1 (seq 0 (Z.to_nat (nr_edges m1))) Hr1) as [Hg2 He2].
    split; [by eapply same_graph_trans|].
    intros i Hi'. rewrite He2 by (by apply He1). by rewrite Ho.
Qed.

(** The loop "Make npn:s 0 for progress states and 1 for non-progress
    deadlocks" of either round, with its flag, its predicate and its
    message. *)
Fixpoint vp_mark (dl_not chk : bool) (pred : state → bool * option string) (msg : string)
    (nis : list nat) (m : machine) : bool * machine :=
  match nis with
  | [] => (false, m)
  | ni :: rest =>
      let m := if dl_not && (e_cnt (nd m ni) =? 0)%Z then set_e_cnt ni 1 m else m in
      if negb (e_cnt (nd m ni) =? 0)%Z then
        let m := use_state ni m in
        let '(b, e) := if chk then pred (cur_state m) else (true, None) in
        let m := declare_error e m in
        let m := if b then set_e_cnt ni 0 m else m in
        if is_set (err_msg m) then (true, report_error ni msg m)
        else vp_mark dl_not chk pred msg rest m
      else vp_mark dl_not chk pred msg rest m
  end.

Lemma vp_may_mark nis m :
  vp_may nis m
  = vp_mark (dl_not_may cfg) (chk_may_progress cfg) (is_may_progress mdl)
      "may_progress modelling error" nis m.
Proof.
  revert m. induction nis as [|ni nis IH]; intros m; [done|]. cbn [vp_may vp_mark].
  destruct (negb _); [|apply IH].
  destruct (if chk_may_progress cfg then _ else _) as [b e].
  destruct (is_set _); [done|apply IH].
Qed.

Lemma vp_must_mark nis m :
  vp_must nis m
  = vp_mark (dl_not_must cfg) (chk_must_progress cfg) (is_must_progress mdl)
      "must_progress modelling error" nis m.
Proof.
  revert m. induction nis as [|ni nis IH]; intros m; [done|]. cbn [vp_must vp_mark].
  destruct (negb _); [|apply IH].
  destruct (if chk_must_progress cfg then _ else _) as [b e].
  destruct (is_set _); [done|apply IH].
Qed.

(** The count that the loop leaves in node [i], from the count [e] that it
    finds there. *)
Definition marked (dl_not chk : bool) (pred : state → bool * option string)
    (m : machine) (e : Z) (i : nat) : Z :=
  let e1 := if dl_not && (e =? 0)%Z then 1%Z else e in
  if (e1 =? 0)%Z then 0%Z
  else if (if chk then pred (state_at m i) else (true, None)).1 then 0%Z else e1.

Lemma vp_mark_spec dl_not chk pred msg nis :
  ∀ m m', NoDup nis → (∀ x, x ∈ nis → x < length (nodes m)) →
    vp_mark dl_not chk pred msg nis m = (false, m') →
    same_graph m m'
    ∧ ∀ i, e_cnt (nd m' i)
           = if decide (i ∈ nis) then marked dl_not chk pred m (e_cnt (nd m i)) i
             else e_cnt (nd m i).
Proof.
  induction nis as [|ni nis IH]; intros m m' Hnd Hr.
  - intros [= <-]. split; [apply same_graph_refl|]. done.
  - apply NoDup_cons in Hnd as [Hni Hnd].
    assert (Hnr : ni < length (nodes m)) by (apply Hr; left).
    cbn [vp_mark].
    set (m1 := if dl_not && _ then _ else _).
    assert (H1 : same_graph m m1 ∧ ∀ j, nd m1 j
              = if decide (j = ni)
                then with_e_cnt (if dl_not && (e_cnt (nd m ni) =? 0)%Z then 1%Z
                                 else e_cnt (nd m ni)) (nd m ni)
                else nd m j).
    { unfold m1. destruct (dl_not && _).
      - split; [by apply same_graph_set_e_cnt|]. intros j. by apply nd_set_e_cnt.
      - split; [apply same_graph_refl|]. intros j.
        destruct (decide (j = ni)) as [->|?]; [|done]. by destruct (nd m ni). }
    destruct H1 as [Hg1 Hnd1]. clearbody m1. pose proof Hg1 as (Hl1 & _ & _ & _ & Hst1 & _).
    assert (Hfin : ∀ m2, same_graph m m2 →
              (∀ j, nd m2 j
                 = if decide (j = ni)
                   then with_e_cnt (marked dl_not chk pred m (e_cnt (nd m ni)) ni) (nd m ni)
                   else nd m j) →
              vp_mark dl_not chk pred msg nis m2 = (false, m') →
              same_graph m m'
              ∧ ∀ i, e_cnt (nd m' i)
                     = if decide (i ∈ ni :: nis)
                       then marked dl_not chk pred m (e_cnt (nd m i)) i
                       else e_cnt (nd m i)).
    { intros m2 Hg2 Hnd2 Hm. pose proof Hg2 as (Hl2 & _ & _ & _ & Hst2 & _).
      destruct (IH m2 m' Hnd) as [Hg He]; [|done|].
      { intros x Hx. rewrite Hl2. apply Hr. by right. }
      split; [by eapply same_graph_trans|].
      intros i. rewrite He. destruct (decide (i = ni)) as [->|Hne].
      - rewrite decide_False by done. rewrite decide_True by left.
        rewrite Hnd2, decide_True by done. done.
      - rewrite Hnd2, (decide_False (P := i = ni)) by done.
        destruct (decide (i ∈ nis)) as [Hi|Hi].
        + rewrite decide_True by (by right). unfold marked, state_at. by rewrite Hst2.
        + rewrite decide_False; [done|]. rewrite elem_of_cons. tauto. }
    rewrite (Hnd1 ni), decide_True by done. cbn [e_cnt with_e_cnt].
    unfold marked in Hfin.
    set (e1 := if dl_not && _ then _ else _) in *.
    destruct (e1 =? 0)%Z eqn:E1; cbn [negb].
    + apply (Hfin m1 Hg1). intros j. rewrite Hnd1.
      destruct (decide (j = ni)); [|done]. by apply Z.eqb_eq in E1 as ->.
    + change (cur_state (use_state ni m1)) with (state_at m1 ni).
      replace (state_at m1 ni) with (state_at m ni) by (unfold state_at; by rewrite Hst1).
      destruct (if chk then pred (state_at m ni) else (true, None)) as [b e] eqn:Ep.
      cbn [fst] in Hfin.
      destruct e as [s|]; cbn [declare_error].
      { destruct b; cbn [is_set]; [|done].
        unfold set_e_cnt. rewrite wr_node_err_msg. done. }
      set (m2 := if b then _ else _).
      assert (H2 : same_graph m m2 ∧ err_msg m2 = err_msg m1 ∧ ∀ j, nd m2 j
                = if decide (j = ni) then with_e_cnt (if b then 0%Z else e1) (nd m ni)
                  else nd m j).
      { unfold m2. destruct b.
        - split; [|split].
          + eapply same_graph_trans; [exact Hg1|].
            apply (same_graph_trans _ (use_state ni m1)); [by repeat split|].
            apply same_graph_set_e_cnt. simpl. lia.
          + unfold set_e_cnt. by rewrite wr_node_err_msg.
          + intros j. rewrite nd_set_e_cnt by (simpl; lia).
            change (nd (use_state ni m1)) with (nd m1). rewrite !Hnd1.
            destruct (decide (j = ni)); [|done]. by rewrite decide_True.
        - split; [|split; [done|]].
          + eapply same_graph_trans; [exact Hg1|]. by repeat split.
          + intros j. change (nd (use_state ni m1)) with (nd m1). by rewrite Hnd1. }
      destruct H2 as (Hg2 & He2 & Hnd2). clearbody m2.
      destruct (is_set (err_msg m2)); [done|]. by apply Hfin.
Qed.

(** *** The two rounds *)

(** Node [i] counts as a may progress node: the predicate of the model
    holds in its state, or it has no output edge and [dl_not_may] is
    off. *)
Definition may_goal (m : machine) (i : nat) : bool :=
  (if chk_may_progress cfg then is_may_progress mdl (state_at m i) else (true, None)).1
  || (outdeg m i =? 0) && negb (dl_not_may cfg).

(** The same for must progress. *)
Definition must_goal (m : machine) (i : nat) : bool :=
  (if chk_must_progress cfg then is_must_progress mdl (state_at m i) else (true, None)).1
  || (outdeg m i =? 0) && negb (dl_not_must cfg).

(** The counts from which the propagation of round 0 starts. *)
Definition init_may (m : machine) (i : nat) : nat :=
  Z.to_nat (marked (dl_not_may cfg) (chk_may_progress cfg) (is_may_progress mdl) m
              (if outdeg m i =? 0 then 0%Z else 1%Z) i).

(** The counts from which the propagation of round 1 starts. *)
Definition init_must (m : machine) (i : nat) : nat :=
  Z.to_nat (marked (dl_not_must cfg) (chk_must_progress cfg) (is_must_progress mdl) m
              (Z.of_nat (outdeg m i)) i).

(** There is a path of edges from [a] to [b]. *)
Inductive reaches (m : machine) : nat → nat → Prop :=
  | reaches_refl a : reaches m a a
  | reaches_step a b c : arrow m a b → reaches m b c → reaches m a c.

(** Every path from the node leads to a must progress node: the node is
    one, or it has output edges and they all lead to such nodes. *)
Inductive inevitable (m : machine) : nat → Prop :=
  | inevitable_goal i : must_goal m i = true → inevitable m i
  | inevitable_step i :
      outdeg m i ≠ 0 → (∀ p, arrow m i p → inevitable m p) → inevitable m i.

Lemma init_may_spec m i :
  init_may m i = if may_goal m i then 0 else 1.
Proof.
  unfold init_may, may_goal, marked.
  destruct (if chk_may_progress cfg then _ else _) as [b e]. simpl.
  destruct (outdeg m i =? 0), (dl_not_may cfg), b; done.
Qed.

Lemma init_must_spec m i :
  init_must m i = if must_goal m i then 0 else if outdeg m i =? 0 then 1 else outdeg m i.
Proof.
  unfold init_must, must_goal, marked.
  destruct (if chk_must_progress cfg then _ else _) as [b e]. simpl.
  destruct (outdeg m i) as [|n] eqn:E.
  - simpl. destruct (dl_not_must cfg), b; done.
  - replace (Z.of_nat (S n) =? 0)%Z with false by (symmetry; apply Z.eqb_neq; lia).
    rewrite andb_false_r. simpl. destruct b; simpl; [done|]. lia.
Qed.

Lemma outdeg_bound m i : outdeg m i ≤ Z.to_nat (nr_edges m).
Proof.
  unfold outdeg. etrans; [apply count_occ_bound|]. by rewrite length_fmap, length_seq.
Qed.

Lemma hits_same m0 m ps i : same_graph m0 m → hits m ps i = hits m0 ps i.
Proof.
  intros Hg. unfold hits. induction ps as [|p ps IH]; simpl; [done|].
  by rewrite IH, (in_edges_same m0 m).
Qed.

Lemma zeroable_same m0 m init i : same_graph m0 m → zeroable m0 init i → zeroable m init i.
Proof.
  intros Hg H. induction H as [i ps Hnd Hr _ IH Hle].
  apply (zeroable_intro m init i ps); [done| |done|].
  - intros p Hp. destruct Hg as (-> & _). by apply Hr.
  - by rewrite (hits_same m0 m).
Qed.

Lemma layout_ok_same m0 m : same_graph m0 m → layout_ok m0 → layout_ok m.
Proof.
  intros (H1 & H2 & H3 & H4 & _) (A1 & A2 & A3 & A4 & A5 & A6).
  unfold layout_ok, node_ids, iedge in *. rewrite H1, H2, H3, !H4.
  split; [done|]. split; [done|]. split; [|done].
  eapply Forall_impl; [exact A3|]. intros p Hp. simpl in *. by rewrite !H4.
Qed.

(** [verify_progress] up to the end of the propagation. *)
Lemma vp_label_spec round m i :
  layout_ok m → round = 0 ∨ round = 1 → (vp_label round m).1 = false →
  1 ≤ i < length (nodes m) →
  same_graph m (vp_label round m).2
  ∧ (e_cnt (nd (vp_label round m).2 i) = 0%Z
     ↔ zeroable m (if round =? 0 then init_may m else init_must m) i).
Proof.
  intros Hl Hround Hret Hi. pose proof (layout_ok_unfold m Hl) as (Hn & _ & _ & _ & _ & Hb).
  revert Hret. unfold vp_label.
  destruct (vp_init_spec round m Hl) as [Hg0 He0].
  set (m0 := vp_init round m) in *. clearbody m0.
  pose proof Hg0 as (Hl0 & _ & _ & _ & Hst0 & _).
  set (init := if round =? 0 then init_may m else init_must m).
  assert (Hmark : ∀ m1,
            (if round =? 0 then vp_may (seq 1 (length (nodes m0) - 1)) m0
             else if round =? 1 then vp_must (seq 1 (length (nodes m0) - 1)) m0
             else (false, m0)) = (false, m1) →
            same_graph m m1
            ∧ ∀ j, 1 ≤ j < length (nodes m) → e_cnt (nd m1 j) = Z.of_nat (init j)).
  { intros m1. unfold init.
    assert (Hsame : ∀ dl chk pred e j,
              marked dl chk pred m0 e j = marked dl chk pred m e j).
    { intros. unfold marked, state_at. by rewrite Hst0. }
    assert (Hpos : ∀ dl chk pred e j, (0 ≤ e)%Z → (0 ≤ marked dl chk pred m e j)%Z).
    { intros dl chk pred e j He. unfold marked.
      destruct (dl && _); [destruct (_ =? _)%Z; [done|]; by destruct (_.1)|].
      destruct (_ =? _)%Z; [done|]. by destruct (_.1). }
    destruct Hround as [-> | ->]; simpl.
    - rewrite vp_may_mark. intros Hm.
      apply vp_mark_spec in Hm as [Hg1 He1];
        [|apply NoDup_seq|intros x Hx%elem_of_seq; lia].
      split; [by eapply same_graph_trans|].
      intros j Hj. rewrite He1, decide_True by (apply elem_of_seq; lia).
      rewrite He0 by done. simpl. rewrite Hsame. unfold init_may.
      rewrite Z2Nat.id; [done|]. apply Hpos. by destruct (outdeg m j =? 0).
    - rewrite vp_must_mark. intros Hm.
      apply vp_mark_spec in Hm as [Hg1 He1];
        [|apply NoDup_seq|intros x Hx%elem_of_seq; lia].
      split; [by eapply same_graph_trans|].
      intros j Hj. rewrite He1, decide_True by (apply elem_of_seq; lia).
      rewrite He0 by done. simpl. rewrite Hsame. unfold init_must.
      rewrite Z2Nat.id; [done|]. apply Hpos. lia. }
  destruct (if round =? 0 then _ else _) as [ret m1]. destruct ret; [done|].
  destruct (Hmark m1 eq_refl) as [Hg1 He1]. clear Hmark.
  pose proof Hg1 as (Hl1 & _).
  assert (Hinit : ∀ j, (Z.of_nat (init j) < 4294967296)%Z).
  { intros j. unfold init. pose proof (outdeg_bound m j).
    destruct (round =? 0); [rewrite init_may_spec; by destruct (may_goal m j)|].
    rewrite init_must_spec. destruct (must_goal m j); [done|].
    destruct (outdeg m j =? 0); lia. }
  pose proof (vp_propagate m1 init i (layout_ok_same m m1 Hg1 Hl) Hinit) as H.
  destruct (vp_collect m1) as [p m2]. simpl in H |- *. intros _.
  destruct H as [Hg2 Hz]; [by rewrite Hl1|by rewrite Hl1|].
  split; [by eapply same_graph_trans|].
  rewrite Hz. split; apply zeroable_same; [|done].
  repeat split; try (symmetry; apply Hg1).
Qed.

Lemma hits_prefix m k i :
  layout_ok m → k < length (nodes m) →
  hits m (seq 1 k) i = count_occ Nat.eq_dec (iedge m <$> seq 0 (ie_end (nd m k))) i.
Proof.
  intros Hl. pose proof (layout_ok_unfold m Hl) as (_ & H0 & Hmono & _).
  induction k as [|k IH]; intros Hk.
  - by rewrite H0.
  - rewrite seq_S, hits_app, IH by lia. unfold hits at 1. simpl. rewrite Nat.add_0_r.
    unfold in_edges. simpl. rewrite Nat.sub_0_r.
    specialize (Hmono (S k) ltac:(lia)). simpl in Hmono. rewrite Nat.sub_0_r in Hmono.
    assert (Hs : seq 0 (ie_end (nd m (S k)))
                 = seq 0 (ie_end (nd m k))
                   ++ seq (ie_end (nd m k)) (ie_end (nd m (S k)) - ie_end (nd m k))).
    { change (ie_end (nd m k)) with (0 + ie_end (nd m k)) at 3.
      rewrite <- seq_app. f_equal. lia. }
    by rewrite Hs, fmap_app, count_occ_app.
Qed.

(** The edges of the slices are the edges of [iedges[0 .. nr_edges)]. *)
Lemma hits_all m i : layout_ok m → hits m (node_ids m) i = outdeg m i.
Proof.
  intros Hl. pose proof (layout_ok_unfold m Hl) as (Hn & _ & _ & Hlast & _).
  unfold node_ids, outdeg. rewrite hits_prefix by (done || lia). by rewrite Hlast.
Qed.

Lemma hits_bound m ps i :
  layout_ok m → NoDup ps → (∀ p, p ∈ ps → 1 ≤ p < length (nodes m)) →
  hits m ps i ≤ outdeg m i.
Proof.
  intros Hl Hnd Hr. rewrite <- hits_all by done.
  apply hits_subseteq; [done|]. intros p Hp. by apply elem_of_node_ids, Hr.
Qed.

Lemma hits_pos m ps i : 0 < hits m ps i → ∃ p, p ∈ ps ∧ i ∈ in_edges m p.
Proof.
  unfold hits. induction ps as [|p ps IH]; simpl; [lia|]. intros H.
  destruct (decide (0 < count_occ Nat.eq_dec (in_edges m p) i)) as [Hp|Hp].
  - exists p. split; [left|]. apply list_elem_of_In. by eapply count_occ_In.
  - destruct IH as (q & Hq & Hi); [lia|]. exists q. split; [by right|done].
Qed.

Lemma hits_one m p i : i ∈ in_edges m p → 1 ≤ hits m [p] i.
Proof.
  intros H. unfold hits. simpl. apply list_elem_of_In, (count_occ_In Nat.eq_dec) in H. lia.
Qed.

(** Round 0: the propagation brings to zero the nodes from which a may
    progress node can be reached. *)
Lemma zeroable_may m i :
  1 ≤ i < length (nodes m) →
  zeroable m (init_may m) i
  ↔ ∃ j, reaches m i j ∧ 1 ≤ j < length (nodes m) ∧ may_goal m j = true.
Proof.
  intros Hi. split.
  - intros H. revert Hi. induction H as [i ps Hnd Hr _ IH Hle]. intros Hi.
    rewrite init_may_spec in Hle. destruct (may_goal m i) eqn:E.
    + exists i. split; [constructor|done].
    + destruct (hits_pos m ps i) as (p & Hp & Hin); [lia|].
      destruct (IH p Hp (Hr p Hp)) as (j & Hj & Hjr & Hg).
      exists j. split; [|done]. apply (reaches_step m i p j); [|done]. split; [by apply Hr|done].
  - intros (j & Hreach & Hj & Hg). revert Hi. induction Hreach as [a|a b c Hab Hbc IH]; intros Ha.
    + apply (zeroable_intro m _ a []); [constructor|by intros ? ?%elem_of_nil..|].
      rewrite init_may_spec, Hg. simpl. lia.
    + destruct Hab as [Hb Hin].
      apply (zeroable_intro m _ a [b]); [apply NoDup_singleton| | |].
      * by intros p ->%list_elem_of_singleton.
      * intros p ->%list_elem_of_singleton. by apply IH.
      * rewrite init_may_spec. pose proof (hits_one m b a Hin). destruct (may_goal m a); lia.
Qed.

Lemma hits_filter m (l : list nat) i :
  hits m (filter (λ p, i ∈ in_edges m p) l) i = hits m l i.
Proof.
  unfold hits. induction l as [|p l IH]; simpl; [done|].
  rewrite filter_cons. case_decide as H; simpl; [by rewrite IH|].
  rewrite IH. assert (E : count_occ Nat.eq_dec (in_edges m p) i = 0).
  { apply count_occ_not_In. by rewrite <- list_elem_of_In. }
  by rewrite E.
Qed.

(** Round 1: the propagation brings to zero the nodes from which every
    path leads to a must progress node. *)
Lemma zeroable_must m i :
  layout_ok m → 1 ≤ i < length (nodes m) →
  zeroable m (init_must m) i ↔ inevitable m i.
Proof.
  intros Hl Hi. split.
  - intros H. clear Hi. induction H as [i ps Hnd Hr _ IH Hle].
    rewrite init_must_spec in Hle. destruct (must_goal m i) eqn:E; [by constructor|].
    pose proof (hits_bound m ps i Hl Hnd Hr) as Hb.
    destruct (outdeg m i =? 0) eqn:Eo; [apply Nat.eqb_eq in Eo; lia|].
    apply Nat.eqb_neq in Eo. apply inevitable_step; [done|].
    intros p [Hp Hin]. apply IH.
    destruct (decide (p ∈ ps)) as [|Hnot]; [done|exfalso].
    pose proof (hits_bound m (p :: ps) i Hl) as Hb'.
    unfold hits in Hb', Hle. simpl in Hb'.
    apply list_elem_of_In, (count_occ_In Nat.eq_dec) in Hin.
    assert (count_occ Nat.eq_dec (in_edges m p) i
            + sum_list_with (λ p, count_occ Nat.eq_dec (in_edges m p) i) ps ≤ outdeg m i);
      [|lia].
    apply Hb'; [by apply NoDup_cons|]. intros q [->|Hq]%elem_of_cons; [done|by apply Hr].
  - intros H. clear Hi. induction H as [i Hg|i Ho _ IH].
    + apply (zeroable_intro m _ i []); [constructor|by intros ? ?%elem_of_nil..|].
      rewrite init_must_spec, Hg. simpl. lia.
    + apply (zeroable_intro m _ i (filter (λ p, i ∈ in_edges m p) (node_ids m))).
      * apply NoDup_filter, NoDup_seq.
      * intros p [_ Hp]%list_elem_of_filter. by apply elem_of_node_ids.
      * intros p [Hin Hp]%list_elem_of_filter. apply IH. split; [by apply elem_of_node_ids|done].
      * rewrite hits_filter, hits_all by done. rewrite init_must_spec.
        destruct (must_goal m i); [lia|].
        by replace (outdeg m i =? 0) with false by (symmetry; by apply Nat.eqb_neq).
Qed.

(** ** Counting the edges in the forward pass *)

(** The number of transitions that lead from node [a] to node [i]. *)
Definition mult (m : machine) (a i : nat) : nat :=
  count_occ Nat.eq_dec (target m a <$> seq 0 (nr_trans m)) i.

(** The number of edges that end in node [i]. *)
Definition indeg (m : machine) (i : nat) : nat :=
  sum_list_with (λ a, mult m a i) (node_ids m).

(** The number of edges into [i] among the transitions of the nodes below
    [q] and the transitions [dn] of [q]. *)
Definition arrived (m : machine) (q : nat) (dn : list nat) (i : nat) : nat :=
  sum_list_with (λ a, mult m a i) (seq 1 (q - 1))
  + count_occ Nat.eq_dec (target m q <$> dn) i.

(** [e_cnt] and [nr_edges] count the edges that have been fired. *)
Definition counted (q : nat) (dn : list nat) (m : machine) : Prop :=
  (∀ i, 1 ≤ i < length (nodes m) → e_cnt (nd m i) = u32 (Z.of_nat (arrived m q dn i)))
  ∧ nr_edges m = u32 (Z.of_nat (sum_list_with (arrived m q dn) (node_ids m))).

Lemma fmap_ext_in {A B} (f g : A → B) (l : list A) :
  (∀ x, x ∈ l → f x = g x) → f <$> l = g <$> l.
Proof.
  induction l as [|x l IH]; intros H; [done|]. rewrite !fmap_cons.
  rewrite (H x) by left. rewrite IH; [done|]. intros y Hy. apply H. by right.
Qed.

Lemma sum_list_with_ext_in {A} (f g : A → nat) (l : list A) :
  (∀ x, x ∈ l → f x = g x) → sum_list_with f l = sum_list_with g l.
Proof.
  induction l as [|x l IH]; intros H; [done|]. simpl.
  rewrite (H x) by left. rewrite IH; [done|]. intros y Hy. apply H. by right.
Qed.

Lemma sum_list_with_add {A} (f g : A → nat) (l : list A) :
  sum_list_with (λ x, f x + g x) l = sum_list_with f l + sum_list_with g l.
Proof. induction l as [|x l IH]; simpl; [done|]. rewrite IH. lia. Qed.

Lemma sum_list_with_indicator (n : nat) (l : list nat) :
  NoDup l → sum_list_with (λ i, if decide (n = i) then 1 else 0) l
            = if decide (n ∈ l) then 1 else 0.
Proof.
  induction l as [|x l IH]; intros Hnd; [done|]. apply NoDup_cons in Hnd as [Hx Hnd].
  simpl. rewrite IH by done. destruct (decide (n = x)) as [->|Hne].
  - rewrite decide_False by done. by rewrite decide_True by left.
  - destruct (decide (n ∈ l)) as [Hin|Hin].
    + by rewrite decide_True by (by right).
    + rewrite decide_False; [done|]. rewrite elem_of_cons. tauto.
Qed.

Lemma u32_succ x : u32 (u32 x + 1) = u32 (x + 1).
Proof. unfold u32. by rewrite Z.add_mod_idemp_l. Qed.

Lemma target_bound m a tr : hash_ok m → target m a tr < length (nodes m).
Proof.
  intros Hok. unfold target. destruct (succ_state tr (state_at m a)) as [t|]; simpl.
  - by apply index_of_bound.
  - apply hash_ok_size in Hok. lia.
Qed.

Lemma target_grows m m' a tr :
  hash_ok m' → grows m m' → 1 ≤ a < length (nodes m) →
  (∀ t, succ_state tr (state_at m a) = Some t → index_of m t ≠ 0) →
  target m' a tr = target m a tr.
Proof.
  intros Hok Hg Ha Hc. pose proof Hg as (G1 & G2 & G3 & G4).
  unfold target. rewrite G4 by done.
  destruct (succ_state tr (state_at m a)) as [t|] eqn:E; [|done].
  simpl. apply index_of_grows; [done|done|by apply Hc].
Qed.

Lemma arrived_grows q dn m m' i :
  hash_ok m' → grows m m' → 1 ≤ q < length (nodes m) → closed_upto q dn m →
  (∀ tr, tr ∈ dn → tr < nr_trans m) →
  arrived m' q dn i = arrived m q dn i.
Proof.
  intros Hok Hg Hq Hc Hdn. pose proof Hg as (G1 & G2 & G3 & G4).
  unfold arrived. f_equal.
  - apply sum_list_with_ext_in. intros a Ha%elem_of_seq. unfold mult. rewrite G2.
    f_equal. apply fmap_ext_in. intros tr Htr%elem_of_seq.
    apply target_grows; [done|done|lia|].
    intros t Ht. apply (Hc a tr t); [lia|left; lia|lia|done].
  - f_equal. apply fmap_ext_in. intros tr Htr.
    apply target_grows; [done|done|lia|].
    intros t Ht. apply (Hc q tr t); [lia|by right|by apply Hdn|done].
Qed.

Lemma arrived_snoc m q dn tr i :
  arrived m q (dn ++ [tr]) i
  = arrived m q dn i + (if decide (target m q tr = i) then 1 else 0).
Proof.
  unfold arrived. rewrite fmap_app. change (target m q <$> [tr]) with [target m q tr].
  rewrite count_occ_snoc. lia.
Qed.

Lemma arrived_fresh m q dn i :
  hash_ok m → length (nodes m) ≤ i → arrived m q dn i = 0.
Proof.
  intros Hok Hi. unfold arrived.
  assert (H0 : ∀ a (l : list nat), count_occ Nat.eq_dec (target m a <$> l) i = 0).
  { intros a l. apply count_occ_not_In. rewrite <- list_elem_of_In.
    intros (tr & Htr & _)%list_elem_of_fmap. pose proof (target_bound m a tr Hok). lia. }
  rewrite H0, Nat.add_0_r. unfold mult.
  induction (seq 1 (q - 1)) as [|a l IH]; simpl; [done|]. by rewrite H0, IH.
Qed.

(** One firing in the forward pass counts its edge. *)
Lemma visit_counted m q tr dn :
  ready m q → forward m → no_progr_chk cfg = false → tr < nr_trans m →
  tree_ok q m → closed_upto q dn m → (∀ tr', tr' ∈ dn → tr' < nr_trans m) →
  counted q dn m → counted q (dn ++ [tr]) (visit q m tr).
Proof.
  intros Hr Hfw Hnp Htr Ht Hc Hdn [He Hn]. pose proof Hr as (Hok & Hnr & Hq & Hs).
  pose proof (ready_visit m q tr Hr) as (Hok' & _).
  pose proof (grows_visit m q tr Hr) as Hg.
  assert (Harr : ∀ i, arrived (visit q m tr) q (dn ++ [tr]) i
                 = arrived m q dn i
                   + (if decide (target (visit q m tr) q tr = i) then 1 else 0)).
  { intros i. rewrite arrived_snoc. by rewrite (arrived_grows q dn m). }
  assert (Hbw : negb (no_progr_chk cfg) && bss_second m = false)
    by (unfold forward in Hfw; destruct (no_progr_chk cfg), (bss_second m); done).
  pose proof (hash_ok_data m Hok) as Hd.
  pose proof Hg as (G1 & G2 & G3 & G4).
  assert (Htg : target (visit q m tr) q tr
                = from_option (index_of (visit q m tr)) 0 (succ_state tr (state_at m q))).
  { unfold target. by rewrite G4. }
  destruct (succ_state tr (state_at m q)) as [t|] eqn:E.
  2:{ (* disabled *)
      assert (Hv : visit q m tr = m) by (unfold visit; by rewrite E).
      simpl in Htg. rewrite Htg in Harr. rewrite Hv in *. split.
      - intros i Hi. rewrite Harr, decide_False by lia. rewrite Nat.add_0_r. by apply He.
      - rewrite Hn. do 2 f_equal. apply sum_list_with_ext_in.
        intros i Hi%elem_of_node_ids. rewrite Harr, decide_False by lia. lia. }
  pose proof (succ_state_length _ _ _ E) as Hlt. simpl in Htg.
  destruct (decide (index_of m t = 0)) as [Hi|Hi].
  - (* a new node *)
    assert (Hv : visit q m tr = discovered m q t).
    { unfold visit. rewrite E, Hbw. by rewrite decide_True. }
    rewrite Hv in *. clear Hv.
    assert (Hsn : state_at (discovered m q t) (length (nodes m)) = t).
    { rewrite state_at_discovered by done. by rewrite decide_True. }
    assert (Hin : index_of (discovered m q t) t = length (nodes m)).
    { pose proof (index_of_stored (discovered m q t) (length (nodes m)) Hok') as X.
      rewrite Hsn in X. apply X. rewrite length_discovered. lia. }
    rewrite Hin in Htg. rewrite Htg in Harr. split.
    + intros i. rewrite length_discovered. intros Hir. rewrite nd_discovered, Harr.
      destruct (decide (i = length (nodes m))) as [->|Hne].
      * rewrite decide_True by done. rewrite Hnp. simpl.
        by rewrite arrived_fresh by (done || lia).
      * rewrite decide_False by done. rewrite Nat.add_0_r. apply He. lia.
    + unfold discovered at 1. simpl nr_edges. rewrite Hn, u32_succ. f_equal.
      unfold node_ids. rewrite length_discovered.
      replace (S (length (nodes m)) - 1) with (S (length (nodes m) - 1)) by lia.
      rewrite seq_S, sum_list_with_app. simpl.
      replace (S (length (nodes m) - 1)) with (length (nodes m)) by lia.
      rewrite Harr, decide_True by done. rewrite arrived_fresh by (done || lia).
      rewrite (sum_list_with_ext_in (arrived (discovered m q t) q (dn ++ [tr]))
                 (arrived m q dn)); [lia|].
      intros i Hi'%elem_of_seq. rewrite Harr, decide_False by lia. lia.
  - (* a stored node *)
    assert (Hv : visit q m tr = revisited m (index_of m t)).
    { unfold visit. rewrite E, Hbw. by rewrite decide_False. }
    rewrite Hv in *. clear Hv.
    destruct (index_of_spec m t _ eq_refl Hi) as [Hrange _].
    rewrite (index_of_grows m (revisited m (index_of m t)) t) in Htg by done.
    rewrite Htg in Harr. split.
    + intros i. rewrite length_revisited. intros Hir. rewrite nd_revisited, Harr.
      destruct (decide (i = index_of m t)) as [->|Hne].
      * rewrite decide_True by (split; [done|split; [lia|done]]).
        rewrite decide_True by done. simpl. rewrite He by done. rewrite u32_succ.
        f_equal. lia.
      * rewrite decide_False by tauto. rewrite decide_False by congruence.
        rewrite Nat.add_0_r. by apply He.
    + unfold revisited at 1. simpl nr_edges.
      replace (nr_edges (if no_progr_chk cfg then m
                         else set_e_cnt (index_of m t) (u32 (e_cnt (nd m (index_of m t)) + 1)) m))
        with (nr_edges m).
      2:{ destruct (no_progr_chk cfg); [done|]. unfold set_e_cnt. by rewrite wr_node_nr_edges. }
      rewrite Hn, u32_succ. f_equal.
      unfold node_ids. rewrite length_revisited.
      rewrite (sum_list_with_ext_in (arrived (revisited m (index_of m t)) q (dn ++ [tr]))
                 (λ i, arrived m q dn i + (if decide (index_of m t = i) then 1 else 0)))
        by (intros; apply Harr).
      rewrite sum_list_with_add, sum_list_with_indicator by apply NoDup_seq.
      rewrite decide_True by (apply elem_of_seq; lia). lia.
Qed.

Lemma target_same m m' a tr :
  length (nodes m') = length (nodes m) →
  (∀ ni, 1 ≤ ni < length (nodes m) → state_at m' ni = state_at m ni) →
  1 ≤ a < length (nodes m) → target m' a tr = target m a tr.
Proof.
  intros Hl Hs Ha. unfold target. rewrite Hs by done.
  destruct (succ_state tr (state_at m a)); [|done]. simpl. by apply index_of_ext.
Qed.

Lemma mult_same m m' a i :
  length (nodes m') = length (nodes m) → nr_trans m' = nr_trans m →
  (∀ ni, 1 ≤ ni < length (nodes m) → state_at m' ni = state_at m ni) →
  1 ≤ a < length (nodes m) → mult m' a i = mult m a i.
Proof.
  intros Hl Hn Hs Ha. unfold mult. rewrite Hn. f_equal. apply fmap_ext_in.
  intros tr _. by apply target_same.
Qed.

Lemma arrived_same m m' q dn i :
  length (nodes m') = length (nodes m) → nr_trans m' = nr_trans m →
  (∀ ni, 1 ≤ ni < length (nodes m) → state_at m' ni = state_at m ni) →
  1 ≤ q ≤ length (nodes m) → (q = length (nodes m) → dn = []) →
  arrived m' q dn i = arrived m q dn i.
Proof.
  intros Hl Hn Hs Hq Hdn. unfold arrived. f_equal.
  - apply sum_list_with_ext_in. intros a Ha%elem_of_seq. apply mult_same; [done..|lia].
  - destruct (decide (q = length (nodes m))) as [Hq'|Hq']; [by rewrite (Hdn Hq')|].
    f_equal. apply fmap_ext_in. intros tr _. apply target_same; [done|done|lia].
Qed.

Lemma counted_same q dn m m' :
  nodes m' = nodes m → nr_trans m' = nr_trans m → nr_edges m' = nr_edges m →
  (∀ ni, 1 ≤ ni < length (nodes m) → state_at m' ni = state_at m ni) →
  1 ≤ q ≤ length (nodes m) → (q = length (nodes m) → dn = []) →
  counted q dn m → counted q dn m'.
Proof.
  intros Hnd Hn Hne Hs Hq Hdn [He Hc].
  assert (Hl : length (nodes m') = length (nodes m)) by (by rewrite Hnd).
  split.
  - intros i. rewrite Hl. intros Hi. unfold nd. rewrite Hnd. fold (nd m i).
    rewrite He by done. by rewrite (arrived_same m m').
  - rewrite Hne, Hc. unfold node_ids. rewrite Hl. do 2 f_equal.
    apply sum_list_with_ext_in. intros i _. symmetry. by apply arrived_same.
Qed.

Lemma foldl_visit_counted q trs dn m :
  ready m q → forward m → no_progr_chk cfg = false →
  (∀ tr, tr ∈ trs → tr < nr_trans m) → (∀ tr, tr ∈ dn → tr < nr_trans m) →
  tree_ok q m → closed_upto q dn m → counted q dn m →
  counted q (dn ++ trs) (foldl (visit q) m trs).
Proof.
  revert dn m. induction trs as [|tr trs IH]; intros dn m Hr Hfw Hnp Htrs Hdn Ht Hc Hcnt; simpl.
  - by rewrite app_nil_r.
  - destruct (visit_tree m q tr dn) as [Ht' Hc']; try done.
    { apply Htrs, list_elem_of_here. }
    pose proof (grows_visit m q tr Hr) as (_ & G2 & _).
    replace (dn ++ tr :: trs) with ((dn ++ [tr]) ++ trs) by (by rewrite <- app_assoc).
    apply IH; try done.
    + by apply ready_visit.
    + unfold forward. by rewrite bss_second_visit.
    + intros tr' Hin. rewrite G2. by apply Htrs, list_elem_of_further.
    + intros tr' [Hin| ->%list_elem_of_singleton]%elem_of_app; rewrite G2;
        [by apply Hdn|apply Htrs; left].
    + apply visit_counted; try done. apply Htrs. left.
Qed.

Lemma count_occ_fmap_rev {A} (f : A → nat) (l : list A) i :
  count_occ Nat.eq_dec (f <$> rev l) i = count_occ Nat.eq_dec (f <$> l) i.
Proof.
  induction l as [|x l IH]; [done|]. simpl rev. rewrite fmap_app, count_occ_app, IH.
  rewrite fmap_cons. change (f <$> [x]) with [f x]. simpl.
  change (list_fmap A nat f l) with (f <$> l).
  destruct (Nat.eq_dec (f x) i); lia.
Qed.

Lemma count_occ_trans_order (f : nat → nat) n i :
  count_occ Nat.eq_dec (f <$> trans_order n) i = count_occ Nat.eq_dec (f <$> seq 0 n) i.
Proof. unfold trans_order. destruct (try_forward cfg); [done|apply count_occ_fmap_rev]. Qed.

Lemma arrived_next m q i :
  1 ≤ q → arrived m (S q) [] i = arrived m q (trans_order (nr_trans m)) i.
Proof.
  intros Hq. unfold arrived. simpl. rewrite Nat.sub_0_r, Nat.add_0_r.
  replace q with (S (q - 1)) at 1 by lia. rewrite seq_S, sum_list_with_app. simpl.
  replace (S (q - 1)) with q by lia. rewrite Nat.add_0_r. f_equal.
  unfold mult. by rewrite count_occ_trans_order.
Qed.

Lemma counted_next q m :
  1 ≤ q → counted q (trans_order (nr_trans m)) m → counted (S q) [] m.
Proof.
  intros Hq [He Hc]. split.
  - intros i Hi. rewrite He by done. by rewrite arrived_next.
  - rewrite Hc. do 2 f_equal. apply sum_list_with_ext_in. intros i _.
    by rewrite arrived_next.
Qed.

(** One round of the forward pass counts the edges of its node. *)
Lemma expand_counted q m :
  hash_ok m → forward m → no_progr_chk cfg = false → 1 ≤ q < length (nodes m) →
  tree_ok q m → closed_upto q [] m → counted q [] m →
  counted (S q) [] (expand q m).
Proof.
  intros Hok Hfw Hnp Hq Ht Hc Hcnt.
  pose proof (ready_fire_init q m Hok Hq) as Hr.
  pose proof (grows_fire_init q m Hok ltac:(lia)) as Hg0.
  pose proof (foldl_visit_counted q (trans_order (nr_trans m)) [] (fire_init q m)) as H1.
  simpl in H1.
  pose proof (grows_foldl_visit q (trans_order (nr_trans m)) _ Hr) as Hg1.
  pose proof (ready_foldl_visit q (trans_order (nr_trans m)) _ Hr) as Hr1.
  set (m1 := foldl (visit q) (fire_init q m) (trans_order (nr_trans m))) in *.
  assert (Hc1 : counted q (trans_order (nr_trans m)) m1).
  { apply H1; try done.
    - by intros tr Htr%elem_of_trans_order.
    - by intros tr ?%elem_of_nil.
    - by apply (tree_ok_same q m).
    - apply (closed_grows q [] m); [done|apply Hr|done|lia|done].
    - apply (counted_same q [] m); try done; [|lia].
      intros ni Hni. destruct Hg0 as (_ & _ & _ & G4). by apply G4. }
  assert (Hn1 : nr_trans m1 = nr_trans m).
  { destruct Hg1 as (_ & G & _). by rewrite G. }
  assert (Hq1 : q < length (nodes m1)).
  { destruct Hg1 as (G & _). simpl in G. lia. }
  rewrite <- Hn1 in Hc1. apply counted_next in Hc1; [|lia].
  unfold expand. fold m1. destruct (_ && chk_deadlock cfg); [|done].
  apply (counted_same (S q) [] m1); try done. lia.
Qed.

(** The whole forward pass counts the edges. *)
Lemma explore_counted fuel q m :
  hash_ok m → forward m → no_progr_chk cfg = false → 1 ≤ q ≤ length (nodes m) →
  tree_ok q m → closed_upto q [] m → counted q [] m →
  ub (explore fuel q m) = ub m →
  counted (length (nodes (explore fuel q m))) [] (explore fuel q m).
Proof.
  revert q m. induction fuel as [|fuel IH]; intros q m Hok Hfw Hnp Hq Ht Hc Hcnt; simpl.
  { intros H. exfalso. apply (prefix_longer (ub m) [] (Out_of_fuel "build_state_space")).
    rewrite H. done. }
  destruct (q <? length (nodes m)) eqn:Eq.
  - apply Nat.ltb_lt in Eq. intros Hub.
    destruct (expand_tree q m Hok Hfw ltac:(lia) Ht Hc) as [Ht1 Hc1].
    pose proof (grows_expand q m Hok ltac:(lia)) as Hg.
    assert (Hok1 : hash_ok (expand q m)) by (apply hash_ok_expand; [done|lia]).
    assert (Hfw1 : forward (expand q m)) by (unfold forward; by rewrite bss_second_expand).
    assert (Hq1 : 1 ≤ S q ≤ length (nodes (expand q m))) by (destruct Hg as [G _]; lia).
    assert (Hub1 : ub (explore fuel (S q) (expand q m)) = ub (expand q m))
      by (rewrite ub_expand by (done || lia); done).
    apply IH; try done. apply expand_counted; try done. lia.
  - apply Nat.ltb_ge in Eq. intros _.
    by assert (q = length (nodes m)) as -> by lia.
Qed.

(** ** The incoming edges *)

(** [m'] differs from [m] in [ie_end], [iedges] and the log of undefined
    accesses at most. *)
Definition only_ie_end (m m' : machine) : Prop :=
  st_data m' = st_data m ∧ state_nr m' = state_nr m
  ∧ length (nodes m') = length (nodes m) ∧ nr_edges m' = nr_edges m
  ∧ nr_trans m' = nr_trans m ∧ hash_tbl m' = hash_tbl m ∧ hash_was_new m' = hash_was_new m
  ∧ err_msg m' = err_msg m ∧ reported m' = reported m ∧ bss_second m' = bss_second m
  ∧ cout m' = cout m
  ∧ ∀ i, h_next (nd m' i) = h_next (nd m i) ∧ prev (nd m' i) = prev (nd m i)
         ∧ e_cnt (nd m' i) = e_cnt (nd m i) ∧ p_next (nd m' i) = p_next (nd m i).

Lemma only_ie_end_refl m : only_ie_end m m.
Proof. by repeat split. Qed.

Lemma only_ie_end_trans m1 m2 m3 : only_ie_end m1 m2 → only_ie_end m2 m3 → only_ie_end m1 m3.
Proof.
  intros (A1 & A2 & A3 & A4 & A5 & A6 & A7 & A8 & A9 & A10 & A11 & A12)
         (B1 & B2 & B3 & B4 & B5 & B6 & B7 & B8 & B9 & B10 & B11 & B12).
  split; [congruence|]. split; [congruence|]. split; [congruence|]. split; [congruence|].
  split; [congruence|]. split; [congruence|]. split; [congruence|]. split; [congruence|].
  split; [congruence|]. split; [congruence|]. split; [congruence|].
  intros i. destruct (A12 i) as (? & ? & ? & ?), (B12 i) as (? & ? & ? & ?).
  repeat split; congruence.
Qed.

Lemma only_ie_end_set_ie_end ni v m : only_ie_end m (set_ie_end ni v m).
Proof.
  unfold set_ie_end.
  split; [apply wr_node_st_data|]. split; [apply wr_node_state_nr|].
  split; [apply wr_node_length|]. split; [apply wr_node_nr_edges|].
  split; [apply wr_node_nr_trans|]. split; [apply wr_node_hash_tbl|].
  split; [apply wr_node_hash_was_new|]. split; [apply wr_node_err_msg|].
  split; [apply wr_node_reported|]. split; [apply wr_node_bss_second|].
  split; [apply wr_node_cout|].
  intros i. rewrite nd_wr_node. by case_decide as H; [destruct H as [-> _]|].
Qed.

Lemma only_ie_end_foldl {A} (f : machine → A → machine) (l : list A) m :
  (∀ m x, only_ie_end m (f m x)) → only_ie_end m (foldl f m l).
Proof.
  intros H. revert m. induction l as [|x l IH]; intros m; simpl; [apply only_ie_end_refl|].
  eapply only_ie_end_trans; [apply H|apply IH].
Qed.

Lemma only_ie_end_count_indices m : only_ie_end m (count_indices m).
Proof.
  unfold count_indices.
  eapply only_ie_end_trans; [|apply only_ie_end_foldl; intros; apply only_ie_end_set_ie_end].
  eapply only_ie_end_trans; [|apply only_ie_end_set_ie_end].
  eapply only_ie_end_trans; [|apply only_ie_end_set_ie_end].
  by repeat split.
Qed.

Lemma hash_ok_only_ie_end m m' : only_ie_end m m' → hash_ok m → hash_ok m'.
Proof.
  intros (A1 & A2 & A3 & A4 & A5 & A6 & A7 & A8 & A9 & A10 & A11 & A12).
  apply hash_ok_ext; try done.
  - by rewrite A1.
  - intros ni. apply A12.
  - intros ni _. unfold state_at. by rewrite A1.
Qed.

(** The sum of the counts of the nodes before [i]. *)
Definition psum (m : machine) (i : nat) : nat :=
  sum_list_with (λ j, Z.to_nat (e_cnt (nd m j))) (seq 1 (i - 1)).

Lemma nd_set_ie_end m a v j :
  a < length (nodes m) →
  nd (set_ie_end a v m) j = if decide (j = a) then with_ie_end v (nd m a) else nd m j.
Proof.
  intros Ha. unfold set_ie_end. rewrite nd_wr_node.
  destruct (decide (j = a)) as [->|Hne]; [by rewrite decide_True by (split; [done|lia])|].
  by rewrite decide_False by tauto.
Qed.

Lemma psum_S m i : 1 ≤ i → psum m (S i) = psum m i + Z.to_nat (e_cnt (nd m i)).
Proof.
  intros Hi. unfold psum. simpl. rewrite Nat.sub_0_r.
  replace i with (S (i - 1)) at 1 by lia. rewrite seq_S, sum_list_with_app. simpl.
  replace (S (i - 1)) with i by lia. lia.
Qed.

Lemma count_indices_loop m0 m k :
  only_ie_end m0 m → 2 + k ≤ length (nodes m0) →
  ie_end (nd m 0) = 0 → ie_end (nd m 1) = 0 →
  let m' := foldl (λ m ni, set_ie_end ni (ie_end (nd m (ni - 1))
                                          + Z.to_nat (e_cnt (nd m (ni - 1)))) m)
              m (seq 2 k) in
  ub m' = ub m ∧ iedges m' = iedges m
  ∧ ∀ i, i < 2 + k → ie_end (nd m' i) = psum m0 i.
Proof.
  intros Ho. induction k as [|k IH]; intros Hk H0 H1.
  - simpl. split; [done|]. split; [done|]. intros i Hi.
    assert (i = 0 ∨ i = 1) as [-> | ->] by lia; done.
  - destruct IH as (Hu & Hi & He); [lia|done|done|].
    rewrite seq_S, foldl_app. cbn [foldl]. set (m1 := foldl _ m (seq 2 k)) in *.
    assert (Ho1 : only_ie_end m0 m1).
    { eapply only_ie_end_trans; [exact Ho|].
      apply only_ie_end_foldl. intros. apply only_ie_end_set_ie_end. }
    clearbody m1. pose proof Ho1 as (_ & _ & Hl & _ & _ & _ & _ & _ & _ & _ & _ & Hf).
    assert (Hr : 2 + k < length (nodes m1)) by lia.
    cbv zeta. set (v := ie_end (nd m1 (2 + k - 1)) + Z.to_nat (e_cnt (nd m1 (2 + k - 1)))).
    assert (Hx : ub (set_ie_end (2 + k) v m1) = ub m1
                 ∧ iedges (set_ie_end (2 + k) v m1) = iedges m1).
    { unfold set_ie_end. by rewrite wr_node_in_range by done. }
    destruct Hx as [-> ->]. split; [done|]. split; [done|].
    intros i Hi'. rewrite nd_set_ie_end by done.
    destruct (decide (i = 2 + k)) as [->|Hne]; [|apply He; lia].
    unfold v. simpl. rewrite He by lia.
    destruct (Hf (S k)) as (_ & _ & -> & _). by rewrite (psum_S m0 (S k)) by lia.
Qed.

Lemma count_indices_spec m :
  2 ≤ length (nodes m) →
  ub (count_indices m) = ub m
  ∧ iedges (count_indices m) = replicate (Z.to_nat (nr_edges m)) 0
  ∧ ∀ i, i < length (nodes m) → ie_end (nd (count_indices m) i) = psum m i.
Proof.
  intros Hn. unfold count_indices.
  set (ma := set_iedges _ m).
  set (mb := set_ie_end 0 0 (set_ie_end 1 0 ma)).
  assert (Hb : only_ie_end m mb).
  { eapply only_ie_end_trans; [|apply only_ie_end_set_ie_end].
    eapply only_ie_end_trans; [|apply only_ie_end_set_ie_end]. by repeat split. }
  assert (Hl : length (nodes mb) = length (nodes m)) by apply Hb.
  assert (Hub : ub mb = ub m ∧ iedges mb = replicate (Z.to_nat (nr_edges m)) 0).
  { unfold mb, set_ie_end. rewrite (wr_node_in_range _ 1) by (simpl; lia).
    rewrite wr_node_in_range by (simpl; rewrite length_insert; lia). done. }
  assert (H01 : ie_end (nd mb 0) = 0 ∧ ie_end (nd mb 1) = 0).
  { assert (Hl1 : length (nodes (set_ie_end 1 0 ma)) = length (nodes m))
      by (unfold set_ie_end; by rewrite wr_node_length).
    unfold mb. rewrite !(nd_set_ie_end (set_ie_end 1 0 ma)) by lia.
    simpl. by rewrite nd_set_ie_end by (simpl; lia). }
  destruct (count_indices_loop m mb (length (nodes mb) - 2) Hb) as (Hu & Hi & He);
    [lia|apply H01|apply H01|].
  destruct Hub as [Hub1 Hub2]. split; [by rewrite Hu|]. split; [by rewrite Hi|].
  intros i Hi'. apply He. lia.
Qed.

(** Where the slice of node [i] starts: the number of edges into the nodes
    before it. *)
Definition pre (m : machine) (i : nat) : nat := sum_list_with (indeg m) (seq 1 (i - 1)).

(** The sources of the edges into [i] among the transitions of the nodes
    below [q] and the transitions [dn] of [q], in the order of the pass. *)
Definition sources (m : machine) (q : nat) (dn : list nat) (i : nat) : list nat :=
  flat_map (λ a, replicate (mult m a i) a) (seq 1 (q - 1))
  ++ replicate (count_occ Nat.eq_dec (target m q <$> dn) i) q.

(** The predecessors of [i], each as often as it has transitions to [i]. *)
Definition preds (m : machine) (i : nat) : list nat :=
  flat_map (λ a, replicate (mult m a i) a) (node_ids m).

(** Every transition of a stored node leads to a stored node. *)
Definition closed (m : machine) : Prop :=
  ∀ a tr t, 1 ≤ a < length (nodes m) → tr < nr_trans m →
    succ_state tr (state_at m a) = Some t → index_of m t ≠ 0.

(** The second pass has filed the edges of the nodes below [q] and the
    edges [dn] of [q]; [m1] is the machine after the first pass. *)
Definition filed (m1 m : machine) (q : nat) (dn : list nat) : Prop :=
  grows m1 m ∧ (length (nodes m) = length (nodes m1) ∧ nr_edges m = nr_edges m1)
  ∧ length (iedges m) = pre m1 (length (nodes m1))
  ∧ ie_end (nd m 0) = 0
  ∧ (∀ i, 1 ≤ i < length (nodes m1) →
          ie_end (nd m i) = pre m1 i + length (sources m1 q dn i))
  ∧ (∀ i k a, 1 ≤ i < length (nodes m1) → sources m1 q dn i !! k = Some a →
              iedges m !! (pre m1 i + k) = Some a).

Lemma length_flat_map_replicate (f : nat → nat) (l : list nat) :
  length (flat_map (λ a, replicate (f a) a) l) = sum_list_with f l.
Proof.
  induction l as [|a l IH]; simpl; [done|]. by rewrite length_app, length_replicate, IH.
Qed.

Lemma length_sources m q dn i : length (sources m q dn i) = arrived m q dn i.
Proof.
  unfold sources, arrived. by rewrite length_app, length_flat_map_replicate, length_replicate.
Qed.

Lemma replicate_snoc {A} n (x : A) : replicate (n + 1) x = replicate n x ++ [x].
Proof. induction n as [|n IH]; simpl; [done|]. by rewrite IH. Qed.

Lemma sources_snoc m q dn tr i :
  sources m q (dn ++ [tr]) i
  = sources m q dn i ++ (if decide (target m q tr = i) then [q] else []).
Proof.
  unfold sources. rewrite fmap_app. change (target m q <$> [tr]) with [target m q tr].
  rewrite count_occ_snoc, <- app_assoc. f_equal.
  case_decide; [apply replicate_snoc|]. by rewrite Nat.add_0_r, app_nil_r.
Qed.

Lemma sources_next m q i :
  1 ≤ q → sources m (S q) [] i = sources m q (trans_order (nr_trans m)) i.
Proof.
  intros Hq. unfold sources. simpl. rewrite Nat.sub_0_r, app_nil_r.
  replace q with (S (q - 1)) at 1 by lia. rewrite seq_S, flat_map_app. simpl.
  replace (S (q - 1)) with q by lia. rewrite app_nil_r. f_equal.
  unfold mult. by rewrite count_occ_trans_order.
Qed.

Lemma count_occ_submseteq (l1 l2 : list nat) i :
  l1 ⊆+ l2 → count_occ Nat.eq_dec l1 i ≤ count_occ Nat.eq_dec l2 i.
Proof.
  induction 1 as [|x l1 l2 _ IH|x y l|x l1 l2 _ IH|l1 l2 l3 _ IH1 _ IH2]; simpl;
    repeat destruct (Nat.eq_dec _ _); lia.
Qed.

Lemma sum_list_with_seq_le (f : nat → nat) a n n' :
  n ≤ n' → sum_list_with f (seq a n) ≤ sum_list_with f (seq a n').
Proof.
  intros H. replace n' with (n + (n' - n)) by lia. rewrite seq_app, sum_list_with_app. lia.
Qed.

Lemma arrived_le_indeg m q dn i :
  1 ≤ q < length (nodes m) → NoDup dn → (∀ tr, tr ∈ dn → tr < nr_trans m) →
  arrived m q dn i ≤ indeg m i.
Proof.
  intros Hq Hnd Hdn. unfold arrived, indeg, node_ids.
  assert (H1 : count_occ Nat.eq_dec (target m q <$> dn) i ≤ mult m q i).
  { unfold mult. apply count_occ_submseteq, fmap_submseteq, NoDup_submseteq; [done|].
    intros tr Htr. apply elem_of_seq. specialize (Hdn tr Htr). lia. }
  pose proof (sum_list_with_seq_le (λ a, mult m a i) 1 q (length (nodes m) - 1) ltac:(lia)) as H2.
  replace q with (S (q - 1)) in H2 at 1 by lia.
  rewrite seq_S, sum_list_with_app in H2. simpl in H2.
  replace (S (q - 1)) with q in H2 by lia. lia.
Qed.

Lemma pre_S m i : 1 ≤ i → pre m (S i) = pre m i + indeg m i.
Proof.
  intros Hi. unfold pre. simpl. rewrite Nat.sub_0_r.
  replace i with (S (i - 1)) at 1 by lia. rewrite seq_S, sum_list_with_app. simpl.
  replace (S (i - 1)) with i by lia. lia.
Qed.

Lemma pre_mono m i j : i ≤ j → pre m i ≤ pre m j.
Proof. intros H. unfold pre. apply sum_list_with_seq_le. lia. Qed.

Lemma pre_next m i j : 1 ≤ i → i < j → pre m i + indeg m i ≤ pre m j.
Proof. intros Hi Hj. rewrite <- pre_S by done. apply pre_mono. lia. Qed.

(** One firing in the second pass files its edge. *)
Lemma visit_filed m1 m q tr dn :
  hash_ok m1 → closed m1 → ready m q →
  negb (no_progr_chk cfg) && bss_second m = true →
  1 ≤ q < length (nodes m1) → NoDup (dn ++ [tr]) →
  (∀ tr', tr' ∈ dn ++ [tr] → tr' < nr_trans m1) →
  filed m1 m q dn → filed m1 (visit q m tr) q (dn ++ [tr]).
Proof.
  intros Hok1 Hcl Hr Hbw Hq Hnd Hdn (Hg & [Hl Hnre] & Hle & H0 & Hie & Hent).
  pose proof Hr as (Hok & Hnr & _ & Hs).
  pose proof Hg as (G1 & G2 & G3 & G4).
  assert (Htr : tr < nr_trans m1) by (apply Hdn, elem_of_app; right; left).
  assert (Hsq : state_at m q = state_at m1 q) by (apply G4; lia).
  assert (Hsrc : ∀ i, sources m1 q (dn ++ [tr]) i
                 = sources m1 q dn i ++ (if decide (target m1 q tr = i) then [q] else []))
    by (intros; apply sources_snoc).
  unfold visit. rewrite Hbw, Hsq.
  destruct (succ_state tr (state_at m1 q)) as [t|] eqn:E.
  2:{ (* disabled *)
      assert (Ht0 : target m1 q tr = 0) by (unfold target; by rewrite E).
      rewrite Ht0 in Hsrc.
      split; [done|]. split; [done|]. split; [done|]. split; [done|]. split.
      - intros i Hi. rewrite Hsrc, decide_False by lia. rewrite app_nil_r. by apply Hie.
      - intros i k a Hi. rewrite Hsrc, decide_False by lia. rewrite app_nil_r. by apply Hent. }
  assert (Hix : index_of m t = index_of m1 t) by (by apply index_of_ext).
  assert (Ht0 : target m1 q tr = index_of m1 t) by (unfold target; by rewrite E).
  rewrite Hix. set (n2 := index_of m1 t) in *.
  assert (Hn2 : 1 ≤ n2 < length (nodes m1)).
  { assert (n2 ≠ 0) by (by apply (Hcl q tr t)).
    pose proof (index_of_bound m1 t Hok1). unfold n2. lia. }
  rewrite Ht0 in Hsrc.
  assert (Hlen : length (sources m1 q dn n2) < indeg m1 n2).
  { pose proof (arrived_le_indeg m1 q (dn ++ [tr]) n2 Hq Hnd Hdn) as H.
    rewrite <- length_sources, Hsrc, decide_True, length_app in H by done. simpl in H. lia. }
  assert (Hpos : ie_end (nd m n2) = pre m1 n2 + length (sources m1 q dn n2)) by (by apply Hie).
  assert (Hin : ie_end (nd m n2) < length (iedges m)).
  { rewrite Hpos, Hle. pose proof (pre_next m1 n2 (length (nodes m1))). lia. }
  assert (Hied : iedges (recorded m q n2) = <[ie_end (nd m n2) := q]> (iedges m)).
  { by unfold recorded. }
  split; [eapply grows_trans; [exact Hg|apply grows_recorded]|].
  split; [split; [by rewrite length_recorded|]|].
  { unfold recorded, set_ie_end. simpl. by rewrite wr_node_nr_edges. }
  split; [by rewrite Hied, length_insert|].
  split; [rewrite nd_recorded, decide_False; [done|lia]|].
  split.
  - intros i Hi. rewrite nd_recorded, Hsrc. destruct (decide (i = n2)) as [->|Hne].
    + rewrite decide_True by (split; [done|lia]). rewrite decide_True by done.
      simpl. rewrite Hpos, length_app. simpl. lia.
    + rewrite decide_False by tauto. rewrite decide_False by congruence.
      rewrite app_nil_r. by apply Hie.
  - intros i k a Hi. rewrite Hsrc, Hied. destruct (decide (n2 = i)) as [<-|Hne].
    + intros [Hk|[Hk Ha]]%lookup_app_Some.
      * rewrite list_lookup_insert_ne; [by apply Hent|].
        apply lookup_lt_Some in Hk. lia.
      * destruct (k - length (sources m1 q dn n2)) as [|?] eqn:Ek; [|done].
        injection Ha as <-.
        replace (pre m1 n2 + k) with (ie_end (nd m n2)) by lia.
        by rewrite list_lookup_insert_eq.
    + rewrite app_nil_r. intros Hk.
      rewrite list_lookup_insert_ne; [by apply Hent|].
      apply lookup_lt_Some in Hk. rewrite length_sources in Hk.
      assert (Hai : arrived m1 q dn i ≤ indeg m1 i).
      { apply arrived_le_indeg; [done|by apply NoDup_app in Hnd as (? & _)|].
        intros tr' Htr'. apply Hdn, elem_of_app. by left. }
      destruct (decide (i < n2)).
      * pose proof (pre_next m1 i n2). lia.
      * pose proof (pre_next m1 n2 i). lia.
Qed.

Lemma foldl_visit_filed m1 q trs dn m :
  hash_ok m1 → closed m1 → ready m q →
  negb (no_progr_chk cfg) && bss_second m = true →
  1 ≤ q < length (nodes m1) → NoDup (dn ++ trs) →
  (∀ tr', tr' ∈ dn ++ trs → tr' < nr_trans m1) →
  filed m1 m q dn → filed m1 (foldl (visit q) m trs) q (dn ++ trs).
Proof.
  intros Hok1 Hcl. revert dn m.
  induction trs as [|tr trs IH]; intros dn m Hr Hbw Hq Hnd Hdn Hf; simpl.
  - by rewrite app_nil_r.
  - replace (dn ++ tr :: trs) with ((dn ++ [tr]) ++ trs) in * by (by rewrite <- app_assoc).
    apply IH; try done.
    + by apply ready_visit.
    + by rewrite bss_second_visit.
    + apply visit_filed; try done.
      * by apply NoDup_app in Hnd as (? & _).
      * intros tr' Htr'. apply Hdn, elem_of_app. by left.
Qed.

Lemma NoDup_trans_order n : NoDup (trans_order n).
Proof.
  unfold trans_order. destruct (try_forward cfg); [apply NoDup_seq|].
  apply NoDup_ListNoDup, NoDup_rev, NoDup_ListNoDup, NoDup_seq.
Qed.

Lemma filed_same m1 m m' q dn :
  grows m m' → length (nodes m') = length (nodes m) → nr_edges m' = nr_edges m →
  iedges m' = iedges m → (∀ i, ie_end (nd m' i) = ie_end (nd m i)) →
  filed m1 m q dn → filed m1 m' q dn.
Proof.
  intros Hg Hl Hne Hi He (Hg1 & [Hl1 Hne1] & Hle & H0 & Hie & Hent).
  split; [by eapply grows_trans|]. split; [split; congruence|]. split; [by rewrite Hi|].
  split; [by rewrite He|]. split; [intros i ?; rewrite He; by apply Hie|].
  intros i k a ? ?. rewrite Hi. by apply Hent.
Qed.

Lemma filed_next m1 m q :
  1 ≤ q → filed m1 m q (trans_order (nr_trans m1)) → filed m1 m (S q) [].
Proof.
  intros Hq (Hg1 & Hl1 & Hle & H0 & Hie & Hent).
  split; [done|]. split; [done|]. split; [done|]. split; [done|]. split.
  - intros i Hi. rewrite sources_next by done. by apply Hie.
  - intros i k a Hi. rewrite sources_next by done. by apply Hent.
Qed.

(** One round of the second pass files the edges of its node. *)
Lemma expand_filed m1 q m :
  hash_ok m1 → closed m1 → hash_ok m →
  negb (no_progr_chk cfg) && bss_second m = true →
  1 ≤ q < length (nodes m1) → filed m1 m q [] → filed m1 (expand q m) (S q) [].
Proof.
  intros Hok1 Hcl Hok Hbw Hq Hf. pose proof Hf as (Hg & [Hl _] & _).
  assert (Hq' : 1 ≤ q < length (nodes m)) by lia.
  pose proof (ready_fire_init q m Hok Hq') as Hr.
  assert (Hf0 : filed m1 (fire_init q m) q []).
  { apply (filed_same m1 m); try done. apply grows_fire_init; [done|lia]. }
  assert (Hnt : nr_trans m = nr_trans m1) by apply Hg.
  pose proof (foldl_visit_filed m1 q (trans_order (nr_trans m)) [] (fire_init q m)
                Hok1 Hcl Hr Hbw Hq) as H1.
  simpl in H1. specialize (H1 (NoDup_trans_order _)).
  rewrite Hnt in H1. specialize (H1 (λ tr H, proj1 (elem_of_trans_order _ _) H) Hf0).
  apply filed_next in H1; [|lia]. rewrite <- Hnt in H1.
  unfold expand. set (m2 := foldl _ _ _) in *. clearbody m2.
  destruct (_ && chk_deadlock cfg); [|done].
  apply (filed_same m1 m2); try done.
Qed.

(** The whole second pass. *)
Lemma explore_filed m1 fuel q m :
  hash_ok m1 → closed m1 → hash_ok m →
  negb (no_progr_chk cfg) && bss_second m = true →
  1 ≤ q ≤ length (nodes m1) → filed m1 m q [] →
  ub (explore fuel q m) = ub m →
  filed m1 (explore fuel q m) (length (nodes m1)) []
  ∧ hash_ok (explore fuel q m).
Proof.
  intros Hok1 Hcl. revert q m.
  induction fuel as [|fuel IH]; intros q m Hok Hbw Hq Hf; simpl.
  { intros H. exfalso. apply (prefix_longer (ub m) [] (Out_of_fuel "build_state_space")).
    rewrite H. done. }
  pose proof Hf as (_ & [Hl _] & _). rewrite Hl.
  destruct (q <? length (nodes m1)) eqn:Eq.
  - apply Nat.ltb_lt in Eq. intros Hub.
    assert (Hok2 : hash_ok (expand q m)) by (apply hash_ok_expand; [done|lia]).
    apply IH; try done.
    + by rewrite bss_second_expand.
    + lia.
    + apply expand_filed; try done; lia.
    + rewrite ub_expand by (done || lia). done.
  - apply Nat.ltb_ge in Eq. intros _.
    by assert (q = length (nodes m1)) as -> by lia.
Qed.

Lemma sources_all m i : sources m (length (nodes m)) [] i = preds m i.
Proof. unfold sources, preds, node_ids. simpl. by rewrite app_nil_r. Qed.

Lemma length_preds m i : length (preds m i) = indeg m i.
Proof. unfold preds, indeg. apply length_flat_map_replicate. Qed.

Lemma elem_of_flat_map_replicate (f : nat → nat) (l : list nat) a :
  a ∈ flat_map (λ a, replicate (f a) a) l ↔ a ∈ l ∧ 0 < f a.
Proof.
  induction l as [|x l IH]; simpl.
  - split; [by intros ?%elem_of_nil|by intros [?%elem_of_nil _]].
  - rewrite elem_of_app, IH, elem_of_cons. split.
    + intros [[-> Hn]%elem_of_replicate|[? ?]]; (split; [tauto|lia]).
    + intros [[->|?] ?]; [left|right; done]. apply elem_of_replicate. split; [done|lia].
Qed.

Lemma count_occ_flat_map_replicate (f : nat → nat) (l : list nat) a :
  NoDup l → a ∈ l → count_occ Nat.eq_dec (flat_map (λ a, replicate (f a) a) l) a = f a.
Proof.
  assert (Hr : ∀ n x, count_occ Nat.eq_dec (replicate n x) a = if decide (x = a) then n else 0).
  { intros n x. induction n as [|n IH]; simpl; [by case_decide|].
    rewrite IH. destruct (Nat.eq_dec x a); by case_decide. }
  assert (H0 : ∀ l, a ∉ l → count_occ Nat.eq_dec (flat_map (λ a, replicate (f a) a) l) a = 0).
  { intros l' Hl. apply count_occ_not_In. rewrite <- list_elem_of_In.
    intros [? _]%elem_of_flat_map_replicate. done. }
  induction l as [|x l IH]; intros Hnd Ha; [by apply elem_of_nil in Ha|].
  apply NoDup_cons in Hnd as [Hx Hnd]. simpl. rewrite count_occ_app, Hr.
  apply elem_of_cons in Ha as [->|Ha].
  - rewrite decide_True by done. rewrite H0 by done. lia.
  - rewrite decide_False by (intros ->; done). by rewrite IH.
Qed.

Lemma elem_of_preds m a i : a ∈ preds m i ↔ 1 ≤ a < length (nodes m) ∧ 0 < mult m a i.
Proof. unfold preds. by rewrite elem_of_flat_map_replicate, elem_of_node_ids. Qed.

Lemma count_occ_preds m a i :
  1 ≤ a < length (nodes m) → count_occ Nat.eq_dec (preds m i) a = mult m a i.
Proof.
  intros Ha. unfold preds.
  apply (count_occ_flat_map_replicate (λ a, mult m a i)); [apply NoDup_seq|].
  by apply elem_of_node_ids.
Qed.

(** A node has a transition to a stored node exactly when there is an edge
    between them. *)
Lemma mult_pos_edge m a b :
  hash_ok m → 1 ≤ b < length (nodes m) → 0 < mult m a b ↔ edge m a b.
Proof.
  intros Hok Hb. unfold mult, edge.
  change (0 < count_occ Nat.eq_dec (target m a <$> seq 0 (nr_trans m)) b)
    with (count_occ Nat.eq_dec (target m a <$> seq 0 (nr_trans m)) b > 0).
  rewrite <- (count_occ_In Nat.eq_dec), <- list_elem_of_In.
  rewrite list_elem_of_fmap. split.
  - intros (tr & Htg & Htr%elem_of_seq). exists tr. split; [lia|].
    unfold target in Htg. destruct (succ_state tr (state_at m a)) as [t|]; simpl in Htg; [|lia].
    destruct (index_of_spec m t b) as [_ <-]; [done|lia|done].
  - intros (tr & Htr & Hs). exists tr. split; [|apply elem_of_seq; lia].
    unfold target. rewrite Hs. simpl. by rewrite index_of_stored.
Qed.

Lemma slice_of m n ei :
  1 ≤ n → ei < pre m n → ∃ i, 1 ≤ i < n ∧ pre m i ≤ ei < pre m i + indeg m i.
Proof.
  intros Hn. induction n as [|n IH]; [lia|]. intros Hei.
  destruct (decide (n = 0)) as [->|Hn0]; [unfold pre in Hei; simpl in Hei; lia|].
  rewrite pre_S in Hei by lia.
  destruct (decide (ei < pre m n)) as [Hlt|Hge].
  - destruct IH as (i & Hi & Hr); [lia|done|]. exists i. split; [lia|done].
  - exists n. split; [lia|lia].
Qed.

(** After the second pass the slices hold the predecessors. *)
Lemma filed_slices m1 m i :
  filed m1 m (length (nodes m1)) [] → 1 ≤ i < length (nodes m1) →
  in_edges m i = preds m1 i
  ∧ ie_end (nd m (i - 1)) = pre m1 i ∧ ie_end (nd m i) = pre m1 (S i).
Proof.
  intros (Hg & [Hl Hne] & Hle & H0 & Hie & Hent) Hi.
  assert (Hend : ∀ j, 1 ≤ j < length (nodes m1) → ie_end (nd m j) = pre m1 (S j)).
  { intros j Hj. rewrite Hie, sources_all, length_preds by done. by rewrite pre_S by lia. }
  assert (Hbeg : ie_end (nd m (i - 1)) = pre m1 i).
  { destruct (decide (i = 1)) as [->|Hne1]; [simpl; by rewrite H0|].
    rewrite Hend by lia. f_equal. lia. }
  split; [|split; [done|by apply Hend]].
  unfold in_edges. rewrite Hbeg, Hend by done. rewrite pre_S by lia.
  replace (pre m1 i + indeg m1 i - pre m1 i) with (indeg m1 i) by lia.
  apply list_eq. intros k. rewrite list_lookup_fmap.
  destruct (preds m1 i !! k) as [a|] eqn:E.
  - pose proof (lookup_lt_Some _ _ _ E) as Hk. rewrite length_preds in Hk.
    rewrite lookup_seq_lt by done. simpl. unfold iedge.
    rewrite (Hent i k a); [done|done|by rewrite sources_all].
  - apply lookup_ge_None in E. rewrite length_preds in E.
    by rewrite lookup_seq_ge by done.
Qed.

Lemma filed_layout m1 m :
  2 ≤ length (nodes m1) →
  nr_edges m1 = Z.of_nat (pre m1 (length (nodes m1))) →
  (Z.of_nat (pre m1 (length (nodes m1))) < 4294967296)%Z →
  filed m1 m (length (nodes m1)) [] → layout_ok m.
Proof.
  intros Hn Hne Hb Hf. pose proof Hf as (Hg & [Hl Hne'] & Hle & H0 & Hie & Hent).
  split; [lia|]. split; [done|]. split; [|split; [|split]].
  - apply Forall_forall. intros p Hp%elem_of_node_ids. rewrite Hl in Hp.
    destruct (filed_slices m1 m p Hf Hp) as (_ & -> & ->). apply pre_mono. lia.
  - rewrite Hl. destruct (filed_slices m1 m (length (nodes m1) - 1) Hf) as (_ & _ & ->); [lia|].
    rewrite Hne', Hne, Nat2Z.id. f_equal. lia.
  - apply Forall_forall. intros ei Hei%elem_of_seq. rewrite Hne', Hne, Nat2Z.id in Hei.
    destruct (slice_of m1 (length (nodes m1)) ei) as (i & Hi & Hr); [lia|lia|].
    destruct (filed_slices m1 m i Hf Hi) as (Hin & _ & _).
    assert (Hk : ei - pre m1 i < length (preds m1 i)) by (rewrite length_preds; lia).
    destruct (lookup_lt_is_Some_2 _ _ Hk) as [a Ha].
    assert (Hei' : iedges m !! ei = Some a).
    { replace ei with (pre m1 i + (ei - pre m1 i)) by lia.
      apply (Hent i); [done|by rewrite sources_all]. }
    unfold iedge. rewrite Hei'. simpl. rewrite Hl.
    apply list_elem_of_lookup_2, elem_of_preds in Ha. tauto.
  - rewrite Hne', Hne. lia.
Qed.

Lemma arrived_all m i : arrived m (length (nodes m)) [] i = indeg m i.
Proof. unfold arrived, indeg, node_ids. simpl. by rewrite Nat.add_0_r. Qed.

(** What the forward pass leaves, when it ends without an error and
    without an undefined access. *)
Lemma forward_pass_facts m0 :
  hash_ok m0 → length (nodes m0) = 2 → prev (nd m0 1) = 0 →
  e_cnt (nd m0 1) = 0%Z → nr_edges m0 = 0%Z →
  err_msg m0 = None → bss_second m0 = false → no_progr_chk cfg = false →
  err_msg (build_state_space m0) = None → ub (build_state_space m0) = ub m0 →
  hash_ok (build_state_space m0) ∧ closed (build_state_space m0)
  ∧ 2 ≤ length (nodes (build_state_space m0))
  ∧ counted (length (nodes (build_state_space m0))) [] (build_state_space m0).
Proof.
  intros Hok Hsz Hp He0 Hn0 Herr Hbs Hnp Hnone Hub.
  assert (Hfw : forward m0) by (unfold forward; by rewrite Hbs, orb_true_r).
  unfold build_state_space in *.
  rewrite bss_loop_explore in * by (done || lia).
  set (fuel := length (nodes m0) + stop_count cfg + 2) in *. clearbody fuel.
  assert (Ht0 : tree_ok 1 m0).
  { split; [done|]. split; [intros; lia|]. intros a b Ha Hab Hb.
    assert (a = 1 ∧ b = 1) as [-> ->] by lia. done. }
  assert (Hc0 : closed_upto 1 [] m0).
  { intros a tr t Ha [Haq|[_ []%elem_of_nil]]. lia. }
  destruct (explore_tree fuel 1 m0) as (Ht & Hc & Hok' & Hg); try done; [lia|].
  pose proof (explore_counted fuel 1 m0 Hok Hfw Hnp ltac:(lia) Ht0 Hc0) as Hcnt.
  split; [done|]. split; [|split].
  - intros a tr t Ha Htr Hs.
    destruct (Hc a tr t) as [H _]; [done|left; lia|done|done|done].
  - destruct Hg as [G _]. lia.
  - apply Hcnt; [|done]. split.
    + intros i Hi. assert (i = 1) as -> by lia. rewrite He0. unfold arrived. by simpl.
    + rewrite Hn0. unfold node_ids, arrived. rewrite Hsz. by simpl.
Qed.

Lemma grows_only_ie_end m m' : only_ie_end m m' → grows m m'.
Proof.
  intros (A1 & A2 & A3 & A4 & A5 & A6 & A7 & A8 & A9 & A10 & A11 & A12).
  split; [lia|]. split; [done|]. split; [intros ni _; apply A12|].
  intros ni _. unfold state_at. by rewrite A1.
Qed.

(** What the second pass leaves, when it ends without an error and
    without an undefined access. *)
Lemma second_pass_facts m1 :
  hash_ok m1 → closed m1 → 2 ≤ length (nodes m1) → no_progr_chk cfg = false →
  err_msg m1 = None →
  (∀ i, 1 ≤ i < length (nodes m1) → e_cnt (nd m1 i) = Z.of_nat (indeg m1 i)) →
  nr_edges m1 = Z.of_nat (pre m1 (length (nodes m1))) →
  err_msg (construct_input_edges m1) = None → ub (construct_input_edges m1) = ub m1 →
  filed m1 (construct_input_edges m1) (length (nodes m1)) []
  ∧ hash_ok (construct_input_edges m1)
  ∧ ∀ i, i < length (nodes m1) → ie_end (nd (count_indices m1) i) = pre m1 i.
Proof.
  intros Hok Hcl Hn Hnp Herr He Hne. unfold construct_input_edges. rewrite Hnp.
  pose proof (only_ie_end_count_indices m1) as Ho.
  destruct (count_indices_spec m1 Hn) as (Hub & Hied & Hie).
  assert (Hps : ∀ i, i < length (nodes m1) → psum m1 i = pre m1 i).
  { intros i Hi. unfold psum, pre. apply sum_list_with_ext_in.
    intros j Hj%elem_of_seq. rewrite He by lia. apply Nat2Z.id. }
  set (mc := set_bss_second true (count_indices m1)).
  assert (Hoc : only_ie_end m1 (count_indices m1)) by done.
  assert (Hokc : hash_ok mc).
  { assert (hash_ok (count_indices m1)) by (by apply (hash_ok_only_ie_end m1)).
    revert H. by apply hash_ok_ext. }
  assert (Hlc : length (nodes mc) = length (nodes m1)) by apply Ho.
  assert (Hfc : filed m1 mc 1 []).
  { split.
    { apply (grows_trans _ (count_indices m1)); [by apply grows_only_ie_end|by repeat split]. }
    split; [split; [done|apply Ho]|]. split.
    { change (iedges mc) with (iedges (count_indices m1)).
      by rewrite Hied, length_replicate, Hne, Nat2Z.id. }
    split. { change (nd mc 0) with (nd (count_indices m1) 0). by rewrite Hie by lia. }
    split.
    { intros i Hi. change (nd mc i) with (nd (count_indices m1) i).
      rewrite Hie, Hps by lia. unfold sources. simpl. lia. }
    intros i k a Hi. unfold sources. simpl. by rewrite lookup_nil. }
  unfold build_state_space. intros Hnone Hub2.
  assert (Hubc : ub mc = ub m1) by (by rewrite <- Hub).
  assert (Herrc : err_msg mc = None).
  { change (err_msg mc) with (err_msg (count_indices m1)).
    destruct Ho as (_ & _ & _ & _ & _ & _ & _ & -> & _). done. }
  assert (Heq : bss_loop (length (nodes mc) + stop_count cfg + 2) 1 mc
                = explore (length (nodes mc) + stop_count cfg + 2) 1 mc).
  { apply bss_loop_explore; [done|lia|done|done|by rewrite Hub2]. }
  rewrite Heq in *.
  destruct (explore_filed m1 (length (nodes mc) + stop_count cfg + 2) 1 mc) as [Hf Hok2];
    try done.
  - by rewrite Hnp.
  - lia.
  - by rewrite Hub2.
  - split; [done|]. split; [done|]. intros i Hi. by rewrite Hie, Hps.
Qed.

(** The two passes together. *)
Lemma input_edges_facts m0 :
  hash_ok m0 → length (nodes m0) = 2 → prev (nd m0 1) = 0 →
  e_cnt (nd m0 1) = 0%Z → nr_edges m0 = 0%Z →
  err_msg m0 = None → bss_second m0 = false → no_progr_chk cfg = false →
  err_msg (build_state_space m0) = None → ub (build_state_space m0) = ub m0 →
  (Z.of_nat (sum_list_with (indeg (build_state_space m0)) (node_ids (build_state_space m0)))
   < 4294967296)%Z →
  err_msg (construct_input_edges (build_state_space m0)) = None →
  ub (construct_input_edges (build_state_space m0)) = ub m0 →
  let m1 := build_state_space m0 in
  let m2 := construct_input_edges m1 in
  hash_ok m1 ∧ closed m1 ∧ 2 ≤ length (nodes m1)
  ∧ nr_edges m1 = Z.of_nat (pre m1 (length (nodes m1)))
  ∧ filed m1 m2 (length (nodes m1)) [] ∧ layout_ok m2
  ∧ ∀ i, i < length (nodes m1) → ie_end (nd (count_indices m1) i) = pre m1 i.
Proof.
  intros Hok Hsz Hp He0 Hn0 Herr Hbs Hnp Hnone Hub Hsmall Hnone2 Hub2 m1 m2.
  destruct (forward_pass_facts m0) as (Hok1 & Hcl & Hn & [Hcnt Hnr]); try done.
  fold m1 in Hok1, Hcl, Hn, Hcnt, Hnr, Hsmall, Hnone, Hub.
  assert (Hpre : pre m1 (length (nodes m1)) = sum_list_with (indeg m1) (node_ids m1)) by done.
  assert (Hin : ∀ j, 1 ≤ j < length (nodes m1) → e_cnt (nd m1 j) = Z.of_nat (indeg m1 j)).
  { intros j Hj. rewrite Hcnt, arrived_all by done.
    assert (indeg m1 j ≤ sum_list_with (indeg m1) (node_ids m1)).
    { apply sum_list_with_in. by apply elem_of_node_ids. }
    unfold u32. rewrite Z.mod_small; lia. }
  assert (Hne : nr_edges m1 = Z.of_nat (pre m1 (length (nodes m1)))).
  { rewrite Hnr, Hpre.
    rewrite (sum_list_with_ext_in _ (indeg m1)) by (intros; apply arrived_all).
    unfold u32. rewrite Z.mod_small; lia. }
  assert (Hub2' : ub (construct_input_edges m1) = ub m1) by (by rewrite Hub).
  destruct (second_pass_facts m1) as (Hf & Hok2 & Hci); try done.
  fold m2 in Hf, Hok2.
  split; [done|]. split; [done|]. split; [done|]. split; [done|]. split; [done|].
  split; [|done]. by apply (filed_layout m1).
Qed.

(** C3.  The forward pass is started on the stored initial state, with
    progress checking compiled in, and finds fewer than 2^32 edges; both
    passes end with no error message and no undefined access.  Then, after
    [construct_input_edges], for every node [i >= 1] the slice
    [iedges[ nodes[i-1].ie_end .. nodes[i].ie_end )] is the list of the
    predecessors of [i], each as often as it has transitions to [i]: its
    members are the nodes with an edge to [i], a node occurs in it as often
    as it has transitions to [i], and its length is the number of edges
    into [i].  The [ie_end] of [i] after the pass is the [ie_end] that the
    prefix sums had given to node [i+1] (for the last node, [nr_edges]).
    The slices follow each other and cover [iedges[0 .. nr_edges)]. *)
Theorem input_edges_filed m0 i :
  hash_ok m0 → length (nodes m0) = 2 → prev (nd m0 1) = 0 →
  e_cnt (nd m0 1) = 0%Z → nr_edges m0 = 0%Z →
  err_msg m0 = None → bss_second m0 = false → no_progr_chk cfg = false →
  err_msg (build_state_space m0) = None → ub (build_state_space m0) = ub m0 →
  (Z.of_nat (sum_list_with (indeg (build_state_space m0)) (node_ids (build_state_space m0)))
   < 4294967296)%Z →
  err_msg (construct_input_edges (build_state_space m0)) = None →
  ub (construct_input_edges (build_state_space m0)) = ub m0 →
  1 ≤ i < length (nodes (build_state_space m0)) →
  let m1 := build_state_space m0 in
  let m2 := construct_input_edges m1 in
  in_edges m2 i = preds m1 i
  ∧ (∀ a, a ∈ in_edges m2 i ↔ 1 ≤ a < length (nodes m1) ∧ edge m1 a i)
  ∧ (∀ a, 1 ≤ a < length (nodes m1) →
          count_occ Nat.eq_dec (in_edges m2 i) a = mult m1 a i)
  ∧ length (in_edges m2 i) = indeg m1 i
  ∧ (S i < length (nodes m1) → ie_end (nd m2 i) = ie_end (nd (count_indices m1) (S i)))
  ∧ (S i = length (nodes m1) → ie_end (nd m2 i) = Z.to_nat (nr_edges m1))
  ∧ layout_ok m2
  ∧ length (nodes m2) = length (nodes m1)
  ∧ (∀ j, 1 ≤ j < length (nodes m1) → state_at m2 j = state_at m1 j).
Proof.
  intros Hok Hsz Hp He0 Hn0 Herr Hbs Hnp Hnone Hub Hsmall Hnone2 Hub2 Hi m1 m2.
  destruct (input_edges_facts m0) as (Hok1 & Hcl & Hn & Hne & Hf & Hlay & Hci); try done.
  fold m1 in Hok1, Hcl, Hn, Hne, Hci. fold m1 m2 in Hf, Hlay.
  destruct (filed_slices m1 m2 i Hf Hi) as (Hsl & Hbeg & Hend).
  pose proof Hf as (Hg & [Hl _] & _).
  split; [done|]. split.
  { intros a. rewrite Hsl, elem_of_preds. rewrite mult_pos_edge by done. done. }
  split. { intros a Ha. rewrite Hsl. by apply count_occ_preds. }
  split. { by rewrite Hsl, length_preds. }
  split. { intros Hi'. by rewrite Hend, Hci. }
  split. { intros Hi'. rewrite Hend, Hi', Hne. by rewrite Nat2Z.id. }
  split; [done|]. split; [done|]. intros j Hj. by apply Hg.
Qed.

(** ** The two rounds on the graph of the stored states *)

(** Round 0 on a structure of incoming edges. *)
Lemma may_wave m ni :
  layout_ok m → (vp_label 0 m).1 = false → 1 ≤ ni < length (nodes m) →
  e_cnt (nd (vp_label 0 m).2 ni) = 0%Z
  ↔ ∃ nj, reaches m ni nj ∧ 1 ≤ nj < length (nodes m) ∧ may_goal m nj = true.
Proof.
  intros Hl Hret Hni.
  destruct (vp_label_spec 0 m ni Hl ltac:(by left) Hret Hni) as [_ H].
  rewrite H. simpl. by apply zeroable_may.
Qed.

(** Round 1 on a structure of incoming edges. *)
Lemma must_wave m ni :
  layout_ok m → (vp_label 1 m).1 = false → 1 ≤ ni < length (nodes m) →
  e_cnt (nd (vp_label 1 m).2 ni) = 0%Z ↔ inevitable m ni.
Proof.
  intros Hl Hret Hni.
  destruct (vp_label_spec 1 m ni Hl ltac:(by right) Hret Hni) as [_ H].
  rewrite H. simpl. by apply zeroable_must.
Qed.

(** No transition is enabled in the state of node [j]. *)
Definition dead (m : machine) (j : nat) : Prop :=
  Forall (λ tr, succ_state tr (state_at m j) = None) (seq 0 (nr_trans m)).

(** There is a path of transitions from [a] to [c] through stored nodes. *)
Inductive connected (m : machine) : nat → nat → Prop :=
  | connected_refl a : connected m a a
  | connected_step a b c :
      1 ≤ b < length (nodes m) → edge m a b → connected m b c → connected m a c.

(** The state of node [j] is a may progress state, or it is a terminal
    state and [dl_not_may] is off. *)
Definition may_node (m : machine) (j : nat) : Prop :=
  (if chk_may_progress cfg then is_may_progress mdl (state_at m j) else (true, None)).1 = true
  ∨ (dead m j ∧ dl_not_may cfg = false).

(** The same for must progress. *)
Definition must_node (m : machine) (j : nat) : Prop :=
  (if chk_must_progress cfg then is_must_progress mdl (state_at m j) else (true, None)).1 = true
  ∨ (dead m j ∧ dl_not_must cfg = false).

(** Every path from the node leads to a must progress node. *)
Inductive unavoidable (m : machine) : nat → Prop :=
  | unavoidable_goal i : must_node m i → unavoidable m i
  | unavoidable_step i :
      ¬ dead m i →
      (∀ b, 1 ≤ b < length (nodes m) → edge m i b → unavoidable m b) →
      unavoidable m i.

(** An execution from the stored states: it follows the transitions, and
    stays where it is in a terminal state. *)
Definition run (m : machine) (f : nat → nat) : Prop :=
  ∀ k, (1 ≤ f (S k) < length (nodes m) ∧ edge m (f k) (f (S k)))
       ∨ (dead m (f k) ∧ f (S k) = f k).

Section Pipeline.
Context (m1 m2 : machine).
Hypothesis (Hok1 : hash_ok m1) (Hcl : closed m1).
Hypothesis (Hf : filed m1 m2 (length (nodes m1)) []) (Hlay : layout_ok m2).

Lemma arrow_edge a b :
  arrow m2 a b ↔ 1 ≤ a < length (nodes m1) ∧ 1 ≤ b < length (nodes m1) ∧ edge m1 a b.
Proof.
  pose proof Hf as (_ & [Hl _] & _). unfold arrow. rewrite Hl. split.
  - intros [Hb Hin]. destruct (filed_slices m1 m2 b Hf Hb) as (Hsl & _).
    rewrite Hsl, elem_of_preds, mult_pos_edge in Hin by done. tauto.
  - intros (Ha & Hb & He). split; [done|].
    destruct (filed_slices m1 m2 b Hf Hb) as (Hsl & _).
    rewrite Hsl, elem_of_preds, mult_pos_edge by done. tauto.
Qed.

Lemma outdeg_mult j :
  1 ≤ j < length (nodes m1) →
  outdeg m2 j = sum_list_with (mult m1 j) (node_ids m1).
Proof.
  intros Hj. pose proof Hf as (_ & [Hl _] & _).
  rewrite <- hits_all by done. unfold hits, node_ids. rewrite Hl.
  apply sum_list_with_ext_in. intros b Hb%elem_of_seq.
  destruct (filed_slices m1 m2 b Hf ltac:(lia)) as (-> & _).
  by apply count_occ_preds.
Qed.

Lemma outdeg_dead j : 1 ≤ j < length (nodes m1) → outdeg m2 j = 0 ↔ dead m1 j.
Proof.
  intros Hj. rewrite outdeg_mult by done. unfold dead. rewrite Forall_forall. split.
  - intros H0 tr Htr%elem_of_seq.
    destruct (succ_state tr (state_at m1 j)) as [t|] eqn:E; [exfalso|done].
    assert (Hne : index_of m1 t ≠ 0) by (apply (Hcl j tr t); [done|lia|done]).
    pose proof (index_of_bound m1 t Hok1) as Hb.
    assert (Hm : 0 < mult m1 j (index_of m1 t)).
    { apply mult_pos_edge; [done|lia|]. exists tr. split; [lia|].
      destruct (index_of_spec m1 t _ eq_refl Hne) as [_ ->]. done. }
    pose proof (sum_list_with_in (index_of m1 t) (mult m1 j) (node_ids m1)) as Hle.
    rewrite elem_of_node_ids in Hle. lia.
  - intros Hd. rewrite (sum_list_with_ext_in _ (λ _, 0)).
    { by induction (node_ids m1) as [|b l IH]. }
    intros b Hb%elem_of_node_ids. unfold mult. apply count_occ_not_In.
    rewrite <- list_elem_of_In. intros (tr & Htg & Htr)%list_elem_of_fmap.
    unfold target in Htg. rewrite (Hd tr Htr) in Htg. simpl in Htg. lia.
Qed.

Lemma may_goal_node j :
  1 ≤ j < length (nodes m1) → may_goal m2 j = true ↔ may_node m1 j.
Proof.
  intros Hj. pose proof Hf as (Hg & _). destruct Hg as (_ & _ & _ & G4).
  unfold may_goal, may_node. rewrite G4 by done.
  rewrite orb_true_iff, andb_true_iff, Nat.eqb_eq, negb_true_iff.
  by rewrite outdeg_dead.
Qed.

Lemma must_goal_node j :
  1 ≤ j < length (nodes m1) → must_goal m2 j = true ↔ must_node m1 j.
Proof.
  intros Hj. pose proof Hf as (Hg & _). destruct Hg as (_ & _ & _ & G4).
  unfold must_goal, must_node. rewrite G4 by done.
  rewrite orb_true_iff, andb_true_iff, Nat.eqb_eq, negb_true_iff.
  by rewrite outdeg_dead.
Qed.

Lemma reaches_connected a c :
  1 ≤ a < length (nodes m1) → reaches m2 a c ↔ connected m1 a c.
Proof.
  intros Ha. split.
  - intros H. clear Ha. induction H as [a|a b c Hab _ IH]; [constructor|].
    apply arrow_edge in Hab as (_ & Hb & He). by apply (connected_step m1 a b c).
  - intros H. revert Ha. induction H as [a|a b c Hb He _ IH]; intros Ha; [constructor|].
    apply (reaches_step m2 a b c); [|by apply IH]. by apply arrow_edge.
Qed.

Lemma inevitable_unavoidable i :
  1 ≤ i < length (nodes m1) → inevitable m2 i ↔ unavoidable m1 i.
Proof.
  intros Hi. split.
  - intros H. revert Hi. induction H as [i Hg|i Ho _ IH]; intros Hi.
    + apply unavoidable_goal. by apply must_goal_node.
    + apply unavoidable_step; [by rewrite <- outdeg_dead|].
      intros b Hb He. apply IH; [|done]. by apply arrow_edge.
  - intros H. revert Hi. induction H as [i Hg|i Hd _ IH]; intros Hi.
    + apply inevitable_goal. by apply must_goal_node.
    + apply inevitable_step; [by rewrite outdeg_dead|].
      intros p (_ & Hp & He)%arrow_edge. by apply IH.
Qed.
End Pipeline.

(** Along an execution the must progress nodes cannot be avoided. *)
Lemma unavoidable_run m i f :
  unavoidable m i → f 0 = i → run m f → ∃ k, must_node m (f k).
Proof.
  intros H. revert f. induction H as [i Hg|i Hd _ IH]; intros f H0 Hr.
  - exists 0. by rewrite H0.
  - destruct (Hr 0) as [[Hb He]|[Hd' _]]; [|by rewrite H0 in Hd'].
    rewrite H0 in He. destruct (IH (f 1) Hb He (λ k, f (S k)) eq_refl) as [k Hk].
    + intros k. apply (Hr (S k)).
    + by exists (S k).
Qed.

#[global] Instance dead_dec m j : Decision (dead m j).
Proof. unfold dead. apply _. Defined.

(** Where an execution goes from [j] to stay away from the nodes that [z]
    marks: to the first successor that is not marked. *)
Definition escape (m : machine) (z : nat → bool) (j : nat) : nat :=
  if decide (dead m j) then j
  else from_option snd j
         (list_find (λ b, 0 < mult m j b ∧ z b = false) (node_ids m)).

Lemma escape_step m z j :
  hash_ok m →
  (∀ b, 1 ≤ b < length (nodes m) → z b = true ↔ unavoidable m b) →
  1 ≤ j < length (nodes m) → z j = false →
  (1 ≤ escape m z j < length (nodes m) ∧ z (escape m z j) = false)
  ∧ ((1 ≤ escape m z j < length (nodes m) ∧ edge m j (escape m z j))
     ∨ (dead m j ∧ escape m z j = j)).
Proof.
  intros Hok Hz Hj Hzj. unfold escape. destruct (decide (dead m j)) as [Hd|Hd].
  - split; [done|]. by right.
  - destruct (list_find _ _) as [[k b]|] eqn:E; simpl.
    + apply list_find_Some in E as (Hl & [Hm Hzb] & _).
      apply list_elem_of_lookup_2, elem_of_node_ids in Hl.
      split; [done|]. left. split; [done|]. by apply mult_pos_edge.
    + exfalso. apply list_find_None in E. rewrite Forall_forall in E.
      assert (Hu : unavoidable m j); [|apply Hz in Hu; [congruence|done]].
      apply unavoidable_step; [done|]. intros b Hb He. apply Hz; [done|].
      destruct (z b) eqn:Ezb; [done|exfalso].
      apply (E b); [by apply elem_of_node_ids|]. split; [|done].
      by apply mult_pos_edge.
Qed.

(** From a node that is not unavoidable there is an execution that never
    meets a must progress node. *)
Lemma avoiding_run m z i :
  hash_ok m →
  (∀ b, 1 ≤ b < length (nodes m) → z b = true ↔ unavoidable m b) →
  1 ≤ i < length (nodes m) → z i = false →
  ∃ f, f 0 = i ∧ run m f ∧ ∀ k, ¬ must_node m (f k).
Proof.
  intros Hok Hz Hi Hzi. exists (λ k, Nat.iter k (escape m z) i).
  assert (Hinv : ∀ k, 1 ≤ Nat.iter k (escape m z) i < length (nodes m)
                      ∧ z (Nat.iter k (escape m z) i) = false).
  { induction k as [|k [IH1 IH2]]; [done|]. simpl.
    by destruct (escape_step m z _ Hok Hz IH1 IH2) as [? _]. }
  split; [done|]. split.
  - intros k. destruct (Hinv k) as [H1 H2]. simpl.
    by destruct (escape_step m z _ Hok Hz H1 H2) as [_ ?].
  - intros k Hg. destruct (Hinv k) as [H1 H2].
    assert (z (Nat.iter k (escape m z) i) = true); [|congruence].
    apply Hz; [done|]. by apply unavoidable_goal.
Qed.

(** C1.  The forward pass is started on the stored initial state, with
    progress checking compiled in, and finds fewer than 2^32 edges; both
    passes end with no error message and no undefined access, and round 0
    of [verify_progress] meets no modelling error.  Then, when the backward
    propagation of round 0 has ended, a stored node [ni] has [e_cnt = 0]
    exactly when a path of transitions leads from it, through stored nodes,
    to a node whose state is a may progress state (or a terminal state,
    when [dl_not_may] is off). *)
Theorem may_progress_round m0 ni :
  hash_ok m0 → length (nodes m0) = 2 → prev (nd m0 1) = 0 →
  e_cnt (nd m0 1) = 0%Z → nr_edges m0 = 0%Z →
  err_msg m0 = None → bss_second m0 = false → no_progr_chk cfg = false →
  err_msg (build_state_space m0) = None → ub (build_state_space m0) = ub m0 →
  (Z.of_nat (sum_list_with (indeg (build_state_space m0)) (node_ids (build_state_space m0)))
   < 4294967296)%Z →
  err_msg (construct_input_edges (build_state_space m0)) = None →
  ub (construct_input_edges (build_state_space m0)) = ub m0 →
  (vp_label 0 (construct_input_edges (build_state_space m0))).1 = false →
  1 ≤ ni < length (nodes (build_state_space m0)) →
  let m1 := build_state_space m0 in
  let m3 := (vp_label 0 (construct_input_edges m1)).2 in
  ub m3 = ub m0
  ∧ (e_cnt (nd m3 ni) = 0%Z
     ↔ ∃ nj, connected m1 ni nj ∧ 1 ≤ nj < length (nodes m1) ∧ may_node m1 nj).
Proof.
  intros Hok Hsz Hp He0 Hn0 Herr Hbs Hnp Hnone Hub Hsmall Hnone2 Hub2 Hret Hni m1 m3.
  destruct (input_edges_facts m0) as (Hok1 & Hcl & Hn & Hne & Hf & Hlay & _); try done.
  fold m1 in Hok1, Hcl, Hn, Hne, Hf, Hlay, Hret, Hni.
  set (m2 := construct_input_edges m1) in *.
  pose proof Hf as (_ & [Hl _] & _).
  split.
  { destruct (vp_label_spec 0 m2 ni Hlay ltac:(by left) Hret ltac:(lia)) as [Hg _].
    destruct Hg as (_ & _ & _ & _ & _ & Hu & _). unfold m3. by rewrite Hu. }
  unfold m3. rewrite may_wave by (done || lia). rewrite Hl. split.
  - intros (nj & Hr & Hj & Hg). exists nj.
    split; [by apply (reaches_connected m1 m2)|]. split; [done|].
    by apply (may_goal_node m1 m2).
  - intros (nj & Hr & Hj & Hg). exists nj.
    split; [by apply (reaches_connected m1 m2)|]. split; [done|].
    by apply (may_goal_node m1 m2).
Qed.

(** C2.  Under the same conditions for round 1: when the backward
    propagation of round 1 has ended, a stored node [ni] has [e_cnt = 0]
    exactly when every execution from it meets a node whose state is a must
    progress state (or a terminal state, when [dl_not_must] is off); that
    is, inductively, when the node is such a node, or it has enabled
    transitions and they all lead to nodes of this kind. *)
Theorem must_progress_round m0 ni :
  hash_ok m0 → length (nodes m0) = 2 → prev (nd m0 1) = 0 →
  e_cnt (nd m0 1) = 0%Z → nr_edges m0 = 0%Z →
  err_msg m0 = None → bss_second m0 = false → no_progr_chk cfg = false →
  err_msg (build_state_space m0) = None → ub (build_state_space m0) = ub m0 →
  (Z.of_nat (sum_list_with (indeg (build_state_space m0)) (node_ids (build_state_space m0)))
   < 4294967296)%Z →
  err_msg (construct_input_edges (build_state_space m0)) = None →
  ub (construct_input_edges (build_state_space m0)) = ub m0 →
  (vp_label 1 (construct_input_edges (build_state_space m0))).1 = false →
  1 ≤ ni < length (nodes (build_state_space m0)) →
  let m1 := build_state_space m0 in
  let m3 := (vp_label 1 (construct_input_edges m1)).2 in
  ub m3 = ub m0
  ∧ (e_cnt (nd m3 ni) = 0%Z ↔ unavoidable m1 ni)
  ∧ (e_cnt (nd m3 ni) = 0%Z
     ↔ ∀ f, f 0 = ni → run m1 f → ∃ k, must_node m1 (f k)).
Proof.
  intros Hok Hsz Hp He0 Hn0 Herr Hbs Hnp Hnone Hub Hsmall Hnone2 Hub2 Hret Hni m1 m3.
  destruct (input_edges_facts m0) as (Hok1 & Hcl & Hn & Hne & Hf & Hlay & _); try done.
  fold m1 in Hok1, Hcl, Hn, Hne, Hf, Hlay, Hret, Hni.
  set (m2 := construct_input_edges m1) in *.
  pose proof Hf as (_ & [Hl _] & _).
  assert (Hall : ∀ j, 1 ≤ j < length (nodes m1) →
            e_cnt (nd m3 j) = 0%Z ↔ unavoidable m1 j).
  { intros j Hj. unfold m3. rewrite must_wave by (done || lia).
    by apply (inevitable_unavoidable m1 m2). }
  split.
  { destruct (vp_label_spec 1 m2 ni Hlay ltac:(by right) Hret ltac:(lia)) as [Hg _].
    destruct Hg as (_ & _ & _ & _ & _ & Hu & _). unfold m3. by rewrite Hu. }
  split; [by apply Hall|]. split.
  - intros H%Hall f H0 Hr; [|done]. by apply (unavoidable_run m1 ni).
  - intros H. destruct (decide (e_cnt (nd m3 ni) = 0%Z)) as [|Hnz]; [done|exfalso].
    destruct (avoiding_run m1 (λ j, bool_decide (e_cnt (nd m3 j) = 0%Z)) ni)
      as (f & H0 & Hr & Hav); [done| |done|by apply bool_decide_eq_false|].
    + intros b Hb. rewrite bool_decide_eq_true. by apply Hall.
    + destruct (H f H0 Hr) as [k Hk]. by apply (Hav k).
Qed.

(** ** The bound of the construction loop is not reached *)

(** [m'] has at most [stop_count + 1] nodes, or no more than [m], and the
    loop of [build_state_space] has not hit its bound between [m] and
    [m']. *)
Definition tame (m m' : machine) : Prop :=
  length (nodes m') ≤ length (nodes m) `max` (stop_count cfg + 1)
  ∧ (Out_of_fuel "build_state_space" ∈ ub m' → Out_of_fuel "build_state_space" ∈ ub m).

Lemma tame_refl m : tame m m.
Proof. split; [lia|done]. Qed.

Lemma tame_trans m1 m2 m3 : tame m1 m2 → tame m2 m3 → tame m1 m3.
Proof. intros [H1 H2] [G1 G2]. split; [lia|auto]. Qed.

Lemma tame_same m m' :
  length (nodes m') = length (nodes m) → ub m' = ub m → tame m m'.
Proof. intros Hn Hu. split; [lia|by rewrite Hu]. Qed.

Lemma tame_undefined e m : e ≠ Out_of_fuel "build_state_space" → tame m (undefined e m).
Proof.
  intros He. split; [simpl; lia|]. simpl.
  intros [H|H%list_elem_of_singleton]%elem_of_app; [done|congruence].
Qed.

Lemma tame_wr_node f ni g m : tame m (wr_node f ni g m).
Proof.
  unfold wr_node. destruct (nodes m !! ni).
  - apply tame_same; [simpl; by rewrite length_insert|done].
  - by apply tame_undefined.
Qed.

Lemma tame_print_history fuel ni m : tame m (print_history fuel ni m).
Proof.
  revert ni m. induction fuel as [|fuel IH]; intros ni m; simpl.
  - destruct (ni =? 0); [apply tame_refl|by apply tame_undefined].
  - destruct (ni =? 0); [apply tame_refl|].
    eapply tame_trans; [apply IH|]. by apply tame_same.
Qed.

Lemma tame_report_error ni msg m : tame m (report_error ni msg m).
Proof.
  unfold report_error. destruct (reported m); [apply tame_refl|].
  eapply tame_trans; [|by apply tame_same].
  eapply tame_trans; [|apply tame_print_history]. by apply tame_same.
Qed.

Lemma tame_call_fire tr m : tame m (call_fire tr m).2.
Proof.
  unfold call_fire. destruct (fire_transition mdl tr (cur_state m)) as [[s'|] [e|]];
    by apply tame_same.
Qed.

Lemma tame_call_symmetry m : tame m (call_symmetry m).
Proof. unfold call_symmetry. destruct (symmetry cfg); by apply tame_same. Qed.

Lemma tame_hash_try no_ins m : tame m (hash_try no_ins m).2.
Proof.
  unfold hash_try. destruct (hash_lookup m) as [ni|]; [|by apply tame_undefined].
  destruct (negb (ni =? 0)); [by apply tame_same|].
  destruct no_ins; [apply tame_refl|].
  destruct (stop_count cfg <? length (nodes m)) eqn:E; [by apply tame_same|]. simpl.
  apply Nat.ltb_ge in E.
  set (m1 := set_st_data _ _).
  assert (H1 : tame m m1).
  { split; [|done]. unfold m1. simpl. rewrite length_vresize. lia. }
  eapply tame_trans; [exact H1|]. clearbody m1.
  set (m2 := if no_progr_chk cfg then _ else _).
  assert (H2 : tame m1 m2).
  { unfold m2. destruct (no_progr_chk cfg); [apply tame_refl|apply tame_wr_node]. }
  eapply tame_trans; [exact H2|]. clearbody m2.
  eapply tame_trans; [apply tame_wr_node|]. by apply tame_same.
Qed.

Lemma tame_fire_init ni m : tame m (fire_init ni m).
Proof. by apply tame_same. Qed.

Lemma tame_tt_new n1 n2 m : tame m (tt_new n1 n2 m).
Proof.
  unfold tt_new. destruct (hash_was_new m); [|apply tame_fire_init].
  eapply tame_trans; [apply (tame_wr_node F_prev n2 (with_prev n1))|].
  fold (set_prev n2 n1 m).
  destruct (chk_state cfg); [|apply tame_fire_init].
  destruct (is_set _).
  - eapply tame_trans; [|apply tame_report_error]. by apply tame_same.
  - eapply tame_trans; [|apply tame_fire_init]. by apply tame_same.
Qed.

Lemma tame_tt_forward n1 m : tame m (tt_forward n1 m).
Proof.
  unfold tt_forward, hash_insert.
  pose proof (tame_hash_try false m) as H.
  destruct (hash_try false m) as [n2 m1]. simpl in H.
  eapply tame_trans; [exact H|].
  set (m2 := if no_progr_chk cfg then _ else _).
  assert (H2 : tame m1 m2).
  { unfold m2. destruct (no_progr_chk cfg); [by apply tame_same|].
    eapply tame_trans; [|apply tame_wr_node]. by apply tame_same. }
  eapply tame_trans; [exact H2|apply tame_tt_new].
Qed.

Lemma tame_tt_backward n1 m : tame m (tt_backward n1 m).
Proof.
  unfold tt_backward, hash_find.
  pose proof (tame_hash_try true m) as H.
  destruct (hash_try true m) as [t m1]. simpl in H.
  eapply tame_trans; [exact H|].
  eapply tame_trans; [apply (tame_wr_node F_ie_end t)|].
  eapply tame_trans; [|apply tame_fire_init]. by apply tame_same.
Qed.

Lemma tame_try_transition n1 tr m : tame m (try_transition n1 tr m).2.
Proof.
  unfold try_transition.
  pose proof (tame_call_fire tr m) as H.
  destruct (call_fire tr m) as [en m1]. simpl in H.
  destruct (negb (no_sanity_chk cfg) && is_set (err_msg m1)).
  { simpl. eapply tame_trans; [exact H|apply tame_report_error]. }
  destruct en; simpl negb; cbv iota; [|done].
  destruct (negb (no_progr_chk cfg) && bss_second (call_symmetry m1)); simpl.
  - eapply tame_trans; [exact H|].
    eapply tame_trans; [apply tame_call_symmetry|apply tame_tt_backward].
  - eapply tame_trans; [exact H|].
    eapply tame_trans; [apply tame_call_symmetry|apply tame_tt_forward].
Qed.

Lemma tame_try_all q trs m : tame m (try_all q trs m).2.
Proof.
  revert m. induction trs as [|tr trs IH]; intros m; simpl; [apply tame_refl|].
  pose proof (tame_try_transition q tr m) as H1.
  destruct (try_transition q tr m) as [b m1]. simpl in H1.
  destruct (is_set (err_msg m1)); simpl; [done|].
  eapply tame_trans; [exact H1|apply IH].
Qed.

Lemma bss_loop_ends B fuel q m :
  stop_count cfg + 1 ≤ B → length (nodes m) ≤ B → q ≤ B → B + 1 ≤ fuel + q →
  Out_of_fuel "build_state_space" ∈ ub (bss_loop fuel q m) →
  Out_of_fuel "build_state_space" ∈ ub m.
Proof.
  intros HB. revert q m. induction fuel as [|fuel IH]; intros q m Hn Hq Hf; [lia|].
  simpl. destruct (q <? length (nodes m)) eqn:Eq; [|done]. apply Nat.ltb_lt in Eq.
  pose proof (tame_try_all q (trans_order (nr_trans (fire_init q m))) (fire_init q m)) as H.
  destruct (try_all _ _ _) as [ret m1]. simpl in H.
  assert (H1 : tame m m1) by (eapply tame_trans; [apply (tame_fire_init q)|done]).
  destruct H1 as [L1 U1].
  destruct ret; [done|].
  destruct (_ && chk_deadlock cfg).
  - destruct (is_set _).
    + intros Hin. apply U1. by apply (tame_report_error q "Illegal deadlock" _) in Hin.
    + intros Hin. apply U1. apply IH in Hin; [done|simpl; lia|lia|lia].
  - intros Hin. apply U1. apply IH in Hin; [done|lia|lia|lia].
Qed.

(** The loop of [build_state_space] ends within its bound: the table of
    nodes never grows beyond [stop_count + 1] entries. *)
Lemma build_state_space_ends m :
  Out_of_fuel "build_state_space" ∈ ub (build_state_space m) →
  Out_of_fuel "build_state_space" ∈ ub m.
Proof.
  unfold build_state_space.
  apply (bss_loop_ends (length (nodes m) `max` (stop_count cfg + 1))); lia.
Qed.

(** ** What the forward pass stores *)






(** ** The check of a new state *)

(** The machine after a forward firing from [n1] has made a node of the
    new state [t], counted the edge and recorded [n1] as the finding
    predecessor: the new state is current, and a fresh scratch slot follows
    it. *)
Definition found_new (m : machine) (n1 : nat) (t : state) : machine :=
  Machine ((take (length (nodes m) * nr_words) (st_data m) ++ t) ++ replicate nr_words 0%Z)
    (state_nr m)
    (nodes m ++ [Node (bucket m (hash_value t)) n1 (if no_progr_chk cfg then 0 else 1) 0 0])
    (u32 (nr_edges m + 1)) (nr_trans m)
    (<[hash_value t := length (nodes m)]> (hash_tbl m))
    true (err_msg m) (reported m) (bss_second m) (iedges m) (cout m) (ub m).

Lemma tt_forward_new_shape m n1 t :
  ready m n1 → length t = nr_words → index_of m t = 0 →
  length (nodes m) ≤ stop_count cfg →
  tt_forward n1 (loaded m t)
  = if chk_state cfg then
      match check_state mdl t with
      | Some msg =>
          report_error (length (nodes m)) "Safety error"
            (set_err_msg (Some msg) (found_new m n1 t))
      | None => fire_init n1 (set_err_msg None (found_new m n1 t))
      end
    else fire_init n1 (found_new m n1 t).
Proof.
  intros Hr Ht E Hroom. pose proof Hr as (Hok & Hnr & Hn1 & Hs).
  pose proof (hash_ok_data m Hok) as Hd.
  unfold tt_forward, hash_insert.
  rewrite (hash_try_new (loaded m t));
    [|by apply hash_lookup_loaded_absent|done|by rewrite loaded_length].
  change (length (nodes (loaded m t))) with (length (nodes m)).
  set (m3 := if no_progr_chk cfg then _ else _).
  assert (Hl : ∀ x, (nodes m ++ [x]) !! length (nodes m) = Some x).
  { intros x. rewrite lookup_app_r by lia. by rewrite Nat.sub_diag. }
  assert (Hi : ∀ x y, <[length (nodes m) := y]> (nodes m ++ [x]) = nodes m ++ [y]).
  { intros x y. rewrite insert_app_r_alt by lia. by rewrite Nat.sub_diag. }
  assert (Hidx : hash_idx (loaded m t) = hash_value t).
  { unfold hash_idx. by rewrite scratch_loaded. }
  assert (H3 : hash_was_new m3 = true ∧ set_prev (length (nodes m)) n1 m3 = found_new m n1 t).
  { unfold m3, found_new. destruct (no_progr_chk cfg).
    - split; [done|]. unfold set_prev, wr_node. simpl nodes. rewrite Hl.
      apply machine_eq; simpl; rewrite ?Hi, ?Hidx; done.
    - unfold set_e_cnt, set_prev.
      split; [by rewrite wr_node_hash_was_new|].
      unfold wr_node at 2. simpl nodes. rewrite Hl.
      unfold wr_node. simpl nodes. rewrite Hi, Hl.
      apply machine_eq; simpl; rewrite ?Hi, ?Hidx; try done.
      unfold nd. simpl nodes. rewrite Hl. done. }
  destruct H3 as [Hw H3]. clearbody m3.
  unfold tt_new. rewrite Hw, H3.
  assert (Hcur : cur_state (found_new m n1 t) = t).
  { unfold cur_state, state_at, found_new. cbn [st_data state_nr]. rewrite Hnr.
    rewrite <- app_assoc.
    rewrite drop_app_length' by (rewrite length_take; nia).
    rewrite take_app_length' by done. done. }
  destruct (chk_state cfg); [|done].
  change (cur_state (set_prev _ _ _)) with (cur_state (found_new m n1 t)).
  rewrite Hcur. destruct (check_state mdl t); done.
Qed.

(** ** One step and one round of a pass that ends cleanly *)



(** ** Soundness of the safety and deadlock checks *)













(** ** The initial state *)

Lemma foldl_insert_zero (l : list Z) (js : list nat) :
  (∀ i x, l !! i = Some x → x = 0%Z) → foldl (λ st ii, <[ii := 0%Z]> st) l js = l.
Proof.
  intros H. induction js as [|i js IH]; [done|]. simpl.
  assert (E : <[i := 0%Z]> l = l).
  { destruct (l !! i) as [x|] eqn:Ei.
    - apply list_insert_id. by rewrite Ei, (H i x Ei).
    - apply list_insert_ge. by apply lookup_ge_None. }
  by rewrite E.
Qed.

(** The machine in [store_initial_state] when the model is initialised:
    the sentinel node, an all-zero state 1 in use, and nothing else. *)
Definition blank : machine :=
  Machine (replicate (2 * nr_words) 0%Z) 1 [node0] 0 0 ∅ false None false false [] [] [].

Lemma hash_ok_blank n : hash_ok (set_nr_trans n blank).
Proof.
  split; [simpl; lia|]. split; [simpl; rewrite length_replicate; lia|].
  split; [by apply Forall_nil|]. split; [apply map_Forall_empty|]. apply NoDup_nil_2.
Qed.

(** The machine that [store_initial_state] leaves when it reports no
    error: node 1 holds the state [t]. *)
Definition started (n : nat) (t : state) : machine :=
  Machine (replicate nr_words 0%Z ++ t ++ replicate nr_words 0%Z) 1
    [node0; Node 0 0 0 0 0] 0 n {[hash_value t := 1]} true None false false [] [] [].

Lemma store_initial_state_shape n s1 e :
  nr_transitions mdl (replicate nr_words 0%Z) = (n, s1, e) →
  1 ≤ stop_count cfg →
  let t := canon (norm_state s1) in
  store_initial_state machine0
  = let m := set_err_msg e (started n t) in
    if is_set e then report_error 1 "Initialization error" m
    else if (Z.of_nat n =? all_ones)%Z then
      report_error 0 "Too many transitions" (set_err_msg (Some EmptyString) m)
    else if chk_state cfg then
      let m := set_err_msg (check_state mdl t) m in
      if is_set (err_msg m) then report_error 1 "Safety error" m else m
    else m.
Proof.
  intros Hnt Hroom t. unfold store_initial_state.
  set (ma := use_state 1 _).
  assert (Ha : ma = blank).
  { unfold ma, blank. apply machine_eq; try done. simpl.
    unfold vresize. rewrite take_nil. simpl. rewrite Nat.sub_0_r.
    apply foldl_insert_zero. intros i x Hx. apply lookup_replicate in Hx. tauto. }
  clearbody ma. subst ma.
  assert (Hcur : cur_state blank = replicate nr_words 0%Z).
  { unfold cur_state, state_at, blank. simpl.
    rewrite Nat.add_0_r. rewrite drop_replicate, take_replicate. f_equal. lia. }
  unfold call_nr_transitions. rewrite Hcur, Hnt.
  set (mb := declare_error e blank).
  assert (Hb : mb = set_err_msg e blank).
  { unfold mb. by destruct e. }
  clearbody mb. subst mb.
  set (mc := set_nr_trans n (set_err_msg e blank)).
  assert (Hokc : hash_ok mc).
  { unfold mc. generalize (hash_ok_blank n). by apply hash_ok_ext. }
  assert (Hdc : length (st_data mc) = (length (nodes mc) + 1) * nr_words)
    by (by apply hash_ok_data).
  rewrite (put_state_loaded s1 (set_err_msg e blank)) by (done || apply Hdc).
  change (set_nr_trans n (loaded (set_err_msg e blank) (norm_state s1)))
    with (loaded mc (norm_state s1)).
  rewrite call_symmetry_loaded by (done || apply length_norm_state).
  fold t.
  assert (Ht : length t = nr_words) by apply length_canon, length_norm_state.
  unfold hash_insert.
  rewrite (hash_try_new (loaded mc t)); [|apply hash_lookup_loaded_absent; done|done|].
  2:{ by rewrite loaded_length. }
  set (md := set_prev 1 0 _).
  assert (Hd : md = set_err_msg e (started n t)).
  { unfold md, set_prev. rewrite wr_node_in_range by (simpl; lia).
    unfold started. apply machine_eq; try done.
    - simpl. rewrite Nat.add_0_r, take_replicate.
      rewrite <- app_assoc. f_equal. f_equal. lia.
    - simpl. unfold hash_idx. rewrite scratch_loaded by done. apply insert_empty. }
  clearbody md. subst md.
  change (err_msg (set_err_msg e (started n t))) with e.
  change (nr_trans (set_err_msg e (started n t))) with n.
  destruct (is_set e); [done|].
  destruct (Z.of_nat n =? all_ones)%Z; [done|].
  destruct (chk_state cfg); [|done].
  assert (Hc : cur_state (set_err_msg e (started n t)) = t).
  { unfold cur_state, state_at, started. simpl.
    rewrite Nat.add_0_r. rewrite drop_app_length' by (by rewrite length_replicate).
    by rewrite take_app_length'. }
  rewrite Hc. done.
Qed.

Lemma state_at_started n t : length t = nr_words → state_at (started n t) 1 = t.
Proof.
  intros Ht. unfold state_at, started. simpl.
  rewrite Nat.add_0_r. rewrite drop_app_length' by (by rewrite length_replicate).
  by rewrite take_app_length'.
Qed.

Lemma hash_ok_started n t : length t = nr_words → hash_ok (started n t).
Proof.
  intros Ht. split; [simpl; lia|]. split.
  { simpl. rewrite !length_app, !length_replicate. lia. }
  split.
  { constructor; [|constructor].
    rewrite state_at_started by done. split; [simpl; lia|].
    unfold bucket. simpl. rewrite lookup_singleton_eq. simpl. left. }
  split.
  { apply map_Forall_singleton. simpl. lia. }
  simpl. apply NoDup_singleton.
Qed.

(** X4.  [store_initial_state] at the start of the program, when the model is
    initialised without an error, has fewer than [~0u] transitions, there
    is room for one state and the initial state passes [check_state]: the
    initial state, made by [nr_transitions] from the all-zero state and
    canonised, is node 1, the only node; the store is consistent, nothing is
    counted, nothing is printed and no error is set. *)
Theorem store_initial_state_ok n s1 :
  nr_transitions mdl (replicate nr_words 0%Z) = (n, s1, None) →
  1 ≤ stop_count cfg → Z.of_nat n ≠ all_ones →
  (chk_state cfg = true → check_state mdl (canon (norm_state s1)) = None) →
  hash_ok (store_initial_state machine0)
  ∧ length (nodes (store_initial_state machine0)) = 2
  ∧ state_at (store_initial_state machine0) 1 = canon (norm_state s1)
  ∧ nr_trans (store_initial_state machine0) = n
  ∧ prev (nd (store_initial_state machine0) 1) = 0
  ∧ e_cnt (nd (store_initial_state machine0) 1) = 0%Z
  ∧ nr_edges (store_initial_state machine0) = 0%Z
  ∧ err_msg (store_initial_state machine0) = None
  ∧ bss_second (store_initial_state machine0) = false
  ∧ cout (store_initial_state machine0) = []
  ∧ ub (store_initial_state machine0) = [].
Proof.
  intros Hnt Hroom Hn Hchk.
  assert (Ht : length (canon (norm_state s1)) = nr_words)
    by apply length_canon, length_norm_state.
  assert (E : store_initial_state machine0 = started n (canon (norm_state s1))).
  { rewrite (store_initial_state_shape n s1 None Hnt Hroom). cbv zeta. simpl is_set. cbv iota.
    replace (Z.of_nat n =? all_ones)%Z with false by (symmetry; by apply Z.eqb_neq).
    destruct (chk_state cfg); [|done]. by rewrite Hchk. }
  rewrite E. split; [by apply hash_ok_started|]. split; [done|].
  split; [by apply state_at_started|]. done.
Qed.

(** X5.  The errors of [store_initial_state], with room for one state.  An
    error message that the model sets in [nr_transitions] is reported as
    "Initialization error" after the initial state is printed; [~0u]
    transitions are reported as "Too many transitions" with an empty message
    and no state; an initial state that fails [check_state] is reported as
    "Safety error", with the message of the model, after the state is
    printed.  In each case [err_msg] is left set. *)
Theorem store_initial_state_errors n s1 e :
  nr_transitions mdl (replicate nr_words 0%Z) = (n, s1, e) →
  1 ≤ stop_count cfg →
  let t := canon (norm_state s1) in
  let m1 := store_initial_state machine0 in
  (∀ msg, e = Some msg →
     err_msg m1 = Some msg
     ∧ cout m1 = [Ev_state t; Ev_error "Initialization error" (non_empty (Some msg))])
  ∧ (e = None → Z.of_nat n = all_ones →
     err_msg m1 = Some EmptyString ∧ cout m1 = [Ev_error "Too many transitions" None])
  ∧ (∀ msg, e = None → Z.of_nat n ≠ all_ones → chk_state cfg = true →
     check_state mdl t = Some msg →
     err_msg m1 = Some msg
     ∧ cout m1 = [Ev_state t; Ev_error "Safety error" (non_empty (Some msg))]).
Proof.
  intros Hnt Hroom t m1.
  assert (Ht : length t = nr_words) by apply length_canon, length_norm_state.
  assert (Hrep : ∀ kind msg,
            err_msg (report_error 1 kind (set_err_msg (Some msg) (started n t))) = Some msg
            ∧ cout (report_error 1 kind (set_err_msg (Some msg) (started n t)))
              = [Ev_state t; Ev_error kind (non_empty (Some msg))]).
  { intros kind msg. split; [by rewrite err_msg_report_error|].
    unfold report_error. simpl. unfold cur_state. simpl.
    change (state_at _ 1) with (state_at (started n t) 1). by rewrite state_at_started. }
  unfold m1. rewrite (store_initial_state_shape n s1 e Hnt Hroom). cbv zeta. fold t.
  split; [|split].
  - intros msg ->. simpl is_set. cbv iota. apply Hrep.
  - intros -> Hn. simpl is_set. cbv iota.
    replace (Z.of_nat n =? all_ones)%Z with true by (symmetry; by apply Z.eqb_eq).
    done.
  - intros msg -> Hn Hchk Hbad. simpl is_set. cbv iota.
    replace (Z.of_nat n =? all_ones)%Z with false by (symmetry; by apply Z.eqb_neq).
    rewrite Hchk, Hbad. simpl is_set. cbv iota.
    change (set_err_msg (Some msg) (set_err_msg None (started n t)))
      with (set_err_msg (Some msg) (started n t)).
    apply Hrep.
Qed.

Lemma store_initial_state_full n s1 e :
  nr_transitions mdl (replicate nr_words 0%Z) = (n, s1, e) →
  stop_count cfg = 0 →
  length (nodes (store_initial_state machine0)) = 1
  ∧ ub (store_initial_state machine0) = [Out_of_range F_prev 1]
  ∧ err_msg (store_initial_state machine0) = Some "Maximum number of states exceeded"%string
  ∧ cout (store_initial_state machine0)
    = [Ev_state (canon (norm_state s1));
       Ev_error "Initialization error" (Some "Maximum number of states exceeded"%string)].
Proof.
  intros Hnt Hroom. unfold store_initial_state.
  set (ma := use_state 1 _).
  assert (Ha : ma = blank).
  { unfold ma, blank. apply machine_eq; try done. simpl.
    unfold vresize. rewrite take_nil. simpl. rewrite Nat.sub_0_r.
    apply foldl_insert_zero. intros i x Hx. apply lookup_replicate in Hx. tauto. }
  clearbody ma. subst ma.
  assert (Hcur : cur_state blank = replicate nr_words 0%Z).
  { unfold cur_state, state_at, blank. simpl.
    rewrite Nat.add_0_r. rewrite drop_replicate, take_replicate. f_equal. lia. }
  unfold call_nr_transitions. rewrite Hcur, Hnt.
  set (mb := declare_error e blank).
  assert (Hb : mb = set_err_msg e blank).
  { unfold mb. by destruct e. }
  clearbody mb. subst mb.
  set (mc := set_nr_trans n (set_err_msg e blank)).
  assert (Hokc : hash_ok mc).
  { unfold mc. generalize (hash_ok_blank n). by apply hash_ok_ext. }
  assert (Hdc : length (st_data mc) = (length (nodes mc) + 1) * nr_words)
    by (by apply hash_ok_data).
  rewrite (put_state_loaded s1 (set_err_msg e blank)) by (done || apply Hdc).
  change (set_nr_trans n (loaded (set_err_msg e blank) (norm_state s1)))
    with (loaded mc (norm_state s1)).
  rewrite call_symmetry_loaded by (done || apply length_norm_state).
  set (t := canon (norm_state s1)).
  assert (Ht : length t = nr_words) by apply length_canon, length_norm_state.
  unfold hash_insert.
  rewrite (hash_try_full (loaded mc t));
    [|apply hash_lookup_loaded_absent; done|simpl; lia].
  unfold set_prev. rewrite wr_node_out_of_range by (simpl; lia).
  simpl is_set. cbv iota.
  assert (Hc : state_at (loaded mc t) 1 = t).
  { rewrite state_at_loaded by done. by rewrite decide_True. }
  unfold report_error. simpl. unfold cur_state. simpl.
  change (state_at _ 1) with (state_at (loaded mc t) 1). by rewrite Hc.
Qed.

(** X6.  With [stop_cnt] 0 there is no room for the initial state: [hash_insert]
    sets the capacity error and makes no node, and the assignment
    [nodes[1].prev = 0] that follows it is outside [nodes].  The error is
    reported as "Initialization error". *)
Theorem store_initial_state_no_room n s1 e :
  nr_transitions mdl (replicate nr_words 0%Z) = (n, s1, e) →
  stop_count cfg = 0 →
  length (nodes (store_initial_state machine0)) = 1
  ∧ ub (store_initial_state machine0) = [Out_of_range F_prev 1]
  ∧ err_msg (store_initial_state machine0) = Some "Maximum number of states exceeded"%string
  ∧ cout (store_initial_state machine0)
    = [Ev_state (canon (norm_state s1));
       Ev_error "Initialization error" (Some "Maximum number of states exceeded"%string)].
Proof. apply store_initial_state_full. Qed.

(** ** The printed history *)

(** The machine after the events [es] have been written to [cout]. *)
Definition emits (es : list event) (m : machine) : machine :=
  Machine (st_data m) (state_nr m) (nodes m) (nr_edges m) (nr_trans m) (hash_tbl m)
    (hash_was_new m) (err_msg m) (reported m) (bss_second m) (iedges m) (cout m ++ es) (ub m).

Lemma print_history_spec fuel ni m :
  (∀ nj, 1 ≤ nj ≤ ni → prev (nd m nj) < nj) → ni ≤ fuel →
  print_history fuel ni m
  = if ni =? 0 then m
    else use_state ni (emits ((λ nj, Ev_state (state_at m nj)) <$> prev_chain fuel m ni) m).
Proof.
  revert ni. induction fuel as [|fuel IH]; intros ni Hp Hf.
  { assert (ni = 0) as -> by lia. done. }
  destruct (decide (ni = 0)) as [->|Hne]; [done|].
  rewrite prev_chain_unfold by done. simpl.
  replace (ni =? 0) with false by (symmetry; by apply Nat.eqb_neq).
  assert (Hpn : prev (nd m ni) < ni) by (apply Hp; lia).
  rewrite IH; [|intros nj Hnj; apply Hp; lia|lia].
  destruct (prev (nd m ni) =? 0) eqn:E0.
  - apply Nat.eqb_eq in E0. rewrite E0.
    assert (prev_chain fuel m 0 = []) as -> by (by destruct fuel).
    apply machine_eq; done.
  - apply machine_eq; try done. simpl. by rewrite fmap_app, app_assoc.
Qed.

Lemma prev_decreasing m :
  Forall (λ nj, prev (nd m nj) < nj) (node_ids m) →
  ∀ nj, 1 ≤ nj < length (nodes m) → prev (nd m nj) < nj.
Proof.
  intros H nj Hnj. rewrite Forall_forall in H. apply H. by apply elem_of_node_ids.
Qed.

Lemma print_history_emits m ni :
  (∀ nj, 1 ≤ nj < length (nodes m) → prev (nd m nj) < nj) →
  1 ≤ ni < length (nodes m) →
  print_history (length (nodes m)) ni m
  = use_state ni (emits ((λ nj, Ev_state (state_at m nj)) <$> history m ni) m).
Proof.
  intros Hp Hni. rewrite print_history_spec; [|intros nj Hnj; apply Hp; lia|lia].
  replace (ni =? 0) with false by (symmetry; apply Nat.eqb_neq; lia). done.
Qed.

(** X7.  [print_history( ni )] on a table in which every [prev] points to a
    smaller node number prints the states of the nodes on the [prev] chain
    of [ni], from the root of the chain to [ni], and nothing else; it makes
    [ni] the current state and changes nothing else. *)
Theorem print_history_prints m ni :
  (∀ nj, 1 ≤ nj < length (nodes m) → prev (nd m nj) < nj) →
  1 ≤ ni < length (nodes m) →
  print_history (length (nodes m)) ni m
  = use_state ni (emits ((λ nj, Ev_state (state_at m nj)) <$> history m ni) m).
Proof. apply print_history_emits. Qed.

Lemma prev_chain_bound f m ni nj :
  (∀ nk, 1 ≤ nk ≤ ni → prev (nd m nk) < nk) → nj ∈ prev_chain f m ni → 1 ≤ nj ≤ ni.
Proof.
  revert ni. induction f as [|f IH]; intros ni Hp.
  { simpl. destruct (ni =? 0); by intros ?%elem_of_nil. }
  destruct (decide (ni = 0)) as [->|Hne]; [by intros ?%elem_of_nil|].
  rewrite prev_chain_unfold by done.
  intros [Hin| ->%list_elem_of_singleton]%elem_of_app; [|lia].
  assert (prev (nd m ni) < ni) by (apply Hp; lia).
  apply IH in Hin; [lia|]. intros nk Hnk. apply Hp. lia.
Qed.

Lemma nd_found_new m n1 t ni :
  nd (found_new m n1 t) ni
  = if decide (ni = length (nodes m))
    then Node (bucket m (hash_value t)) n1 (if no_progr_chk cfg then 0 else 1) 0 0
    else nd m ni.
Proof.
  unfold nd, found_new. simpl. case_decide as E.
  - subst ni. rewrite lookup_app_r by lia. by rewrite Nat.sub_diag.
  - destruct (decide (ni < length (nodes m))).
    + by rewrite lookup_app_l.
    + rewrite !lookup_ge_None_2; [done|lia|rewrite length_app; simpl; lia].
Qed.

Lemma state_at_found_new m n1 t k :
  length (st_data m) = (length (nodes m) + 1) * nr_words → length t = nr_words →
  k ≤ length (nodes m) →
  state_at (found_new m n1 t) k = if decide (k = length (nodes m)) then t else state_at m k.
Proof.
  intros Hd Ht Hk. unfold state_at, found_new. cbn [st_data].
  apply list_eq. intros i. rewrite slot_lookup.
  destruct (decide (k = length (nodes m))) as [E|E].
  - subst k. destruct (decide (i < nr_words)) as [Hi|Hi].
    + rewrite <- app_assoc. rewrite lookup_app_r by (rewrite length_take; nia).
      rewrite length_take.
      replace (length (nodes m) * nr_words + i
               - (length (nodes m) * nr_words) `min` length (st_data m)) with i by nia.
      by rewrite lookup_app_l by lia.
    + symmetry. apply lookup_ge_None. lia.
  - rewrite slot_lookup. destruct (decide (i < nr_words)) as [Hi|Hi]; [|done].
    rewrite <- app_assoc. rewrite lookup_app_l by (rewrite length_take; nia).
    apply lookup_take_lt. nia.
Qed.

(** X8.  A firing in the forward pass that leads to a new state which fails
    [check_state]: the state is stored as a new node, whose finding
    predecessor is [n1]; [err_msg] is the message of [check_state]; and what
    is printed is the history of [n1], the new state, and the line of the
    "Safety error" with the message. *)
Theorem safety_error_reported m n1 tr t msg :
  ready m n1 → (∀ nj, 1 ≤ nj < length (nodes m) → prev (nd m nj) < nj) →
  err_msg m = None → reported m = false → forward m → chk_state cfg = true →
  (fire_transition mdl tr (state_at m n1)).2 = None →
  succ_state tr (state_at m n1) = Some t → index_of m t = 0 →
  length (nodes m) ≤ stop_count cfg →
  check_state mdl t = Some msg →
  err_msg (try_transition n1 tr m).2 = Some msg
  ∧ cout (try_transition n1 tr m).2
    = cout m ++ ((λ nj, Ev_state (state_at m nj)) <$> history m n1)
      ++ [Ev_state t; Ev_error "Safety error" (non_empty (Some msg))]
  ∧ ub (try_transition n1 tr m).2 = ub m
  ∧ length (nodes (try_transition n1 tr m).2) = S (length (nodes m))
  ∧ state_at (try_transition n1 tr m).2 (length (nodes m)) = t
  ∧ prev (nd (try_transition n1 tr m).2 (length (nodes m))) = n1.
Proof.
  intros Hr Hp Herr Hrep Hfw Hchk Hfire Hs E Hroom Hbad.
  pose proof Hr as (Hok & Hnr & Hn1 & Hsc).
  pose proof (hash_ok_data m Hok) as Hd.
  assert (Ht : length t = nr_words) by (by eapply succ_state_length).
  unfold try_transition. rewrite (call_fire_ready m n1 tr Hr).
  unfold succ_state in Hs.
  destruct (fire_transition mdl tr (state_at m n1)) as [[s'|] e]; [|done].
  simpl in Hs, Hfire. injection Hs as Hs. subst e. simpl declare_error.
  change (err_msg (loaded m (norm_state s'))) with (err_msg m). rewrite Herr.
  simpl is_set. rewrite andb_false_r. simpl negb. cbv iota.
  rewrite call_symmetry_loaded by (done || apply length_norm_state).
  rewrite Hs.
  change (bss_second (loaded m t)) with (bss_second m).
  replace (negb (no_progr_chk cfg) && bss_second m) with false
    by (unfold forward in Hfw; destruct (no_progr_chk cfg), (bss_second m); done).
  simpl snd.
  rewrite tt_forward_new_shape by done. rewrite Hchk, Hbad.
  set (mf := set_err_msg (Some msg) (found_new m n1 t)).
  unfold report_error. change (reported mf) with (reported m). rewrite Hrep.
  set (mr := set_reported true mf).
  assert (Hlen : length (nodes mr) = S (length (nodes m))).
  { unfold mr, mf. simpl. rewrite length_app. simpl. lia. }
  assert (Hnd : ∀ nj, nd mr nj = nd (found_new m n1 t) nj) by done.
  assert (Hpr : ∀ nj, 1 ≤ nj < length (nodes mr) → prev (nd mr nj) < nj).
  { intros nj Hnj. rewrite Hnd, nd_found_new. case_decide; [simpl; lia|]. apply Hp. lia. }
  replace (length (nodes m)) with (length (nodes mr) - 1) at 1 by lia.
  replace (length (nodes mr) - 1) with (length (nodes m)) by lia.
  change (length (nodes (set_reported true mf))) with (length (nodes mr)).
  rewrite print_history_emits by (done || lia).
  assert (Hh : history mr (length (nodes m)) = history m n1 ++ [length (nodes m)]).
  { unfold history. rewrite Hlen. rewrite prev_chain_unfold by lia.
    rewrite Hnd, nd_found_new, decide_True by done. simpl prev. f_equal.
    apply prev_chain_ext; [intros; apply Hp; lia| |lia|lia].
    intros nj Hnj. rewrite Hnd, nd_found_new. by rewrite decide_False by lia. }
  assert (Hst : ∀ k, k ≤ length (nodes m) →
            state_at mr k = if decide (k = length (nodes m)) then t else state_at m k).
  { intros k Hk. change (state_at mr k) with (state_at (found_new m n1 t) k).
    by apply state_at_found_new. }
  split; [done|]. split; [|split; [done|]].
  - simpl. rewrite Hh, fmap_app. simpl. rewrite Hst, decide_True by done.
    rewrite <- !app_assoc. f_equal. f_equal.
    apply list_fmap_ext. intros i nj Hnj.
    apply list_elem_of_lookup_2 in Hnj. apply prev_chain_bound in Hnj; [|intros; apply Hp; lia].
    rewrite Hst by lia. by rewrite decide_False by lia.
  - split; [done|]. split.
    + change (state_at _ (length (nodes m))) with (state_at mr (length (nodes m))).
      rewrite Hst by lia. by rewrite decide_True.
    + change (nd _ (length (nodes m))) with (nd (found_new m n1 t) (length (nodes m))).
      rewrite nd_found_new. by rewrite decide_True.
Qed.

Lemma report_error_prints m ni kind :
  reported m = false → (∀ nj, 1 ≤ nj < length (nodes m) → prev (nd m nj) < nj) →
  1 ≤ ni < length (nodes m) →
  report_error ni kind m
  = use_state ni
      (emits (((λ nj, Ev_state (state_at m nj)) <$> history m ni)
              ++ [Ev_error kind (non_empty (err_msg m))])
         (set_reported true m)).
Proof.
  intros Hrep Hp Hni. unfold report_error. rewrite Hrep.
  change (length (nodes (set_reported true m))) with (length (nodes m)).
  change (print_history (length (nodes m)) ni (set_reported true m))
    with (print_history (length (nodes (set_reported true m))) ni (set_reported true m)).
  rewrite print_history_emits by done.
  assert (Hh : history (set_reported true m) ni = history m ni).
  { unfold history. apply prev_chain_ext; [intros; apply Hp; lia|done|lia|simpl; lia]. }
  rewrite Hh.
  apply machine_eq; try done. simpl. symmetry. apply app_assoc.
Qed.

(** X9.  A transition whose firing sets [err_msg], with the sanity checks
    compiled in, whether it reports to be enabled or not: the error is
    reported as "Transition firing error" after the history of the state that
    the transition was fired from; the result of the firing is not looked up
    or stored, no edge is counted, and [try_transition] returns false. *)
Theorem firing_error_reported m n1 tr msg :
  ready m n1 → (∀ nj, 1 ≤ nj < length (nodes m) → prev (nd m nj) < nj) →
  err_msg m = None → reported m = false → no_sanity_chk cfg = false →
  (fire_transition mdl tr (state_at m n1)).2 = Some msg →
  (try_transition n1 tr m).1 = false
  ∧ err_msg (try_transition n1 tr m).2 = Some msg
  ∧ cout (try_transition n1 tr m).2
    = cout m ++ ((λ nj, Ev_state (state_at m nj)) <$> history m n1)
      ++ [Ev_error "Transition firing error" (non_empty (Some msg))]
  ∧ nodes (try_transition n1 tr m).2 = nodes m
  ∧ nr_edges (try_transition n1 tr m).2 = nr_edges m
  ∧ hash_tbl (try_transition n1 tr m).2 = hash_tbl m
  ∧ ub (try_transition n1 tr m).2 = ub m.
Proof.
  intros Hr Hp Herr Hrep Hsan Hfire.
  pose proof Hr as (Hok & Hnr & Hn1 & Hsc).
  pose proof (hash_ok_data m Hok) as Hd.
  unfold try_transition. rewrite (call_fire_ready m n1 tr Hr).
  destruct (fire_transition mdl tr (state_at m n1)) as [r e]. simpl in Hfire. subst e.
  simpl declare_error.
  set (mx := match r with
             | Some s' => loaded (set_err_msg (Some msg) m) (norm_state s')
             | None => set_err_msg (Some msg) m
             end).
  assert (Hx : err_msg mx = Some msg ∧ reported mx = false ∧ nodes mx = nodes m
               ∧ nr_edges mx = nr_edges m ∧ hash_tbl mx = hash_tbl m ∧ ub mx = ub m
               ∧ cout mx = cout m
               ∧ ∀ k, 1 ≤ k < length (nodes m) → state_at mx k = state_at m k).
  { unfold mx. destruct r as [s'|]; repeat split; try done.
    intros k Hk. rewrite state_at_loaded by (done || apply length_norm_state).
    rewrite decide_False by (simpl; lia). done. }
  destruct Hx as (X1 & X2 & X3 & X4 & X5 & X6 & X7 & X8).
  assert (Hgoal : (false, report_error n1 "Transition firing error" mx).1 = false
    ∧ err_msg (false, report_error n1 "Transition firing error" mx).2 = Some msg
    ∧ cout (false, report_error n1 "Transition firing error" mx).2
      = cout m ++ ((λ nj, Ev_state (state_at m nj)) <$> history m n1)
        ++ [Ev_error "Transition firing error" (non_empty (Some msg))]
    ∧ nodes (false, report_error n1 "Transition firing error" mx).2 = nodes m
    ∧ nr_edges (false, report_error n1 "Transition firing error" mx).2 = nr_edges m
    ∧ hash_tbl (false, report_error n1 "Transition firing error" mx).2 = hash_tbl m
    ∧ ub (false, report_error n1 "Transition firing error" mx).2 = ub m).
  { simpl. rewrite report_error_prints;
      [|done|intros nj Hnj; unfold nd; rewrite X3; apply Hp; by rewrite <- X3|by rewrite X3].
    simpl. rewrite X1, X3, X4, X5, X6, X7. repeat split; try done.
    f_equal. f_equal.
    assert (Hh : history mx n1 = history m n1).
    { unfold history. rewrite X3. apply prev_chain_ext; [intros; apply Hp; lia| |lia|lia].
      intros nj Hnj. unfold nd. by rewrite X3. }
    rewrite Hh. apply list_fmap_ext. intros i nj Hnj.
    apply list_elem_of_lookup_2 in Hnj. apply prev_chain_bound in Hnj; [|intros; apply Hp; lia].
    rewrite X8 by lia. done. }
  unfold mx in Hgoal. destruct r as [s'|].
  - change (err_msg (loaded (set_err_msg (Some msg) m) (norm_state s'))) with (Some msg).
    rewrite Hsan. simpl negb. simpl is_set. cbv iota. exact Hgoal.
  - change (err_msg (set_err_msg (Some msg) m)) with (Some msg).
    rewrite Hsan. simpl negb. simpl is_set. cbv iota. exact Hgoal.
Qed.

Lemma try_all_terminal q trs m :
  ready m q → err_msg m = None →
  (∀ tr, tr ∈ trs → fire_transition mdl tr (state_at m q) = (None, None)) →
  try_all q trs m = (false, m).
Proof.
  intros Hr Herr. induction trs as [|tr trs IH]; intros H; [done|]. simpl.
  assert (Ht : try_transition q tr m = (false, m)).
  { unfold try_transition. rewrite (call_fire_ready m q tr Hr).
    rewrite H by left. simpl. rewrite Herr. simpl. by rewrite andb_false_r. }
  rewrite Ht, Herr. simpl. apply IH. intros tr' Htr'. apply H. by right.
Qed.

(** X10.  A stored state in which no transition is enabled and which fails
    [check_deadlock], met in the forward pass: the pass ends there;
    [err_msg] is the message of [check_deadlock]; and what is printed is the
    history of the state, which ends with the state itself, and the line of
    the "Illegal deadlock".  Nothing is stored or counted. *)
Theorem deadlock_reported fuel q m msg :
  hash_ok m → 1 ≤ q < length (nodes m) →
  (∀ nj, 1 ≤ nj < length (nodes m) → prev (nd m nj) < nj) →
  err_msg m = None → reported m = false → forward m → chk_deadlock cfg = true →
  (∀ tr, tr < nr_trans m → fire_transition mdl tr (state_at m q) = (None, None)) →
  check_deadlock mdl (state_at m q) = Some msg →
  err_msg (bss_loop (S fuel) q m) = Some msg
  ∧ cout (bss_loop (S fuel) q m)
    = cout m ++ ((λ nj, Ev_state (state_at m nj)) <$> history m q)
      ++ [Ev_error "Illegal deadlock" (non_empty (Some msg))]
  ∧ nodes (bss_loop (S fuel) q m) = nodes m
  ∧ nr_edges (bss_loop (S fuel) q m) = nr_edges m
  ∧ ub (bss_loop (S fuel) q m) = ub m.
Proof.
  intros Hok Hq Hp Herr Hrep Hfw Hchk Hterm Hbad.
  pose proof (hash_ok_data m Hok) as Hd.
  pose proof (ready_fire_init q m Hok Hq) as Hr.
  assert (Hst : ∀ k, 1 ≤ k < length (nodes m) → state_at (fire_init q m) k = state_at m k).
  { intros k Hk. rewrite state_at_fire_init by lia. by rewrite decide_False by lia. }
  simpl. replace (q <? length (nodes m)) with true by (symmetry; apply Nat.ltb_lt; lia).
  change (nr_trans (fire_init q m)) with (nr_trans m).
  rewrite try_all_terminal; [|done|done|].
  2:{ intros tr Htr%elem_of_trans_order. rewrite Hst by done. by apply Hterm. }
  change (bss_second (fire_init q m)) with (bss_second m).
  change (nr_edges (fire_init q m)) with (nr_edges m).
  unfold forward in Hfw. rewrite Hfw, Z.eqb_refl, Hchk. simpl andb. cbv iota.
  assert (Hc : cur_state (use_state q (fire_init q m)) = state_at m q) by (by apply Hst).
  rewrite Hc, Hbad. simpl is_set. cbv iota.
  set (mx := set_err_msg (Some msg) (use_state q (fire_init q m))).
  assert (X3 : nodes mx = nodes m) by apply fire_init_nodes.
  rewrite report_error_prints;
    [|done|intros nj Hnj; unfold nd; rewrite X3; apply Hp; by rewrite <- X3|by rewrite X3].
  assert (Hh : history mx q = history m q).
  { unfold history. rewrite X3. apply prev_chain_ext; [intros; apply Hp; lia| |lia|lia].
    intros nj Hnj. unfold nd. by rewrite X3. }
  assert (Hmap : (λ nj, Ev_state (state_at mx nj)) <$> history mx q
                 = (λ nj, Ev_state (state_at m nj)) <$> history m q).
  { rewrite Hh. apply list_fmap_ext. intros i nj Hnj.
    apply list_elem_of_lookup_2 in Hnj.
    apply prev_chain_bound in Hnj; [|intros; apply Hp; lia].
    change (state_at mx nj) with (state_at (fire_init q m) nj). rewrite Hst by lia. done. }
  rewrite Hmap. split; [done|]. split; [done|]. split; [exact X3|]. done.
Qed.

(** ** The hash table *)

(** X11.  The index that [hash_try] computes is inside [hash_tbl], whatever the
    words of the state, for a table of [2^hash_bits] lists with
    [hash_bits] below 32. *)
Theorem hash_value_in_table ws :
  (0 ≤ hash_bits cfg ≤ 31)%Z → (0 ≤ hash_value ws < hash_size)%Z.
Proof.
  intros Hb. unfold hash_value, hash_size, shl32.
  rewrite Z.shiftl_1_l.
  assert (H1 : (0 < 2 ^ hash_bits cfg)%Z) by (apply Z.pow_pos_nonneg; lia).
  assert (H2 : (2 ^ hash_bits cfg < 2 ^ 32)%Z) by (apply Z.pow_lt_mono_r; lia).
  assert (E : u32 (2 ^ hash_bits cfg) = (2 ^ hash_bits cfg)%Z)
    by (unfold u32; apply Z.mod_small; lia).
  rewrite E.
  assert (E2 : u32 (2 ^ hash_bits cfg - 1) = Z.ones (hash_bits cfg)).
  { rewrite Z.ones_equiv, <- Z.sub_1_r. unfold u32. apply Z.mod_small. lia. }
  rewrite E2, Z.land_ones by lia. apply Z.mod_pos_bound. done.
Qed.

(** X12.  A state that is not stored, inserted while there is room: it becomes
    the node [nodes.size()], the store stays consistent, and a later
    [hash_try] of the same state, with or without [no_ins], returns that node
    and makes nothing new. *)
Theorem hash_insert_then_find m t no_ins :
  hash_ok m → length t = nr_words → index_of m t = 0 →
  length (nodes m) ≤ stop_count cfg →
  (hash_insert (loaded m t)).1 = length (nodes m)
  ∧ hash_ok (hash_insert (loaded m t)).2
  ∧ hash_was_new (hash_insert (loaded m t)).2 = true
  ∧ length (nodes (hash_insert (loaded m t)).2) = S (length (nodes m))
  ∧ state_at (hash_insert (loaded m t)).2 (length (nodes m)) = t
  ∧ hash_try no_ins (loaded (hash_insert (loaded m t)).2 t)
    = (length (nodes m),
       set_hash_was_new false (loaded (hash_insert (loaded m t)).2 t)).
Proof.
  intros Hok Ht E Hroom. pose proof (hash_ok_data m Hok) as Hd.
  unfold hash_insert.
  rewrite (hash_try_new (loaded m t));
    [|by apply hash_lookup_loaded_absent|done|by rewrite loaded_length].
  simpl fst. simpl snd.
  assert (Hokl : hash_ok (loaded m t)) by (by apply hash_ok_loaded).
  assert (Hoki : hash_ok (inserted (loaded m t))).
  { apply hash_ok_inserted; [done|]. by rewrite scratch_loaded, index_of_loaded. }
  assert (Hst : state_at (inserted (loaded m t)) (length (nodes m)) = t).
  { rewrite state_at_inserted by (rewrite loaded_length by done; lia).
    rewrite state_at_loaded by done. by rewrite decide_True. }
  split; [done|]. split; [done|]. split; [done|].
  split; [by rewrite length_inserted|]. split; [done|].
  assert (Hidx : index_of (inserted (loaded m t)) t = length (nodes m)).
  { pose proof (index_of_stored (inserted (loaded m t)) (length (nodes m)) Hoki) as Hi.
    rewrite Hst in Hi. apply Hi.
    rewrite length_inserted. simpl. pose proof (hash_ok_size m Hok). lia. }
  rewrite hash_try_loaded_found; [by rewrite Hidx|done|done|].
  rewrite Hidx. pose proof (hash_ok_size m Hok). lia.
Qed.

(** ** The verdict of [verify_progress] *)

Lemma vp_report_none round nis m :
  (∀ ni, ni ∈ nis → e_cnt (nd m ni) = 0%Z) → vp_report round nis m = m.
Proof.
  induction nis as [|ni nis IH]; intros H; [done|]. simpl.
  rewrite (H ni) by left. simpl. apply IH. intros nj Hnj. apply H. by right.
Qed.

Lemma vp_report_some round nis m ni :
  round < 3 → ni ∈ nis → e_cnt (nd m ni) ≠ 0%Z →
  err_msg (vp_report round nis m) = Some EmptyString
  ∧ reported (vp_report round nis m) = true.
Proof.
  intros Hr. induction nis as [|nj nis IH]; intros Hin Hne; [by apply elem_of_nil in Hin|].
  simpl. destruct (e_cnt (nd m nj) =? 0)%Z eqn:E; simpl negb; cbv iota.
  - apply IH; [|done]. apply elem_of_cons in Hin as [->|Hin]; [|done].
    apply Z.eqb_eq in E. done.
  - destruct round as [|[|[|round]]]; [| | |lia]; simpl Nat.eqb; cbv iota;
      (split; [by rewrite err_msg_report_error|apply reported_report_error]).
Qed.

Lemma vp_verdict round m :
  no_progr_chk cfg = false → round < 3 → (vp_label round m).1 = false →
  ((∀ ni, 1 ≤ ni < length (nodes (vp_label round m).2) →
          e_cnt (nd (vp_label round m).2 ni) = 0%Z) →
   verify_progress round m = (vp_label round m).2)
  ∧ (∀ ni, 1 ≤ ni < length (nodes (vp_label round m).2) →
           e_cnt (nd (vp_label round m).2 ni) ≠ 0%Z →
     err_msg (verify_progress round m) = Some EmptyString
     ∧ reported (verify_progress round m) = true).
Proof.
  intros Hnp Hr Hret. unfold verify_progress. rewrite Hnp.
  destruct (vp_label round m) as [ret m3]. simpl in *. subst ret.
  split.
  - intros H. apply vp_report_none. intros ni Hni%elem_of_seq. apply H. lia.
  - intros ni Hni Hne. apply (vp_report_some round _ m3 ni); [done| |done].
    apply elem_of_seq. lia.
Qed.

(** X13.  After the labelling of round 0, 1 or 2 has ended without a modelling
    error: [verify_progress] leaves the machine as it is and sets no error
    when every node has [e_cnt = 0]; when some node has not, it sets
    [err_msg] to the empty message and the reporter has printed. *)
Theorem verify_progress_verdict round m :
  no_progr_chk cfg = false → round < 3 → (vp_label round m).1 = false →
  ((∀ ni, 1 ≤ ni < length (nodes (vp_label round m).2) →
          e_cnt (nd (vp_label round m).2 ni) = 0%Z) →
   verify_progress round m = (vp_label round m).2)
  ∧ (∀ ni, 1 ≤ ni < length (nodes (vp_label round m).2) →
           e_cnt (nd (vp_label round m).2 ni) ≠ 0%Z →
     err_msg (verify_progress round m) = Some EmptyString
     ∧ reported (verify_progress round m) = true).
Proof. apply vp_verdict. Qed.

Lemma verdict_iff round m (P : nat → Prop) :
  no_progr_chk cfg = false → layout_ok m → 2 ≤ length (nodes m) → round = 0 ∨ round = 1 →
  (vp_label round m).1 = false → err_msg m = None →
  (∀ ni, 1 ≤ ni < length (nodes m) → e_cnt (nd (vp_label round m).2 ni) = 0%Z ↔ P ni) →
  err_msg (verify_progress round m) = None ↔ ∀ ni, 1 ≤ ni < length (nodes m) → P ni.
Proof.
  intros Hnp Hlay Hn Hrd Hret Herr HP.
  assert (Hr : round < 3) by lia.
  destruct (vp_label_spec round m 1 Hlay Hrd Hret ltac:(lia)) as [Hsg _].
  pose proof Hsg as (Hl & _ & _ & _ & _ & _ & He & _).
  destruct (vp_verdict round m Hnp Hr Hret) as [Hv1 Hv2].
  rewrite Hl in Hv1, Hv2.
  split.
  - intros Hnone ni Hni. apply HP; [done|].
    destruct (decide (e_cnt (nd (vp_label round m).2 ni) = 0%Z)) as [|Hne]; [done|].
    destruct (Hv2 ni Hni Hne) as [Hx _]. congruence.
  - intros Hall. rewrite Hv1; [by rewrite He|].
    intros ni Hni. apply HP; [done|]. by apply Hall.
Qed.

(** X14.  The verdict of round 0.  Under the conditions of the may progress
    round (the two passes end cleanly on fewer than 2^32 edges, and the
    labelling meets no modelling error), [verify_progress(0)] leaves
    [err_msg] null exactly when from every stored node a path of transitions
    leads to a may progress node; otherwise it reports. *)
Theorem may_progress_verdict m0 :
  hash_ok m0 → length (nodes m0) = 2 → prev (nd m0 1) = 0 →
  e_cnt (nd m0 1) = 0%Z → nr_edges m0 = 0%Z →
  err_msg m0 = None → bss_second m0 = false → no_progr_chk cfg = false →
  err_msg (build_state_space m0) = None → ub (build_state_space m0) = ub m0 →
  (Z.of_nat (sum_list_with (indeg (build_state_space m0)) (node_ids (build_state_space m0)))
   < 4294967296)%Z →
  err_msg (construct_input_edges (build_state_space m0)) = None →
  ub (construct_input_edges (build_state_space m0)) = ub m0 →
  (vp_label 0 (construct_input_edges (build_state_space m0))).1 = false →
  let m1 := build_state_space m0 in
  err_msg (verify_progress 0 (construct_input_edges m1)) = None
  ↔ ∀ ni, 1 ≤ ni < length (nodes m1) →
          ∃ nj, connected m1 ni nj ∧ 1 ≤ nj < length (nodes m1) ∧ may_node m1 nj.
Proof.
  intros Hok Hsz Hp He0 Hn0 Herr Hbs Hnp Hnone Hub Hsmall Hnone2 Hub2 Hret m1.
  destruct (input_edges_facts m0) as (Hok1 & Hcl & Hn & Hne & Hf & Hlay & _); try done.
  fold m1 in Hok1, Hcl, Hn, Hne, Hf, Hlay, Hret.
  set (m2 := construct_input_edges m1) in *.
  pose proof Hf as (_ & [Hl _] & _).
  rewrite <- Hl.
  apply verdict_iff; try done; [lia|by left|].
  intros ni Hni. rewrite may_wave by (done || lia). rewrite Hl in *. split.
  - intros (nj & Hr & Hj & Hg). exists nj.
    split; [by apply (reaches_connected m1 m2)|]. split; [done|].
    by apply (may_goal_node m1 m2).
  - intros (nj & Hr & Hj & Hg). exists nj.
    split; [by apply (reaches_connected m1 m2)|]. split; [done|].
    by apply (may_goal_node m1 m2).
Qed.

(** X15.  The verdict of round 1, run on the input edges as
    [construct_input_edges] leaves them: [verify_progress(1)] leaves
    [err_msg] null exactly when from every stored node every execution
    meets a must progress node; otherwise it reports. *)
Theorem must_progress_verdict m0 :
  hash_ok m0 → length (nodes m0) = 2 → prev (nd m0 1) = 0 →
  e_cnt (nd m0 1) = 0%Z → nr_edges m0 = 0%Z →
  err_msg m0 = None → bss_second m0 = false → no_progr_chk cfg = false →
  err_msg (build_state_space m0) = None → ub (build_state_space m0) = ub m0 →
  (Z.of_nat (sum_list_with (indeg (build_state_space m0)) (node_ids (build_state_space m0)))
   < 4294967296)%Z →
  err_msg (construct_input_edges (build_state_space m0)) = None →
  ub (construct_input_edges (build_state_space m0)) = ub m0 →
  (vp_label 1 (construct_input_edges (build_state_space m0))).1 = false →
  let m1 := build_state_space m0 in
  err_msg (verify_progress 1 (construct_input_edges m1)) = None
  ↔ ∀ ni f, 1 ≤ ni < length (nodes m1) → f 0 = ni → run m1 f → ∃ k, must_node m1 (f k).
Proof.
  intros Hok Hsz Hp He0 Hn0 Herr Hbs Hnp Hnone Hub Hsmall Hnone2 Hub2 Hret m1.
  destruct (input_edges_facts m0) as (Hok1 & Hcl & Hn & Hne & Hf & Hlay & _); try done.
  fold m1 in Hok1, Hcl, Hn, Hne, Hf, Hlay, Hret.
  set (m2 := construct_input_edges m1) in *.
  pose proof Hf as (_ & [Hl _] & _).
  set (m3 := (vp_label 1 m2).2).
  assert (Hall : ∀ j, 1 ≤ j < length (nodes m1) →
            e_cnt (nd m3 j) = 0%Z ↔ unavoidable m1 j).
  { intros j Hj. unfold m3. rewrite must_wave by (done || lia).
    by apply (inevitable_unavoidable m1 m2). }
  assert (Hv : err_msg (verify_progress 1 m2) = None
               ↔ ∀ ni, 1 ≤ ni < length (nodes m2) → unavoidable m1 ni).
  { apply verdict_iff; try done; [lia|by right|].
    intros ni Hni. apply Hall. lia. }
  rewrite Hv, Hl. split.
  - intros H ni f Hni H0 Hr. by apply (unavoidable_run m1 ni); [apply H| |].
  - intros H ni Hni. apply Hall; [done|].
    destruct (decide (e_cnt (nd m3 ni) = 0%Z)) as [|Hnz]; [done|exfalso].
    destruct (avoiding_run m1 (λ j, bool_decide (e_cnt (nd m3 j) = 0%Z)) ni)
      as (f & H0 & Hr & Hav); [done| |done|by apply bool_decide_eq_false|].
    + intros b Hb. rewrite bool_decide_eq_true. by apply Hall.
    + destruct (H ni f Hni H0 Hr) as [k Hk]. by apply (Hav k).
Qed.

(** ** Undefined accesses are never forgotten *)

Section UbFrom.

Context (mstart : machine).

(** The log of [m] extends the log of [mstart]. *)
Definition ub_from (m : machine) : Prop := ub mstart `prefix_of` ub m.

Lemma ub_from_same m m' : ub m' = ub m → ub_from m → ub_from m'.
Proof. unfold ub_from. by intros ->. Qed.

Lemma ub_from_step m m' : ub m `prefix_of` ub m' → ub_from m → ub_from m'.
Proof. unfold ub_from. intros H1 H2. by etrans. Qed.

Lemma ub_from_undefined e m : ub_from m → ub_from (undefined e m).
Proof. apply ub_from_step. by apply prefix_app_r. Qed.

Lemma ub_from_wr_node f ni g m : ub_from m → ub_from (wr_node f ni g m).
Proof. apply ub_from_step, ub_wr_node. Qed.

Lemma ub_from_emit e m : ub_from m → ub_from (emit e m).
Proof. by apply ub_from_same. Qed.

Lemma ub_from_print_history fuel ni m : ub_from m → ub_from (print_history fuel ni m).
Proof. apply ub_from_step, ub_print_history. Qed.

Lemma ub_from_report_error ni msg m : ub_from m → ub_from (report_error ni msg m).
Proof. apply ub_from_step, ub_report_error. Qed.

Lemma ub_from_call_fire tr m : ub_from m → ub_from (call_fire tr m).2.
Proof. apply ub_from_same, ub_call_fire. Qed.

Lemma ub_from_call_symmetry m : ub_from m → ub_from (call_symmetry m).
Proof. apply ub_from_same, ub_call_symmetry. Qed.

Lemma ub_from_hash_try no_ins m : ub_from m → ub_from (hash_try no_ins m).2.
Proof. apply ub_from_step, ub_hash_try. Qed.

Lemma ub_from_fire_init ni m : ub_from m → ub_from (fire_init ni m).
Proof. by apply ub_from_same. Qed.

Lemma ub_from_bss_loop fuel q m : ub_from m → ub_from (bss_loop fuel q m).
Proof. apply ub_from_step, ub_bss_loop. Qed.

Lemma ub_from_foldl {A} (f : machine → A → machine) (l : list A) m :
  (∀ m x, ub_from m → ub_from (f m x)) → ub_from m → ub_from (foldl f m l).
Proof.
  intros H. revert m. induction l as [|x l IH]; intros m Hm; simpl; [done|].
  by apply IH, H.
Qed.

Lemma ub_from_construct_input_edges m : ub_from m → ub_from (construct_input_edges m).
Proof.
  intros H. unfold construct_input_edges. destruct (no_progr_chk cfg); [done|].
  apply ub_from_bss_loop.
  eapply ub_from_same; [reflexivity|]. unfold count_indices.
  apply ub_from_foldl; [intros; by apply ub_from_wr_node|].
  do 2 apply ub_from_wr_node. by apply (ub_from_same m).
Qed.

Lemma ub_from_pt_for no_ins nprev trs ni m : ub_from m → ub_from (pt_for no_ins nprev trs ni m).2.
Proof.
  revert ni m. induction trs as [|tr trs IH]; intros ni m H; simpl; [done|].
  pose proof (ub_from_call_fire tr m H) as H1.
  destruct (call_fire tr m) as [fired m1]. simpl in H1.
  assert (Hstep : ∀ (stop : bool) ni' m2, ub_from m2 →
            ub_from (if is_set (err_msg m2)
                    then (true, ni', report_error ni' "Transition firing error" m2)
                    else if stop then (false, ni', m2)
                    else pt_for no_ins nprev trs ni' m2).2).
  { intros stop ni' m2 Hm2. destruct (is_set (err_msg m2)); simpl.
    - by apply ub_from_report_error.
    - destruct stop; [done|by apply IH]. }
  destruct fired.
  - pose proof (ub_from_call_symmetry m1 H1) as H2.
    set (r := if no_ins then _ else _).
    assert (Hr : ub_from r.2).
    { unfold r. destruct no_ins; [by apply ub_from_hash_try|].
      unfold hash_insert. pose proof (ub_from_hash_try false _ H2) as Hh.
      destruct (hash_try false (call_symmetry m1)) as [n2 m2]. simpl in *.
      destruct (hash_was_new m2); [by apply ub_from_wr_node|done]. }
    destruct r as [n2 m2]. simpl in Hr.
    destruct (negb (n2 =? 0) && negb (e_cnt (nd m2 n2) =? 0)%Z); cbv beta iota.
    + by apply (Hstep true n2 m2).
    + by apply (Hstep false nprev (fire_init nprev m2)), ub_from_fire_init.
  - cbv beta iota. by apply (Hstep false ni m1).
Qed.

Lemma ub_from_pt_loop fuel no_ins ni nprev m :
  ub_from m → ub_from (pt_loop fuel no_ins ni nprev m).2.
Proof.
  revert ni nprev m. induction fuel as [|fuel IH]; intros ni nprev m H; simpl;
    [by apply ub_from_undefined|].
  set (m1 := fire_init ni _).
  change (nr_trans (set_prev ni nprev (set_e_cnt ni all_ones m))) with (nr_trans m1).
  assert (H1 : ub_from m1).
  { unfold m1. apply ub_from_fire_init. by do 2 apply ub_from_wr_node. }
  pose proof (ub_from_pt_for no_ins ni (seq 0 (nr_trans m1)) ni m1 H1) as H2.
  destruct (pt_for no_ins ni (seq 0 (nr_trans m1)) ni m1) as [[ret ni'] m2]. simpl in H2.
  destruct ret; [done|].
  destruct (negb (e_cnt (nd m2 ni') =? all_ones)%Z); [by apply IH|done].
Qed.

Lemma ub_from_print_typical ni no_ins m : ub_from m → ub_from (print_typical ni no_ins m).
Proof.
  intros H. unfold print_typical. destruct (no_progr_chk cfg); [done|].
  pose proof (ub_from_pt_loop (length (nodes m) + stop_count cfg + 2) no_ins ni 0 m H) as H1.
  destruct (pt_loop _ _ _ _ _) as [[[n1 n2]|] m1]; simpl in H1; [|done].
  apply ub_from_print_history, ub_from_wr_node, ub_from_emit.
  by apply ub_from_print_history.
Qed.

Lemma ub_from_vp_init round m : ub_from m → ub_from (vp_init round m).
Proof.
  intros H. unfold vp_init.
  set (m1 := foldl _ m _).
  assert (H1 : ub_from m1) by (apply ub_from_foldl; [intros; by apply ub_from_wr_node|done]).
  clearbody m1.
  destruct (round =? 1); (apply ub_from_foldl; [intros; by apply ub_from_wr_node|done]).
Qed.

Lemma ub_from_vp_may nis m : ub_from m → ub_from (vp_may nis m).2.
Proof.
  revert m. induction nis as [|ni nis IH]; intros m H; simpl; [done|].
  set (m1 := if dl_not_may cfg && _ then _ else _).
  assert (H1 : ub_from m1) by (unfold m1; destruct (_ && _); [by apply ub_from_wr_node|done]).
  clearbody m1.
  destruct (negb (e_cnt (nd m1 ni) =? 0)%Z); [|by apply IH].
  destruct (if chk_may_progress cfg then _ else _) as [b e].
  set (m2 := if b then _ else _).
  assert (H2 : ub_from m2).
  { unfold m2. assert (ub_from (declare_error e (use_state ni m1)))
      by (destruct e; by apply (ub_from_same m1)).
    destruct b; [by apply ub_from_wr_node|done]. }
  clearbody m2. destruct (is_set (err_msg m2)); simpl;
    [by apply ub_from_report_error|by apply IH].
Qed.

Lemma ub_from_vp_must nis m : ub_from m → ub_from (vp_must nis m).2.
Proof.
  revert m. induction nis as [|ni nis IH]; intros m H; simpl; [done|].
  set (m1 := if dl_not_must cfg && _ then _ else _).
  assert (H1 : ub_from m1) by (unfold m1; destruct (_ && _); [by apply ub_from_wr_node|done]).
  clearbody m1.
  destruct (negb (e_cnt (nd m1 ni) =? 0)%Z); [|by apply IH].
  destruct (if chk_must_progress cfg then _ else _) as [b e].
  set (m2 := if b then _ else _).
  assert (H2 : ub_from m2).
  { unfold m2. assert (ub_from (declare_error e (use_state ni m1)))
      by (destruct e; by apply (ub_from_same m1)).
    destruct b; [by apply ub_from_wr_node|done]. }
  clearbody m2. destruct (is_set (err_msg m2)); simpl;
    [by apply ub_from_report_error|by apply IH].
Qed.

Lemma ub_from_vp_collect m : ub_from m → ub_from (vp_collect m).2.
Proof.
  unfold vp_collect. generalize 0 at 1. generalize (seq 1 (length (nodes m) - 1)).
  intros l. revert m. induction l as [|ni l IH]; intros m p H; simpl; [done|].
  destruct (e_cnt (nd m ni) =? 0)%Z; [|by apply IH].
  by apply IH, ub_from_wr_node.
Qed.

Lemma ub_from_vp_edge p m ei : ub_from m → ub_from (vp_edge p m ei).
Proof.
  intros H. unfold vp_edge. destruct (negb _); [|done].
  set (m1 := set_e_cnt _ _ m).
  assert (H1 : ub_from m1) by (by apply ub_from_wr_node). clearbody m1.
  destruct (e_cnt (nd m1 _) =? 0)%Z; [|done]. by do 2 apply ub_from_wr_node.
Qed.

Lemma ub_from_vp_wave fuel p m : ub_from m → ub_from (vp_wave fuel p m).
Proof.
  revert p m. induction fuel as [|fuel IH]; intros p m H; simpl.
  - destruct (p =? 0); [done|by apply ub_from_undefined].
  - destruct (p =? 0); [done|].
    apply IH, ub_from_foldl; [intros; by apply ub_from_vp_edge|done].
Qed.

Lemma ub_from_vp_label round m : ub_from m → ub_from (vp_label round m).2.
Proof.
  intros H. unfold vp_label.
  pose proof (ub_from_vp_init round m H) as H0.
  set (m0 := vp_init round m) in *. clearbody m0.
  set (r := if round =? 0 then _ else _).
  assert (H1 : ub_from r.2).
  { unfold r. destruct (round =? 0); [by apply ub_from_vp_may|].
    destruct (round =? 1); [by apply ub_from_vp_must|done]. }
  destruct r as [ret m1]. simpl in H1. destruct ret; [done|].
  pose proof (ub_from_vp_collect m1 H1) as H2.
  destruct (vp_collect m1) as [p m2]. simpl in *. by apply ub_from_vp_wave.
Qed.

Lemma ub_from_vp_report round nis m : ub_from m → ub_from (vp_report round nis m).
Proof.
  revert m. induction nis as [|ni nis IH]; intros m H; simpl; [done|].
  destruct (negb _); [|by apply IH].
  set (m1 := set_err_msg _ _).
  assert (H1 : ub_from m1).
  { unfold m1. eapply ub_from_same; [reflexivity|].
    apply ub_from_print_typical, ub_from_emit. by apply ub_from_print_history. }
  clearbody m1.
  destruct (round =? 0); [by apply ub_from_report_error|].
  destruct (round =? 1); [by apply ub_from_report_error|].
  destruct (round =? 2); [by apply ub_from_report_error|by apply IH].
Qed.

Lemma ub_from_verify_progress round m : ub_from m → ub_from (verify_progress round m).
Proof.
  intros H. unfold verify_progress. destruct (no_progr_chk cfg); [done|].
  pose proof (ub_from_vp_label round m H) as H1.
  destruct (vp_label round m) as [ret m1]. simpl in H1. destruct ret; [done|].
  by apply ub_from_vp_report.
Qed.

Lemma ub_from_main_tasks m : ub_from m → ub_from (main_tasks m).
Proof.
  intros H. unfold main_tasks. destruct (only_typical cfg).
  - set (m1 := print_typical 1 false m).
    assert (H1 : ub_from m1) by (by apply ub_from_print_typical). clearbody m1.
    set (m2 := if is_set (err_msg m1) then _ else _).
    assert (H2 : ub_from m2)
      by (unfold m2; destruct (is_set _); [by apply ub_from_report_error|done]).
    clearbody m2. by apply ub_from_emit.
  - set (m1 := build_state_space m).
    assert (H1 : ub_from m1) by (by apply ub_from_bss_loop). clearbody m1.
    set (m2 := if negb (is_set (err_msg m1)) then _ else _).
    assert (H2 : ub_from m2)
      by (unfold m2; destruct (negb _); [by apply ub_from_construct_input_edges|done]).
    clearbody m2.
    set (m3 := if chk_may_progress cfg && _ then _ else _).
    assert (H3 : ub_from m3)
      by (unfold m3; destruct (_ && _); [by apply ub_from_verify_progress|done]).
    clearbody m3.
    set (m4 := if chk_must_progress cfg && _ then _ else _).
    assert (H4 : ub_from m4)
      by (unfold m4; destruct (_ && _); [by apply ub_from_verify_progress|done]).
    clearbody m4.
    set (m5 := if _ && negb (is_set (err_msg m4)) then _ else _).
    assert (H5 : ub_from m5)
      by (unfold m5; destruct (_ && _); [by apply (ub_from_same m4)|done]).
    clearbody m5.
    set (m6 := emit _ m5).
    assert (H6 : ub_from m6) by (by apply ub_from_emit). clearbody m6.
    destruct (is_set _); [by apply ub_from_report_error|done].
Qed.

End UbFrom.

(** ** The labelling leaves the tree of [prev] as it is *)

Section KeepsPrev.

Context (mstart : machine).













End KeepsPrev.

(** ** The verdicts, on any machine that holds the input edges *)







(** ** The properties of the model, on its states *)










(** ** A bound on the number of edges *)






(** ** A run of the tasks of [main] that ends cleanly *)



(** ** A run of [main] that ends cleanly *)

(** The forward pass makes no node beyond [stop_count + 1]. *)
Lemma bss_loop_size fuel q m :
  length (nodes (bss_loop fuel q m)) ≤ length (nodes m) `max` (stop_count cfg + 1).
Proof.
  revert q m. induction fuel as [|fuel IH]; intros q m; [simpl; lia|].
  simpl. destruct (q <? length (nodes m)) eqn:Eq; [|lia].
  pose proof (tame_try_all q (trans_order (nr_trans (fire_init q m))) (fire_init q m)) as H.
  destruct (try_all _ _ _) as [ret m1]. simpl in H.
  assert (H1 : tame m m1) by (eapply tame_trans; [apply (tame_fire_init q)|done]).
  destruct H1 as [L1 U1].
  destruct ret; [done|].
  destruct (_ && chk_deadlock cfg).
  - destruct (is_set _).
    + rewrite nodes_report_error. simpl. lia.
    + etrans; [apply IH|]. simpl. lia.
  - etrans; [apply IH|]. lia.
Qed.





(** X24.  With none of [chk_deadlock], [chk_may_progress] and [chk_must_progress]
    compiled in, and [only_typical] off, [main] always ends with an error
    message; after a clean initialisation and a clean forward pass with
    [chk_state] it is "Nothing was defined to test that the model makes
    progress". *)
Theorem progress_check_required :
  only_typical cfg = false → chk_deadlock cfg = false →
  chk_must_progress cfg = false → chk_may_progress cfg = false →
  ∃ msg, err_msg (main machine0) = Some msg
         ∧ (chk_state cfg = true → err_msg (store_initial_state machine0) = None →
            err_msg (build_state_space (store_initial_state machine0)) = None →
            msg = "Nothing was defined to test that the model makes progress"%string).
Proof.
  intros Hot Hdl Hmust Hmay. unfold main. simpl is_set. cbv iota.
  rewrite Hdl, Hmust, Hmay.
  replace (negb (chk_state cfg) && negb false && negb false && negb false)
    with (negb (chk_state cfg)) by (by destruct (chk_state cfg)).
  destruct (chk_state cfg); cbn [negb]; cbv iota.
  2:{ rewrite err_msg_report_error. eexists. split; [done|done]. }
  destruct (err_msg (store_initial_state machine0)) as [e|] eqn:E; cbn [is_set]; cbv iota.
  { rewrite err_msg_report_error, E. eexists. split; [done|done]. }
  set (m := store_initial_state machine0) in *. clearbody m.
  destruct (err_msg (build_state_space m)) as [e|] eqn:E1.
  { rewrite (main_tasks_latch m e Hot E1). eexists. split; [done|done]. }
  exists "Nothing was defined to test that the model makes progress"%string.
  split; [|done].
  unfold main_tasks. rewrite Hot, Hdl, Hmust, Hmay, E1. simpl.
  assert (Hnp : no_progr_chk cfg = true).
  { unfold no_progr_chk. by rewrite Hot, Hmust, Hmay, orb_true_r. }
  unfold construct_input_edges. rewrite Hnp, E1. simpl.
  by rewrite err_msg_report_error.
Qed.

(** X25.  The forward pass makes no node beyond [stop_count]: [nodes] has at
    most [stop_count + 1] entries after it, or as many as before it. *)
Theorem build_state_space_size m :
  length (nodes (build_state_space m)) ≤ length (nodes m) `max` (stop_count cfg + 1).
Proof. apply bss_loop_size. Qed.

(** X26.  The loop of [build_state_space] ends: the bound that the loop is run
    with here, [nodes.size() + stop_count + 2] rounds, is reached only
    if it was recorded as reached before the call. *)
Theorem build_state_space_terminates m :
  Out_of_fuel "build_state_space" ∈ ub (build_state_space m)
  ↔ Out_of_fuel "build_state_space" ∈ ub m.
Proof.
  split; [apply build_state_space_ends|].
  intros H. destruct (ub_bss_loop (length (nodes m) + stop_count cfg + 2) 1 m) as [k Hk].
  unfold build_state_space. rewrite Hk. apply elem_of_app. by left.
Qed.

End Checker.

(** * State variables *)

Section StateVar.

Local Open Scope Z_scope.

Lemma u32_testbit x i : 0 <= i -> Z.testbit (u32 x) i = (i <? 32) && Z.testbit x i.
Proof.
  intros Hi. unfold u32. destruct (i <? 32) eqn:E.
  - apply Z.ltb_lt in E. by rewrite Z.mod_pow2_bits_low.
  - apply Z.ltb_ge in E. by rewrite Z.mod_pow2_bits_high.
Qed.

Lemma u32_small x : 0 <= x < 2 ^ 32 -> u32 x = x.
Proof. intros H. unfold u32. by apply Z.mod_small. Qed.

(** The mask that the constructor computes for [b] bits at offset [sh]. *)
Lemma mask_ones b sh :
  0 <= b -> 0 <= sh -> sh + b <= 32 ->
  shl32 (u32 (shl32 1 b - 1)) sh = Z.shiftl (Z.ones b) sh.
Proof.
  intros Hb Hsh Hle.
  assert (E : u32 (shl32 1 b - 1) = Z.ones b).
  { unfold shl32. rewrite Z.shiftl_1_l, Z.ones_equiv, <- Z.sub_1_r.
    destruct (decide (b = 32)) as [->|Hne]; [done|].
    assert (2 ^ b < 2 ^ 32) by (apply Z.pow_lt_mono_r; lia).
    assert (0 < 2 ^ b) by (apply Z.pow_pos_nonneg; lia).
    rewrite (u32_small (2 ^ b)) by lia. apply u32_small. lia. }
  rewrite E. unfold shl32. apply Z.bits_inj'. intros i Hi.
  rewrite u32_testbit by done.
  destruct (i <? 32) eqn:E32; [done|]. apply Z.ltb_ge in E32. simpl.
  rewrite Z.shiftl_spec by done. symmetry.
  destruct (decide (i - sh < 0)); [by apply Z.testbit_neg_r|].
  apply Z.ones_spec_high. lia.
Qed.

Lemma mask_testbit b sh i :
  0 <= b -> 0 <= sh -> 0 <= i ->
  Z.testbit (Z.shiftl (Z.ones b) sh) i = (sh <=? i) && (i <? sh + b).
Proof.
  intros Hb Hsh Hi. rewrite Z.shiftl_spec by done.
  destruct (sh <=? i) eqn:E1; simpl.
  - apply Z.leb_le in E1. destruct (i <? sh + b) eqn:E2.
    + apply Z.ltb_lt in E2. apply Z.ones_spec_low. lia.
    + apply Z.ltb_ge in E2. apply Z.ones_spec_high. lia.
  - apply Z.leb_gt in E1. apply Z.testbit_neg_r. lia.
Qed.

Lemma small_testbit v b i : 0 <= v < 2 ^ b -> b <= i -> Z.testbit v i = false.
Proof.
  intros Hv Hi. destruct (decide (v = 0)) as [->|Hne]; [apply Z.bits_0|].
  apply Z.bits_above_log2; [lia|].
  assert (Z.log2 v < b); [|lia]. apply Z.log2_lt_pow2; lia.
Qed.

Lemma shl32_small v b sh :
  0 <= b -> 0 <= sh -> sh + b <= 32 -> 0 <= v < 2 ^ b -> shl32 v sh = Z.shiftl v sh.
Proof.
  intros Hb Hsh Hle Hv. unfold shl32. apply u32_small.
  rewrite Z.shiftl_mul_pow2 by done.
  assert (2 ^ b * 2 ^ sh <= 2 ^ 32).
  { rewrite <- Z.pow_add_r by done. apply Z.pow_le_mono_r; lia. }
  assert (0 < 2 ^ sh) by (apply Z.pow_pos_nonneg; lia). nia.
Qed.

(** A value that fits the [b] bits of a variable is stored without an
    error and read back, whatever the offset of the variable in its
    word. *)
Lemma sv_assign_in_range chk sv b sh v s :
  sv_layout sv b sh -> 0 <= v < 2 ^ b ->
  (sv_index sv s < length (s_data s))%nat ->
  s_err (sv_assign chk sv v s) = s_err s /\
  sv_read sv (sv_assign chk sv v s) = v.
Proof.
  intros (Hb & Hsh & Hle & Hshift & Hmask) Hv Hidx.
  rewrite mask_ones in Hmask by done.
  assert (Hnot : forall i, 0 <= i ->
            Z.testbit (not32 (mask sv)) i = (i <? 32) && negb ((sh <=? i) && (i <? sh + b))).
  { intros i Hi. unfold not32. rewrite u32_testbit, Z.lnot_spec, Hmask, mask_testbit by done.
    done. }
  assert (Hval : forall i, 0 <= i ->
            Z.testbit (shl32 v (shift sv)) i = (sh <=? i) && Z.testbit v (i - sh)).
  { intros i Hi. rewrite Hshift, (shl32_small v b) by done. rewrite Z.shiftl_spec by done.
    destruct (sh <=? i) eqn:E; [done|]. apply Z.leb_gt in E. apply Z.testbit_neg_r. lia. }
  split.
  - unfold sv_assign. simpl.
    replace (Z.land (shl32 v (shift sv)) (not32 (mask sv))) with 0;
      [by rewrite andb_false_r|].
    symmetry. apply Z.bits_inj'. intros i Hi.
    rewrite Z.land_spec, Hnot, Hval, Z.bits_0 by done.
    destruct (sh <=? i) eqn:E1; [|done]. apply Z.leb_le in E1. simpl.
    destruct (i <? sh + b) eqn:E2; [by rewrite andb_false_r, andb_false_r|].
    apply Z.ltb_ge in E2. rewrite (small_testbit v b) by lia. done.
  - unfold sv_read, sv_assign, sv_index. simpl.
    rewrite list_lookup_insert_eq by done. simpl.
    apply Z.bits_inj'. intros i Hi.
    rewrite Z.shiftr_spec, Z.land_spec, Z.lor_spec, Z.land_spec by done.
    rewrite Hnot, Hval by lia. rewrite Hmask, mask_testbit, Hshift by lia.
    replace (sh <=? i + sh) with true by (symmetry; apply Z.leb_le; lia).
    replace (i + sh - sh) with i by lia. simpl.
    destruct (i + sh <? sh + b) eqn:E.
    + simpl. rewrite andb_false_r, andb_false_r. simpl. by rewrite andb_true_r.
    + apply Z.ltb_ge in E. rewrite andb_false_r. symmetry. apply (small_testbit v b); [done|lia].
Qed.

End StateVar.

(** * More of the class [state_var] *)

Section StateVarOps.

Local Open Scope Z_scope.

(** [operator =( const state_var &sv )]. *)
Definition sv_assign_var (no_sanity_chk : bool) (dst src : state_var) (s : store) : store :=
  sv_assign no_sanity_chk dst (sv_read src s) s.

(** [is_initial()]. *)
Definition is_initial (s : store) : bool := (s_state_nr s =? 1)%nat.

(** [is_zero()]: the loop over the words of the current state, from word
    [ii] on, with [n] words to go. *)
Fixpoint is_zero_from (s : store) (ii n : nat) : bool :=
  match n with
  | O => true
  | S n' => if default 0 (s_data s !! ii) =? 0 then is_zero_from s (S ii) n' else false
  end.

Definition is_zero (s : store) : bool :=
  is_zero_from s (s_state_nr s * s_nr_words s) (s_nr_words s).

Lemma sv_read_bits sv b sh s i :
  sv_layout sv b sh -> 0 <= i ->
  Z.testbit (sv_read sv s) i
  = Z.testbit (default 0 (s_data s !! sv_index sv s)) (i + sh) && (i <? b).
Proof.
  intros (Hb & Hsh & Hle & Hshift & Hmask) Hi.
  rewrite mask_ones in Hmask by done.
  unfold sv_read. rewrite Z.shiftr_spec, Z.land_spec, Hmask, mask_testbit, Hshift by lia.
  replace (sh <=? i + sh) with true by (symmetry; apply Z.leb_le; lia).
  simpl. f_equal. apply eq_iff_eq_true. rewrite !Z.ltb_lt. lia.
Qed.

Lemma sv_read_range sv b sh s :
  sv_layout sv b sh -> 0 <= sv_read sv s < 2 ^ b.
Proof.
  intros Hl. pose proof Hl as (Hb & Hsh & Hle & Hshift & Hmask).
  assert (E : sv_read sv s
              = Z.land (Z.shiftr (default 0 (s_data s !! sv_index sv s)) sh) (Z.ones b)).
  { apply Z.bits_inj'. intros i Hi.
    rewrite (sv_read_bits sv b sh) by done.
    rewrite Z.land_spec, Z.shiftr_spec by done. f_equal.
    destruct (i <? b) eqn:E.
    - apply Z.ltb_lt in E. symmetry. apply Z.ones_spec_low. lia.
    - apply Z.ltb_ge in E. symmetry. apply Z.ones_spec_high. lia. }
  rewrite E, Z.land_ones by done. apply Z.mod_pos_bound. apply Z.pow_pos_nonneg; lia.
Qed.

(** X16.  A variable of [b] bits reads as a value below [2^b], whatever its
    word of the store holds. *)
Theorem sv_read_bound sv b sh s :
  sv_layout sv b sh -> 0 <= sv_read sv s < 2 ^ b.
Proof. apply sv_read_range. Qed.

(** The word of the store that a handle selects, after an assignment to
    another handle. *)
Lemma sv_assign_word chk sv v s sv' :
  (sv_index sv s < length (s_data s))%nat ->
  default 0 (s_data (sv_assign chk sv v s) !! sv_index sv' (sv_assign chk sv v s))
  = if decide (word sv' = word sv)
    then Z.lor (Z.land (default 0 (s_data s !! sv_index sv s)) (not32 (mask sv)))
               (shl32 v (shift sv))
    else default 0 (s_data s !! sv_index sv' s).
Proof.
  intros Hidx. unfold sv_assign, sv_index in *. simpl.
  case_decide as E.
  - rewrite E. by rewrite list_lookup_insert_eq.
  - rewrite list_lookup_insert_ne by lia. done.
Qed.

Lemma sv_assign_other chk sv b sh sv' b' sh' v s :
  sv_layout sv b sh -> sv_layout sv' b' sh' ->
  word sv' <> word sv \/ sh' + b' <= sh \/ sh + b <= sh' ->
  0 <= v < 2 ^ b -> (sv_index sv s < length (s_data s))%nat ->
  sv_read sv' (sv_assign chk sv v s) = sv_read sv' s
  /\ sv_read sv (sv_assign chk sv v s) = v
  /\ s_err (sv_assign chk sv v s) = s_err s.
Proof.
  intros Hl Hl' Hdis Hv Hidx.
  destruct (sv_assign_in_range chk sv b sh v s Hl Hv Hidx) as [He Hr].
  split; [|by split].
  pose proof Hl as (Hb & Hsh & Hle & Hshift & Hmask).
  pose proof Hl' as (Hb' & Hsh' & Hle' & Hshift' & Hmask').
  apply Z.bits_inj'. intros i Hi.
  rewrite !(sv_read_bits sv' b' sh') by done.
  rewrite sv_assign_word by done.
  case_decide as E; [|done].
  destruct Hdis as [Hdis|Hdis]; [done|].
  destruct (i <? b') eqn:Eb; [|by rewrite !andb_false_r].
  apply Z.ltb_lt in Eb. rewrite !andb_true_r.
  assert (Ew : sv_index sv' s = sv_index sv s) by (unfold sv_index; by rewrite E).
  rewrite Ew.
  rewrite mask_ones in Hmask by done.
  rewrite Z.lor_spec, Z.land_spec.
  unfold not32. rewrite u32_testbit, Z.lnot_spec, Hmask, mask_testbit by lia.
  rewrite Hshift, (shl32_small v b) by done. rewrite Z.shiftl_spec by lia.
  replace (i + sh' <? 32) with true by (symmetry; apply Z.ltb_lt; lia).
  simpl.
  destruct Hdis as [Hlow|Hhigh].
  - replace (sh <=? i + sh') with false by (symmetry; apply Z.leb_gt; lia).
    simpl. rewrite andb_true_r.
    rewrite (Z.testbit_neg_r v) by lia. by rewrite orb_false_r.
  - replace (i + sh' <? sh + b) with false by (symmetry; apply Z.ltb_ge; lia).
    rewrite andb_false_r. simpl. rewrite andb_true_r.
    rewrite (small_testbit v b) by lia. by rewrite orb_false_r.
Qed.


(** Copying a variable into one with at least as many bits sets no error,
    and the target reads back as the source did. *)
Theorem sv_assign_var_ok chk dst b sh src b' sh' s :
  sv_layout dst b sh -> sv_layout src b' sh' -> b' <= b ->
  (sv_index dst s < length (s_data s))%nat ->
  sv_read dst (sv_assign_var chk dst src s) = sv_read src s
  /\ s_err (sv_assign_var chk dst src s) = s_err s.
Proof.
  intros Hl Hl' Hbb Hidx. unfold sv_assign_var.
  pose proof (sv_read_range src b' sh' s Hl') as Hr.
  assert (Hv : 0 <= sv_read src s < 2 ^ b).
  { split; [lia|]. eapply Z.lt_le_trans; [apply Hr|].
    apply Z.pow_le_mono_r; [lia|]. destruct Hl' as (? & _). lia. }
  destruct (sv_assign_in_range chk dst b sh _ s Hl Hv Hidx) as [He Hx]. by split.
Qed.

Lemma is_zero_from_spec s ii n :
  is_zero_from s ii n = true
  <-> forall k, (k < n)%nat -> default 0 (s_data s !! (ii + k)%nat) = 0.
Proof.
  revert ii. induction n as [|n IH]; intros ii; simpl.
  { split; [intros _ k Hk; lia|done]. }
  destruct (default 0 (s_data s !! ii) =? 0) eqn:E.
  - apply Z.eqb_eq in E. rewrite IH. split.
    + intros H [|k] Hk; [by rewrite Nat.add_0_r|].
      replace (ii + S k)%nat with (S ii + k)%nat by lia. apply H. lia.
    + intros H k Hk. replace (S ii + k)%nat with (ii + S k)%nat by lia. apply H. lia.
  - apply Z.eqb_neq in E. split; [done|]. intros H. exfalso. apply E.
    specialize (H 0%nat ltac:(lia)). by rewrite Nat.add_0_r in H.
Qed.

(** X18.  [is_zero()] is true exactly when every word of the current state is
    0; every state variable then reads 0. *)
Theorem is_zero_spec s :
  (is_zero s = true
   <-> forall k, (k < s_nr_words s)%nat ->
         default 0 (s_data s !! (s_state_nr s * s_nr_words s + k)%nat) = 0)
  /\ (is_zero s = true ->
      forall sv, (word sv < s_nr_words s)%nat -> sv_read sv s = 0).
Proof.
  split; [apply is_zero_from_spec|].
  intros H sv Hw. unfold is_zero in H. rewrite is_zero_from_spec in H.
  specialize (H (word sv) Hw).
  unfold sv_read, sv_index. rewrite H. by rewrite Z.land_0_l, Z.shiftr_0_l.
Qed.

(** The variable lies before the place where the constructor puts the
    next one. *)
Definition sv_before (sv : state_var) (b : Z) (p : packer) : Prop :=
  (word sv < pk_nr_words p - 1)%nat
  \/ (word sv = (pk_nr_words p - 1)%nat /\ shift sv + b <= pk_tot_bits p).

(** The variable lies at or after that place. *)
Definition sv_after (sv : state_var) (p : packer) : Prop :=
  (pk_nr_words p - 1 < word sv)%nat
  \/ (word sv = (pk_nr_words p - 1)%nat /\ pk_tot_bits p <= shift sv).

Definition pk_ok (p : packer) : Prop :=
  pk_started p = false /\ 0 <= pk_tot_bits p <= 32 /\ (1 <= pk_nr_words p)%nat.

Definition pk_le (p p' : packer) : Prop :=
  (pk_nr_words p < pk_nr_words p')%nat
  \/ (pk_nr_words p = pk_nr_words p' /\ pk_tot_bits p <= pk_tot_bits p').

Lemma state_var_new_spec b p :
  pk_ok p -> 0 <= b <= 31 ->
  exists sv, (state_var_new b p).1 = Some sv
    /\ sv_layout sv b (shift sv) /\ sv_after sv p
    /\ sv_before sv b (state_var_new b p).2
    /\ pk_ok (state_var_new b p).2 /\ pk_le p (state_var_new b p).2
    /\ pk_err (state_var_new b p).2 = pk_err p.
Proof.
  intros (Hs & Ht & Hn) Hb. unfold state_var_new. rewrite Hs.
  replace (32 <? b) with false by (symmetry; apply Z.ltb_ge; lia).
  destruct (32 <? pk_tot_bits p + b) eqn:E.
  - apply Z.ltb_lt in E. eexists. split; [done|]. simpl.
    split; [repeat split; simpl; (lia || done)|].
    split; [left; simpl; lia|].
    split; [right; simpl; lia|].
    split; [repeat split; simpl; (lia || done)|].
    split; [left; simpl; lia|done].
  - apply Z.ltb_ge in E. eexists. split; [done|]. simpl.
    split; [repeat split; simpl; (lia || done)|].
    split; [right; simpl; lia|].
    split; [right; simpl; lia|].
    split; [repeat split; simpl; (lia || done)|].
    split; [right; simpl; lia|by destruct p].
Qed.

Lemma sv_before_le sv b p p' :
  pk_ok p -> pk_le p p' -> sv_before sv b p -> sv_before sv b p'.
Proof. unfold pk_le, sv_before. intros (_ & _ & H0) H1 H2. lia. Qed.

Lemma pk_le_trans p1 p2 p3 : pk_le p1 p2 -> pk_le p2 p3 -> pk_le p1 p3.
Proof. unfold pk_le. intros H1 H2. lia. Qed.

Lemma sv_after_le sv p p' : pk_ok p -> pk_le p p' -> sv_after sv p' -> sv_after sv p.
Proof. unfold pk_le, sv_after. intros (_ & _ & H0) H1 H2. lia. Qed.

Lemma declare_spec bits p :
  pk_ok p -> Forall (fun b => 0 <= b <= 31) bits ->
  pk_ok (declare bits p).2 /\ pk_le p (declare bits p).2
  /\ pk_err (declare bits p).2 = pk_err p
  /\ length (declare bits p).1 = length bits
  /\ (forall i b, bits !! i = Some b ->
        exists sv, (declare bits p).1 !! i = Some (Some sv)
          /\ sv_layout sv b (shift sv) /\ sv_after sv p
          /\ sv_before sv b (declare bits p).2)
  /\ (forall i j bi svi svj, (i < j)%nat -> bits !! i = Some bi ->
        (declare bits p).1 !! i = Some (Some svi) ->
        (declare bits p).1 !! j = Some (Some svj) ->
        (word svi < word svj)%nat
        \/ (word svi = word svj /\ shift svi + bi <= shift svj)).
Proof.
  revert p. induction bits as [|b bits IH]; intros p Hp Hb.
  { simpl. split; [done|]. split; [right; lia|]. split; [done|]. split; [done|].
    split; [intros i b' H; by rewrite lookup_nil in H|].
    intros i j bi svi svj _ H. by rewrite lookup_nil in H. }
  apply Forall_cons in Hb as [Hb Hbs].
  destruct (state_var_new_spec b p Hp Hb) as (sv & E1 & L1 & A1 & B1 & O1 & Le1 & Er1).
  simpl. destruct (state_var_new b p) as [osv p1]. simpl in *. subst osv.
  specialize (IH p1 O1 Hbs).
  destruct (declare bits p1) as [svs p2]. simpl in *.
  destruct IH as (O2 & Le2 & Er2 & Len & Hall & Hpair).
  split; [done|]. split; [by eapply pk_le_trans|]. split; [congruence|].
  split; [by rewrite Len|]. split.
  - intros [|i] b' Hi; simpl in *.
    + injection Hi as <-. exists sv. split; [done|]. split; [done|]. split; [done|].
      by apply (sv_before_le sv b p1).
    + destruct (Hall i b' Hi) as (sv' & H1 & H2 & H3 & H4).
      exists sv'. split; [done|]. split; [done|]. split; [|done].
      by apply (sv_after_le sv' p p1).
  - intros [|i] [|j] bi svi svj Hij Hi Hsi Hsj; simpl in *; try lia.
    + injection Hi as <-. injection Hsi as <-.
      assert (exists bj, bits !! j = Some bj) as [bj Hbj].
      { apply lookup_lt_is_Some. rewrite <- Len. by eapply lookup_lt_Some. }
      destruct (Hall j bj Hbj) as (sv' & H1 & H2 & H3 & H4).
      rewrite Hsj in H1. injection H1 as <-.
      unfold sv_before in B1. unfold sv_after in H3. lia.
    + apply (Hpair i j bi svi svj); [lia|done..].
Qed.

(** X19.  The variables that a model declares before the start, each of at most
    31 bits: no error is set; every variable gets a field of its number of
    bits inside one word; and two variables never share a bit: the one
    declared later is in a later word, or in the same word above the field
    of the earlier one. *)
Theorem declare_fields bits :
  Forall (fun b => 0 <= b <= 31) bits ->
  pk_err (declare bits packer0).2 = None
  /\ (forall i b, bits !! i = Some b ->
        exists sv, (declare bits packer0).1 !! i = Some (Some sv)
          /\ sv_layout sv b (shift sv)
          /\ (word sv < pk_nr_words (declare bits packer0).2)%nat)
  /\ (forall i j bi svi svj, (i < j)%nat -> bits !! i = Some bi ->
        (declare bits packer0).1 !! i = Some (Some svi) ->
        (declare bits packer0).1 !! j = Some (Some svj) ->
        (word svi < word svj)%nat
        \/ (word svi = word svj /\ shift svi + bi <= shift svj)).
Proof.
  intros Hb.
  assert (H0 : pk_ok packer0) by (repeat split; simpl; lia).
  destruct (declare_spec bits packer0 H0 Hb) as (O2 & _ & Er & _ & Hall & Hpair).
  split; [done|]. split; [|done].
  intros i b Hi. destruct (Hall i b Hi) as (sv & H1 & H2 & _ & H4).
  exists sv. split; [done|]. split; [done|].
  destruct O2 as (_ & _ & Hn). unfold sv_before in H4. lia.
Qed.

End StateVarOps.

(** * Stubborn set obligation functions *)

Section Stb.

Local Open Scope Z_scope.

(** The shared variables of the functions [stb]: the place that [stb_tr]
    points to, [stb_called], and the error slot. *)
Record stb_state := Stb {
  stb_tr : Z;               (* *stb_tr *)
  stb_called : bool;
  stb_err : option string   (* err_msg *)
}.

Definition set_stb_tr (v : Z) (s : stb_state) : stb_state :=
  Stb v (stb_called s) (stb_err s).

(** [stb()]. *)
Definition stb0 (s : stb_state) : stb_state :=
  Stb (stb_tr s) true
    (if stb_called s then Some "stb called twice for the same transition"%string
     else stb_err s).

(** [stb( t1 )]. *)
Definition stb1 (t1 : Z) (s : stb_state) : stb_state :=
  let s := stb0 s in
  if stb_tr s =? all_ones then set_stb_tr t1 s
  else set_stb_tr all_ones s.

(** [stb( t1, t2 )]. *)
Definition stb2 (t1 t2 : Z) (s : stb_state) : stb_state :=
  let s := stb0 s in
  if stb_tr s =? all_ones then set_stb_tr t1 s
  else if stb_tr s =? t1 then set_stb_tr t2 s
  else set_stb_tr all_ones s.

(** [stb( t1, t2, t3 )]. *)
Definition stb3 (t1 t2 t3 : Z) (s : stb_state) : stb_state :=
  let s := stb0 s in
  if stb_tr s =? all_ones then set_stb_tr t1 s
  else if stb_tr s =? t1 then set_stb_tr t2 s
  else if stb_tr s =? t2 then set_stb_tr t3 s
  else set_stb_tr all_ones s.

(** [stb( t1, t2, t3, t4 )]. *)
Definition stb4 (t1 t2 t3 t4 : Z) (s : stb_state) : stb_state :=
  let s := stb0 s in
  if stb_tr s =? all_ones then set_stb_tr t1 s
  else if stb_tr s =? t1 then set_stb_tr t2 s
  else if stb_tr s =? t2 then set_stb_tr t3 s
  else if stb_tr s =? t3 then set_stb_tr t4 s
  else set_stb_tr all_ones s.

(** [stb_all()]; [nr_trans] is the global of that name. *)
Definition stb_all (nr_trans : Z) (s : stb_state) : stb_state :=
  let s := stb0 s in
  if stb_tr s =? all_ones then set_stb_tr 0 s
  else
    let s := set_stb_tr (u32 (stb_tr s + 1)) s in
    if stb_tr s =? nr_trans then set_stb_tr all_ones s else s.

(** One visit of the search of [build_state_space] to a transition:
    [stb_called = false], then the call that [next_stubborn] makes. *)
Definition stb_visit (call : stb_state -> stb_state) (s : stb_state) : stb_state :=
  call (Stb (stb_tr s) false (stb_err s)).

(** The entry of [stub_try] after [k] visits, from the end mark. *)
Definition stb_after (call : stb_state -> stb_state) (k : nat) : stb_state :=
  Nat.iter k (stb_visit call) (Stb all_ones false None).

(** X20.  Visit after visit, a call with pairwise different arguments, none of
    them the end mark [~0u], yields its arguments in their order and then
    the end mark; no error is set. *)
Theorem stb_enumerates t1 t2 t3 t4 :
  t1 <> all_ones -> t2 <> all_ones -> t3 <> all_ones -> t4 <> all_ones ->
  t1 <> t2 -> t1 <> t3 -> t1 <> t4 -> t2 <> t3 -> t2 <> t4 -> t3 <> t4 ->
  (stb_tr <$> (stb_after (stb1 t1) <$> [1; 2]%nat)) = [t1; all_ones]
  /\ (stb_tr <$> (stb_after (stb2 t1 t2) <$> [1; 2; 3]%nat)) = [t1; t2; all_ones]
  /\ (stb_tr <$> (stb_after (stb3 t1 t2 t3) <$> [1; 2; 3; 4]%nat)) = [t1; t2; t3; all_ones]
  /\ (stb_tr <$> (stb_after (stb4 t1 t2 t3 t4) <$> [1; 2; 3; 4; 5]%nat))
     = [t1; t2; t3; t4; all_ones]
  /\ stb_err (stb_after (stb4 t1 t2 t3 t4) 5) = None
  /\ stb_tr (stb_after stb0 1) = all_ones.
Proof.
  intros N1 N2 N3 N4 D12 D13 D14 D23 D24 D34.
  assert (F : forall a b : Z, a <> b -> (a =? b) = false) by (intros; by apply Z.eqb_neq).
  unfold stb_after, stb_visit, stb1, stb2, stb3, stb4, stb0.
  repeat (progress (cbn -[Z.eqb all_ones];
    rewrite ?Z.eqb_refl, ?(F t1 all_ones), ?(F t2 all_ones), ?(F t3 all_ones),
      ?(F t4 all_ones), ?(F t2 t1), ?(F t3 t1), ?(F t3 t2), ?(F t4 t1), ?(F t4 t2),
      ?(F t4 t3) by congruence)).
  done.
Qed.

(** Visit after visit, [stb_all] yields the transitions 0, 1, ...,
    [nr_trans - 1] and then the end mark. *)
Lemma stb_all_walk n k :
  0 < n < all_ones -> (k < Z.to_nat n)%nat ->
  stb_after (stb_all n) (S k) = Stb (Z.of_nat k) true None.
Proof.
  intros Hn. induction k as [|k IH]; intros Hk.
  { reflexivity. }
  unfold stb_after in *. rewrite Nat.iter_succ. rewrite IH by lia.
  unfold stb_visit, stb_all, stb0. cbn -[Z.eqb all_ones u32 Z.of_nat].
  unfold all_ones in *.
  replace (Z.of_nat k =? 4294967295) with false by (symmetry; apply Z.eqb_neq; lia).
  cbn -[Z.eqb u32 Z.of_nat].
  assert (E : u32 (Z.of_nat k + 1) = Z.of_nat (S k)).
  { unfold u32. rewrite Z.mod_small by lia. lia. }
  rewrite E.
  replace (Z.of_nat (S k) =? n) with false by (symmetry; apply Z.eqb_neq; lia).
  done.
Qed.

(** X21.  [stb_all()] as the only call of a state with [n] transitions: the
    visits of the iterator give the transitions [0], [1], ..., [n-1] in this
    order, then the end mark [~0u], and no error is set. *)
Theorem stb_all_enumerates n k :
  0 < n < all_ones ->
  ((k < Z.to_nat n)%nat -> stb_tr (stb_after (stb_all n) (S k)) = Z.of_nat k)
  /\ stb_tr (stb_after (stb_all n) (S (Z.to_nat n))) = all_ones
  /\ stb_err (stb_after (stb_all n) (S (Z.to_nat n))) = None.
Proof.
  intros Hn. split; [intros Hk; by rewrite stb_all_walk|].
  assert (E : stb_after (stb_all n) (S (Z.to_nat n)) = Stb all_ones true None).
  { change (stb_after (stb_all n) (S (Z.to_nat n)))
      with (stb_visit (stb_all n) (stb_after (stb_all n) (Z.to_nat n))).
    replace (Z.to_nat n) with (S (Z.to_nat n - 1)) at 1 by lia.
    rewrite stb_all_walk by lia.
    unfold stb_visit, stb_all, stb0. cbn -[Z.eqb all_ones u32 Z.of_nat].
    unfold all_ones in *.
    replace (Z.of_nat (Z.to_nat n - 1) =? 4294967295) with false
      by (symmetry; apply Z.eqb_neq; lia).
    cbn -[Z.eqb u32 Z.of_nat].
    assert (E : u32 (Z.of_nat (Z.to_nat n - 1) + 1) = n).
    { unfold u32. rewrite Z.mod_small by lia. lia. }
    rewrite E, Z.eqb_refl. done. }
  by rewrite E.
Qed.

(** X22.  An argument that is given twice: the walk comes back to it and never
    reaches the end mark. *)
Theorem stb_twice_never_ends t1 t2 k :
  t1 <> all_ones -> t2 <> all_ones -> t1 <> t2 ->
  stb_tr (stb_after (stb2 t1 t1) (S k)) = t1
  /\ stb_tr (stb_after (stb3 t1 t2 t1) (S k)) = (if Nat.even k then t1 else t2).
Proof.
  intros N1 N2 D.
  assert (F : forall a b : Z, a <> b -> (a =? b) = false) by (intros; by apply Z.eqb_neq).
  induction k as [|k [IH1 IH2]].
  { split; reflexivity. }
  unfold stb_after in *. rewrite !(Nat.iter_succ (S k)).
  unfold stb_visit at 1 3. rewrite IH1, IH2.
  unfold stb2, stb3, stb0. cbn -[Z.eqb all_ones Nat.even].
  rewrite (F t1 all_ones), Z.eqb_refl by done.
  split; [done|].
  rewrite Nat.even_succ, <- Nat.negb_even. destruct (Nat.even k); simpl negb; cbv iota.
  - by rewrite (F t1 all_ones), Z.eqb_refl by done.
  - by rewrite (F t2 all_ones), (F t2 t1), Z.eqb_refl by done.
Qed.

End Stb.

Local Close Scope Z_scope.

(** Four variables of 8 bits, as [state_var a, b, c, d;] declares them:
    they share word 0, and [d] is at offset 24. *)
Definition four_bytes : list (option state_var) := (declare [8; 8; 8; 8]%Z packer0).1.

Definition sv_d : state_var := default (StateVar 0 0 0) (default None (four_bytes !! 3%nat)).

(** One state, all zero, in use. *)
Definition one_state : store := Store [0%Z] 1 0 None.

(** C8, at the input where it fails: [d = 256] for the 8-bit variable [d]
    at offset 24, with the sanity checks compiled in.  [256 << 24] is 0 in
    32 bits, so no error message is set; [d] reads back as 0.  The same
    happens for [--d] when [d] is 0. *)
Theorem sv_assign_overflow_unsignalled :
  sv_d = StateVar 0 24 4278190080 /\
  s_err (sv_assign false sv_d 256 one_state) = None /\
  sv_read sv_d (sv_assign false sv_d 256 one_state) = 0%Z /\
  s_err (sv_decr false sv_d one_state) = None /\
  sv_read sv_d (sv_decr false sv_d one_state) = 255%Z.
Proof. repeat split; reflexivity. Qed.

(** For contrast: the same assignment to the variable at offset 0 is
    signalled. *)
Example sv_assign_overflow_signalled :
  let sv_a := default (StateVar 0 0 0) (default None (four_bytes !! 0%nat)) in
  s_err (sv_assign false sv_a 256 one_state)
  = Some "Assigned an out of range value to a variable"%string.
Proof. reflexivity. Qed.

(** * Example models *)

(** A counter [x] in one word: transition 0 increments it while it is below
    3, transition 1 takes it from 3 back to 1.  State 0 is the only may
    progress state, state 2 the only must progress state. *)
Definition x_of (s : state) : Z := default 0%Z (s !! 0).

Definition counter : model := Model
  (λ s, (2, s, None))
  (λ tr s,
     match tr with
     | 0 => if (x_of s <? 3)%Z then (Some [(x_of s + 1)%Z], None) else (None, None)
     | 1 => if (x_of s =? 3)%Z then (Some [1%Z], None) else (None, None)
     | _ => (None, None)
     end)
  (λ _, None) (λ _, None)
  (λ s, ((x_of s =? 0)%Z, None)) (λ s, ((x_of s =? 2)%Z, None))
  (λ s, s).

(** Safety, may progress and must progress are checked; at most
    [stop] states; 16 hash lists. *)
Definition checks (stop : nat) : config :=
  Config true false true true false false false false false false false stop 4.

(** The counter with room for one state only, after its initial state has
    been stored and copied to the scratch slot. *)
Definition full_store : machine :=
  Eval vm_compute in fire_init 1 1 (store_initial_state (checks 1) counter 1 machine0).

Lemma capacity_error_witness :
  ub (try_transition (checks 1) counter 1 1 0 full_store).2
  = [Out_of_range F_e_cnt 2; Out_of_range F_prev 2].
Proof.
  refine (proj2 (proj2 (proj2 (proj2
    (capacity_error_out_of_range (checks 1) counter 1 full_store 1 0 [1%Z] _ _ _ _ _ _)))));
    [reflexivity..|vm_compute; lia].
Defined.

(** The initial state of the counter is stored; the scratch slot holds
    state 1, which is not. *)
Definition one_stored : machine :=
  Eval vm_compute in
    (call_fire counter 1 0 (fire_init 1 1 (store_initial_state (checks 10) counter 1 machine0))).2.

Lemma hash_try_lookup_witness :
  hash_try (checks 10) 1 true one_stored = (0, one_stored)
  ∧ hash_try (checks 10) 1 false (fire_init 1 1 one_stored)
    = (1, set_hash_was_new false (fire_init 1 1 one_stored)).
Proof.
  split.
  - apply (hash_try_lookup (checks 10) 1 one_stored).
    + apply (bool_decide_unpack _). by vm_compute.
    + intros ni Hni. assert (ni = 1) as -> by (vm_compute in Hni; lia). by vm_compute.
  - apply (hash_try_lookup (checks 10) 1 (fire_init 1 1 one_stored)).
    + apply (bool_decide_unpack _). by vm_compute.
    + vm_compute. lia.
    + by vm_compute.
Defined.

(** C6 as it is stated fails here: the lookup of a state that is not stored,
    with [no_ins], returns 0 with [hash_was_new] still [true]. *)
Lemma hash_find_absent_flag_stays :
  hash_ok (checks 10) 1 one_stored
  ∧ (∀ ni, 1 ≤ ni < length (nodes one_stored) → state_at 1 one_stored ni ≠ scratch 1 one_stored)
  ∧ (let '(ni, m') := hash_try (checks 10) 1 true one_stored in (ni, hash_was_new m'))
    = (0, true).
Proof.
  split; [|split].
  - apply (bool_decide_unpack _). by vm_compute.
  - intros ni Hni. assert (ni = 1) as -> by (vm_compute in Hni; lia). by vm_compute.
  - by vm_compute.
Qed.

(** The counter, with room for ten states, after its initial state has been
    stored. *)
Definition counter_start : machine :=
  Eval vm_compute in store_initial_state (checks 10) counter 1 machine0.

Lemma counter_start_ok : hash_ok (checks 10) 1 counter_start.
Proof. apply (bool_decide_unpack _). by vm_compute. Qed.

Lemma bfs_minimal_witness :
  head (history (build_state_space (checks 10) counter 1 counter_start) 4) = Some 1
  ∧ path (checks 10) counter 1 (build_state_space (checks 10) counter 1 counter_start) 1 4
      (depth (build_state_space (checks 10) counter 1 counter_start) 4)
  ∧ (path (checks 10) counter 1 (build_state_space (checks 10) counter 1 counter_start) 1 4 3
     → depth (build_state_space (checks 10) counter 1 counter_start) 4 ≤ 3).
Proof.
  apply (bfs_minimal (checks 10) counter 1 counter_start 4 3).
  - exact counter_start_ok.
  - reflexivity.
  - reflexivity.
  - reflexivity.
  - reflexivity.
  - by vm_compute.
  - by vm_compute.
  - vm_compute. lia.
Defined.

(** The counter with room for one state: the reporter prints one line, and
    another call of it after the run changes nothing. *)
Example first_report_wins_counter :
  error_lines (main (checks 1) counter 1 machine0) ≤ 1
  ∧ report_error 1 0 "Error" (main (checks 1) counter 1 machine0)
    = main (checks 1) counter 1 machine0.
Proof.
  destruct (first_report_wins (checks 1) counter 1 machine0 eq_refl eq_refl)
    as [H1 [H2 _]].
  split; [exact H1|]. apply H2. reflexivity.
Defined.

(** C7, at an input where it fails: the counter with room for one state.
    When the second state is to be stored, [hash_insert] sets the message
    of the capacity error.  [try_transition] does not look at [err_msg]
    before it uses the result: the flag [hash_was_new] is still true from
    the initial state, so it goes on to [err_msg = model::check_state()],
    which puts null in the place of the message.  [build_state_space] ends
    without an error, and the run ends with another message, that of
    [verify_progress] on the one state that was stored. *)
Theorem capacity_message_replaced :
  let m1 := call_symmetry (checks 1) counter 1 (call_fire counter 1 0 full_store).2 in
  err_msg m1 = None
  ∧ err_msg (hash_insert (checks 1) 1 m1).2 = Some "Maximum number of states exceeded"%string
  ∧ err_msg (try_transition (checks 1) counter 1 1 0 full_store).2 = None
  ∧ err_msg (build_state_space (checks 1) counter 1
               (store_initial_state (checks 1) counter 1 machine0)) = None
  ∧ err_msg (main (checks 1) counter 1 machine0) = Some EmptyString
  ∧ Ev_error "Must-type non-progress error" None ∈ cout (main (checks 1) counter 1 machine0).
Proof.
  vm_compute. repeat split. apply list_elem_of_In. simpl. tauto.
Qed.





(** The counter: the edges into node 2 (x = 1) come from node 1 (x = 0) and
    from node 4 (x = 3). *)
Lemma input_edges_filed_witness :
  in_edges (construct_input_edges (checks 10) counter 1
              (build_state_space (checks 10) counter 1 counter_start)) 2 = [1; 4]
  ∧ layout_ok (construct_input_edges (checks 10) counter 1
                 (build_state_space (checks 10) counter 1 counter_start)).
Proof.
  destruct (input_edges_filed (checks 10) counter 1 counter_start 2)
    as (H1 & _ & _ & _ & _ & _ & H2 & _).
  - exact counter_start_ok.
  - reflexivity.
  - reflexivity.
  - reflexivity.
  - reflexivity.
  - reflexivity.
  - reflexivity.
  - reflexivity.
  - by vm_compute.
  - by vm_compute.
  - by vm_compute.
  - by vm_compute.
  - by vm_compute.
  - vm_compute. lia.
  - split; [|exact H2]. etrans; [exact H1|]. by vm_compute.
Defined.

(** The counter, round 0: node 1 (x = 0) is a may progress node itself. *)
Lemma may_progress_round_witness :
  let m1 := build_state_space (checks 10) counter 1 counter_start in
  let m3 := (vp_label (checks 10) counter 1 0
               (construct_input_edges (checks 10) counter 1 m1)).2 in
  ub m3 = ub counter_start
  ∧ (e_cnt (nd m3 1) = 0%Z
     ↔ ∃ nj, connected (checks 10) counter 1 m1 1 nj ∧ 1 ≤ nj < length (nodes m1)
             ∧ may_node (checks 10) counter 1 m1 nj).
Proof.
  apply (may_progress_round (checks 10) counter 1 counter_start 1).
  - exact counter_start_ok.
  - reflexivity.
  - reflexivity.
  - reflexivity.
  - reflexivity.
  - reflexivity.
  - reflexivity.
  - reflexivity.
  - by vm_compute.
  - by vm_compute.
  - by vm_compute.
  - by vm_compute.
  - by vm_compute.
  - by vm_compute.
  - vm_compute. lia.
Defined.

(** The counter, round 1: every execution from node 1 (x = 0) comes to
    node 3 (x = 2), the must progress node. *)
Lemma must_progress_round_witness :
  let m1 := build_state_space (checks 10) counter 1 counter_start in
  let m3 := (vp_label (checks 10) counter 1 1
               (construct_input_edges (checks 10) counter 1 m1)).2 in
  ub m3 = ub counter_start
  ∧ (e_cnt (nd m3 1) = 0%Z ↔ unavoidable (checks 10) counter 1 m1 1)
  ∧ (e_cnt (nd m3 1) = 0%Z
     ↔ ∀ f, f 0 = 1 → run (checks 10) counter 1 m1 f
            → ∃ k, must_node (checks 10) counter 1 m1 (f k)).
Proof.
  apply (must_progress_round (checks 10) counter 1 counter_start 1).
  - exact counter_start_ok.
  - reflexivity.
  - reflexivity.
  - reflexivity.
  - reflexivity.
  - reflexivity.
  - reflexivity.
  - reflexivity.
  - by vm_compute.
  - by vm_compute.
  - by vm_compute.
  - by vm_compute.
  - by vm_compute.
  - by vm_compute.
  - vm_compute. lia.
Defined.

(** * More example models *)

(** A ladder with the rungs 0, 1 and 2: transition 0 climbs one rung while
    the top is not reached; transition 1 is never enabled, and when the
    rung is broken it sets an error message on rung 1.  Rung [bad] fails
    [check_state]; [check_deadlock] returns [dl]. *)
Definition ladder (bad : Z) (dl : option string) (broken : bool) : model := Model
  (λ s, (2, s, None))
  (λ tr s,
     match tr with
     | 0 => if (x_of s <? 2)%Z then (Some [(x_of s + 1)%Z], None) else (None, None)
     | 1 => if broken && (x_of s =? 1)%Z then (None, Some "broken rung"%string)
            else (None, None)
     | _ => (None, None)
     end)
  (λ s, if (x_of s =? bad)%Z then Some "bad rung"%string else None)
  (λ _, dl)
  (λ s, ((x_of s =? 0)%Z, None)) (λ s, ((x_of s =? 2)%Z, None))
  (λ s, s).

(** Safety and deadlocks are checked, no progress; at most [stop] states;
    16 hash lists. *)
Definition dl_checks (stop : nat) : config :=
  Config true true false false false false false false false false false stop 4.

(** The sound ladder after its initial state has been stored. *)
Definition ladder_start : machine :=
  Eval vm_compute in store_initial_state (dl_checks 10) (ladder 9 None false) 1 machine0.








Lemma store_initial_state_ok_witness :
  hash_ok (checks 10) 1 (store_initial_state (checks 10) counter 1 machine0)
  ∧ length (nodes (store_initial_state (checks 10) counter 1 machine0)) = 2
  ∧ state_at 1 (store_initial_state (checks 10) counter 1 machine0) 1 = [0%Z].
Proof.
  destruct (store_initial_state_ok (checks 10) counter 1 2 [0%Z]) as (H1 & H2 & H3 & _).
  - reflexivity.
  - simpl. lia.
  - by vm_compute.
  - reflexivity.
  - split; [exact H1|]. split; [exact H2|exact H3].
Defined.

(** The ladder whose rung 0 is bad: the initial state fails
    [check_state]. *)
Lemma store_initial_state_errors_witness :
  err_msg (store_initial_state (dl_checks 10) (ladder 0 None false) 1 machine0)
  = Some "bad rung"%string
  ∧ cout (store_initial_state (dl_checks 10) (ladder 0 None false) 1 machine0)
    = [Ev_state [0%Z]; Ev_error "Safety error" (Some "bad rung"%string)].
Proof.
  destruct (store_initial_state_errors (dl_checks 10) (ladder 0 None false) 1 2 [0%Z] None)
    as (_ & _ & H).
  - reflexivity.
  - simpl. lia.
  - apply (H "bad rung"%string); [reflexivity|by vm_compute|reflexivity|reflexivity].
Defined.

Lemma store_initial_state_no_room_witness :
  length (nodes (store_initial_state (checks 0) counter 1 machine0)) = 1
  ∧ ub (store_initial_state (checks 0) counter 1 machine0) = [Out_of_range F_prev 1].
Proof.
  destruct (store_initial_state_no_room (checks 0) counter 1 2 [0%Z] None) as (H1 & H2 & _).
  - reflexivity.
  - reflexivity.
  - split; [exact H1|exact H2].
Defined.

(** The state space of the counter: the nodes 1 to 4 hold x = 0 to 3. *)
Definition counter_space : machine :=
  Eval vm_compute in build_state_space (checks 10) counter 1 counter_start.

Lemma print_history_prints_witness :
  cout (print_history 1 (length (nodes counter_space)) 4 counter_space)
  = [Ev_state [0%Z]; Ev_state [1%Z]; Ev_state [2%Z]; Ev_state [3%Z]].
Proof.
  rewrite (print_history_prints 1 counter_space 4).
  - reflexivity.
  - apply prev_decreasing. apply (bool_decide_unpack _). by vm_compute.
  - vm_compute. lia.
Defined.

(** The ladder whose rung 1 is bad, about to fire the transitions of its
    initial state. *)
Definition ladder_ready : machine :=
  Eval vm_compute in fire_init 1 1 ladder_start.

Lemma ladder_ready_ok : ready (dl_checks 10) 1 ladder_ready 1.
Proof.
  split; [apply (bool_decide_unpack _); by vm_compute|].
  split; [reflexivity|]. split; [vm_compute; lia|reflexivity].
Qed.

Lemma safety_error_reported_witness :
  err_msg (try_transition (dl_checks 10) (ladder 1 None false) 1 1 0 ladder_ready).2
  = Some "bad rung"%string
  ∧ cout (try_transition (dl_checks 10) (ladder 1 None false) 1 1 0 ladder_ready).2
    = [Ev_state [0%Z]; Ev_state [1%Z]; Ev_error "Safety error" (Some "bad rung"%string)].
Proof.
  destruct (safety_error_reported (dl_checks 10) (ladder 1 None false) 1
              ladder_ready 1 0 [1%Z] "bad rung"%string) as (H1 & H2 & _).
  - exact ladder_ready_ok.
  - apply prev_decreasing. apply (bool_decide_unpack _). by vm_compute.
  - reflexivity.
  - reflexivity.
  - reflexivity.
  - reflexivity.
  - reflexivity.
  - reflexivity.
  - reflexivity.
  - vm_compute. lia.
  - reflexivity.
  - split; [exact H1|]. etrans; [exact H2|]. reflexivity.
Defined.

(** The state space of the ladder: the nodes 1 to 3 hold the rungs 0 to
    2. *)
Definition ladder_space : machine :=
  Eval vm_compute in
    build_state_space (dl_checks 10) (ladder 9 None false) 1 ladder_start.

(** The ladder with the broken rung, about to fire the transitions of
    rung 1. *)
Lemma firing_error_reported_witness :
  (try_transition (dl_checks 10) (ladder 9 None true) 1 2 1 (fire_init 1 2 ladder_space)).1
  = false
  ∧ cout (try_transition (dl_checks 10) (ladder 9 None true) 1 2 1
            (fire_init 1 2 ladder_space)).2
    = [Ev_state [0%Z]; Ev_state [1%Z];
       Ev_error "Transition firing error" (Some "broken rung"%string)].
Proof.
  destruct (firing_error_reported (dl_checks 10) (ladder 9 None true) 1
              (fire_init 1 2 ladder_space) 2 1 "broken rung"%string) as (H1 & _ & H2 & _).
  - split; [apply (bool_decide_unpack _); by vm_compute|].
    split; [reflexivity|]. split; [vm_compute; lia|reflexivity].
  - apply prev_decreasing. apply (bool_decide_unpack _). by vm_compute.
  - reflexivity.
  - reflexivity.
  - reflexivity.
  - reflexivity.
  - split; [exact H1|]. etrans; [exact H2|]. reflexivity.
Defined.

(** The ladder on which stopping is not allowed: the top rung is an
    illegal deadlock. *)
Lemma deadlock_reported_witness :
  err_msg (bss_loop (dl_checks 10) (ladder 9 (Some "stuck"%string) false) 1 1 3 ladder_space)
  = Some "stuck"%string
  ∧ cout (bss_loop (dl_checks 10) (ladder 9 (Some "stuck"%string) false) 1 1 3 ladder_space)
    = [Ev_state [0%Z]; Ev_state [1%Z]; Ev_state [2%Z];
       Ev_error "Illegal deadlock" (Some "stuck"%string)].
Proof.
  destruct (deadlock_reported (dl_checks 10) (ladder 9 (Some "stuck"%string) false) 1
              0 3 ladder_space "stuck"%string) as (H1 & H2 & _).
  - apply (bool_decide_unpack _). by vm_compute.
  - vm_compute. lia.
  - apply prev_decreasing. apply (bool_decide_unpack _). by vm_compute.
  - reflexivity.
  - reflexivity.
  - reflexivity.
  - reflexivity.
  - intros [|[|tr]] Htr; [reflexivity|reflexivity|vm_compute in Htr; lia].
  - reflexivity.
  - split; [exact H1|]. etrans; [exact H2|]. reflexivity.
Defined.

Lemma hash_value_in_table_witness :
  (0 ≤ hash_value (checks 10) [5%Z] < hash_size (checks 10))%Z.
Proof. apply (hash_value_in_table (checks 10) [5%Z]). simpl. lia. Defined.

Lemma hash_insert_then_find_witness :
  (hash_insert (checks 10) 1 (loaded 1 counter_start [1%Z])).1 = 2
  ∧ hash_try (checks 10) 1 true
      (loaded 1 (hash_insert (checks 10) 1 (loaded 1 counter_start [1%Z])).2 [1%Z])
    = (2, set_hash_was_new false
            (loaded 1 (hash_insert (checks 10) 1 (loaded 1 counter_start [1%Z])).2 [1%Z])).
Proof.
  destruct (hash_insert_then_find (checks 10) 1 counter_start [1%Z] true)
    as (H1 & _ & _ & _ & _ & H2).
  - exact counter_start_ok.
  - reflexivity.
  - reflexivity.
  - vm_compute. lia.
  - split; [exact H1|exact H2].
Defined.

(** * Examples for the state variables and the obligation functions *)

Lemma sv_d_layout : sv_layout sv_d 8 24.
Proof. repeat split; (lia || reflexivity). Qed.

Definition sv_a : state_var :=
  default (StateVar 0 0 0) (default None (four_bytes !! 0%nat)).

Lemma sv_a_layout : sv_layout sv_a 8 0.
Proof. repeat split; (lia || reflexivity). Qed.

(** A state whose four bytes are 1, 2, 3 and 4. *)
Definition bytes_state : store := Store [67305985%Z] 1 0 None.

Lemma sv_read_bound_witness : (0 ≤ sv_read sv_d bytes_state < 2 ^ 8)%Z.
Proof. exact (sv_read_bound sv_d 8 24 bytes_state sv_d_layout). Defined.


Lemma sv_assign_var_ok_witness :
  sv_read sv_a (sv_assign_var false sv_a sv_d bytes_state) = 4%Z.
Proof.
  destruct (sv_assign_var_ok false sv_a 8 0 sv_d 8 24 bytes_state) as (H1 & _).
  - exact sv_a_layout.
  - exact sv_d_layout.
  - lia.
  - vm_compute. lia.
  - exact H1.
Defined.

(** Five bytes: the fifth does not fit the first word. *)
Lemma declare_fields_witness :
  pk_err (declare [8; 8; 8; 8; 8]%Z packer0).2 = None
  ∧ (declare [8; 8; 8; 8; 8]%Z packer0).1 !! 4 = Some (Some (StateVar 1 0 255)).
Proof.
  destruct (declare_fields [8; 8; 8; 8; 8]%Z) as (H1 & _).
  - repeat constructor; lia.
  - split; [exact H1|reflexivity].
Defined.

Lemma stb_enumerates_witness :
  stb_tr <$> (stb_after (stb3 1 2 3) <$> [1; 2; 3; 4]) = [1; 2; 3; all_ones]%Z.
Proof.
  destruct (stb_enumerates 1 2 3 4) as (_ & _ & H & _); try (unfold all_ones; lia).
  exact H.
Defined.

Lemma stb_all_enumerates_witness :
  stb_tr (stb_after (stb_all 3) 2) = 1%Z ∧ stb_tr (stb_after (stb_all 3) 4) = all_ones.
Proof.
  destruct (stb_all_enumerates 3 1) as (H1 & H2 & _); [unfold all_ones; lia|].
  split; [apply H1; simpl; lia|exact H2].
Defined.

Lemma stb_twice_never_ends_witness : stb_tr (stb_after (stb2 1 1) 4) = 1%Z.
Proof.
  destruct (stb_twice_never_ends 1 2 3) as (H & _);
    [unfold all_ones; lia|unfold all_ones; lia|lia|exact H].
Defined.

(** * Examples for the verdicts *)

(** The counter with its input edges. *)
Definition counter_edges : machine :=
  Eval vm_compute in construct_input_edges (checks 10) counter 1 counter_space.

(** Round 0 on the counter: the nodes 2, 3 and 4 cannot reach x = 0. *)
Lemma verify_progress_verdict_witness :
  err_msg (verify_progress (checks 10) counter 1 0 counter_edges) = Some EmptyString
  ∧ reported (verify_progress (checks 10) counter 1 0 counter_edges) = true.
Proof.
  destruct (verify_progress_verdict (checks 10) counter 1 0 counter_edges) as [_ H].
  - reflexivity.
  - lia.
  - by vm_compute.
  - apply (H 2); [vm_compute; lia|by vm_compute].
Defined.

Lemma may_progress_verdict_witness :
  let m1 := build_state_space (checks 10) counter 1 counter_start in
  err_msg (verify_progress (checks 10) counter 1 0
             (construct_input_edges (checks 10) counter 1 m1)) = None
  ↔ ∀ ni, 1 ≤ ni < length (nodes m1) →
          ∃ nj, connected (checks 10) counter 1 m1 ni nj ∧ 1 ≤ nj < length (nodes m1)
                ∧ may_node (checks 10) counter 1 m1 nj.
Proof.
  apply (may_progress_verdict (checks 10) counter 1 counter_start).
  - exact counter_start_ok.
  - reflexivity.
  - reflexivity.
  - reflexivity.
  - reflexivity.
  - reflexivity.
  - reflexivity.
  - reflexivity.
  - by vm_compute.
  - by vm_compute.
  - by vm_compute.
  - by vm_compute.
  - by vm_compute.
  - by vm_compute.
Defined.

Lemma must_progress_verdict_witness :
  let m1 := build_state_space (checks 10) counter 1 counter_start in
  err_msg (verify_progress (checks 10) counter 1 1
             (construct_input_edges (checks 10) counter 1 m1)) = None
  ↔ ∀ ni f, 1 ≤ ni < length (nodes m1) → f 0 = ni → run (checks 10) counter 1 m1 f →
            ∃ k, must_node (checks 10) counter 1 m1 (f k).
Proof.
  apply (must_progress_verdict (checks 10) counter 1 counter_start).
  - exact counter_start_ok.
  - reflexivity.
  - reflexivity.
  - reflexivity.
  - reflexivity.
  - reflexivity.
  - reflexivity.
  - reflexivity.
  - by vm_compute.
  - by vm_compute.
  - by vm_compute.
  - by vm_compute.
  - by vm_compute.
  - by vm_compute.
Defined.




(** Safety is checked and nothing else; at most [stop] states; 16 hash
    lists. *)
Definition safety_only (stop : nat) : config :=
  Config true false false false false false false false false false false stop 4.

Lemma progress_check_required_witness :
  err_msg (main (safety_only 10) counter 1 machine0)
  = Some "Nothing was defined to test that the model makes progress"%string.
Proof.
  destruct (progress_check_required (safety_only 10) counter 1) as (msg & H1 & H2).
  - reflexivity.
  - reflexivity.
  - reflexivity.
  - reflexivity.
  - rewrite H1. f_equal. apply H2.
    + reflexivity.
    + by vm_compute.
    + by vm_compute.
Defined.

(** * The model of wgc.cc: the wolf, the sheep and the cabbage *)

Module Wgc.

Local Open Scope Z_scope.

(** [state_var man(2), wolf(2), sheep(2), cabb(2);]: the handles that the
    four constructor calls make, from the start of the program. *)
Definition vars : list (option state_var) * packer := declare [2; 2; 2; 2] packer0.

Definition man : state_var := StateVar 0 0 3.
Definition wolf : state_var := StateVar 0 2 12.
Definition sheep : state_var := StateVar 0 4 48.
Definition cabb : state_var := StateVar 0 6 192.

(** "This does not test eating but that the solution is ready." *)
Definition check_state (s : store) : option string :=
  if negb (sv_read wolf s =? 2) || negb (sv_read sheep s =? 2) || negb (sv_read cabb s =? 2)
  then None
  else Some "All on the right bank!"%string.

(** "From left bank to boat, from boat to right bank and so on." *)
Definition move (no_sanity_chk : bool) (xx : state_var) (s : store) : store :=
  if sv_read xx s <? 3 then sv_incr no_sanity_chk xx s else sv_assign no_sanity_chk xx 0 s.

Definition nr_transitions : nat := 4.

Definition fire_transition (no_sanity_chk : bool) (tr : nat) (s : store) : bool * store :=
  match tr with
  | 0%nat =>
      (* The man moves alone *)
      if negb (sv_read wolf s =? sv_read sheep s) && negb (sv_read sheep s =? sv_read cabb s)
         && (sv_read wolf s mod 2 =? 0) && (sv_read sheep s mod 2 =? 0)
         && (sv_read cabb s mod 2 =? 0)
      then (true, move no_sanity_chk man s)
      else (false, s)
  | 1%nat =>
      (* The man moves with the wolf *)
      if (sv_read man s =? sv_read wolf s) && negb (sv_read sheep s =? sv_read cabb s)
      then (true, move no_sanity_chk wolf (move no_sanity_chk man s))
      else (false, s)
  | 2%nat =>
      (* The man moves with the sheep *)
      if sv_read man s =? sv_read sheep s
      then (true, move no_sanity_chk sheep (move no_sanity_chk man s))
      else (false, s)
  | 3%nat =>
      (* The man moves with the cabbage *)
      if (sv_read man s =? sv_read cabb s) && negb (sv_read wolf s =? sv_read sheep s)
      then (true, move no_sanity_chk cabb (move no_sanity_chk man s))
      else (false, s)
  | _ => (false, s)
  end.

End Wgc.

(** The states that the model can come to from [s0]. *)
Inductive wgc_reach (chk : bool) (s0 : store) : store -> Prop :=
  | wgc_reach_init : wgc_reach chk s0 s0
  | wgc_reach_fire s tr :
      wgc_reach chk s0 s -> (Wgc.fire_transition chk tr s).1 = true ->
      wgc_reach chk s0 (Wgc.fire_transition chk tr s).2.

(** Somebody is on the boat. *)
Definition on_boat (x : Z) : Prop := (x = 1 \/ x = 3)%Z.

(** The rules of the puzzle, on the places of the four. *)
Definition wgc_rules (m w s c : Z) : Prop :=
  (w = s -> m = s) /\ (s = c -> m = s)
  /\ (on_boat w -> w = m /\ ~ on_boat s /\ ~ on_boat c)
  /\ (on_boat s -> s = m /\ ~ on_boat c)
  /\ (on_boat c -> c = m).

Section WgcFacts.

Local Open Scope Z_scope.

Lemma wgc_vars_eq :
  Wgc.vars = ([Some Wgc.man; Some Wgc.wolf; Some Wgc.sheep; Some Wgc.cabb],
              Packer false 1 8 None).
Proof. reflexivity. Qed.

Lemma wgc_layout_man : sv_layout Wgc.man 2 0.
Proof. repeat split; (lia || done). Qed.
Lemma wgc_layout_wolf : sv_layout Wgc.wolf 2 2.
Proof. repeat split; (lia || done). Qed.
Lemma wgc_layout_sheep : sv_layout Wgc.sheep 2 4.
Proof. repeat split; (lia || done). Qed.
Lemma wgc_layout_cabb : sv_layout Wgc.cabb 2 6.
Proof. repeat split; (lia || done). Qed.

(** The store has the word of the current state. *)
Definition wgc_in_range (s : store) : Prop :=
  (s_state_nr s * s_nr_words s < length (s_data s))%nat.

Lemma wgc_move_in_range chk xx s : wgc_in_range s -> wgc_in_range (Wgc.move chk xx s).
Proof.
  unfold wgc_in_range, Wgc.move, sv_incr, sv_assign.
  destruct (sv_read xx s <? 3); simpl; by rewrite length_insert.
Qed.

(** One step along left bank, boat, right bank, boat. *)
Definition wgc_next (x : Z) : Z := if x <? 3 then x + 1 else 0.

Lemma wgc_move_self chk xx sh s :
  sv_layout xx 2 sh -> word xx = 0%nat -> wgc_in_range s ->
  sv_read xx (Wgc.move chk xx s) = wgc_next (sv_read xx s)
  /\ s_err (Wgc.move chk xx s) = s_err s.
Proof.
  intros Hx Hw Hr.
  pose proof (sv_read_range xx 2 sh s Hx) as Hb.
  assert (Hidx : (sv_index xx s < length (s_data s))%nat).
  { unfold sv_index. rewrite Hw. unfold wgc_in_range in Hr. lia. }
  unfold Wgc.move, sv_incr, wgc_next. destruct (sv_read xx s <? 3) eqn:E.
  - apply Z.ltb_lt in E. rewrite u32_small by lia.
    destruct (sv_assign_in_range chk xx 2 sh (sv_read xx s + 1) s) as [H1 H2];
      try done; lia.
  - destruct (sv_assign_in_range chk xx 2 sh 0 s) as [H1 H2]; try done.
Qed.

Lemma wgc_move_other chk xx sh yy sh' s :
  sv_layout xx 2 sh -> sv_layout yy 2 sh' -> word xx = 0%nat ->
  sh' + 2 <= sh \/ sh + 2 <= sh' -> wgc_in_range s ->
  sv_read yy (Wgc.move chk xx s) = sv_read yy s.
Proof.
  intros Hx Hy Hw Hdis Hr.
  pose proof (sv_read_range xx 2 sh s Hx) as Hb.
  assert (Hidx : (sv_index xx s < length (s_data s))%nat).
  { unfold sv_index. rewrite Hw. unfold wgc_in_range in Hr. lia. }
  unfold Wgc.move, sv_incr. destruct (sv_read xx s <? 3) eqn:E.
  - apply Z.ltb_lt in E. rewrite u32_small by lia.
    apply (sv_assign_other chk xx 2 sh yy 2 sh'); try done; [by right|lia].
  - apply (sv_assign_other chk xx 2 sh yy 2 sh'); try done. by right.
Qed.


Definition wgc_handles : list (state_var * Z) :=
  [(Wgc.man, 0); (Wgc.wolf, 2); (Wgc.sheep, 4); (Wgc.cabb, 6)].

Lemma wgc_handle_layout xx sh : (xx, sh) ∈ wgc_handles -> sv_layout xx 2 sh /\ word xx = 0%nat.
Proof.
  unfold wgc_handles. rewrite !elem_of_cons, elem_of_nil.
  intros [E|[E|[E|[E|[]]]]]; inversion E; subst; (split; [|done]).
  - apply wgc_layout_man.
  - apply wgc_layout_wolf.
  - apply wgc_layout_sheep.
  - apply wgc_layout_cabb.
Qed.

Lemma wgc_handle_shift xx sh : (xx, sh) ∈ wgc_handles -> sh = 0 \/ sh = 2 \/ sh = 4 \/ sh = 6.
Proof.
  unfold wgc_handles. rewrite !elem_of_cons, elem_of_nil.
  intros [E|[E|[E|[E|[]]]]]; inversion E; subst; lia.
Qed.

Lemma wgc_move_read chk xx sh yy sh' s :
  (xx, sh) ∈ wgc_handles -> (yy, sh') ∈ wgc_handles -> wgc_in_range s ->
  sv_read yy (Wgc.move chk xx s)
  = if decide (sh' = sh) then wgc_next (sv_read xx s) else sv_read yy s.
Proof.
  intros Hx Hy Hr.
  destruct (wgc_handle_layout xx sh Hx) as [Lx Wx].
  destruct (wgc_handle_layout yy sh' Hy) as [Ly Wy].
  pose proof (wgc_handle_shift xx sh Hx). pose proof (wgc_handle_shift yy sh' Hy).
  case_decide as E.
  - subst sh'. assert (yy = xx) as ->.
    { revert Hx Hy. unfold wgc_handles. rewrite !elem_of_cons, !elem_of_nil.
      intros [E1|[E1|[E1|[E1|[]]]]] [E2|[E2|[E2|[E2|[]]]]];
        inversion E1; inversion E2; subst; done || lia. }
    by destruct (wgc_move_self chk xx sh s).
  - apply (wgc_move_other chk xx sh yy sh'); try done. lia.
Qed.

Lemma wgc_move_err chk xx sh s :
  (xx, sh) ∈ wgc_handles -> wgc_in_range s -> s_err (Wgc.move chk xx s) = s_err s.
Proof.
  intros Hx Hr. destruct (wgc_handle_layout xx sh Hx) as [Lx Wx].
  by destruct (wgc_move_self chk xx sh s).
Qed.

Definition wgc_ok (s : store) : Prop :=
  wgc_rules (sv_read Wgc.man s) (sv_read Wgc.wolf s) (sv_read Wgc.sheep s)
    (sv_read Wgc.cabb s).

Ltac wgc_in := unfold wgc_handles; rewrite !elem_of_cons; tauto.

Ltac wgc_reads :=
  repeat match goal with
  | |- context [sv_read ?yy (Wgc.move ?chk ?xx ?s)] =>
      first
        [ rewrite (wgc_move_read chk xx 0 yy 0 s) by (wgc_in || by repeat apply wgc_move_in_range)
        | rewrite (wgc_move_read chk xx 0 yy 2 s) by (wgc_in || by repeat apply wgc_move_in_range)
        | rewrite (wgc_move_read chk xx 0 yy 4 s) by (wgc_in || by repeat apply wgc_move_in_range)
        | rewrite (wgc_move_read chk xx 0 yy 6 s) by (wgc_in || by repeat apply wgc_move_in_range)
        | rewrite (wgc_move_read chk xx 2 yy 0 s) by (wgc_in || by repeat apply wgc_move_in_range)
        | rewrite (wgc_move_read chk xx 2 yy 2 s) by (wgc_in || by repeat apply wgc_move_in_range)
        | rewrite (wgc_move_read chk xx 2 yy 4 s) by (wgc_in || by repeat apply wgc_move_in_range)
        | rewrite (wgc_move_read chk xx 2 yy 6 s) by (wgc_in || by repeat apply wgc_move_in_range)
        | rewrite (wgc_move_read chk xx 4 yy 0 s) by (wgc_in || by repeat apply wgc_move_in_range)
        | rewrite (wgc_move_read chk xx 4 yy 2 s) by (wgc_in || by repeat apply wgc_move_in_range)
        | rewrite (wgc_move_read chk xx 4 yy 4 s) by (wgc_in || by repeat apply wgc_move_in_range)
        | rewrite (wgc_move_read chk xx 4 yy 6 s) by (wgc_in || by repeat apply wgc_move_in_range)
        | rewrite (wgc_move_read chk xx 6 yy 0 s) by (wgc_in || by repeat apply wgc_move_in_range)
        | rewrite (wgc_move_read chk xx 6 yy 2 s) by (wgc_in || by repeat apply wgc_move_in_range)
        | rewrite (wgc_move_read chk xx 6 yy 4 s) by (wgc_in || by repeat apply wgc_move_in_range)
        | rewrite (wgc_move_read chk xx 6 yy 6 s) by (wgc_in || by repeat apply wgc_move_in_range) ]
  end.

Lemma wgc_fire_keeps chk tr s :
  wgc_in_range s -> wgc_ok s -> (Wgc.fire_transition chk tr s).1 = true ->
  wgc_in_range (Wgc.fire_transition chk tr s).2
  /\ wgc_ok (Wgc.fire_transition chk tr s).2
  /\ s_err (Wgc.fire_transition chk tr s).2 = s_err s.
Proof.
  intros Hr Hok.
  pose proof (sv_read_range _ _ _ s wgc_layout_man) as Bm.
  pose proof (sv_read_range _ _ _ s wgc_layout_wolf) as Bw.
  pose proof (sv_read_range _ _ _ s wgc_layout_sheep) as Bs.
  pose proof (sv_read_range _ _ _ s wgc_layout_cabb) as Bc.
  unfold wgc_ok in *. unfold Wgc.fire_transition.
  destruct tr as [|[|[|[|tr]]]]; [| | | |done].
  - destruct (_ && _) eqn:E; [|done]. intros _. simpl.
    split; [by apply wgc_move_in_range|].
    split; [|by apply (wgc_move_err chk Wgc.man 0); [wgc_in|]].
    wgc_reads. simpl.
    rewrite !andb_true_iff, !negb_true_iff, !Z.eqb_neq, !Z.eqb_eq in E.
    revert Hok E. unfold wgc_rules, on_boat, wgc_next.
    generalize dependent (sv_read Wgc.man s). generalize dependent (sv_read Wgc.wolf s).
    generalize dependent (sv_read Wgc.sheep s). generalize dependent (sv_read Wgc.cabb s).
    intros c Bc sh Bs w Bw m Bm Hok E.
    assert (Hc : c = 0 \/ c = 2).
    { destruct E as [_ E]. assert (c = 0 \/ c = 1 \/ c = 2 \/ c = 3) as [-> | [-> | [-> | ->]]] by lia;
        try (by left); try (by right); done. }
    assert (Hs : sh = 0 \/ sh = 2).
    { destruct E as [[_ E] _]. assert (sh = 0 \/ sh = 1 \/ sh = 2 \/ sh = 3) as [-> | [-> | [-> | ->]]] by lia;
        try (by left); try (by right); done. }
    assert (Hw : w = 0 \/ w = 2).
    { destruct E as [[[_ E] _] _]. assert (w = 0 \/ w = 1 \/ w = 2 \/ w = 3) as [-> | [-> | [-> | ->]]] by lia;
        try (by left); try (by right); done. }
    destruct E as [[[[E1 E2] _] _] _]. lia.
  - destruct (_ && _) eqn:E; [|done]. intros _. simpl.
    split; [by do 2 apply wgc_move_in_range|].
    split.
    2:{ rewrite (wgc_move_err chk Wgc.wolf 2); [|wgc_in|by apply wgc_move_in_range].
        by apply (wgc_move_err chk Wgc.man 0); [wgc_in|]. }
    wgc_reads. simpl.
    rewrite !andb_true_iff, !negb_true_iff, !Z.eqb_neq, !Z.eqb_eq in E.
    revert Hok E. unfold wgc_rules, on_boat, wgc_next.
    generalize dependent (sv_read Wgc.man s). generalize dependent (sv_read Wgc.wolf s).
    generalize dependent (sv_read Wgc.sheep s). generalize dependent (sv_read Wgc.cabb s).
    intros c Bc sh Bs w Bw m Bm Hok [E1 E2]. subst w.
    destruct (m <? 3) eqn:E3; [apply Z.ltb_lt in E3|apply Z.ltb_ge in E3]; lia.
  - destruct (_ =? _) eqn:E; [|done]. intros _. simpl.
    split; [by do 2 apply wgc_move_in_range|].
    split.
    2:{ rewrite (wgc_move_err chk Wgc.sheep 4); [|wgc_in|by apply wgc_move_in_range].
        by apply (wgc_move_err chk Wgc.man 0); [wgc_in|]. }
    wgc_reads. simpl.
    rewrite Z.eqb_eq in E.
    revert Hok E. unfold wgc_rules, on_boat, wgc_next.
    generalize dependent (sv_read Wgc.man s). generalize dependent (sv_read Wgc.wolf s).
    generalize dependent (sv_read Wgc.sheep s). generalize dependent (sv_read Wgc.cabb s).
    intros c Bc sh Bs w Bw m Bm Hok E. subst sh.
    destruct (m <? 3) eqn:E3; [apply Z.ltb_lt in E3|apply Z.ltb_ge in E3]; lia.
  - destruct (_ && _) eqn:E; [|done]. intros _. simpl.
    split; [by do 2 apply wgc_move_in_range|].
    split.
    2:{ rewrite (wgc_move_err chk Wgc.cabb 6); [|wgc_in|by apply wgc_move_in_range].
        by apply (wgc_move_err chk Wgc.man 0); [wgc_in|]. }
    wgc_reads. simpl.
    rewrite !andb_true_iff, !negb_true_iff, !Z.eqb_neq, !Z.eqb_eq in E.
    revert Hok E. unfold wgc_rules, on_boat, wgc_next.
    generalize dependent (sv_read Wgc.man s). generalize dependent (sv_read Wgc.wolf s).
    generalize dependent (sv_read Wgc.sheep s). generalize dependent (sv_read Wgc.cabb s).
    intros c Bc sh Bs w Bw m Bm Hok [E1 E2]. subst c.
    destruct (m <? 3) eqn:E3; [apply Z.ltb_lt in E3|apply Z.ltb_ge in E3]; lia.
Qed.

(** X27.  The rules of the puzzle hold along every execution of the model that
    starts in a state where they hold, as the initial state where all four
    are on the left bank: the wolf and the sheep are in the same place only
    when the man is there, and so are the sheep and the cabbage; what is on
    the boat is there with the man, and at most one of the three is.  No
    move assigns a value out of the range of a variable: [err_msg] stays as
    it was. *)
Theorem wgc_rules_kept chk s0 s :
  wgc_in_range s0 -> wgc_ok s0 -> wgc_reach chk s0 s ->
  wgc_ok s /\ s_err s = s_err s0.
Proof.
  intros Hr Hok Hreach.
  assert (H : wgc_in_range s /\ wgc_ok s /\ s_err s = s_err s0); [|tauto].
  induction Hreach as [|s tr _ (IH1 & IH2 & IH3) Hf]; [done|].
  destruct (wgc_fire_keeps chk tr s IH1 IH2 Hf) as (H1 & H2 & H3).
  split; [done|]. split; [done|]. by rewrite H3.
Qed.

End WgcFacts.

(** All on the left bank, in a store of one state. *)
Definition wgc_start : store := Store [0%Z] 1 0 None.

Lemma wgc_start_ok : wgc_ok wgc_start.
Proof. unfold wgc_ok, wgc_rules, on_boat. vm_compute. lia. Qed.

(** The man has taken the sheep to the boat. *)
Lemma wgc_rules_kept_witness :
  wgc_ok (Wgc.fire_transition false 2 wgc_start).2
  /\ s_err (Wgc.fire_transition false 2 wgc_start).2 = None.
Proof.
  apply (wgc_rules_kept false wgc_start).
  - vm_compute. lia.
  - exact wgc_start_ok.
  - apply wgc_reach_fire; [apply wgc_reach_init|reflexivity].
Defined.

(** * The model of bank.cc: a cash dispenser and a bank *)

Module Bank.

Local Open Scope Z_scope.

(** [state_var ATM, x, CH1, y, CH2, w, BANK, z, b, cash;]: ten variables
    of the default eight bits, four to a word. *)
Definition vars : list (option state_var) * packer :=
  declare [8; 8; 8; 8; 8; 8; 8; 8; 8; 8] packer0.

Definition ATM : state_var := StateVar 0 0 255.
Definition x : state_var := StateVar 0 8 65280.
Definition CH1 : state_var := StateVar 0 16 16711680.
Definition y : state_var := StateVar 0 24 4278190080.
Definition CH2 : state_var := StateVar 1 0 255.
Definition w : state_var := StateVar 1 8 65280.
Definition BANK : state_var := StateVar 1 16 16711680.
Definition z : state_var := StateVar 1 24 4278190080.
Definition b : state_var := StateVar 2 0 255.
Definition cash : state_var := StateVar 2 8 65280.

(** "original balance of the account" *)
Definition b_original : Z := 200.

Section Model.

Context (no_sanity_chk : bool).

Local Abbreviation assign := (sv_assign no_sanity_chk).

(** *** The channels *)

Definition send_CH1_q (val : Z) (s : store) : bool * store :=
  if negb (sv_read CH1 s =? 0) then (false, s)
  else (true, assign y val (assign CH1 1 s)).

Definition send_CH1_done (val : Z) (s : store) : bool * store :=
  if negb (sv_read CH1 s =? 0) then (false, s)
  else (true, assign y val (assign CH1 2 s)).

(** The receiving functions give the received value through a reference
    parameter: the second component, which is the old [val] when nothing is
    received. *)
Definition rec_CH1_q (val : Z) (s : store) : bool * Z * store :=
  if sv_read CH1 s =? 1
  then (true, sv_read y s, assign CH1 0 (assign y 0 s))
  else (false, val, s).

Definition rec_CH1_done (val : Z) (s : store) : bool * Z * store :=
  if sv_read CH1 s =? 2
  then (true, sv_read y s, assign CH1 0 (assign y 0 s))
  else (false, val, s).

Definition send_CH2_y (val : Z) (s : store) : bool * store :=
  if negb (sv_read CH2 s =? 0) then (false, s)
  else (true, assign w val (assign CH2 1 s)).

Definition send_CH2_n (s : store) : bool * store :=
  if negb (sv_read CH2 s =? 0) then (false, s)
  else (true, assign CH2 2 s).

Definition rec_CH2_y (val : Z) (s : store) : bool * Z * store :=
  if sv_read CH2 s =? 1
  then (true, sv_read w s, assign CH2 0 (assign w 0 s))
  else (false, val, s).

Definition rec_CH2_n (s : store) : bool * store :=
  if sv_read CH2 s =? 2 then (true, assign CH2 0 s) else (false, s).

(** *** Verification functions *)

Definition is_may_progress (s : store) : bool :=
  negb (negb (sv_read ATM s =? 0) || negb (sv_read CH1 s =? 0)
        || negb (sv_read CH2 s =? 0) || negb (sv_read BANK s =? 0)).

Definition check_state (s : store) : option string :=
  if (sv_read ATM s =? 0) && (sv_read BANK s =? 0)
     && (u32 (sv_read b s + sv_read cash s) <? b_original)
  then Some "The client lost"%string
  else None.

(** *** The transitions *)

(** "Sets the original balance and tells the number of transitions." *)
Definition nr_transitions (s : store) : nat * store := (6%nat, assign b b_original s).

(** [switch( ATM )] of [case ATM_1]; [tmp] is the local variable, which is
    read only after a receiving function has set it. *)
Definition fire_ATM_1 (tmp : Z) (s : store) : bool * store :=
  let a := sv_read ATM s in
  if a =? 0 then (true, assign ATM 1 s)
  else if a =? 1 then (true, assign ATM 2 (assign x 20 s))
  else if a =? 2 then
    let '(r, s) := send_CH1_q (sv_read x s) s in
    if r then (true, assign ATM 3 (assign x 0 s)) else (false, s)
  else if a =? 3 then
    let '(r, tmp, s) := rec_CH2_y tmp s in
    if r then (true, assign ATM 4 (assign x tmp s))
    else
      let '(r, s) := rec_CH2_n s in
      if r then (true, assign ATM 6 s) else (false, s)
  else if a =? 4 then (true, assign ATM 5 s)
  else if a =? 5 then
    let s := if u32 (sv_read cash s + sv_read x s) <? 256
             then assign cash (u32 (sv_read cash s + sv_read x s)) s
             else s in
    (true, assign ATM 8 s)
  else if a =? 6 then (true, assign ATM 7 s)
  else if a =? 7 then (true, assign ATM 0 s)
  else if a =? 8 then
    let '(r, s) := send_CH1_done (sv_read x s) s in
    if r then (true, assign ATM 0 (assign x 0 s)) else (false, s)
  else (false, s).

Definition fire_ATM_2 (s : store) : bool * store :=
  let a := sv_read ATM s in
  if a =? 1 then (true, assign ATM 2 (assign x 50 s))
  else if a =? 3 then (true, assign ATM 7 s)
  else (false, s).

Definition fire_BANK_1 (tmp : Z) (s : store) : bool * store :=
  let a := sv_read BANK s in
  if a =? 0 then
    let '(r, tmp, s) := rec_CH1_q tmp s in
    if r then (true, assign BANK 1 (assign z tmp s)) else (false, s)
  else if a =? 1 then
    let '(r, s) := if sv_read b s <? sv_read z s then send_CH2_n s else (false, s) in
    if r then (true, assign BANK 0 (assign z 0 s))
    else
      let '(r, s) := if sv_read z s <=? sv_read b s
                     then send_CH2_y (sv_read z s) s else (false, s) in
      if r then (true, assign BANK 2 s) else (false, s)
  else if a =? 2 then
    let '(r, tmp, s) := rec_CH1_done tmp s in
    if r then (true, assign BANK 3 (assign z tmp s)) else (false, s)
  else if a =? 3 then
    let s := if sv_read z s <? sv_read b s
             then assign b (u32 (sv_read b s - sv_read z s)) s
             else assign b 0 s in
    (true, assign BANK 0 (assign z 0 s))
  else (false, s).

(** "Firing of transition tr. The return value tells whether it was
    enabled."  The transitions are numbered [ATM_1], [ATM_2], [BANK_1],
    [BANK_2], [CH1_loss], [CH2_loss]. *)
Definition fire_transition (tmp : Z) (tr : nat) (s : store) : bool * store :=
  match tr with
  | 0%nat => fire_ATM_1 tmp s
  | 1%nat => fire_ATM_2 s
  | 2%nat => fire_BANK_1 tmp s
  | 3%nat =>
      if sv_read BANK s =? 2 then (true, assign BANK 0 s) else (false, s)
  | 4%nat =>
      if negb (sv_read CH1 s =? 0) then (true, assign y 0 (assign CH1 0 s)) else (false, s)
  | 5%nat =>
      if negb (sv_read CH2 s =? 0) then (true, assign w 0 (assign CH2 0 s)) else (false, s)
  | _ => (false, s)
  end.

End Model.

End Bank.

Section BankFacts.

Local Open Scope Z_scope.

Lemma bank_vars_eq :
  Bank.vars
  = ([Some Bank.ATM; Some Bank.x; Some Bank.CH1; Some Bank.y; Some Bank.CH2;
      Some Bank.w; Some Bank.BANK; Some Bank.z; Some Bank.b; Some Bank.cash],
     Packer false 3 16 None).
Proof. reflexivity. Qed.










Ltac bank_unfold :=
  unfold Bank.fire_transition, Bank.fire_ATM_1, Bank.fire_ATM_2, Bank.fire_BANK_1,
    Bank.send_CH1_q, Bank.send_CH1_done, Bank.rec_CH1_q, Bank.rec_CH1_done,
    Bank.send_CH2_y, Bank.send_CH2_n, Bank.rec_CH2_y, Bank.rec_CH2_n.

Ltac bank_cases :=
  repeat match goal with
  | |- context [if ?c then _ else _] => destruct c eqn:?; cbn [fst snd negb]
  end.

(** X29.  A transition that is not enabled leaves the state as it is: where
    [fire_transition] returns false, nothing has been assigned. *)
Theorem bank_disabled_unchanged chk tmp tr s :
  (Bank.fire_transition chk tmp tr s).1 = false ->
  (Bank.fire_transition chk tmp tr s).2 = s.
Proof.
  bank_unfold. destruct tr as [|[|[|[|[|[|tr]]]]]]; cbv zeta; bank_cases; done.
Qed.

(** X30.  The local variable [tmp] of [fire_transition], which has no initial
    value, is read only after a receiving function has assigned to it: the
    result does not depend on what it holds at the start. *)
Theorem bank_tmp_unused chk tmp tmp' tr s :
  Bank.fire_transition chk tmp tr s = Bank.fire_transition chk tmp' tr s.
Proof.
  bank_unfold. destruct tr as [|[|[|[|[|[|tr]]]]]]; cbv zeta; bank_cases; done.
Qed.


End BankFacts.

(** The store of one state of the bank model, all variables zero. *)
Definition bank_zero : store := Store [0%Z; 0%Z; 0%Z] 3 0 None.


(** [BANK_2] is not enabled when the bank is idle. *)
Lemma bank_disabled_unchanged_witness :
  (Bank.fire_transition false 0 3 bank_zero).2 = bank_zero.
Proof.
  apply (bank_disabled_unchanged false 0 3 bank_zero).
  reflexivity.
Defined.
